(** * BeamCalculator: the analysis engine of [src/BeamCalculator.tsx]

    A shallow embedding of the direct-stiffness pipeline
    ([buildNodes], [assembleSystem], [applyBoundaryConditions],
    [solveLinearSystem], [computeDiagrams] and the [analysis] closure).

    JavaScript's [number] is an interface here: every function of the
    engine is written once, over a type [T] with the operations the source
    applies to numbers.  Two instances are given.  [float] is the binary64
    arithmetic the program runs on; it is used to evaluate the engine bit
    for bit.  [Qc] is exact rational arithmetic; together with the laws of
    [ExactNumber] it is the arithmetic the engineering formulas are meant
    in.  A theorem with no [ExactNumber] assumption holds for both.

    The engine is written twice.  [Section Engine] gives the values the
    source computes, every array a list.  Module [InPlace] keeps the arrays
    of the source as objects of a store and writes them where the source
    does: [push], index assignment, the in-place [sort], the row swap of
    the solver.  The part on the engine and its arrays shows that the two
    agree and that the second leaves the arrays it is given as they were.

    Around the engine, the component is embedded too: the updaters it
    hands to its state ([handleSupportChange], [addSupport], [removeItem]
    and their like) and [scalePoints] with the polylines drawn from it.
    The parts after the first instances give what the results of the
    engine satisfy in exact arithmetic (the solver solves, the reactions
    balance the loads, the deflection vanishes at the supports, the
    results are linear in the loads), what the engine does not look at,
    and what the updaters and the polylines keep. *)

From Stdlib Require Import String.
From Stdlib Require Import List ZArith Bool Lia Ring Field Sorted FinFun.
From Stdlib Require Import Floats.
From Stdlib Require Import QArith Qcanon Qcabs.
Import ListNotations.
Close Scope Qc_scope.
Close Scope Q_scope.
Open Scope nat_scope.

Set Implicit Arguments.

(** ** Numbers *)

Declare Scope num_scope.
Delimit Scope num_scope with num.

Class Number (T : Type) : Type := {
  fromZ : Z -> T;            (* an integer literal, or a loop counter used as a number *)
  eps : T;                   (* the literal 1e-9 *)
  add : T -> T -> T;
  sub : T -> T -> T;
  mul : T -> T -> T;
  div : T -> T -> T;
  neg : T -> T;              (* unary minus *)
  abs : T -> T;              (* Math.abs *)
  ltb : T -> T -> bool;      (* a < b ; a > b is [ltb b a] *)
  leb : T -> T -> bool;      (* a <= b ; a >= b is [leb b a] *)
  eqb : T -> T -> bool;      (* a === b *)
  sameValueZero : T -> T -> bool  (* the equality of Set *)
}.

Notation "a + b" := (add a b) : num_scope.
Notation "a - b" := (sub a b) : num_scope.
Notation "a * b" := (mul a b) : num_scope.
Notation "a / b" := (div a b) : num_scope.
Notation "- a" := (neg a) : num_scope.
Notation "a <? b" := (ltb a b) : num_scope.
Notation "a <=? b" := (leb a b) : num_scope.
Notation "a >? b" := (ltb b a) (only parsing) : num_scope.
Notation "a >=? b" := (leb b a) (only parsing) : num_scope.
Notation "a =? b" := (eqb a b) : num_scope.
Notation "$ z" := (fromZ z%Z) (at level 1, format "$ z") : num_scope.

(** binary64, as the program runs. *)
Definition float_fromZ (z : Z) : float :=
  match z with
  | Z0 => PrimFloat.zero
  | Zpos _ => PrimFloat.of_uint63 (Uint63.of_Z z)
  | Zneg p => PrimFloat.opp (PrimFloat.of_uint63 (Uint63.of_Z (Zpos p)))
  end.

#[export] Instance float_Number : Number float := {|
  fromZ := float_fromZ;
  eps := 0x1.12e0be826d695p-30%float;
  add := PrimFloat.add;
  sub := PrimFloat.sub;
  mul := PrimFloat.mul;
  div := PrimFloat.div;
  neg := PrimFloat.opp;
  abs := PrimFloat.abs;
  ltb := PrimFloat.ltb;
  leb := PrimFloat.leb;
  eqb := PrimFloat.eqb;
  sameValueZero := fun a b =>
    PrimFloat.eqb a b || (PrimFloat.is_nan a && PrimFloat.is_nan b)
|}.

(** Exact rationals. *)
Definition Qc_ltb (a b : Qc) : bool :=
  match Qccompare a b with Lt => true | _ => false end.
Definition Qc_leb (a b : Qc) : bool :=
  match Qccompare a b with Gt => false | _ => true end.
Definition Qc_eqb (a b : Qc) : bool :=
  match Qccompare a b with Eq => true | _ => false end.

#[export] Instance Qc_Number : Number Qc := {|
  fromZ := fun z => Q2Qc (inject_Z z);
  eps := Q2Qc (1 # 1000000000);
  add := Qcplus;
  sub := Qcminus;
  mul := Qcmult;
  div := Qcdiv;
  neg := Qcopp;
  abs := Qcabs;
  ltb := Qc_ltb;
  leb := Qc_leb;
  eqb := Qc_eqb;
  sameValueZero := Qc_eqb
|}.

(** ** Arrays

    A JavaScript array is a list.  [get] reads an index and [upd] writes
    one; every index the engine reads or writes on a path of [analysis]
    lies inside the array (the shape lemmas below), so the value [get]
    returns outside and the no-op of [upd] outside are never observed. *)

Section Arrays.
Context {A : Type}.

Fixpoint upd (l : list A) (i : nat) (v : A) : list A :=
  match l, i with
  | [], _ => []
  | _ :: t, O => v :: t
  | h :: t, S i' => h :: upd t i' v
  end.

(* Array.prototype.findIndex, [None] for -1 *)
Fixpoint findIndex (p : A -> bool) (l : list A) : option nat :=
  match l with
  | [] => None
  | h :: t => if p h then Some O else option_map S (findIndex p t)
  end.

(* row.reduce((sum, value, c) => f sum value c, init) *)
Definition reduce_i {B : Type} (f : B -> A -> nat -> B) (l : list A) (init : B) : B :=
  fold_left (fun acc vc => f acc (fst vc) (snd vc)) (combine l (seq 0 (length l))) init.
End Arrays.

Section Engine.
Context {T : Type} {N : Number T}.
Local Open Scope num_scope.

Definition get (l : list T) (i : nat) : T := nth i l $0.
Definition row (M : list (list T)) (i : nat) : list T := nth i M [].
Definition entry (M : list (list T)) (i j : nat) : T := get (row M i) j.

(** ** Data model *)

Inductive SupportType := free | pinned | fixed.

Record Support := { s_id : nat; s_positionMm : T; s_type : SupportType }.
Record PointLoad := { p_id : nat; p_positionMm : T; p_magnitudeKn : T }.
Record Udl := { u_id : nat; u_startMm : T; u_endMm : T; u_magnitudeKnPerM : T }.
Record Node := { x : T; supportType : SupportType }.
Record ElementData := {
  index : nat; length_ : T; wNPerMm : T; kLocal : list (list T); fFixed : list T }.

Record Reaction := {
  r_positionMm : T; r_verticalKn : T; r_momentKnM : T; r_type : SupportType }.
Record Sample := { sx : T; shear : T; moment : T; deflection : T }.

Inductive Analysis :=
| AnalysisResult (nodes : list Node) (reactionTable : list Reaction) (diagrams : list Sample)
| AnalysisError (error : string).

Definition DEFAULT_SUPPORTS : list Support :=
  [ {| s_id := 1; s_positionMm := $0; s_type := fixed |};
    {| s_id := 2; s_positionMm := $3000; s_type := pinned |} ].

Definition DEFAULT_POINT_LOADS : list PointLoad :=
  [ {| p_id := 1; p_positionMm := $1500; p_magnitudeKn := $8 |} ].

Definition DEFAULT_UDLS : list Udl :=
  [ {| u_id := 1; u_startMm := $500; u_endMm := $2500; u_magnitudeKnPerM := $4 |} ].

(* the initial state of the component: length 3000, modulus 10000, and the
   inertia of the 45 x 190 section, (45 * Math.pow(190, 3)) / 12 *)
Definition DEFAULT_LENGTH : T := $3000.
Definition DEFAULT_MODULUS : T := $10000.
Definition DEFAULT_INERTIA : T := $25721250.

Definition SupportType_eqb (a b : SupportType) : bool :=
  match a, b with
  | free, free | pinned, pinned | fixed, fixed => true
  | _, _ => false
  end.

(** ** Mesh Builder *)

(* Array.from(new Set(values)): first occurrences, in insertion order *)
Definition setAdd (seen : list T) (v : T) : list T :=
  if existsb (sameValueZero v) seen then seen else seen ++ [v].
Definition arrayFromSet (values : list T) : list T := fold_left setAdd values [].

(* Array.prototype.sort with the comparator (a, b) => a - b: the stable
   sort, written as insertion from the right *)
Fixpoint sortInsert (a : T) (l : list T) : list T :=
  match l with
  | [] => [a]
  | b :: t => if (a - b) >? $0 then b :: sortInsert a t else a :: l
  end.
Definition sortAsc (l : list T) : list T := fold_right sortInsert [] l.

Definition uniqueSorted (values : list T) : list T := sortAsc (arrayFromSet values).

Definition basePositions (lengthMm : T) (supports : list Support)
    (pointLoads : list PointLoad) (udls : list Udl) : list T :=
  [$0; lengthMm] ++ map s_positionMm supports ++ map p_positionMm pointLoads
    ++ flat_map (fun udl => [u_startMm udl; u_endMm udl]) udls.

Definition buildNodes (lengthMm : T) (supports : list Support)
    (pointLoads : list PointLoad) (udls : list Udl) : list Node :=
  let positions := uniqueSorted
    (filter (fun pos => (pos >=? $0) && (pos <=? lengthMm))
            (basePositions lengthMm supports pointLoads udls)) in
  map (fun position =>
         let support := find (fun item => s_positionMm item =? position) supports in
         {| x := position;
            supportType := match support with Some s => s_type s | None => free end |})
      positions.

(** ** Element Assembler *)

Definition mapLoadsToNodes (nodes : list Node) (pointLoads : list PointLoad) : list T :=
  fold_left (fun nodeLoads load =>
               match findIndex (fun node => x node =? p_positionMm load) nodes with
               | Some index =>
                   upd nodeLoads index (get nodeLoads index + (- p_magnitudeKn load) * $1000)
               | None => nodeLoads
               end)
            pointLoads (repeat $0 (length nodes)).

Definition getElementUdl (udls : list Udl) (xStart xEnd : T) : T :=
  let mid := (xStart + xEnd) / $2 in
  fold_left (fun sum udl => sum + u_magnitudeKnPerM udl)
    (filter (fun udl => (mid >=? u_startMm udl) && (mid <=? u_endMm udl)) udls) $0.

Definition dofMap (i : nat) : list nat := [i * 2; i * 2 + 1; (i + 1) * 2; (i + 1) * 2 + 1]%nat.

Definition kLocalOf (EI L : T) : list (list T) :=
  let L2 := L * L in
  let L3 := L2 * L in
  let factor := EI / L3 in
  map (fun row => map (fun value => value * factor) row)
    [ [$12; $6 * L; - $12; $6 * L];
      [$6 * L; $4 * L2; - $6 * L; $2 * L2];
      [- $12; - $6 * L; $12; - $6 * L];
      [$6 * L; $2 * L2; - $6 * L; $4 * L2] ].

Definition fFixedOf (w L : T) : list T :=
  let L2 := L * L in
  [ (w * L) / $2; (w * L2) / $12; (w * L) / $2; (- (w * L2)) / $12 ].

Record System := { K : list (list T); F : list T; elementData : list ElementData }.

(* K[dm[r]][dm[c]] += kLocal[r][c], for c = 0..3 *)
Definition scatterRow (dm : list nat) (kl : list (list T)) (r : nat) (K : list (list T))
    : list (list T) :=
  fold_left (fun K c =>
               let i := nth r dm O in
               let j := nth c dm O in
               upd K i (upd (row K i) j (entry K i j + entry kl r c)))
            (seq 0 4) K.

(* the body of the loop over r = 0..3 *)
Definition scatter (dm : list nat) (kl : list (list T)) (ff : list T)
    (KF : list (list T) * list T) : list (list T) * list T :=
  fold_left (fun KF r =>
               let F' := upd (snd KF) (nth r dm O) (get (snd KF) (nth r dm O) + get ff r) in
               (scatterRow dm kl r (fst KF), F'))
            (seq 0 4) KF.

Definition assembleElement (nodes : list Node) (EI : T) (udls : list Udl)
    (st : System) (i : nat) : System :=
  let x1 := x (nth i nodes {| x := $0; supportType := free |}) in
  let x2 := x (nth (i + 1) nodes {| x := $0; supportType := free |}) in
  let L := x2 - x1 in
  if L <=? $0 then st else
  let wKnPerM := getElementUdl udls x1 x2 in
  let w := - wKnPerM in
  let wNPerMm := w in
  let kLocal := kLocalOf EI L in
  let fFixed := fFixedOf wNPerMm L in
  let KF := scatter (dofMap i) kLocal fFixed (K st, F st) in
  {| K := fst KF; F := snd KF;
     elementData := elementData st ++
       [ {| index := i; length_ := L; wNPerMm := wNPerMm;
            kLocal := kLocal; fFixed := fFixed |} ] |}.

Definition assembleSystem (nodes : list Node) (youngsModulusMpa inertiaMm4 : T)
    (pointLoads : list PointLoad) (udls : list Udl) : System :=
  let dof := (length nodes * 2)%nat in
  let K0 := repeat (repeat $0 dof) dof in
  let F0 := repeat $0 dof in
  let nodePointLoads := mapLoadsToNodes nodes pointLoads in
  let F1 := fold_left (fun F index => upd F (index * 2) (get F (index * 2) + get nodePointLoads index))
              (seq 0 (length nodes)) F0 in
  let EI := youngsModulusMpa * inertiaMm4 in
  fold_left (assembleElement nodes EI udls) (seq 0 (length nodes - 1))
    {| K := K0; F := F1; elementData := [] |}.

(** ** Constraint Reducer *)

Record Reduced := {
  constrained : list nat; free_ : list nat; Kff : list (list T); Ff : list T }.

Definition constrainedOf (nodes : list Node) : list nat :=
  flat_map (fun ni =>
              match supportType (fst ni) with
              | pinned => [snd ni * 2]
              | fixed => [snd ni * 2; snd ni * 2 + 1]
              | free => []
              end%nat)
           (combine nodes (seq 0 (length nodes))).

Definition applyBoundaryConditions (nodes : list Node) (K : list (list T)) (F : list T)
    : Reduced :=
  let constrained := constrainedOf nodes in
  let free := filter (fun i => negb (existsb (Nat.eqb i) constrained)) (seq 0 (length K)) in
  {| constrained := constrained;
     free_ := free;
     Kff := map (fun r => map (fun c => entry K r c) free) free;
     Ff := map (fun r => get F r) free |}.

(** ** Linear Solver *)

(* the scan for the row of largest |M[i][k]|, i = k+1 .. n-1 *)
Definition findMaxRow (M : list (list T)) (k n : nat) : nat :=
  fold_left (fun maxRow i =>
               if abs (entry M i k) >? abs (entry M maxRow k) then i else maxRow)
            (seq (S k) (n - S k)) k.

Definition swapRows {A : Type} (d : A) (l : list A) (k m : nat) : list A :=
  upd (upd l k (nth m l d)) m (nth k l d).

(* for (j = k; j < n; j++) M[k][j] /= pivot *)
Definition normalizeRow (r : list T) (pivot : T) (k n : nat) : list T :=
  fold_left (fun r j => upd r j (get r j / pivot)) (seq k (n - k)) r.

(* for (j = k; j < n; j++) M[i][j] -= factor * M[k][j] *)
Definition eliminateRow (ri rk : list T) (factor : T) (k n : nat) : list T :=
  fold_left (fun r j => upd r j (get r j - factor * get rk j)) (seq k (n - k)) ri.

Definition eliminate (k n : nat) (Mx : list (list T) * list T) (i : nat)
    : list (list T) * list T :=
  if Nat.eqb i k then Mx else
  let M := fst Mx in
  let xs := snd Mx in
  let factor := entry M i k in
  (upd M i (eliminateRow (row M i) (row M k) factor k n),
   upd xs i (get xs i - factor * get xs k)).

(* one pass of the loop over k; [None] is the [return null] *)
Definition solveStep (n : nat) (Mx : list (list T) * list T) (k : nat)
    : option (list (list T) * list T) :=
  let M := fst Mx in
  let xs := snd Mx in
  let maxRow := findMaxRow M k n in
  if abs (entry M maxRow k) <? eps then None else
  let M1 := swapRows [] M k maxRow in
  let x1 := swapRows $0 xs k maxRow in
  let pivot := entry M1 k k in
  let M2 := upd M1 k (normalizeRow (row M1 k) pivot k n) in
  let x2 := upd x1 k (get x1 k / pivot) in
  Some (fold_left (eliminate k n) (seq 0 n) (M2, x2)).

Fixpoint solveLoop (n : nat) (ks : list nat) (Mx : list (list T) * list T)
    : option (list (list T) * list T) :=
  match ks with
  | [] => Some Mx
  | k :: ks' =>
      match solveStep n Mx k with
      | None => None
      | Some Mx' => solveLoop n ks' Mx'
      end
  end.

Definition solveLinearSystem (A : list (list T)) (b : list T) : option (list T) :=
  let n := length b in
  option_map snd (solveLoop n (seq 0 n) (A, b)).

(** ** Reaction & Response Evaluator *)

Definition dot (row u : list T) : T :=
  reduce_i (fun sum value c => sum + value * get u c) row $0.

Definition numPoints : nat := 40.

Definition sampleAt (x0 length w v1 t1 v2 t2 : T) (endForces : list T) (i : nat) : Sample :=
  let x := (length * $(Z.of_nat i)) / $(Z.of_nat numPoints) in
  let r := x / length in
  let n1 := $1 - $3 * r * r + $2 * r * r * r in
  let n2 := length * (r - $2 * r * r + r * r * r) in
  let n3 := $3 * r * r - $2 * r * r * r in
  let n4 := length * (- r * r + r * r * r) in
  {| sx := x0 + x;
     shear := get endForces 0 - w * x;
     moment := get endForces 1 + get endForces 0 * x - (w * x * x) / $2;
     deflection := n1 * v1 + n2 * t1 + n3 * v2 + n4 * t2 |}.

Definition endForcesOf (kLocal : list (list T)) (fFixed uLocal : list T) : list T :=
  map (fun rr => dot (fst rr) uLocal - get fFixed (snd rr))
      (combine kLocal (seq 0 (length kLocal))).

Definition elementSamples (nodes : list Node) (displacements : list T)
    (element : ElementData) : list Sample :=
  let uLocal := map (fun dof => get displacements dof) (dofMap (index element)) in
  let endForces := endForcesOf (kLocal element) (fFixed element) uLocal in
  let x0 := x (nth (index element) nodes {| x := $0; supportType := free |}) in
  map (sampleAt x0 (length_ element) (wNPerMm element)
         (get uLocal 0) (get uLocal 1) (get uLocal 2) (get uLocal 3) endForces)
      (seq 0 (S numPoints)).

Definition computeDiagrams (nodes : list Node) (elementData : list ElementData)
    (displacements : list T) : list Sample :=
  flat_map (elementSamples nodes displacements) elementData.

(** ** The engine *)

Definition unstableMessage : string :=
  "The system is unstable. Add or adjust supports so at least one vertical and one rotational restraint exists.".

Definition expandDisplacements (dof : nat) (free : list nat) (freeDisplacements : list T)
    : list T :=
  fold_left (fun d ii => upd d (fst ii) (get freeDisplacements (snd ii)))
            (combine free (seq 0 (length free))) (repeat $0 dof).

Definition reactionsOf (K : list (list T)) (F displacements : list T) : list T :=
  map (fun ri => dot (fst ri) displacements - get F (snd ri))
      (combine K (seq 0 (length K))).

Definition reactionTableOf (nodes : list Node) (reactions : list T) : list Reaction :=
  flat_map (fun ni =>
              let node := fst ni in
              let index := snd ni in
              let vertical := get reactions (index * 2) in
              let moment := get reactions (index * 2 + 1) in
              match supportType node with
              | free => []
              | ty => [ {| r_positionMm := x node;
                           r_verticalKn := vertical / $1000;
                           r_momentKnM := moment / $1000000;
                           r_type := ty |} ]
              end)
           (combine nodes (seq 0 (length nodes))).

Definition analysis (lengthMm youngsModulusMpa inertiaMm4 : T) (supports : list Support)
    (pointLoads : list PointLoad) (udls : list Udl) : Analysis :=
  let nodes := buildNodes lengthMm supports pointLoads udls in
  let sys := assembleSystem nodes youngsModulusMpa inertiaMm4 pointLoads udls in
  let red := applyBoundaryConditions nodes (K sys) (F sys) in
  match solveLinearSystem (Kff red) (Ff red) with
  | None => AnalysisError unstableMessage
  | Some freeDisplacements =>
      let displacements := expandDisplacements (length (K sys)) (free_ red) freeDisplacements in
      let reactions := reactionsOf (K sys) (F sys) displacements in
      AnalysisResult nodes (reactionTableOf nodes reactions)
        (computeDiagrams nodes (elementData sys) displacements)
  end.

End Engine.

(** * The engine on a store

    The same pipeline with its arrays as objects of a store.  An array the
    source writes after creating it (index assignment, [push], the in-place
    [sort], the row swap of the solver), or hands to a function that does,
    is a location; so are the three input arrays.  Arrays that are only read
    once built (the records of [elementData], [free], the reaction table)
    stay values.  A command fails (returns [None]) where the source would
    read or write outside an array or meet an object of another shape. *)

Module StoreOps.
Section WithNumber.
Context {T : Type} {N : Number T}.
Local Open Scope num_scope.

Inductive Obj :=
| ONums (l : list T)                      (* number[] *)
| ORefs (l : list nat)                    (* number[][]: references to its rows *)
| ONats (l : list nat)                    (* DOF indices *)
| OSupports (l : list (@Support T))
| OPointLoads (l : list (@PointLoad T))
| OUdls (l : list (@Udl T))
| ONodes (l : list (@Node T))
| OElements (l : list (@ElementData T))
| OSamples (l : list (@Sample T)).

Definition Store := list Obj.
Definition Cmd (A : Type) : Type := Store -> option (A * Store).

Definition ret {A} (a : A) : Cmd A := fun h => Some (a, h).
Definition bind {A B} (c : Cmd A) (f : A -> Cmd B) : Cmd B :=
  fun h => match c h with Some (a, h') => f a h' | None => None end.
Definition fail {A} : Cmd A := fun _ => None.

Local Notation "x <- c ;; k" := (bind c (fun x => k))
  (at level 61, c at next level, right associativity).
Local Notation "c ;;; k" := (bind c (fun _ => k))
  (at level 61, right associativity).

Definition alloc (o : Obj) : Cmd nat := fun h => Some (length h, h ++ [o]).
Definition load (l : nat) : Cmd Obj :=
  fun h => match nth_error h l with Some o => Some (o, h) | None => None end.
Definition store (l : nat) (o : Obj) : Cmd unit :=
  fun h => if (l <? length h)%nat then Some (tt, upd h l o) else None.

Definition loadNums (l : nat) : Cmd (list T) :=
  o <- load l ;; match o with ONums v => ret v | _ => fail end.
Definition loadRefs (l : nat) : Cmd (list nat) :=
  o <- load l ;; match o with ORefs v => ret v | _ => fail end.
Definition loadNats (l : nat) : Cmd (list nat) :=
  o <- load l ;; match o with ONats v => ret v | _ => fail end.
Definition loadSupports (l : nat) : Cmd (list Support) :=
  o <- load l ;; match o with OSupports v => ret v | _ => fail end.
Definition loadPointLoads (l : nat) : Cmd (list PointLoad) :=
  o <- load l ;; match o with OPointLoads v => ret v | _ => fail end.
Definition loadUdls (l : nat) : Cmd (list Udl) :=
  o <- load l ;; match o with OUdls v => ret v | _ => fail end.
Definition loadNodes (l : nat) : Cmd (list Node) :=
  o <- load l ;; match o with ONodes v => ret v | _ => fail end.
Definition loadElements (l : nat) : Cmd (list ElementData) :=
  o <- load l ;; match o with OElements v => ret v | _ => fail end.
Definition loadSamples (l : nat) : Cmd (list Sample) :=
  o <- load l ;; match o with OSamples v => ret v | _ => fail end.

(* a[i] and a[i] = v, inside the array *)
Definition getNum (l i : nat) : Cmd T :=
  v <- loadNums l ;; match nth_error v i with Some a => ret a | None => fail end.
Definition setNum (l i : nat) (a : T) : Cmd unit :=
  v <- loadNums l ;; if (i <? length v)%nat then store l (ONums (upd v i a)) else fail.
Definition getRef (l i : nat) : Cmd nat :=
  v <- loadRefs l ;; match nth_error v i with Some r => ret r | None => fail end.
Definition setRef (l i r : nat) : Cmd unit :=
  v <- loadRefs l ;; if (i <? length v)%nat then store l (ORefs (upd v i r)) else fail.

(* M[i][j] and M[i][j] = v *)
Definition getEntry (m i j : nat) : Cmd T := r <- getRef m i ;; getNum r j.
Definition setEntry (m i j : nat) (a : T) : Cmd unit := r <- getRef m i ;; setNum r j a.

(* a.push(...) *)
Definition pushNums (l : nat) (a : list T) : Cmd unit :=
  v <- loadNums l ;; store l (ONums (v ++ a)).
Definition pushNats (l : nat) (a : list nat) : Cmd unit :=
  v <- loadNats l ;; store l (ONats (v ++ a)).
Definition pushElement (l : nat) (a : ElementData) : Cmd unit :=
  v <- loadElements l ;; store l (OElements (v ++ [a])).
Definition pushSample (l : nat) (a : Sample) : Cmd unit :=
  v <- loadSamples l ;; store l (OSamples (v ++ [a])).

(* a loop over the given values *)
Fixpoint forEach {A} (l : list A) (body : A -> Cmd unit) : Cmd unit :=
  match l with
  | [] => ret tt
  | a :: t => body a ;;; forEach t body
  end.

(* a.forEach(callback): the length is read once, each element when its turn
   comes; an element no longer there is skipped *)
Definition forEachOf {A} (loadAll : Cmd (list A)) (body : A -> nat -> Cmd unit) : Cmd unit :=
  v0 <- loadAll ;;
  forEach (seq 0 (length v0))
    (fun i => v <- loadAll ;;
              match nth_error v i with Some a => body a i | None => ret tt end).

Fixpoint mapM {A B} (f : A -> Cmd B) (l : list A) : Cmd (list B) :=
  match l with
  | [] => ret []
  | a :: t => b <- f a ;; bs <- mapM f t ;; ret (b :: bs)
  end.

End WithNumber.

Declare Scope cmd_scope.
Delimit Scope cmd_scope with cmd.
Notation "x <- c ;; k" := (bind c (fun x => k))
  (at level 61, c at next level, right associativity) : cmd_scope.
Notation "c ;;; k" := (bind c (fun _ => k))
  (at level 61, right associativity) : cmd_scope.

End StoreOps.

Module InPlace.
Import StoreOps.
Section WithNumber.
Context {T : Type} {N : Number T}.
Local Open Scope num_scope.
Local Open Scope cmd_scope.
Local Abbreviation Cmd := (StoreOps.Cmd (T:=T)).

(** ** Mesh Builder *)

Definition uniqueSorted (values : list T) : Cmd nat :=
  a <- alloc (ONums (arrayFromSet values)) ;;      (* Array.from(new Set(values)) *)
  v <- loadNums a ;;
  store a (ONums (sortAsc v)) ;;;                   (* .sort(...), in place *)
  ret a.

Definition buildNodes (lengthMm : T) (supports pointLoads udls : nat) : Cmd nat :=
  basePositions <- alloc (ONums [$0; lengthMm]) ;;
  forEachOf (loadSupports supports)
    (fun support _ => pushNums basePositions [s_positionMm support]) ;;;
  forEachOf (loadPointLoads pointLoads)
    (fun load _ => pushNums basePositions [p_positionMm load]) ;;;
  forEachOf (loadUdls udls)
    (fun udl _ => pushNums basePositions [u_startMm udl; u_endMm udl]) ;;;
  base <- loadNums basePositions ;;
  positions <- uniqueSorted (filter (fun pos => (pos >=? $0) && (pos <=? lengthMm)) base) ;;
  ps <- loadNums positions ;;
  nodes <- mapM (fun position =>
                   sv <- loadSupports supports ;;
                   let support := find (fun item => s_positionMm item =? position) sv in
                   ret {| x := position;
                          supportType := match support with
                                         | Some s => s_type s | None => free end |})
                ps ;;
  alloc (ONodes nodes).

(** ** Element Assembler *)

Definition mapLoadsToNodes (nodes pointLoads : nat) : Cmd nat :=
  nv <- loadNodes nodes ;;
  nodeLoads <- alloc (ONums (repeat $0 (length nv))) ;;
  forEachOf (loadPointLoads pointLoads)
    (fun load _ =>
       nv <- loadNodes nodes ;;
       match findIndex (fun node => x node =? p_positionMm load) nv with
       | Some index =>
           v <- getNum nodeLoads index ;;
           setNum nodeLoads index (v + (- p_magnitudeKn load) * $1000)
       | None => ret tt
       end) ;;;
  ret nodeLoads.

Definition getElementUdl (udls : nat) (xStart xEnd : T) : Cmd T :=
  uv <- loadUdls udls ;;
  let mid := (xStart + xEnd) / $2 in
  ret (fold_left (fun sum udl => sum + u_magnitudeKnPerM udl)
         (filter (fun udl => (mid >=? u_startMm udl) && (mid <=? u_endMm udl)) uv) $0).

Definition nodeX (nodes i : nat) : Cmd T :=
  nv <- loadNodes nodes ;;
  match nth_error nv i with Some node => ret (x node) | None => fail end.

Definition assembleElement (nodes udls : nat) (EI : T) (K F elementData i : nat) : Cmd unit :=
  x1 <- nodeX nodes i ;;
  x2 <- nodeX nodes (i + 1) ;;
  let L := x2 - x1 in
  if L <=? $0 then ret tt else
  wKnPerM <- getElementUdl udls x1 x2 ;;
  let w := - wKnPerM in
  let wNPerMm := w in
  let kLocal := kLocalOf EI L in
  let fFixed := fFixedOf wNPerMm L in
  let dofMap := dofMap i in
  forEach (seq 0 4)
    (fun r =>
       f <- getNum F (nth r dofMap O) ;;
       setNum F (nth r dofMap O) (f + get fFixed r) ;;;
       forEach (seq 0 4)
         (fun c =>
            k <- getEntry K (nth r dofMap O) (nth c dofMap O) ;;
            setEntry K (nth r dofMap O) (nth c dofMap O) (k + entry kLocal r c))) ;;;
  pushElement elementData
    {| index := i; length_ := L; wNPerMm := wNPerMm; kLocal := kLocal; fFixed := fFixed |}.

Definition assembleSystem (nodes : nat) (youngsModulusMpa inertiaMm4 : T)
    (pointLoads udls : nat) : Cmd (nat * nat * nat) :=
  nv <- loadNodes nodes ;;
  let dof := (length nv * 2)%nat in
  rows <- mapM (fun _ : nat => alloc (ONums (repeat $0 dof))) (seq 0 dof) ;;
  K <- alloc (ORefs rows) ;;
  F <- alloc (ONums (repeat $0 dof)) ;;
  nodePointLoads <- mapLoadsToNodes nodes pointLoads ;;
  forEachOf (loadNodes nodes)
    (fun _ index =>
       f <- getNum F (index * 2) ;;
       p <- getNum nodePointLoads index ;;
       setNum F (index * 2) (f + p)) ;;;
  let EI := youngsModulusMpa * inertiaMm4 in
  elementData <- alloc (OElements []) ;;
  nv' <- loadNodes nodes ;;
  forEach (seq 0 (length nv' - 1)) (assembleElement nodes udls EI K F elementData) ;;;
  ret (K, F, elementData).

(** ** Constraint Reducer *)

(* the matrix at [m], row by row *)
Definition loadMatrix (m : nat) : Cmd (list (list T)) :=
  rows <- loadRefs m ;; mapM loadNums rows.

Definition applyBoundaryConditions (nodes K F : nat) : Cmd (nat * list nat * nat * nat) :=
  constrained <- alloc (ONats []) ;;
  forEachOf (loadNodes nodes)
    (fun node index =>
       (match supportType node with
        | pinned => pushNats constrained [index * 2]
        | _ => ret tt
        end) ;;;
       (match supportType node with
        | fixed => pushNats constrained [index * 2; index * 2 + 1]
        | _ => ret tt
        end))%nat ;;;
  rows <- loadRefs K ;;
  cv <- loadNats constrained ;;
  let free := filter (fun i => negb (existsb (Nat.eqb i) cv)) (seq 0 (length rows)) in
  kffRows <- mapM (fun r => cs <- mapM (fun c => getEntry K r c) free ;; alloc (ONums cs)) free ;;
  Kff <- alloc (ORefs kffRows) ;;
  ff <- mapM (fun r => getNum F r) free ;;
  Ff <- alloc (ONums ff) ;;
  ret (constrained, free, Kff, Ff).

(** ** Linear Solver *)

Fixpoint findMaxRow (M k : nat) (rows : list nat) (maxRow : nat) : Cmd nat :=
  match rows with
  | [] => ret maxRow
  | i :: rest =>
      a <- getEntry M i k ;;
      b <- getEntry M maxRow k ;;
      findMaxRow M k rest (if abs a >? abs b then i else maxRow)
  end.

Definition eliminate (M xs k n i : nat) : Cmd unit :=
  if Nat.eqb i k then ret tt else
  factor <- getEntry M i k ;;
  forEach (seq k (n - k))
    (fun j =>
       a <- getEntry M i j ;;
       b <- getEntry M k j ;;
       setEntry M i j (a - factor * b)) ;;;
  xi <- getNum xs i ;;
  xk <- getNum xs k ;;
  setNum xs i (xi - factor * xk).

(* one pass of the loop over k; [false] is the [return null] *)
Definition solveStep (M xs n k : nat) : Cmd bool :=
  maxRow <- findMaxRow M k (seq (S k) (n - S k)) k ;;
  p <- getEntry M maxRow k ;;
  if abs p <? eps then ret false else
  rm <- getRef M maxRow ;;
  rk <- getRef M k ;;
  setRef M k rm ;;;
  setRef M maxRow rk ;;;
  xm <- getNum xs maxRow ;;
  xk <- getNum xs k ;;
  setNum xs k xm ;;;
  setNum xs maxRow xk ;;;
  pivot <- getEntry M k k ;;
  forEach (seq k (n - k))
    (fun j => a <- getEntry M k j ;; setEntry M k j (a / pivot)) ;;;
  xk' <- getNum xs k ;;
  setNum xs k (xk' / pivot) ;;;
  forEach (seq 0 n) (eliminate M xs k n) ;;;
  ret true.

Fixpoint solveLoop (M xs n : nat) (ks : list nat) : Cmd bool :=
  match ks with
  | [] => ret true
  | k :: ks' =>
      ok <- solveStep M xs n k ;;
      if ok then solveLoop M xs n ks' else ret false
  end.

Definition solveLinearSystem (A b : nat) : Cmd (option nat) :=
  bv <- loadNums b ;;
  let n := length bv in
  arows <- loadRefs A ;;
  mrows <- mapM (fun row => rv <- loadNums row ;; alloc (ONums rv)) arows ;;
  M <- alloc (ORefs mrows) ;;                  (* A.map((row) => row.slice()) *)
  xs <- alloc (ONums bv) ;;                    (* b.slice() *)
  ok <- solveLoop M xs n (seq 0 n) ;;
  if ok then ret (Some xs) else ret None.

(** ** Reaction & Response Evaluator *)

Definition computeDiagrams (nodes elementData displacements : nat) : Cmd nat :=
  samples <- alloc (OSamples []) ;;
  forEachOf (loadElements elementData)
    (fun element _ =>
       uLocal <- mapM (fun dof => getNum displacements dof) (dofMap (index element)) ;;
       let endForces := endForcesOf (kLocal element) (fFixed element) uLocal in
       forEach (seq 0 (S numPoints))
         (fun i =>
            x0 <- nodeX nodes (index element) ;;
            pushSample samples
              (sampleAt x0 (length_ element) (wNPerMm element)
                 (get uLocal 0) (get uLocal 1) (get uLocal 2) (get uLocal 3) endForces i))) ;;;
  ret samples.

(** ** The engine *)

Definition analysis (lengthMm youngsModulusMpa inertiaMm4 : T)
    (supports pointLoads udls : nat) : Cmd (@Analysis T) :=
  nodes <- buildNodes lengthMm supports pointLoads udls ;;
  sys <- assembleSystem nodes youngsModulusMpa inertiaMm4 pointLoads udls ;;
  let K := fst (fst sys) in
  let F := snd (fst sys) in
  let elementData := snd sys in
  red <- applyBoundaryConditions nodes K F ;;
  let free := snd (fst (fst red)) in
  let Kff := snd (fst red) in
  let Ff := snd red in
  freeDisplacements <- solveLinearSystem Kff Ff ;;
  match freeDisplacements with
  | None => ret (AnalysisError unstableMessage)
  | Some fd =>
      rows <- loadRefs K ;;
      displacements <- alloc (ONums (repeat $0 (length rows))) ;;
      forEach (combine free (seq 0 (length free)))
        (fun ii => v <- getNum fd (snd ii) ;; setNum displacements (fst ii) v) ;;;
      Kv <- loadMatrix K ;;
      Fv <- loadNums F ;;
      dv <- loadNums displacements ;;
      let reactions := reactionsOf Kv Fv dv in
      nv <- loadNodes nodes ;;
      let reactionTable := reactionTableOf nv reactions in
      diagrams <- computeDiagrams nodes elementData displacements ;;
      sv <- loadSamples diagrams ;;
      ret (AnalysisResult nv reactionTable sv)
  end.

End WithNumber.
End InPlace.

(** ** Exact arithmetic

    The laws of an ordered field, on the operations of [Number].  They
    hold for [Qc]; binary64 breaks them by rounding and by NaN. *)

Section Laws.
Local Open Scope num_scope.

Class ExactNumber (T : Type) {N : Number T} : Prop := {
  en_ring : ring_theory $0 $1 add mul sub neg (@eq T);
  en_div_def : forall a b : T, a / b = a * ($1 / b);
  en_inv : forall b : T, b <> $0 -> ($1 / b) * b = $1;
  en_fromZ_add : forall a b : Z, fromZ (a + b) = $a + $b;
  en_fromZ_mul : forall a b : Z, fromZ (a * b) = $a * $b;
  en_lt_irrefl : forall a : T, (a <? a) = false;
  en_lt_trans : forall a b c : T, (a <? b) = true -> (b <? c) = true -> (a <? c) = true;
  en_lt_total : forall a b : T, (a <? b) = true \/ a = b \/ (b <? a) = true;
  en_lt_add : forall a b c : T, (a <? b) = true -> (a + c <? b + c) = true;
  en_lt_mul : forall a b : T, ($0 <? a) = true -> ($0 <? b) = true -> ($0 <? a * b) = true;
  en_lt_0_1 : ($0 <? $1) = true;
  en_leb : forall a b : T, (a <=? b) = negb (b <? a);
  en_eqb : forall a b : T, (a =? b) = true <-> a = b;
  en_sameValueZero : forall a b : T, sameValueZero a b = (a =? b);
  en_abs : forall a : T, abs a = if a <? $0 then - a else a;
  en_eps : ($0 <? eps) = true
}.

End Laws.

Definition num_lt {T} {N : Number T} (a b : T) : Prop := ltb a b = true.
Definition num_le {T} {N : Number T} (a b : T) : Prop := leb a b = true.

Arguments ExactNumber T {N}.

(** * Vocabulary of the statements

    What the theorems below speak of: the shapes of the arrays, the records
    and sums the source builds in its loops, written out, and the relation
    between the arrays of the store and the values they hold. *)

Section Vocabulary.
Context {T : Type} {N : Number T}.
Local Open Scope num_scope.

(** ** Matrices *)

Definition square (K : list (list T)) : Prop :=
  Forall (fun r => length r = length K) K.

Definition shaped (rows cols : nat) (K : list (list T)) : Prop :=
  length K = rows /\ forall i, (i < rows)%nat -> length (row K i) = cols.

(* K[i][j] += v *)
Definition addAt (K : list (list T)) (i j : nat) (v : T) : list (list T) :=
  upd K i (upd (row K i) j (entry K i j + v)).

(** ** Linear Solver *)

(** The largest absolute value of column [k] among the rows [k..n-1] of
    [M] is below the threshold. *)
Definition pivotColumnBelow (M : list (list T)) (k n : nat) : Prop :=
  exists m, (k <= m < n)%nat /\
    (forall i, (k <= i < n)%nat -> (abs (entry M m k) <? abs (entry M i k)) = false) /\
    (abs (entry M m k) <? eps) = true.

(* where row [i] of the swapped array comes from *)
Definition swapIdx (k m i : nat) : nat :=
  if Nat.eqb i m then k else if Nat.eqb i k then m else i.

(** ** Element Assembler *)

(* the place of global DOF [a] among the four DOFs of element [i] *)
Definition localIndex (i a : nat) : option nat :=
  if (a <? i * 2)%nat then None
  else if (a - i * 2 <? 4)%nat then Some (a - i * 2)%nat else None.

Definition opsK (i : nat) (kl : list (list T)) : list (nat * nat * T) :=
  flat_map (fun r => map (fun c => (nth r (dofMap i) O, nth c (dofMap i) O, entry kl r c))
                         (seq 0 4)) (seq 0 4).

Definition opsF (i : nat) (ff : list T) : list (nat * T) :=
  map (fun r => (nth r (dofMap i) O, get ff r)) (seq 0 4).

Definition nodeAt (nodes : list (@Node T)) (i : nat) : Node :=
  nth i nodes {| x := $0; supportType := free |}.

Definition elementSpan (nodes : list (@Node T)) (i : nat) : T :=
  x (nodeAt nodes (i + 1)) - x (nodeAt nodes i).

(* the record the loop builds for the node pair (i, i+1) *)
Definition elementOf (nodes : list (@Node T)) (EI : T) (udls : list Udl) (i : nat)
    : ElementData :=
  let L := elementSpan nodes i in
  let w := - getElementUdl udls (x (nodeAt nodes i)) (x (nodeAt nodes (i + 1))) in
  {| index := i; length_ := L; wNPerMm := w;
     kLocal := kLocalOf EI L; fFixed := fFixedOf w L |}.

Definition elementsOf (nodes : list (@Node T)) (EI : T) (udls : list Udl) (idx : list nat)
    : list ElementData :=
  flat_map (fun i => if elementSpan nodes i <=? $0 then []
                     else [elementOf nodes EI udls i]) idx.

(* what one element adds to K[a][b] and to F[a] *)
Definition addK (a b : nat) (acc : T) (e : ElementData) : T :=
  match localIndex (index e) a, localIndex (index e) b with
  | Some r, Some c => acc + entry (kLocal e) r c
  | _, _ => acc
  end.

Definition addF (a : nat) (acc : T) (e : ElementData) : T :=
  match localIndex (index e) a with
  | Some r => acc + get (fFixed e) r
  | None => acc
  end.

(* the point loads that findIndex maps to node [i], and their nodal load *)
Definition loadsAt (nodes : list (@Node T)) (pointLoads : list PointLoad) (i : nat)
    : list PointLoad :=
  filter (fun load =>
            match findIndex (fun node => x node =? p_positionMm load) nodes with
            | Some j => Nat.eqb j i
            | None => false
            end) pointLoads.

Definition pointLoadAt (nodes : list (@Node T)) (pointLoads : list PointLoad) (i : nat) : T :=
  fold_left (fun sum load => sum + (- p_magnitudeKn load) * $1000)
            (loadsAt nodes pointLoads i) $0.

(** ** Reactions and diagrams *)

(* the two sides of vertical equilibrium, in kN: the reactions listed in
   the table, and the point loads plus intensity times covered length (in
   metres) of every UDL *)
Definition sumVerticalKn (reactionTable : list (@Reaction T)) : T :=
  fold_left (fun sum r => sum + r_verticalKn r) reactionTable $0.

Definition appliedLoadKn (pointLoads : list (@PointLoad T)) (udls : list (@Udl T)) : T :=
  fold_left (fun sum load => sum + p_magnitudeKn load) pointLoads $0 +
  fold_left (fun sum udl =>
               sum + u_magnitudeKnPerM udl * ((u_endMm udl - u_startMm udl) / $1000))
            udls $0.

(* sample [i] of an element, as the formulas read: end forces from
   kLocal * uLocal - fFixed, local coordinate L * i / 40, shear, moment and
   the cubic Hermite deflection *)
Definition sampleOf (nodes : list (@Node T)) (u : list T) (e : ElementData) (i : nat)
    : Sample :=
  let L := length_ e in
  let w := wNPerMm e in
  let v1 := get u (index e * 2) in
  let t1 := get u (index e * 2 + 1) in
  let v2 := get u ((index e + 1) * 2) in
  let t2 := get u ((index e + 1) * 2 + 1) in
  let endForce r :=
    $0 + entry (kLocal e) r 0 * v1 + entry (kLocal e) r 1 * t1
       + entry (kLocal e) r 2 * v2 + entry (kLocal e) r 3 * t2 - get (fFixed e) r in
  let xl := L * $(Z.of_nat i) / $40 in
  let r := xl / L in
  {| sx := x (nodeAt nodes (index e)) + xl;
     shear := endForce 0%nat - w * xl;
     moment := endForce 1%nat + endForce 0%nat * xl - w * xl * xl / $2;
     deflection :=
       ($1 - $3 * r * r + $2 * r * r * r) * v1 + L * (r - $2 * r * r + r * r * r) * t1
       + ($3 * r * r - $2 * r * r * r) * v2 + L * (- r * r + r * r * r) * t2 |}.

(* the global coordinates of the samples of the element that starts at [c]
   and has length [L] *)
Definition sampleXs (c L : T) (s m : nat) : list T :=
  map (fun j => c + L * $(Z.of_nat j) / $40) (seq s m).

Definition diagramsOf (a : @Analysis T) : list Sample :=
  match a with AnalysisResult _ _ d => d | AnalysisError _ => [] end.

Definition nodesOf (a : @Analysis T) : list Node :=
  match a with AnalysisResult n _ _ => n | AnalysisError _ => [] end.

Definition reactionTableOfResult (a : @Analysis T) : list Reaction :=
  match a with AnalysisResult _ r _ => r | AnalysisError _ => [] end.

End Vocabulary.

(** ** Beams *)

Section Beams.
Local Open Scope num_scope.




Definition twoAtZero : list (@Support float) :=
  [ {| s_id := 1; s_positionMm := 0%float; s_type := pinned |};
    {| s_id := 2; s_positionMm := 0%float; s_type := fixed |} ].

Local Open Scope float_scope.

(* the default beam with its fixed support and its point load removed *)
Definition onePinned : list (@Support float) :=
  [ {| s_id := 2; s_positionMm := 3000; s_type := pinned |} ].

(* a steel beam (E = 200000 MPa) of the default section, with no support *)
Definition fourLoads : list (@PointLoad float) :=
  [ {| p_id := 1; p_positionMm := 600; p_magnitudeKn := 8 |};
    {| p_id := 2; p_positionMm := 1200; p_magnitudeKn := 8 |};
    {| p_id := 3; p_positionMm := 1800; p_magnitudeKn := 8 |};
    {| p_id := 4; p_positionMm := 2400; p_magnitudeKn := 8 |} ].

End Beams.

(** ** Objects of the store *)

Section StoreVocabulary.
Context {T : Type} {N : Number T}.
Import StoreOps.
Local Abbreviation Store := (StoreOps.Store (T:=T)).
Local Abbreviation Cmd := (StoreOps.Cmd (T:=T)).

(* [h'] is [h] with new objects after it and changes above [n] only *)
Definition keeps (n : nat) (h h' : Store) : Prop :=
  length h <= length h' /\ forall l, l < n -> nth_error h' l = nth_error h l.

(* [c] runs from [h] to a result and a store that satisfy [Q], leaving the
   objects below [n] as they were *)
Definition runs {A} (n : nat) (c : Cmd A) (h : Store) (Q : A -> Store -> Prop) : Prop :=
  exists a h', c h = Some (a, h') /\ keeps n h h' /\ Q a h'.

(* the matrix [M] sits at [m]: an array of the row references [refs] *)
Definition matAt (h : Store) (m : nat) (refs : list nat) (M : list (list T)) : Prop :=
  nth_error h m = Some (ORefs refs) /\
  length refs = length M /\
  forall i, (i < length M)%nat -> nth_error h (nth i refs O) = Some (ONums (row M i)).

(* the rows are separate objects of the working area, all written through [m] *)
Definition ownsRows (n m : nat) (refs : list nat) : Prop :=
  NoDup refs /\ Forall (fun r => (n <= r)%nat /\ r <> m) refs.

(* the copies the solver works on, in the working area above [n0]: [M] at
   [Ml] behind the references [refs], and [xs] at [xl], both of order [nn] *)
Definition solverInv (n0 Ml xl nn : nat) (refs : list nat) (M : list (list T)) (xs : list T)
    (h : Store) : Prop :=
  matAt h Ml refs M /\ ownsRows n0 Ml refs /\ ~ In xl refs /\
  nth_error h xl = Some (ONums xs) /\
  (n0 <= Ml)%nat /\ (n0 <= xl)%nat /\ Ml <> xl /\
  length M = nn /\ (forall i, (i < nn)%nat -> length (row M i) = nn) /\ length xs = nn.

(* the positions gathered so far are at [bp] *)
Definition gathered (bp : nat) (s : list T) (h : Store) : Prop :=
  nth_error h bp = Some (ONums s).

(* the system under assembly for the nodes [nv] and the UDLs [uv]: [K] at
   [Kl] behind [refs], [F] at [Fl] and [elementData] at [el] *)
Definition asmInv (nodes udls Kl Fl el : nat) (nv : list (@Node T)) (uv : list (@Udl T))
    (refs : list nat) (Km : list (list T)) (Fv : list T) (ev : list (@ElementData T))
    (h : Store) : Prop :=
  nth_error h nodes = Some (ONodes nv) /\
  nth_error h udls = Some (OUdls uv) /\
  matAt h Kl refs Km /\
  nth_error h Fl = Some (ONums Fv) /\
  nth_error h el = Some (OElements ev) /\
  length Km = (length nv * 2)%nat /\
  (forall i, (i < length nv * 2)%nat -> length (row Km i) = (length nv * 2)%nat) /\
  length Fv = (length nv * 2)%nat.

Definition asmInvOf (nodes udls Kl Fl el : nat) (nv : list (@Node T)) (uv : list (@Udl T))
    (refs : list nat) (st : @System T) (h : Store) : Prop :=
  asmInv nodes udls Kl Fl el nv uv refs (K st) (F st) (elementData st) h.

End StoreVocabulary.

(** * The component around the engine

    The updaters that the component hands to the setters of its state, and
    the scaling of the diagrams to the polylines it draws. *)

(** ** The component's state *)

Section Editing.
Context {T : Type} {N : Number T}.
Local Open Scope num_scope.

(* a field of a record together with its new value: the pair
   [(field, value)] of the change handlers, where the value has the type
   of the field *)
Inductive SupportField :=
| SupportId (v : nat) | SupportPosition (v : T) | SupportKind (v : SupportType).
Inductive PointLoadField :=
| PointLoadId (v : nat) | PointLoadPosition (v : T) | PointLoadMagnitude (v : T).
Inductive UdlField :=
| UdlId (v : nat) | UdlStart (v : T) | UdlEnd (v : T) | UdlMagnitude (v : T).

(* { ...support, [field]: value } *)
Definition setSupportField (support : @Support T) (fv : SupportField) : Support :=
  match fv with
  | SupportId v =>
      {| s_id := v; s_positionMm := s_positionMm support; s_type := s_type support |}
  | SupportPosition v =>
      {| s_id := s_id support; s_positionMm := v; s_type := s_type support |}
  | SupportKind v =>
      {| s_id := s_id support; s_positionMm := s_positionMm support; s_type := v |}
  end.

Definition setPointLoadField (load : @PointLoad T) (fv : PointLoadField) : PointLoad :=
  match fv with
  | PointLoadId v =>
      {| p_id := v; p_positionMm := p_positionMm load; p_magnitudeKn := p_magnitudeKn load |}
  | PointLoadPosition v =>
      {| p_id := p_id load; p_positionMm := v; p_magnitudeKn := p_magnitudeKn load |}
  | PointLoadMagnitude v =>
      {| p_id := p_id load; p_positionMm := p_positionMm load; p_magnitudeKn := v |}
  end.

Definition setUdlField (udl : @Udl T) (fv : UdlField) : Udl :=
  match fv with
  | UdlId v =>
      {| u_id := v; u_startMm := u_startMm udl; u_endMm := u_endMm udl;
         u_magnitudeKnPerM := u_magnitudeKnPerM udl |}
  | UdlStart v =>
      {| u_id := u_id udl; u_startMm := v; u_endMm := u_endMm udl;
         u_magnitudeKnPerM := u_magnitudeKnPerM udl |}
  | UdlEnd v =>
      {| u_id := u_id udl; u_startMm := u_startMm udl; u_endMm := v;
         u_magnitudeKnPerM := u_magnitudeKnPerM udl |}
  | UdlMagnitude v =>
      {| u_id := u_id udl; u_startMm := u_startMm udl; u_endMm := u_endMm udl;
         u_magnitudeKnPerM := v |}
  end.

(* the updaters handed to setSupports, setPointLoads and setUdls: each is
   the function of the previous state that React applies *)
Definition handleSupportChange (id : nat) (fv : SupportField) (prev : list (@Support T))
    : list Support :=
  map (fun support => if Nat.eqb (s_id support) id then setSupportField support fv
                      else support) prev.

Definition handlePointLoadChange (id : nat) (fv : PointLoadField) (prev : list (@PointLoad T))
    : list PointLoad :=
  map (fun load => if Nat.eqb (p_id load) id then setPointLoadField load fv else load) prev.

Definition handleUdlChange (id : nat) (fv : UdlField) (prev : list (@Udl T)) : list Udl :=
  map (fun udl => if Nat.eqb (u_id udl) id then setUdlField udl fv else udl) prev.

(* [now] is the value of Date.now() at the click *)
Definition addSupport (now : nat) (lengthMm : T) (prev : list (@Support T)) : list Support :=
  prev ++ [ {| s_id := now; s_positionMm := lengthMm / $2; s_type := pinned |} ].

Definition addPointLoad (now : nat) (lengthMm : T) (prev : list (@PointLoad T))
    : list PointLoad :=
  prev ++ [ {| p_id := now; p_positionMm := lengthMm / $2; p_magnitudeKn := $5 |} ].

Definition addUdl (now : nat) (lengthMm : T) (prev : list (@Udl T)) : list Udl :=
  prev ++ [ {| u_id := now; u_startMm := $0; u_endMm := lengthMm; u_magnitudeKnPerM := $2 |} ].

(* removeItem(setter, id), for records whose id is read by [idOf] *)
Definition removeItem {A : Type} (idOf : A -> nat) (id : nat) (prev : list A) : list A :=
  filter (fun item => negb (Nat.eqb (idOf item) id)) prev.

End Editing.

(** ** Drawing the diagrams *)

Section Drawing.
Context {T : Type} {N : Number T}.
Local Open Scope num_scope.

(* a number that is not equal to itself is NaN; -0 is the zero whose
   inverse is negative *)
Definition isNaN (a : T) : bool := negb (a =? a).
Definition isNegZero (a : T) : bool := (a =? $0) && ($1 / a <? $0).

(* one pass of the loop of Math.min and of Math.max over their arguments:
   NaN wins, and -0 is below +0 *)
Definition min2 (lowest number : T) : T :=
  if isNaN lowest then lowest else
  if isNaN number then number else
  if number <? lowest then number else
  if lowest <? number then lowest else
  if isNegZero lowest then lowest else number.

Definition max2 (highest number : T) : T :=
  if isNaN highest then highest else
  if isNaN number then number else
  if highest <? number then number else
  if number <? highest then highest else
  if isNegZero highest then number else highest.

(* Math.min(...values) and Math.max(...values).  The loop starts at
   +Infinity (at -Infinity) and is at the first value after one pass; with
   no value at all the result is the infinity itself, 1 / 0 and -1 / 0 *)
Definition mathMin (values : list T) : T :=
  match values with
  | [] => $1 / $0
  | v :: vs => fold_left min2 vs v
  end.

Definition mathMax (values : list T) : T :=
  match values with
  | [] => (- $1) / $0
  | v :: vs => fold_left max2 vs v
  end.

(* v || 1: a number is falsy when it is 0, -0 or NaN *)
Definition orOne (v : T) : T := if (v <? $0) || ($0 <? v) then v else $1.

(* the keys of a sample *)
Inductive SampleKey := KeyX | KeyShear | KeyMoment | KeyDeflection.

Definition valueAt (key : SampleKey) (item : @Sample T) : T :=
  match key with
  | KeyX => sx item
  | KeyShear => shear item
  | KeyMoment => moment item
  | KeyDeflection => deflection item
  end.

Record Point := { px : T; py : T }.

(* scalePoints(data, yKey, width, height), for the keys a sample has, so
   that [item[yKey] ?? 0] is [item[yKey]] *)
Definition scalePoints (data : list (@Sample T)) (yKey : SampleKey) (width height : T)
    : list Point :=
  let values := map (fun item => valueAt yKey item) data in
  let min := mathMin values in
  let max := mathMax values in
  let span := orOne (max - min) in
  map (fun item =>
         {| px := (sx item / sx (last data item)) * width;
            py := height - ((valueAt yKey item - min) / span) * height |})
      data.

(* the points of one polyline of the component:
   diagrams.length ? scalePoints(diagrams, key, 600, 140) : [] *)
Definition polylinePoints (key : SampleKey) (a : @Analysis T) : list Point :=
  let diagrams := match a with
                  | AnalysisResult _ _ d => d
                  | AnalysisError _ => []
                  end in
  match diagrams with
  | [] => []
  | _ :: _ => scalePoints diagrams key $600 $140
  end.

End Drawing.

(** * Vocabulary of the further statements *)

(** ** Sums and linear systems *)

Section LinearVocabulary.
Context {T : Type} {N : Number T}.
Local Open Scope num_scope.

(* f(a1) + f(a2) + ..., added from the left starting at 0 *)
Definition sumOver {A : Type} (l : list A) (f : A -> T) : T :=
  fold_left (fun s a => s + f a) l $0.

(* row [i] of the product of [M] with the vector [y], over [n] columns *)
Definition rowTimes (n : nat) (M : list (list T)) (y : list T) (i : nat) : T :=
  sumOver (seq 0 n) (fun j => entry M i j * get y j).

(* [y] solves the [n] equations [M y = xs] *)
Definition solves (n : nat) (M : list (list T)) (xs y : list T) : Prop :=
  forall i, (i < n)%nat -> rowTimes n M y i = get xs i.

(* the first [k] columns of [M] are those of the identity *)
Definition reducedTo (n k : nat) (M : list (list T)) : Prop :=
  forall i j, (i < n)%nat -> (j < k)%nat ->
    entry M i j = if Nat.eqb i j then $1 else $0.

(* what element [e] holds of K[a][b] and of F[a] *)
Definition shareK (a b : nat) (e : @ElementData T) : T :=
  match localIndex (index e) a, localIndex (index e) b with
  | Some r, Some c => entry (kLocal e) r c
  | _, _ => $0
  end.

Definition shareF (a : nat) (e : @ElementData T) : T :=
  match localIndex (index e) a with
  | Some r => get (fFixed e) r
  | None => $0
  end.

(* the UDL covers the midpoint of the element from node [k] to the next *)
Definition covers (nodes : list (@Node T)) (udl : @Udl T) (k : nat) : bool :=
  let mid := (x (nodeAt nodes k) + x (nodeAt nodes (k + 1))) / $2 in
  (mid >=? u_startMm udl) && (mid <=? u_endMm udl).

(* the two sides of the equilibrium of moments about x = 0, in kN m: the
   moments of the table with the vertical reactions at their positions (in
   metres), and the point loads at their positions with every UDL as its
   resultant at the middle of its length *)
Definition sumMomentKnM (reactionTable : list (@Reaction T)) : T :=
  fold_left (fun sum r => sum + (r_momentKnM r + r_verticalKn r * (r_positionMm r / $1000)))
            reactionTable $0.

Definition appliedMomentKnM (pointLoads : list (@PointLoad T)) (udls : list (@Udl T)) : T :=
  fold_left (fun sum load => sum + p_magnitudeKn load * (p_positionMm load / $1000))
            pointLoads $0 +
  fold_left (fun sum udl =>
               sum + u_magnitudeKnPerM udl * ((u_endMm udl - u_startMm udl) / $1000) *
                     ((u_startMm udl + u_endMm udl) / $2 / $1000))
            udls $0.

End LinearVocabulary.

(** ** Loads and results times a factor *)

Section TimesVocabulary.
Context {T : Type} {N : Number T}.
Local Open Scope num_scope.

(* the same loads, [c] times as large *)
Definition timesPointLoads (c : T) (pointLoads : list (@PointLoad T)) : list PointLoad :=
  map (fun load => {| p_id := p_id load; p_positionMm := p_positionMm load;
                      p_magnitudeKn := c * p_magnitudeKn load |}) pointLoads.

Definition timesUdls (c : T) (udls : list (@Udl T)) : list Udl :=
  map (fun udl => {| u_id := u_id udl; u_startMm := u_startMm udl; u_endMm := u_endMm udl;
                     u_magnitudeKnPerM := c * u_magnitudeKnPerM udl |}) udls.

(* the same row and the same sample, with forces, moments and deflection
   [c] times as large *)
Definition timesReaction (c : T) (r : @Reaction T) : Reaction :=
  {| r_positionMm := r_positionMm r; r_verticalKn := c * r_verticalKn r;
     r_momentKnM := c * r_momentKnM r; r_type := r_type r |}.

Definition timesSample (c : T) (s : @Sample T) : Sample :=
  {| sx := sx s; shear := c * shear s; moment := c * moment s;
     deflection := c * deflection s |}.

End TimesVocabulary.

(** * Theorems *)

(** ** [Qc] is exact *)

Lemma Qc_ltb_lt (a b : Qc) : Qc_ltb a b = true <-> Qclt a b.
Proof.
  unfold Qc_ltb. rewrite Qclt_alt. destruct (Qccompare a b); split; congruence.
Qed.

Lemma Qc_eqb_eq (a b : Qc) : Qc_eqb a b = true <-> a = b.
Proof.
  unfold Qc_eqb. rewrite Qceq_alt. destruct (Qccompare a b); split; congruence.
Qed.

Lemma Qc_leb_ltb (a b : Qc) : Qc_leb a b = negb (Qc_ltb b a).
Proof.
  destruct (Qc_ltb b a) eqn:E; cbn.
  - apply Qc_ltb_lt in E. unfold Qc_leb.
    destruct (Qccompare a b) eqn:C; [| |reflexivity]; exfalso.
    + apply Qceq_alt in C. subst. now apply Qclt_not_eq in E.
    + apply Qclt_alt in C. apply (Qclt_not_eq a a); [|reflexivity].
      now apply Qclt_trans with b.
  - unfold Qc_leb. destruct (Qccompare a b) eqn:C; try reflexivity.
    assert (H : Qcle a b).
    { apply Qcnot_lt_le. intros H. apply Qc_ltb_lt in H. congruence. }
    apply Qcle_alt in H. contradiction.
Qed.

#[export] Instance Qc_Exact : ExactNumber Qc.
Proof.
  split; cbn [fromZ eps add sub mul div neg abs ltb leb eqb sameValueZero Qc_Number].
  - exact Qcrt.
  - intros a b. unfold Qcdiv. now rewrite Qcmult_1_l.
  - intros b Hb. now apply test_field.
  - intros a b. unfold Qcplus. apply Q2Qc_eq_iff.
    unfold Q2Qc, this. rewrite !Qred_correct.
    rewrite inject_Z_plus. reflexivity.
  - intros a b. unfold Qcmult. apply Q2Qc_eq_iff.
    unfold Q2Qc, this. rewrite !Qred_correct.
    rewrite inject_Z_mult. reflexivity.
  - intros a. destruct (Qc_ltb a a) eqn:E; [|reflexivity].
    apply Qc_ltb_lt in E. now apply Qclt_not_eq in E.
  - intros a b c. rewrite !Qc_ltb_lt. apply Qclt_trans.
  - intros a b. rewrite !Qc_ltb_lt.
    destruct (Qc_dec a b) as [[H|H]|H]; auto.
  - intros a b c. rewrite !Qc_ltb_lt. intros H.
    unfold Qclt, Qcplus, Q2Qc, this in *. rewrite !Qred_correct.
    now apply Qplus_lt_l.
  - intros a b. rewrite !Qc_ltb_lt. change (inject_Z 0) with 0%Q. intros Ha Hb.
    replace (Q2Qc 0) with (Q2Qc 0 * b)%Qc by ring.
    now apply Qcmult_lt_compat_r.
  - reflexivity.
  - apply Qc_leb_ltb.
  - apply Qc_eqb_eq.
  - reflexivity.
  - intros a. destruct (Qc_ltb a (Q2Qc (inject_Z 0))) eqn:E.
    + apply Qc_ltb_lt in E. apply Qcabs_neg. now apply Qclt_le_weak.
    + apply Qcabs_pos. apply Qcnot_lt_le. intros H.
      apply Qc_ltb_lt in H. exact (eq_true_false_abs _ H E).
  - reflexivity.
Qed.

(** ** Arrays *)

Section ArrayFacts.
Context {A : Type}.

Lemma length_upd (l : list A) i v : length (upd l i v) = length l.
Proof.
  revert i; induction l as [|h t IH]; intros [|i]; simpl; auto.
Qed.

Lemma nth_upd_eq (l : list A) i v d : i < length l -> nth i (upd l i v) d = v.
Proof.
  revert i; induction l as [|h t IH]; intros [|i] H; simpl in *; try lia; auto.
  apply IH; lia.
Qed.

Lemma nth_upd_neq (l : list A) i j v d : i <> j -> nth j (upd l i v) d = nth j l d.
Proof.
  revert i j; induction l as [|h t IH]; intros [|i] [|j] H; simpl; auto; try lia.
Qed.

Lemma upd_out (l : list A) i v : length l <= i -> upd l i v = l.
Proof.
  revert i; induction l as [|h t IH]; intros [|i] H; simpl in *; auto; try lia.
  f_equal. apply IH. lia.
Qed.

Lemma nth_upd (l : list A) i j v d :
  nth j (upd l i v) d = if Nat.eqb i j then (if Nat.ltb i (length l) then v else nth j l d)
                        else nth j l d.
Proof.
  destruct (Nat.eqb_spec i j) as [->|Hne].
  - destruct (Nat.ltb_spec j (length l)).
    + now apply nth_upd_eq.
    + now rewrite upd_out.
  - now apply nth_upd_neq.
Qed.

Lemma In_combine_seq (l : list A) s a i :
  In (a, i) (combine l (seq s (length l))) <-> s <= i /\ nth_error l (i - s) = Some a.
Proof.
  revert s; induction l as [|h t IH]; intros s; simpl.
  - split; [tauto|]. intros [_ H]. destruct (i - s); discriminate.
  - rewrite IH. split.
    + intros [H|[H1 H2]].
      * inversion H; subst. rewrite Nat.sub_diag. auto.
      * split; [lia|]. replace (i - s) with (S (i - S s)) by lia. exact H2.
    + intros [H1 H2]. destruct (i - s) as [|k] eqn:E.
      * left. simpl in H2. inversion H2. f_equal. lia.
      * right. split; [lia|]. simpl in H2. now replace (i - S s) with k by lia.
Qed.

Lemma map_nth_seq (l : list A) d : map (fun i => nth i l d) (seq 0 (length l)) = l.
Proof.
  induction l as [|h t IH]; simpl; [reflexivity|].
  f_equal. rewrite <- seq_shift, map_map. exact IH.
Qed.

Lemma StronglySorted_filter (R : A -> A -> Prop) (f : A -> bool) (l : list A) :
  StronglySorted R l -> StronglySorted R (filter f l).
Proof.
  induction 1 as [|a l Hs IH Ha]; simpl; [constructor|].
  destruct (f a); [|exact IH].
  constructor; [exact IH|].
  rewrite Forall_forall in *. intros y Hy. apply filter_In in Hy. now apply Ha.
Qed.

End ArrayFacts.

Lemma StronglySorted_seq s n : StronglySorted lt (seq s n).
Proof.
  revert s; induction n as [|n IH]; intros s; simpl; constructor; [apply IH|].
  apply Forall_forall. intros y Hy. apply in_seq in Hy. lia.
Qed.

Lemma nth_map_lt {A B} (f : A -> B) (l : list A) i d d' :
  i < length l -> nth i (map f l) d = f (nth i l d').
Proof.
  intros H. rewrite (nth_indep _ d (f d')) by now rewrite length_map.
  apply map_nth.
Qed.

Lemma filter_true {A} (f : A -> bool) (l : list A) :
  (forall a, In a l -> f a = true) -> filter f l = l.
Proof.
  induction l as [|h t IH]; simpl; intros H; [reflexivity|].
  rewrite (H h) by auto. f_equal. apply IH. auto.
Qed.

(** ** Constraint Reducer *)

Section Reducer.
Context {T : Type} {N : Number T}.

Lemma constrainedOf_In (nodes : list (@Node T)) (d : nat) :
  In d (constrainedOf nodes) <->
  exists i nd, nth_error nodes i = Some nd /\
    ((supportType nd = pinned /\ d = i * 2) \/
     (supportType nd = fixed /\ (d = i * 2 \/ d = i * 2 + 1))).
Proof.
  unfold constrainedOf. rewrite in_flat_map. split.
  - intros [[nd i] [Hin Hd]]. apply In_combine_seq in Hin.
    destruct Hin as [_ Hn]. rewrite Nat.sub_0_r in Hn.
    exists i, nd. split; [exact Hn|]. simpl in Hd.
    destruct (supportType nd); simpl in Hd; intuition.
  - intros [i [nd [Hn Hd]]]. exists (nd, i). split.
    + apply In_combine_seq. rewrite Nat.sub_0_r. split; [lia|exact Hn].
    + simpl. destruct Hd as [[-> ->]|[-> [->| ->]]]; simpl; auto.
Qed.

Lemma free_In (nodes : list Node) (K : list (list T)) (F : list T) (d : nat) :
  In d (free_ (applyBoundaryConditions nodes K F)) <->
  d < length K /\ ~ In d (constrainedOf nodes).
Proof.
  simpl. rewrite filter_In, in_seq, negb_true_iff.
  split; intros [H1 H2]; (split; [lia|]).
  - intros Hin. assert (E : existsb (Nat.eqb d) (constrainedOf nodes) = true).
    { apply existsb_exists. exists d. split; [exact Hin|apply Nat.eqb_refl]. }
    congruence.
  - destruct (existsb _ _) eqn:E; [|reflexivity].
    apply existsb_exists in E. destruct E as [y [Hy Hy']].
    apply Nat.eqb_eq in Hy'. subst y. contradiction.
Qed.

Lemma reduce_nothing (nodes : list Node) (K : list (list T)) (F : list T) :
  constrainedOf nodes = [] -> square K -> length F = length K ->
  Kff (applyBoundaryConditions nodes K F) = K /\
  Ff (applyBoundaryConditions nodes K F) = F.
Proof.
  intros Hc Hsq HF. unfold applyBoundaryConditions. simpl. rewrite Hc. simpl.
  rewrite filter_true by reflexivity. split.
  - transitivity (map (fun i => nth i K []) (seq 0 (length K))); [|apply map_nth_seq].
    apply map_ext_in. intros r Hr. apply in_seq in Hr.
    unfold entry, get, row.
    assert (Hl : length (nth r K []) = length K).
    { unfold square in Hsq. rewrite Forall_forall in Hsq. apply Hsq, nth_In. lia. }
    rewrite <- Hl. apply map_nth_seq.
  - unfold get. rewrite <- HF. apply map_nth_seq.
Qed.

(** C6. The Constraint Reducer constrains the vertical DOF [2i] of every
    pinned node [i], both DOFs [2i] and [2i+1] of every fixed node, and
    nothing else; the free list is the ascending complement of the
    constrained indices within [0, K.length); the reduced matrix and vector
    read the global ones at the free indices, in that order; and when no
    DOF is constrained the reduced system is the full one. *)
Theorem applyBoundaryConditions_spec (nodes : list Node) (K : list (list T)) (F : list T) :
  let red := applyBoundaryConditions nodes K F in
  (forall d, In d (constrained red) <->
     exists i nd, nth_error nodes i = Some nd /\
       ((supportType nd = pinned /\ d = i * 2) \/
        (supportType nd = fixed /\ (d = i * 2 \/ d = i * 2 + 1)))) /\
  StronglySorted lt (free_ red) /\
  (forall d, In d (free_ red) <-> d < length K /\ ~ In d (constrained red)) /\
  length (Kff red) = length (free_ red) /\
  length (Ff red) = length (free_ red) /\
  (forall a, a < length (free_ red) ->
     length (row (Kff red) a) = length (free_ red) /\
     get (Ff red) a = get F (nth a (free_ red) 0) /\
     forall b, b < length (free_ red) ->
       entry (Kff red) a b = entry K (nth a (free_ red) 0) (nth b (free_ red) 0)) /\
  (constrained red = [] -> square K -> length F = length K ->
     free_ red = seq 0 (length K) /\ Kff red = K /\ Ff red = F).
Proof.
  intros red. split; [apply constrainedOf_In|].
  split; [apply StronglySorted_filter, StronglySorted_seq|].
  split; [apply free_In|].
  split; [apply length_map|].
  split; [apply length_map|].
  split.
  - intros a Ha. subst red. cbn [Kff Ff free_ applyBoundaryConditions] in *.
    set (fr := filter _ _) in *.
    unfold entry, row, get.
    rewrite (nth_map_lt _ fr [] 0 Ha).
    split; [apply length_map|]. split.
    + now rewrite (nth_map_lt _ fr _ 0 Ha).
    + intros b Hb. now rewrite (nth_map_lt _ fr _ 0 Hb).
  - intros Hc Hsq HF. split; [|now apply reduce_nothing].
    subst red. cbn [free_ constrained applyBoundaryConditions] in *. rewrite Hc.
    now apply filter_true.
Qed.

End Reducer.

(** ** Order and arithmetic in exact numbers *)

Section ExactFacts.
Context {T : Type} {N : Number T} {E : ExactNumber T}.
Local Open Scope num_scope.

Add Ring T_ring : en_ring.

Lemma num_lt_irrefl a : ~ num_lt a a.
Proof. unfold num_lt. rewrite en_lt_irrefl. discriminate. Qed.

Lemma num_lt_trans a b c : num_lt a b -> num_lt b c -> num_lt a c.
Proof. apply en_lt_trans. Qed.

Lemma num_lt_asym a b : num_lt a b -> ~ num_lt b a.
Proof. intros H1 H2. apply (num_lt_irrefl (num_lt_trans H1 H2)). Qed.

Lemma num_lt_neq a b : num_lt a b -> a <> b.
Proof. intros H ->. exact (num_lt_irrefl H). Qed.

Lemma num_le_iff a b : num_le a b <-> num_lt a b \/ a = b.
Proof.
  unfold num_le, num_lt. rewrite en_leb, negb_true_iff. split.
  - intros H. destruct (en_lt_total a b) as [H1|[H1|H1]]; auto. congruence.
  - intros [H| ->]; [|apply en_lt_irrefl].
    destruct (b <? a) eqn:H'; [|reflexivity]. destruct (num_lt_asym H H').
Qed.

Lemma num_not_lt_le a b : (a <? b) = false <-> num_le b a.
Proof. unfold num_le. rewrite en_leb. now destruct (a <? b). Qed.

Lemma num_le_refl a : num_le a a.
Proof. apply num_le_iff. now right. Qed.

Lemma num_le_lt_trans a b c : num_le a b -> num_lt b c -> num_lt a c.
Proof. rewrite num_le_iff. intros [H| ->]; [apply (num_lt_trans H)|auto]. Qed.

Lemma num_lt_le_trans a b c : num_lt a b -> num_le b c -> num_lt a c.
Proof. rewrite num_le_iff. intros H [H'| <-]; [apply (num_lt_trans H H')|auto]. Qed.

Lemma num_le_trans a b c : num_le a b -> num_le b c -> num_le a c.
Proof.
  intros H1 H2. apply num_le_iff. apply num_le_iff in H1. destruct H1 as [H1| ->].
  - left. now apply num_lt_le_trans with b.
  - now apply num_le_iff.
Qed.

Lemma num_lt_add_r a b c : num_lt a b <-> num_lt (a + c) (b + c).
Proof.
  split; [apply en_lt_add|]. intros H. apply (en_lt_add _ _ (- c)) in H.
  now replace (a + c + - c) with a in H by ring;
      replace (b + c + - c) with b in H by ring.
Qed.

Lemma num_sub_pos a b : num_lt $0 (a - b) <-> num_lt b a.
Proof.
  rewrite (num_lt_add_r $0 (a - b) b).
  now replace ($0 + b) with b by ring; replace (a - b + b) with a by ring.
Qed.

Lemma num_eqb_refl a : (a =? a) = true.
Proof. now apply en_eqb. Qed.

Lemma num_eqb_neq a b : (a =? b) = false <-> a <> b.
Proof.
  split.
  - intros H He. apply en_eqb in He. congruence.
  - intros H. destruct (a =? b) eqn:He; [|reflexivity]. now apply en_eqb in He.
Qed.

Lemma num_ltb_negtrans a b c : (a <? b) = false -> (b <? c) = false -> (a <? c) = false.
Proof.
  rewrite !num_not_lt_le. intros H1 H2. exact (num_le_trans H2 H1).
Qed.

Lemma num_lt_0_neg a : num_lt a $0 <-> num_lt $0 (- a).
Proof.
  rewrite (num_lt_add_r a $0 (- a)).
  now replace (a + - a) with $0 by ring; replace ($0 + - a) with (- a) by ring.
Qed.

Lemma num_sign a : a <> $0 -> num_lt $0 a \/ num_lt $0 (- a).
Proof.
  intros Ha. destruct (en_lt_total $0 a) as [H|[H|H]]; [now left|congruence|].
  right. now apply num_lt_0_neg.
Qed.

Lemma num_pos_neq a : num_lt $0 a -> a <> $0.
Proof. intros H ->. exact (num_lt_irrefl H). Qed.

Lemma num_mul_neq_0 a b : a <> $0 -> b <> $0 -> a * b <> $0.
Proof.
  intros Ha Hb.
  destruct (num_sign Ha) as [Ha'|Ha'], (num_sign Hb) as [Hb'|Hb'].
  - apply num_pos_neq. now apply en_lt_mul.
  - intros H0. apply (num_pos_neq (en_lt_mul _ _ Ha' Hb')).
    replace (a * - b) with (- (a * b)) by ring. rewrite H0. ring.
  - intros H0. apply (num_pos_neq (en_lt_mul _ _ Ha' Hb')).
    replace (- a * b) with (- (a * b)) by ring. rewrite H0. ring.
  - apply num_pos_neq. replace (a * b) with (- a * - b) by ring. now apply en_lt_mul.
Qed.

Lemma num_1_neq_0 : $1 <> $0.
Proof. apply num_pos_neq, en_lt_0_1. Qed.

Lemma num_field : field_theory $0 $1 add mul sub neg div (fun a => $1 / a) (@eq T).
Proof.
  constructor.
  - exact en_ring.
  - exact num_1_neq_0.
  - exact en_div_def.
  - exact en_inv.
Qed.

Add Field T_field : num_field.

Lemma num_add_pos a b : num_lt $0 a -> num_lt $0 b -> num_lt $0 (a + b).
Proof.
  intros Ha Hb. apply (num_lt_trans Ha).
  apply (proj1 (num_lt_add_r $0 b a)) in Hb.
  now replace ($0 + a) with a in Hb by ring; replace (b + a) with (a + b) in Hb by ring.
Qed.

Lemma num_inv_pos a : num_lt $0 a -> num_lt $0 ($1 / a).
Proof.
  intros Ha. pose proof (num_pos_neq Ha) as Hn.
  destruct (en_lt_total $0 ($1 / a)) as [H|[H|H]]; [exact H| |].
  - exfalso. apply num_1_neq_0. rewrite <- (en_inv Hn), <- H. ring.
  - exfalso. apply num_lt_0_neg in H.
    pose proof (en_lt_mul _ _ H Ha) as Hp.
    replace (- ($1 / a) * a) with (- ($1 / a * a)) in Hp by ring.
    rewrite (en_inv Hn) in Hp. apply num_lt_0_neg in Hp.
    exact (num_lt_asym Hp en_lt_0_1).
Qed.

Lemma num_div_pos a b : num_lt $0 a -> num_lt $0 b -> num_lt $0 (a / b).
Proof.
  intros Ha Hb. rewrite en_div_def. apply en_lt_mul; [exact Ha|now apply num_inv_pos].
Qed.

Lemma fromZ_pos (p : positive) : num_lt $0 (fromZ (Zpos p)).
Proof.
  induction p as [p IH|p IH|].
  - replace (Z.pos p~1) with (Z.pos p + Z.pos p + 1)%Z by lia.
    rewrite !en_fromZ_add. apply num_add_pos; [now apply num_add_pos|apply en_lt_0_1].
  - replace (Z.pos p~0) with (Z.pos p + Z.pos p)%Z by lia.
    rewrite en_fromZ_add. now apply num_add_pos.
  - apply en_lt_0_1.
Qed.

Lemma num_le_add_l a b : num_le $0 b -> num_le a (a + b).
Proof.
  rewrite !num_le_iff. intros [H| <-].
  - left. apply (proj1 (num_lt_add_r $0 b a)) in H.
    now replace ($0 + a) with a in H by ring; replace (b + a) with (a + b) in H by ring.
  - right. ring.
Qed.

End ExactFacts.

(** ** Mesh Builder *)

Section MeshAny.
Context {T : Type} {N : Number T}.
Local Open Scope num_scope.

Lemma In_sortInsert (a p : T) (l : list T) : In p (sortInsert a l) <-> p = a \/ In p l.
Proof.
  induction l as [|b t IH]; simpl; [intuition|].
  destruct (a - b >? $0); simpl; rewrite ?IH; intuition.
Qed.

Lemma In_sortAsc (p : T) (l : list T) : In p (sortAsc l) <-> In p l.
Proof.
  induction l as [|a t IH]; simpl; [tauto|].
  rewrite In_sortInsert, IH. intuition.
Qed.

Lemma buildNodes_x (lengthMm : T) supports pointLoads udls :
  map x (buildNodes lengthMm supports pointLoads udls) =
  uniqueSorted (filter (fun pos => (pos >=? $0) && (pos <=? lengthMm))
                       (basePositions lengthMm supports pointLoads udls)).
Proof.
  unfold buildNodes. rewrite map_map. simpl. apply map_id.
Qed.

Lemma buildNodes_kind (lengthMm : T) supports pointLoads udls (nd : Node) :
  In nd (buildNodes lengthMm supports pointLoads udls) ->
  supportType nd =
    match find (fun item => s_positionMm item =? x nd) supports with
    | Some s => s_type s
    | None => free
    end.
Proof.
  unfold buildNodes. rewrite in_map_iff. intros [p [<- _]]. reflexivity.
Qed.

End MeshAny.

Section MeshExact.
Context {T : Type} {N : Number T} {E : ExactNumber T}.
Local Open Scope num_scope.

Lemma existsb_sameValueZero (v : T) (seen : list T) :
  existsb (sameValueZero v) seen = true <-> In v seen.
Proof.
  rewrite existsb_exists. split.
  - intros [y [Hy Hv]]. rewrite en_sameValueZero in Hv. apply en_eqb in Hv. now subst.
  - intros H. exists v. split; [exact H|]. rewrite en_sameValueZero. apply num_eqb_refl.
Qed.

Lemma arrayFromSet_acc (values acc : list T) :
  NoDup acc ->
  NoDup (fold_left setAdd values acc) /\
  forall p, In p (fold_left setAdd values acc) <-> In p acc \/ In p values.
Proof.
  revert acc; induction values as [|v vs IH]; intros acc Hnd; simpl.
  - split; [exact Hnd|]. intuition.
  - unfold setAdd at 2 4. destruct (existsb (sameValueZero v) acc) eqn:Ex.
    + apply existsb_sameValueZero in Ex.
      destruct (IH acc Hnd) as [H1 H2]. split; [exact H1|].
      intros p. rewrite H2. intuition. subst. auto.
    + assert (Hv : ~ In v acc).
      { intros H. apply existsb_sameValueZero in H. congruence. }
      assert (Hnd' : NoDup (acc ++ [v])).
      { apply NoDup_app; [exact Hnd|repeat constructor; simpl; tauto|].
        intros a Ha [<-|[]]. contradiction. }
      destruct (IH _ Hnd') as [H1 H2]. split; [exact H1|].
      intros p. rewrite H2, in_app_iff. simpl. intuition.
Qed.

Lemma sortInsert_sorted (a : T) (l : list T) :
  StronglySorted num_lt l -> ~ In a l -> StronglySorted num_lt (sortInsert a l).
Proof.
  induction 1 as [|b t Hs IH Hb]; intros Ha; simpl.
  - repeat constructor.
  - destruct (a - b >? $0) eqn:Hc.
    + apply (proj1 (num_sub_pos a b)) in Hc.
      constructor; [apply IH; simpl in Ha; tauto|].
      apply Forall_forall. intros y Hy. apply In_sortInsert in Hy.
      destruct Hy as [->|Hy]; [exact Hc|].
      rewrite Forall_forall in Hb. now apply Hb.
    + assert (Hab : num_lt a b).
      { destruct (en_lt_total a b) as [H|[H|H]]; [exact H| |].
        - subst. simpl in Ha. tauto.
        - apply num_sub_pos in H. unfold num_lt in H. congruence. }
      constructor; [now constructor|].
      constructor; [exact Hab|].
      rewrite Forall_forall in *. intros y Hy. apply (num_lt_trans Hab). now apply Hb.
Qed.

Lemma sortAsc_sorted (l : list T) : NoDup l -> StronglySorted num_lt (sortAsc l).
Proof.
  induction 1 as [|a t Ha Hnd IH]; simpl; [constructor|].
  apply sortInsert_sorted; [exact IH|]. now rewrite In_sortAsc.
Qed.

Lemma sorted_NoDup (l : list T) : StronglySorted num_lt l -> NoDup l.
Proof.
  induction 1 as [|a t Hs IH Ha]; constructor; [|exact IH].
  intros Hin. rewrite Forall_forall in Ha. exact (num_lt_irrefl (Ha _ Hin)).
Qed.

Lemma uniqueSorted_spec (values : list T) :
  StronglySorted num_lt (uniqueSorted values) /\
  forall p, In p (uniqueSorted values) <-> In p values.
Proof.
  unfold uniqueSorted, arrayFromSet.
  destruct (arrayFromSet_acc values (NoDup_nil T)) as [H1 H2].
  split; [now apply sortAsc_sorted|].
  intros p. rewrite In_sortAsc, H2. simpl. tauto.
Qed.

(** C5. The Mesh Builder returns the strictly ascending (hence
    duplicate-free) sequence of exactly those candidate positions --
    0, the length, every support and point-load position, every UDL
    start and end -- that lie in [0, length]; each node carries the kind
    of a support definition at exactly its position, and [free] when
    there is none. *)
Theorem buildNodes_spec (lengthMm : T) (supports : list Support)
    (pointLoads : list PointLoad) (udls : list Udl) :
  let nodes := buildNodes lengthMm supports pointLoads udls in
  StronglySorted num_lt (map x nodes) /\
  NoDup (map x nodes) /\
  (forall p, In p (map x nodes) <->
     (p = $0 \/ p = lengthMm \/
      (exists s, In s supports /\ s_positionMm s = p) \/
      (exists l, In l pointLoads /\ p_positionMm l = p) \/
      (exists u, In u udls /\ (u_startMm u = p \/ u_endMm u = p))) /\
     num_le $0 p /\ num_le p lengthMm) /\
  (forall nd, In nd nodes ->
     (exists s, In s supports /\ s_positionMm s = x nd /\ supportType nd = s_type s) \/
     ((forall s, In s supports -> s_positionMm s <> x nd) /\ supportType nd = free)).
Proof.
  intros nodes. subst nodes.
  destruct (uniqueSorted_spec
    (filter (fun pos => (pos >=? $0) && (pos <=? lengthMm))
            (basePositions lengthMm supports pointLoads udls))) as [Hs Hin].
  rewrite buildNodes_x.
  split; [exact Hs|]. split; [now apply sorted_NoDup|]. split.
  - intros p. rewrite Hin, filter_In, andb_true_iff. unfold basePositions, num_le.
    simpl. rewrite !in_app_iff, !in_map_iff, in_flat_map. simpl.
    split; (intros [H Hr]; split; [|exact Hr]).
    + destruct H as [H|[H|[[s [H Hs']]|[[l [H Hl]]|[u [Hu [H|[H|[]]]]]]]]].
      * now left.
      * now (right; left).
      * right; right; left. now exists s.
      * right; right; right; left. now exists l.
      * right; right; right; right. exists u. auto.
      * right; right; right; right. exists u. auto.
    + destruct H as [H|[H|[[s [Hs' H]]|[[l [Hl H]]|[u [Hu [H|H]]]]]]].
      * now left.
      * now (right; left).
      * right; right; left. now exists s.
      * right; right; right; left. now exists l.
      * right; right; right; right. exists u. auto.
      * right; right; right; right. exists u. auto.
  - intros nd Hnd. rewrite (buildNodes_kind _ _ _ _ _ Hnd).
    destruct (find _ supports) as [s|] eqn:Hf.
    + left. apply find_some in Hf. destruct Hf as [Hf1 Hf2].
      apply en_eqb in Hf2. eauto.
    + right. split; [|reflexivity]. intros s Hs' He.
      apply (find_none _ _ Hf) in Hs'. simpl in Hs'.
      rewrite He, num_eqb_refl in Hs'. discriminate.
Qed.

End MeshExact.

(** ** Linear Solver *)

Section SolverControl.
Context {T : Type} {N : Number T}.
Local Open Scope num_scope.

Lemma solveLoop_app (n : nat) (ks1 ks2 : list nat) (Mx : list (list T) * list T) :
  solveLoop n (ks1 ++ ks2) Mx =
  match solveLoop n ks1 Mx with
  | Some Mx' => solveLoop n ks2 Mx'
  | None => None
  end.
Proof.
  revert Mx; induction ks1 as [|k ks IH]; intros Mx; simpl; [reflexivity|].
  destruct (solveStep n Mx k); [apply IH|reflexivity].
Qed.

(* the loop fails exactly when some pass is reached and fails *)
Lemma solveLoop_None (n s len : nat) (Mx : list (list T) * list T) :
  solveLoop n (seq s len) Mx = None <->
  exists j Mx', (j < len)%nat /\ solveLoop n (seq s j) Mx = Some Mx' /\
                solveStep n Mx' (s + j) = None.
Proof.
  induction len as [|len IH].
  - simpl. split; [discriminate|]. intros [j [Mx' [H _]]]. lia.
  - rewrite seq_S, solveLoop_app. simpl.
    destruct (solveLoop n (seq s len) Mx) as [Mx1|] eqn:E1.
    + destruct (solveStep n Mx1 (s + len)) eqn:E2.
      * split; [discriminate|]. intros [j [Mx' [Hj [H1 H2]]]].
        assert (Hj' : (j < len \/ j = len)%nat) by lia.
        destruct Hj' as [Hj'| ->].
        -- assert (Habs : Some Mx1 = None) by (apply IH; eauto).
           discriminate.
        -- rewrite E1 in H1. inversion H1; subst. congruence.
      * split; [|reflexivity]. intros _. exists len, Mx1. auto.
    + split; [|reflexivity]. intros _.
      destruct (proj1 IH eq_refl) as [j [Mx' [Hj H]]].
      exists j, Mx'. split; [lia|exact H].
Qed.

Lemma solveStep_None (n k : nat) (M : list (list T)) (xs : list T) :
  solveStep n (M, xs) k = None <->
  (abs (entry M (findMaxRow M k n) k) <? eps) = true.
Proof.
  unfold solveStep. simpl. destruct (_ <? eps); split; congruence.
Qed.

(** The empty system: no pass runs. *)
Lemma solveLinearSystem_empty (A : list (list T)) : solveLinearSystem A [] = Some [].
Proof. reflexivity. Qed.

End SolverControl.

Section SolverPivot.
Context {T : Type} {N : Number T}.
Local Open Scope num_scope.

(* [<] is a strict weak order: what comparisons are in any arithmetic
   without NaN *)
Hypothesis ltb_irrefl : forall a : T, (a <? a) = false.
Hypothesis ltb_trans : forall a b c : T, (a <? b) = true -> (b <? c) = true -> (a <? c) = true.
Hypothesis ltb_negtrans :
  forall a b c : T, (a <? b) = false -> (b <? c) = false -> (a <? c) = false.

Lemma findMax_fold (M : list (list T)) (k : nat) (l : list nat) (cur : nat) :
  let r := fold_left (fun maxRow i =>
             if abs (entry M i k) >? abs (entry M maxRow k) then i else maxRow) l cur in
  (r = cur \/ In r l) /\
  (abs (entry M r k) <? abs (entry M cur k)) = false /\
  (forall i, In i l -> (abs (entry M r k) <? abs (entry M i k)) = false).
Proof.
  revert cur; induction l as [|i0 l IH]; intros cur; cbv zeta; simpl.
  - split; [now left|]. split; [apply ltb_irrefl|intros i []].
  - destruct (abs (entry M i0 k) >? abs (entry M cur k)) eqn:C.
    + destruct (IH i0) as [H1 [H2 H3]].
      split; [destruct H1 as [H1|H1]; [right; left; now symmetry|now (right; right)]|].
      split.
      * match goal with |- (?a <? ?c) = false => destruct (a <? c) eqn:D; [|reflexivity] end.
        rewrite (ltb_trans _ _ _ D C) in H2. discriminate.
      * intros i [<-|Hi]; auto.
    + destruct (IH cur) as [H1 [H2 H3]].
      split; [destruct H1 as [H1|H1]; [now left|now (right; right)]|].
      split; [exact H2|].
      intros i [<-|Hi]; auto. exact (ltb_negtrans _ _ _ H2 C).
Qed.

Lemma findMaxRow_spec (M : list (list T)) (k n : nat) :
  (k < n)%nat ->
  let m := findMaxRow M k n in
  (k <= m < n)%nat /\
  forall i, (k <= i < n)%nat -> (abs (entry M m k) <? abs (entry M i k)) = false.
Proof.
  intros Hk m. subst m. unfold findMaxRow.
  destruct (findMax_fold M k (seq (S k) (n - S k)) k) as [H1 [H2 H3]].
  split.
  - destruct H1 as [->|H1]; [lia|]. apply in_seq in H1. lia.
  - intros i Hi. assert (Hi' : (i = k \/ S k <= i)%nat) by lia.
    destruct Hi' as [->|Hi']; [exact H2|]. apply H3, in_seq. lia.
Qed.

Lemma solveStep_None_pivot (n k : nat) (M : list (list T)) (xs : list T) :
  (k < n)%nat -> solveStep n (M, xs) k = None <-> pivotColumnBelow M k n.
Proof.
  intros Hk. rewrite solveStep_None.
  destruct (findMaxRow_spec M Hk) as [Hr Hmax]. split.
  - intros H. exists (findMaxRow M k n). auto.
  - intros [m [Hm [Hm1 Hm2]]].
    match goal with |- (?a <? ?c) = true => destruct (a <? c) eqn:D; [reflexivity|] end.
    rewrite (ltb_negtrans _ _ _ (Hm1 _ Hr) D) in Hm2. discriminate.
Qed.

(** C2. The solver returns the failure signal exactly when, at some pass
    [k] it reaches, the largest absolute value of the pivot column among
    the remaining rows is below 1e-9; from such a state the pass yields
    nothing and the loop stops, whatever passes were left; and the
    engine's result is an error exactly when the solver fails, with the
    one message it has. *)
Theorem solveLinearSystem_null_iff (A : list (list T)) (b : list T) :
  let n := length b in
  (solveLinearSystem A b = None <->
   exists k M xs, (k < n)%nat /\ solveLoop n (seq 0 k) (A, b) = Some (M, xs) /\
                  pivotColumnBelow M k n) /\
  (forall k M xs ks, (k < n)%nat -> pivotColumnBelow M k n ->
     solveStep n (M, xs) k = None /\ solveLoop n (k :: ks) (M, xs) = None) /\
  (forall lengthMm youngsModulusMpa inertiaMm4 supports pointLoads udls,
     let nodes := buildNodes lengthMm supports pointLoads udls in
     let sys := assembleSystem nodes youngsModulusMpa inertiaMm4 pointLoads udls in
     let red := applyBoundaryConditions nodes (K sys) (F sys) in
     let result := analysis lengthMm youngsModulusMpa inertiaMm4 supports pointLoads udls in
     (solveLinearSystem (Kff red) (Ff red) = None <->
      result = AnalysisError
        "The system is unstable. Add or adjust supports so at least one vertical and one rotational restraint exists.") /\
     (forall e, result = AnalysisError e -> e = unstableMessage)).
Proof.
  intros n. split; [|split].
  - unfold solveLinearSystem. fold n.
    destruct (solveLoop n (seq 0 n) (A, b)) as [Mx|] eqn:El; simpl.
    + split; [discriminate|]. intros [k [M [xs [Hk [H1 H2]]]]].
      assert (Hn : solveLoop n (seq 0 n) (A, b) = None).
      { apply solveLoop_None. exists k, (M, xs). repeat split; auto.
        now apply solveStep_None_pivot. }
      congruence.
    + split; [|reflexivity]. intros _.
      apply solveLoop_None in El. destruct El as [k [[M xs] [Hk [H1 H2]]]].
      exists k, M, xs. repeat split; auto. now apply solveStep_None_pivot in H2.
  - intros k M xs ks Hk Hp.
    assert (Hs : solveStep n (M, xs) k = None) by now apply solveStep_None_pivot.
    split; [exact Hs|]. simpl. now rewrite Hs.
  - intros lengthMm EE II supports pointLoads udls nodes sys red result.
    subst result. unfold analysis. fold nodes. fold sys. fold red.
    destruct (solveLinearSystem (Kff red) (Ff red)); split.
    + split; discriminate.
    + discriminate.
    + split; reflexivity.
    + intros e He. now inversion He.
Qed.

End SolverPivot.

(** ** Element Assembler *)

Section PointUpdates.
Context {T : Type} {N : Number T}.
Local Open Scope num_scope.

Lemma shaped_repeat rows cols : shaped rows cols (repeat (repeat $0 cols) rows).
Proof.
  split; [apply repeat_length|]. intros i Hi. unfold row.
  rewrite nth_repeat_lt by exact Hi. apply repeat_length.
Qed.

Lemma shaped_addAt rows cols K i j v : shaped rows cols K -> shaped rows cols (addAt K i j v).
Proof.
  intros [H1 H2]. unfold addAt. split; [now rewrite length_upd|].
  intros a Ha. unfold row at 1. rewrite nth_upd.
  destruct (Nat.eqb_spec i a) as [->|Hne]; [|now apply H2].
  rewrite H1. destruct (Nat.ltb_spec a rows); [|lia].
  rewrite length_upd. now apply H2.
Qed.

Lemma entry_addAt rows cols K i j v a b :
  shaped rows cols K -> (i < rows)%nat -> (j < cols)%nat ->
  entry (addAt K i j v) a b =
  if Nat.eqb i a && Nat.eqb j b then entry K a b + v else entry K a b.
Proof.
  intros [H1 H2] Hi Hj. unfold addAt, entry at 1, row at 1. rewrite nth_upd, H1.
  destruct (Nat.ltb_spec i rows); [|lia].
  destruct (Nat.eqb_spec i a) as [->|Hne]; simpl; [|reflexivity].
  unfold get at 1. rewrite nth_upd, (H2 _ Hi).
  destruct (Nat.ltb_spec j cols); [|lia].
  destruct (Nat.eqb_spec j b) as [->|Hne]; reflexivity.
Qed.

Lemma get_upd_add (F : list T) i v a :
  (i < length F)%nat ->
  get (upd F i (get F i + v)) a = if Nat.eqb i a then get F a + v else get F a.
Proof.
  intros Hi. unfold get at 1. rewrite nth_upd.
  destruct (Nat.ltb_spec i (length F)); [|lia].
  destruct (Nat.eqb_spec i a) as [->|Hne]; reflexivity.
Qed.

(* a run of [+=] at pairwise distinct places adds at most once to an entry *)
Lemma entry_fold_addAt rows cols (ops : list (nat * nat * T)) K a b :
  shaped rows cols K ->
  Forall (fun op => (fst (fst op) < rows)%nat /\ (snd (fst op) < cols)%nat) ops ->
  NoDup (map fst ops) ->
  let K' := fold_left (fun K op => addAt K (fst (fst op)) (snd (fst op)) (snd op)) ops K in
  shaped rows cols K' /\
  entry K' a b =
    match find (fun op => Nat.eqb (fst (fst op)) a && Nat.eqb (snd (fst op)) b) ops with
    | Some op => entry K a b + snd op
    | None => entry K a b
    end.
Proof.
  revert K; induction ops as [|[[i j] v] ops IH]; intros K HK Hr Hnd; cbv zeta; simpl.
  - now split.
  - inversion Hr as [|? ? [Hi Hj] Hr']; subst. inversion Hnd as [|? ? Hni Hnd']; subst.
    simpl in Hi, Hj.
    destruct (IH (addAt K i j v) (shaped_addAt i j v HK) Hr' Hnd') as [Hs He].
    split; [exact Hs|]. rewrite He, (entry_addAt v a b HK Hi Hj).
    simpl. destruct (Nat.eqb i a && Nat.eqb j b) eqn:Hab; [|reflexivity].
    destruct (find _ ops) as [op|] eqn:Hf; [|reflexivity].
    exfalso. apply find_some in Hf. destruct Hf as [Hin Hop].
    apply andb_true_iff in Hab, Hop. destruct Hab as [Ha Hb], Hop as [Ha' Hb'].
    apply Nat.eqb_eq in Ha, Hb, Ha', Hb'. apply Hni.
    apply in_map_iff. exists op. split; [|exact Hin].
    destruct op as [[i' j'] v']. simpl in *. congruence.
Qed.

Lemma get_fold_upd_add (ops : list (nat * T)) (F : list T) a :
  Forall (fun op => (fst op < length F)%nat) ops ->
  NoDup (map fst ops) ->
  let F' := fold_left (fun F op => upd F (fst op) (get F (fst op) + snd op)) ops F in
  length F' = length F /\
  get F' a =
    match find (fun op => Nat.eqb (fst op) a) ops with
    | Some op => get F a + snd op
    | None => get F a
    end.
Proof.
  revert F; induction ops as [|[i v] ops IH]; intros F Hr Hnd; cbv zeta; simpl.
  - now split.
  - inversion Hr as [|? ? Hi Hr']; subst. inversion Hnd as [|? ? Hni Hnd']; subst.
    simpl in Hi.
    destruct (IH (upd F i (get F i + v))) as [Hl He]; [|exact Hnd'|].
    { rewrite length_upd. exact Hr'. }
    rewrite length_upd in Hl. split; [exact Hl|].
    rewrite He, get_upd_add by exact Hi.
    destruct (Nat.eqb_spec i a) as [->|Hne]; [|reflexivity].
    destruct (find _ ops) as [op|] eqn:Hf; [|reflexivity].
    exfalso. apply find_some in Hf. destruct Hf as [Hin Hop].
    apply Nat.eqb_eq in Hop. apply Hni, in_map_iff. exists op. auto.
Qed.

End PointUpdates.

Section Scatter.
Context {T : Type} {N : Number T}.
Local Open Scope num_scope.

Lemma fold_left_pair {A B C} (g : A -> C -> A) (h : B -> C -> B) (l : list C) a b :
  fold_left (fun p c => (g (fst p) c, h (snd p) c)) l (a, b) =
  (fold_left g l a, fold_left h l b).
Proof.
  revert a b; induction l as [|c l IH]; intros a b; simpl; [reflexivity|apply IH].
Qed.

Lemma fold_left_flat_map {A B C} (f : A -> B -> A) (g : C -> list B) (l : list C) a :
  fold_left f (flat_map g l) a = fold_left (fun acc c => fold_left f (g c) acc) l a.
Proof.
  revert a; induction l as [|c l IH]; intros a; simpl; [reflexivity|].
  now rewrite fold_left_app, IH.
Qed.

Lemma fold_left_map {A B C} (f : A -> B -> A) (g : C -> B) (l : list C) a :
  fold_left f (map g l) a = fold_left (fun acc c => f acc (g c)) l a.
Proof.
  revert a; induction l as [|c l IH]; intros a; simpl; [reflexivity|apply IH].
Qed.

Lemma fold_left_ext {A B} (f g : A -> B -> A) (l : list B) a :
  (forall x y, f x y = g x y) -> fold_left f l a = fold_left g l a.
Proof.
  intros H. revert a; induction l as [|c l IH]; intros a; simpl; [reflexivity|].
  now rewrite H, IH.
Qed.

(* the two nested loops, over any index lists *)
Lemma scatter_loops (dm : list nat) (kl : list (list T)) (ff : list T) (rs cs : list nat) K F :
  fold_left (fun KF r =>
               (fold_left (fun K c =>
                             upd K (nth r dm O)
                               (upd (row K (nth r dm O)) (nth c dm O)
                                  (entry K (nth r dm O) (nth c dm O) + entry kl r c)))
                          cs (fst KF),
                upd (snd KF) (nth r dm O) (get (snd KF) (nth r dm O) + get ff r)))
            rs (K, F) =
  (fold_left (fun K op => addAt K (fst (fst op)) (snd (fst op)) (snd op))
     (flat_map (fun r => map (fun c => (nth r dm O, nth c dm O, entry kl r c)) cs) rs) K,
   fold_left (fun F op => upd F (fst op) (get F (fst op) + snd op))
     (map (fun r => (nth r dm O, get ff r)) rs) F).
Proof.
  revert K F; induction rs as [|r rs IH]; intros K F; [reflexivity|].
  cbn [fold_left flat_map map fst snd]. rewrite IH, fold_left_app. f_equal. f_equal.
  rewrite fold_left_map. reflexivity.
Qed.

Lemma scatter_ops (i : nat) (kl : list (list T)) (ff : list T) K F :
  scatter (dofMap i) kl ff (K, F) =
  (fold_left (fun K op => addAt K (fst (fst op)) (snd (fst op)) (snd op)) (opsK i kl) K,
   fold_left (fun F op => upd F (fst op) (get F (fst op) + snd op)) (opsF i ff) F).
Proof.
  unfold scatter, scatterRow, opsK, opsF.
  exact (scatter_loops (dofMap i) kl ff (seq 0 4) (seq 0 4) K F).
Qed.

Lemma localIndex_Some i a r :
  localIndex i a = Some r <-> (a = i * 2 + r /\ r < 4)%nat.
Proof.
  unfold localIndex. destruct (Nat.ltb_spec a (i * 2)).
  - split; [discriminate|lia].
  - destruct (Nat.ltb_spec (a - i * 2) 4).
    + split; [intros H'; inversion H'; lia|intros [-> _]; f_equal; lia].
    + split; [discriminate|lia].
Qed.

Lemma localIndex_None i a :
  localIndex i a = None <-> (a < i * 2 \/ i * 2 + 4 <= a)%nat.
Proof.
  unfold localIndex. destruct (Nat.ltb_spec a (i * 2)).
  - split; auto.
  - destruct (Nat.ltb_spec (a - i * 2) 4).
    + split; [discriminate|lia].
    + split; [lia|reflexivity].
Qed.

Ltac eqb_lia :=
  repeat match goal with
  | |- context [Nat.eqb ?u ?v] =>
      first [ rewrite (proj2 (Nat.eqb_eq u v)) by lia
            | rewrite (proj2 (Nat.eqb_neq u v)) by lia ]
  end.

Ltac red_ops :=
  unfold opsK, opsF, dofMap;
  cbn [flat_map map seq app nth find fst snd andb].

Ltac four r H := destruct r as [|[|[|[|r]]]]; [| | | |exfalso; lia].

Lemma find_opsF i ff a :
  find (fun op : nat * T => Nat.eqb (fst op) a) (opsF i ff) =
  match localIndex i a with
  | Some r => Some (a, get ff r)
  | None => None
  end.
Proof.
  destruct (localIndex i a) as [r|] eqn:Ea.
  - apply localIndex_Some in Ea. destruct Ea as [-> Hr].
    four r Hr; red_ops; eqb_lia; red_ops;
      apply f_equal; (apply f_equal2; [lia|reflexivity]).
  - apply localIndex_None in Ea. red_ops. eqb_lia. reflexivity.
Qed.

Lemma find_opsK i kl a b :
  find (fun op : nat * nat * T => Nat.eqb (fst (fst op)) a && Nat.eqb (snd (fst op)) b)
       (opsK i kl) =
  match localIndex i a, localIndex i b with
  | Some r, Some c => Some (a, b, entry kl r c)
  | _, _ => None
  end.
Proof.
  destruct (localIndex i a) as [r|] eqn:Ea.
  - apply localIndex_Some in Ea. destruct Ea as [-> Hr].
    destruct (localIndex i b) as [c|] eqn:Eb.
    + apply localIndex_Some in Eb. destruct Eb as [-> Hc].
      four r Hr; four c Hc; red_ops; eqb_lia; red_ops;
        apply f_equal; (apply f_equal2; [apply f_equal2; lia|reflexivity]).
    + apply localIndex_None in Eb.
      four r Hr; red_ops; eqb_lia; red_ops; rewrite ?andb_false_r; reflexivity.
  - apply localIndex_None in Ea. red_ops. eqb_lia. reflexivity.
Qed.

Lemma NoDup_opsF i ff : NoDup (map fst (opsF i ff)).
Proof.
  red_ops. repeat constructor; cbn [In]; intuition lia.
Qed.

Lemma NoDup_opsK i kl : NoDup (map fst (opsK i kl)).
Proof.
  red_ops. repeat constructor; cbn [In]; intros H;
    repeat (destruct H as [H|H]; [apply pair_equal_spec in H; lia|]);
    destruct H.
Qed.

Lemma scatter_spec (n i : nat) kl ff K F a b :
  (i + 1 < n)%nat -> shaped (n * 2) (n * 2) K -> length F = (n * 2)%nat ->
  let KF := scatter (dofMap i) kl ff (K, F) in
  shaped (n * 2) (n * 2) (fst KF) /\ length (snd KF) = (n * 2)%nat /\
  entry (fst KF) a b =
    match localIndex i a, localIndex i b with
    | Some r, Some c => entry K a b + entry kl r c
    | _, _ => entry K a b
    end /\
  get (snd KF) a =
    match localIndex i a with
    | Some r => get F a + get ff r
    | None => get F a
    end.
Proof.
  intros Hi HK HF. cbv zeta. rewrite scatter_ops. cbn [fst snd].
  destruct (@entry_fold_addAt _ _ (n * 2) (n * 2) (opsK i kl) K a b HK) as [H1 H2].
  { red_ops. repeat constructor; cbn [fst snd]; lia. }
  { apply NoDup_opsK. }
  destruct (@get_fold_upd_add _ _ (opsF i ff) F a) as [H3 H4].
  { red_ops. rewrite HF. repeat constructor; cbn [fst snd]; lia. }
  { apply NoDup_opsF. }
  split; [exact H1|]. split; [now rewrite H3|]. split.
  - rewrite H2, find_opsK.
    destruct (localIndex i a); [destruct (localIndex i b)|]; reflexivity.
  - rewrite H4, find_opsF. destruct (localIndex i a); reflexivity.
Qed.

End Scatter.

Section Assembler.
Context {T : Type} {N : Number T}.
Local Open Scope num_scope.

Lemma findIndex_lt {A} (p : A -> bool) (l : list A) j :
  findIndex p l = Some j -> (j < length l)%nat.
Proof.
  revert j; induction l as [|h t IH]; intros j; simpl; [discriminate|].
  destruct (p h).
  - intros H; inversion H; lia.
  - destruct (findIndex p t) as [j'|]; simpl; [|discriminate].
    intros H; inversion H. specialize (IH j' eq_refl). lia.
Qed.

Lemma mapLoadsToNodes_acc (nodes : list (@Node T)) (pointLoads : list PointLoad)
    (acc : list T) (i : nat) :
  length acc = length nodes ->
  let r := fold_left
    (fun nodeLoads load =>
       match findIndex (fun node => x node =? p_positionMm load) nodes with
       | Some index =>
           upd nodeLoads index (get nodeLoads index + (- p_magnitudeKn load) * $1000)
       | None => nodeLoads
       end) pointLoads acc in
  length r = length nodes /\
  get r i = fold_left (fun sum load => sum + (- p_magnitudeKn load) * $1000)
              (loadsAt nodes pointLoads i) (get acc i).
Proof.
  revert acc; induction pointLoads as [|load pls IH]; intros acc Hl; cbv zeta; simpl.
  - now split.
  - destruct (findIndex _ nodes) as [j|] eqn:Ef.
    + pose proof (findIndex_lt _ _ Ef) as Hj.
      destruct (IH (upd acc j (get acc j + (- p_magnitudeKn load) * $1000)))
        as [H1 H2]; [now rewrite length_upd|].
      split; [exact H1|]. rewrite H2, get_upd_add by lia.
      destruct (Nat.eqb j i); reflexivity.
    + now apply IH.
Qed.

Lemma mapLoadsToNodes_spec (nodes : list (@Node T)) (pointLoads : list PointLoad) (i : nat) :
  length (mapLoadsToNodes nodes pointLoads) = length nodes /\
  get (mapLoadsToNodes nodes pointLoads) i = pointLoadAt nodes pointLoads i.
Proof.
  unfold mapLoadsToNodes, pointLoadAt.
  destruct (@mapLoadsToNodes_acc nodes pointLoads (repeat $0 (length nodes)) i)
    as [H1 H2]; [apply repeat_length|].
  split; [exact H1|]. rewrite H2. f_equal.
  unfold get. destruct (Nat.lt_ge_cases i (length nodes)).
  - now apply nth_repeat_lt.
  - apply nth_overflow. now rewrite repeat_length.
Qed.

Lemma find_even_ops (g : nat -> T) (a s len : nat) :
  find (fun op : nat * T => Nat.eqb (fst op) a) (map (fun i => (i * 2, g i)%nat) (seq s len)) =
  if Nat.even a && Nat.leb s (Nat.div2 a) && Nat.ltb (Nat.div2 a) (s + len)
  then Some (a, g (Nat.div2 a)) else None.
Proof.
  revert s; induction len as [|len IH]; intros s; cbn [seq map find fst].
  - destruct (Nat.even a); cbn [andb]; [|reflexivity].
    destruct (Nat.leb_spec s (Nat.div2 a)); cbn [andb]; [|reflexivity].
    destruct (Nat.ltb_spec (Nat.div2 a) (s + 0)); [lia|reflexivity].
  - destruct (Nat.eqb_spec (s * 2) a) as [<-|Hne].
    + replace (s * 2)%nat with (2 * s)%nat by lia.
      rewrite Nat.even_mul, Nat.div2_double. cbn [Nat.even orb andb].
      rewrite Nat.leb_refl. cbn [andb].
      destruct (Nat.ltb_spec s (s + S len)); [reflexivity|lia].
    + rewrite IH. destruct (Nat.even a) eqn:Ev; cbn [andb]; [|reflexivity].
      assert (Ha : a = (2 * Nat.div2 a)%nat).
      { rewrite (Nat.div2_odd a) at 1. rewrite <- Nat.negb_even, Ev. simpl. lia. }
      destruct (Nat.leb_spec (S s) (Nat.div2 a)), (Nat.leb_spec s (Nat.div2 a));
        cbn [andb]; try lia; try reflexivity.
      destruct (Nat.ltb_spec (Nat.div2 a) (S s + len)),
                 (Nat.ltb_spec (Nat.div2 a) (s + S len)); try lia; reflexivity.
Qed.

Lemma nodalLoads_spec (npl : list T) (n a : nat) :
  (a < n * 2)%nat ->
  let F1 := fold_left (fun F index => upd F (index * 2) (get F (index * 2) + get npl index))
              (seq 0 n) (repeat $0 (n * 2)) in
  length F1 = (n * 2)%nat /\
  get F1 a = if Nat.even a then $0 + get npl (Nat.div2 a) else $0.
Proof.
  intros Ha. cbv zeta.
  assert (Hf : forall F0 : list T,
    fold_left (fun F index => upd F (index * 2) (get F (index * 2) + get npl index))
      (seq 0 n) F0 =
    fold_left (fun F (op : nat * T) => upd F (fst op) (get F (fst op) + snd op))
      (map (fun index => (index * 2, get npl index)%nat) (seq 0 n)) F0).
  { intros F0. rewrite fold_left_map. reflexivity. }
  rewrite Hf. clear Hf.
  destruct (@get_fold_upd_add _ _ (map (fun index => (index * 2, get npl index)%nat) (seq 0 n))
              (repeat $0 (n * 2)) a) as [H1 H2].
  - apply Forall_forall. intros op Hop. apply in_map_iff in Hop.
    destruct Hop as [i [<- Hi]]. apply in_seq in Hi. rewrite repeat_length. simpl. lia.
  - rewrite map_map. simpl. apply Injective_map_NoDup; [|apply seq_NoDup].
    intros u v Huv. lia.
  - rewrite repeat_length in H1. split; [exact H1|].
    assert (Hz : get (repeat $0 (n * 2)) a = $0) by now apply nth_repeat_lt.
    rewrite H2, find_even_ops, Hz.
    destruct (Nat.even a) eqn:Ev; cbn [andb]; [|reflexivity].
    assert (Hd : (Nat.div2 a < n)%nat).
    { rewrite (Nat.div2_odd a) in Ha. lia. }
    cbn [Nat.leb Nat.add]. destruct (Nat.ltb_spec (Nat.div2 a) n); [reflexivity|lia].
Qed.

Lemma assembleElement_spec (nodes : list (@Node T)) (EI : T) (udls : list Udl)
    (st : System) (i a b : nat) :
  (i + 1 < length nodes)%nat ->
  shaped (length nodes * 2) (length nodes * 2) (K st) ->
  length (F st) = (length nodes * 2)%nat ->
  let st' := assembleElement nodes EI udls st i in
  shaped (length nodes * 2) (length nodes * 2) (K st') /\
  length (F st') = (length nodes * 2)%nat /\
  elementData st' = elementData st ++ elementsOf nodes EI udls [i] /\
  entry (K st') a b = fold_left (addK a b) (elementsOf nodes EI udls [i]) (entry (K st) a b) /\
  get (F st') a = fold_left (addF a) (elementsOf nodes EI udls [i]) (get (F st) a).
Proof.
  intros Hi HK HF. cbv zeta. unfold assembleElement, elementsOf.
  cbn [flat_map]. rewrite app_nil_r.
  fold (nodeAt nodes i). fold (nodeAt nodes (i + 1)). fold (elementSpan nodes i).
  destruct (elementSpan nodes i <=? $0).
  - rewrite app_nil_r. cbn [fold_left]. auto.
  - set (w := - getElementUdl udls (x (nodeAt nodes i)) (x (nodeAt nodes (i + 1)))).
    set (L := elementSpan nodes i).
    destruct (@scatter_spec _ _ (length nodes) i (kLocalOf EI L) (fFixedOf w L)
                (K st) (F st) a b Hi HK HF) as [H1 [H2 [H3 H4]]].
    cbn [K F elementData fold_left]. unfold addK, addF, elementOf.
    cbn [index kLocal fFixed]. fold L. fold w. auto.
Qed.

Lemma assemble_fold (nodes : list (@Node T)) (EI : T) (udls : list Udl)
    (idx : list nat) (st : System) (a b : nat) :
  Forall (fun i => (i + 1 < length nodes)%nat) idx ->
  shaped (length nodes * 2) (length nodes * 2) (K st) ->
  length (F st) = (length nodes * 2)%nat ->
  let st' := fold_left (assembleElement nodes EI udls) idx st in
  shaped (length nodes * 2) (length nodes * 2) (K st') /\
  length (F st') = (length nodes * 2)%nat /\
  elementData st' = elementData st ++ elementsOf nodes EI udls idx /\
  entry (K st') a b = fold_left (addK a b) (elementsOf nodes EI udls idx) (entry (K st) a b) /\
  get (F st') a = fold_left (addF a) (elementsOf nodes EI udls idx) (get (F st) a).
Proof.
  revert st; induction idx as [|i idx IH]; intros st Hidx HK HF; cbv zeta.
  - cbn [fold_left elementsOf flat_map]. rewrite app_nil_r. auto.
  - inversion Hidx as [|? ? Hi Hidx']; subst.
    destruct (@assembleElement_spec nodes EI udls st i a b Hi HK HF)
      as [H1 [H2 [H3 [H4 H5]]]].
    destruct (IH _ Hidx' H1 H2) as [G1 [G2 [G3 [G4 G5]]]].
    cbn [fold_left]. split; [exact G1|]. split; [exact G2|].
    assert (Hsplit : elementsOf nodes EI udls (i :: idx) =
                     elementsOf nodes EI udls [i] ++ elementsOf nodes EI udls idx).
    { unfold elementsOf. cbn [flat_map]. now rewrite app_nil_r. }
    rewrite Hsplit, !fold_left_app, <- H4, <- H5, app_assoc, <- H3. auto.
Qed.

Lemma assembleSystem_facts (nodes : list (@Node T)) (youngsModulusMpa inertiaMm4 : T)
    (pointLoads : list PointLoad) (udls : list Udl) :
  let n := length nodes in
  let EI := youngsModulusMpa * inertiaMm4 in
  let sys := assembleSystem nodes youngsModulusMpa inertiaMm4 pointLoads udls in
  elementData sys = elementsOf nodes EI udls (seq 0 (n - 1)) /\
  shaped (n * 2) (n * 2) (K sys) /\
  length (F sys) = (n * 2)%nat /\
  (forall a b, entry (K sys) a b = fold_left (addK a b) (elementData sys) $0) /\
  (forall a, (a < n * 2)%nat ->
     get (F sys) a =
     fold_left (addF a) (elementData sys)
       (if Nat.even a then $0 + pointLoadAt nodes pointLoads (Nat.div2 a) else $0)).
Proof.
  intros n EI sys.
  assert (Hidx : Forall (fun i => (i + 1 < length nodes)%nat) (seq 0 (n - 1))).
  { apply Forall_forall. intros i Hi. apply in_seq in Hi. subst n. lia. }
  set (npl := mapLoadsToNodes nodes pointLoads).
  set (F1 := fold_left (fun F index => upd F (index * 2) (get F (index * 2) + get npl index))
               (seq 0 n) (repeat $0 (n * 2))).
  set (st0 := {| K := repeat (repeat $0 (n * 2)) (n * 2); F := F1; elementData := [] |}).
  assert (HF1 : length F1 = (n * 2)%nat).
  { destruct n as [|n']; [reflexivity|].
    apply (@nodalLoads_spec npl (S n') 0). lia. }
  assert (Hsys : sys = fold_left (assembleElement nodes EI udls) (seq 0 (n - 1)) st0)
    by reflexivity.
  split; [|split; [|split; [|split]]].
  - destruct (@assemble_fold nodes EI udls (seq 0 (n - 1)) st0 0 0 Hidx
                (shaped_repeat (n * 2) (n * 2)) HF1) as [_ [_ [H _]]].
    rewrite Hsys, H. reflexivity.
  - now destruct (@assemble_fold nodes EI udls (seq 0 (n - 1)) st0 0 0 Hidx
                    (shaped_repeat (n * 2) (n * 2)) HF1) as [H _].
  - now destruct (@assemble_fold nodes EI udls (seq 0 (n - 1)) st0 0 0 Hidx
                    (shaped_repeat (n * 2) (n * 2)) HF1) as [_ [H _]].
  - intros a b.
    destruct (@assemble_fold nodes EI udls (seq 0 (n - 1)) st0 a b Hidx
                (shaped_repeat (n * 2) (n * 2)) HF1) as [_ [_ [H3 [H4 _]]]].
    rewrite Hsys, H4, H3. cbn [elementData K st0 app]. f_equal.
    unfold entry, row, get.
    destruct (Nat.lt_ge_cases a (n * 2)).
    + rewrite nth_repeat_lt by assumption.
      destruct (Nat.lt_ge_cases b (n * 2)).
      * now apply nth_repeat_lt.
      * apply nth_overflow. now rewrite repeat_length.
    + rewrite (nth_overflow (repeat _ _)) by now rewrite repeat_length.
      now destruct b.
  - intros a Ha.
    destruct (@assemble_fold nodes EI udls (seq 0 (n - 1)) st0 a 0 Hidx
                (shaped_repeat (n * 2) (n * 2)) HF1) as [_ [_ [H3 [_ H5]]]].
    rewrite Hsys, H5, H3. cbn [elementData F st0 app]. f_equal.
    destruct (@nodalLoads_spec npl n a Ha) as [_ H]. fold F1 in H. rewrite H.
    destruct (Nat.even a); [|reflexivity].
    f_equal. apply mapLoadsToNodes_spec.
Qed.

(** C4. For every consecutive node pair [(i, i+1)] whose length [L] is
    not [<= 0], the assembler records [w], the negated sum of the
    intensities of the UDLs whose interval contains the midpoint, the
    local stiffness matrix scaled by [EI / L^3] and the fixed-end force
    vector; [K] and [F] are what results from adding these, element by
    element, at the DOF indices [2i, 2i+1, 2(i+1), 2(i+1)+1], on top of
    [0 + -(magnitude * 1000)] summed per node at the vertical DOF of the
    node found at each point load's position. *)
Theorem assembleSystem_spec (nodes : list (@Node T)) (youngsModulusMpa inertiaMm4 : T)
    (pointLoads : list PointLoad) (udls : list Udl) :
  let n := length nodes in
  let EI := youngsModulusMpa * inertiaMm4 in
  let sys := assembleSystem nodes youngsModulusMpa inertiaMm4 pointLoads udls in
  elementData sys =
    flat_map (fun i =>
      let x1 := x (nodeAt nodes i) in
      let x2 := x (nodeAt nodes (i + 1)) in
      let L := x2 - x1 in
      if L <=? $0 then [] else
      let w := - fold_left (fun sum udl => sum + u_magnitudeKnPerM udl)
                   (filter (fun udl => ((x1 + x2) / $2 >=? u_startMm udl) &&
                                       ((x1 + x2) / $2 <=? u_endMm udl)) udls) $0 in
      let f := EI / (L * L * L) in
      [ {| index := i; length_ := L; wNPerMm := w;
           kLocal :=
             [ [$12 * f; $6 * L * f; - $12 * f; $6 * L * f];
               [$6 * L * f; $4 * (L * L) * f; - $6 * L * f; $2 * (L * L) * f];
               [- $12 * f; - $6 * L * f; $12 * f; - $6 * L * f];
               [$6 * L * f; $2 * (L * L) * f; - $6 * L * f; $4 * (L * L) * f] ];
           fFixed := [ w * L / $2; w * (L * L) / $12; w * L / $2; - (w * (L * L)) / $12 ] |} ])
      (seq 0 (n - 1)) /\
  shaped (n * 2) (n * 2) (K sys) /\
  length (F sys) = (n * 2)%nat /\
  (forall a b,
     entry (K sys) a b =
     fold_left (fun acc e =>
                  match localIndex (index e) a, localIndex (index e) b with
                  | Some r, Some c => acc + entry (kLocal e) r c
                  | _, _ => acc
                  end) (elementData sys) $0) /\
  (forall a, (a < n * 2)%nat ->
     get (F sys) a =
     fold_left (fun acc e =>
                  match localIndex (index e) a with
                  | Some r => acc + get (fFixed e) r
                  | None => acc
                  end) (elementData sys)
       (if Nat.even a
        then $0 + fold_left (fun sum load => sum + (- p_magnitudeKn load) * $1000)
                    (loadsAt nodes pointLoads (Nat.div2 a)) $0
        else $0)).
Proof.
  exact (assembleSystem_facts nodes youngsModulusMpa inertiaMm4 pointLoads udls).
Qed.

End Assembler.

(** ** Support kinds at coincident positions *)

Section FirstMatch.
Context {T : Type} {N : Number T}.
Local Open Scope num_scope.

Lemma find_first {A} (p : A -> bool) (pre post : list A) (s : A) :
  (forall s', In s' pre -> p s' = false) -> p s = true ->
  find p (pre ++ s :: post) = Some s.
Proof.
  induction pre as [|h t IH]; intros Hpre Hs; simpl.
  - now rewrite Hs.
  - rewrite (Hpre h) by now left. apply IH; [|exact Hs].
    intros s' Hs'. apply Hpre. now right.
Qed.

(** C8, as the code has it.  The kind of a mesh node is the kind of the
    first support definition, in input order, whose position equals the
    node's: later definitions at the same position are not consulted. *)
Theorem buildNodes_first_support_wins (lengthMm : T) (supports : list Support)
    (pointLoads : list PointLoad) (udls : list Udl)
    (nd : Node) (pre post : list Support) (s : Support) :
  In nd (buildNodes lengthMm supports pointLoads udls) ->
  supports = pre ++ s :: post ->
  (s_positionMm s =? x nd) = true ->
  (forall s', In s' pre -> (s_positionMm s' =? x nd) = false) ->
  supportType nd = s_type s.
Proof.
  intros Hnd -> Hs Hpre. rewrite (buildNodes_kind _ _ _ _ _ Hnd).
  now rewrite (find_first (fun item => s_positionMm item =? x nd) pre post s Hpre Hs).
Qed.

End FirstMatch.

(** ** The engine on binary64 *)

Section OnFloats.
Local Open Scope float_scope.

(** The spec's closed forms, on binary64: the simply supported beam with a
    centred load of 8 kN has reactions 4 and 4. *)
Example simply_supported_reactions :
  match analysis 3000 10000 25721250
          [ {| s_id := 1; s_positionMm := 0; s_type := pinned |};
            {| s_id := 2; s_positionMm := 3000; s_type := pinned |} ]
          DEFAULT_POINT_LOADS [] with
  | AnalysisResult _ rt _ => map r_verticalKn rt = [4; 4]
  | AnalysisError _ => False
  end.
Proof. vm_compute. reflexivity. Qed.

(** C3, on binary64.  A beam whose only support is one pin, and a beam with
    no support at all, on which the engine returns a numeric result: the
    pivots left by rounding are above 1e-9. *)
Theorem unstable_beams_solved :
  (exists nodes rt d,
     analysis 3000 10000 25721250 onePinned [] DEFAULT_UDLS = AnalysisResult nodes rt d) /\
  (exists nodes rt d,
     analysis 3000 200000 25721250 [] fourLoads DEFAULT_UDLS = AnalysisResult nodes rt d).
Proof.
  split; do 3 eexists; vm_compute; reflexivity.
Qed.

(** C1, on binary64.  On the beam with one pin the engine reports success
    with a vertical reaction below -2 kN, against an applied load of 8 kN;
    on the beam with no support it reports success with no reaction at all,
    against 40 kN. *)
Theorem equilibrium_violated :
  (exists nodes rt d,
     analysis 3000 10000 25721250 onePinned [] DEFAULT_UDLS = AnalysisResult nodes rt d /\
     PrimFloat.ltb (sumVerticalKn rt) (-2) = true /\
     appliedLoadKn [] DEFAULT_UDLS = 8) /\
  (exists nodes d,
     analysis 3000 200000 25721250 [] fourLoads DEFAULT_UDLS = AnalysisResult nodes [] d /\
     sumVerticalKn (@nil (@Reaction float)) = 0 /\
     appliedLoadKn fourLoads DEFAULT_UDLS = 40).
Proof.
  split.
  - do 3 eexists. split; [vm_compute; reflexivity|]. split; vm_compute; reflexivity.
  - do 2 eexists. split; [vm_compute; reflexivity|]. split; vm_compute; reflexivity.
Qed.

End OnFloats.

(** The same two beams in exact arithmetic: the elimination meets a zero
    pivot column and the engine reports instability. *)
Lemma unstable_beams_exact :
  analysis (T:=Qc) (fromZ 3000) (fromZ 10000) (fromZ 25721250)
    [ {| s_id := 2; s_positionMm := fromZ 3000; s_type := pinned |} ] [] DEFAULT_UDLS
  = AnalysisError unstableMessage /\
  analysis (T:=Qc) (fromZ 3000) (fromZ 200000) (fromZ 25721250) []
    [ {| p_id := 1; p_positionMm := fromZ 600; p_magnitudeKn := fromZ 8 |};
      {| p_id := 2; p_positionMm := fromZ 1200; p_magnitudeKn := fromZ 8 |};
      {| p_id := 3; p_positionMm := fromZ 1800; p_magnitudeKn := fromZ 8 |};
      {| p_id := 4; p_positionMm := fromZ 2400; p_magnitudeKn := fromZ 8 |} ]
    DEFAULT_UDLS
  = AnalysisError unstableMessage.
Proof.
  split; vm_compute; reflexivity.
Qed.

(** ** Fully restrained meshes *)

Section Restrained.
Context {T : Type} {N : Number T}.
Local Open Scope num_scope.

Lemma nth_combine_seq {A} (l : list A) (a : nat) (d : A) :
  (a < length l)%nat -> nth a (combine l (seq 0 (length l))) (d, O) = (nth a l d, a).
Proof.
  intros Ha. rewrite combine_nth by now rewrite length_seq.
  now rewrite seq_nth.
Qed.

Lemma get_reactionsOf (K : list (list T)) (F d : list T) (a : nat) :
  (a < length K)%nat ->
  get (reactionsOf K F d) a = dot (row K a) d - get F a.
Proof.
  intros Ha. unfold reactionsOf, get at 1.
  rewrite (nth_map_lt _ _ _ ([], O)) by now rewrite length_combine, length_seq, Nat.min_id.
  now rewrite nth_combine_seq.
Qed.




End Restrained.

Section RestrainedExact.
Context {T : Type} {N : Number T} {E : ExactNumber T}.
Local Open Scope num_scope.

Add Ring T_ring' : en_ring.



End RestrainedExact.

(** ** Reaction & Response Evaluator *)

Section Evaluator.
Context {T : Type} {N : Number T}.
Local Open Scope num_scope.

Lemma elementSamples_elementOf (nodes : list (@Node T)) (u : list T) (EI : T)
    (udls : list Udl) (i : nat) :
  elementSamples nodes u (elementOf nodes EI udls i) =
  map (sampleOf nodes u (elementOf nodes EI udls i)) (seq 0 41).
Proof.
  unfold elementSamples. apply map_ext. intros j. reflexivity.
Qed.

Lemma computeDiagrams_elementsOf (nodes : list (@Node T)) (u : list T) (EI : T)
    (udls : list Udl) (idx : list nat) :
  computeDiagrams nodes (elementsOf nodes EI udls idx) u =
  flat_map (fun e => map (sampleOf nodes u e) (seq 0 41)) (elementsOf nodes EI udls idx).
Proof.
  unfold computeDiagrams. rewrite !flat_map_concat_map. f_equal.
  apply map_ext_in. intros e He. unfold elementsOf in He. apply in_flat_map in He.
  destruct He as [i [_ He]]. destruct (elementSpan nodes i <=? $0); [destruct He|].
  destruct He as [<-|[]]. apply elementSamples_elementOf.
Qed.

Lemma length_flat_map_const {A B} (g : A -> list B) (l : list A) (m : nat) :
  (forall a, In a l -> length (g a) = m) -> length (flat_map g l) = (m * length l)%nat.
Proof.
  induction l as [|a l IH]; intros H; simpl; [lia|].
  rewrite length_app, IH, (H a) by (simpl in *; auto). lia.
Qed.

End Evaluator.

Section EvaluatorExact.
Context {T : Type} {N : Number T} {E : ExactNumber T}.
Local Open Scope num_scope.

Add Field T_field' : (num_field (T:=T)).

Lemma num_40_neq_0 : $40 <> ($0 : T).
Proof. apply num_pos_neq, fromZ_pos. Qed.

Lemma local_x_0 (L : T) : L * $(Z.of_nat 0) / $40 = $0.
Proof. cbn [Z.of_nat]. field. exact num_40_neq_0. Qed.

Lemma local_x_40 (L : T) : L * $(Z.of_nat 40) / $40 = L.
Proof. change (Z.of_nat 40) with 40%Z. field. exact num_40_neq_0. Qed.

Lemma local_x_step (L : T) (j : nat) :
  L * $(Z.of_nat (S j)) / $40 = L * $(Z.of_nat j) / $40 + L / $40.
Proof.
  rewrite Nat2Z.inj_succ. unfold Z.succ. rewrite en_fromZ_add.
  field. exact num_40_neq_0.
Qed.

Lemma local_x_mono (L : T) (j j' : nat) :
  num_lt $0 L -> (j <= j')%nat ->
  num_le (L * $(Z.of_nat j) / $40) (L * $(Z.of_nat j') / $40).
Proof.
  intros HL. induction 1 as [|j' Hj IH]; [apply num_le_refl|].
  apply (num_le_trans IH). rewrite local_x_step.
  apply num_le_add_l, num_le_iff. left. apply num_div_pos; [exact HL|apply fromZ_pos].
Qed.

Lemma num_le_add_mono (c a b : T) : num_le a b -> num_le (c + a) (c + b).
Proof.
  rewrite !num_le_iff. intros [H| ->]; [left|now right].
  apply (proj1 (num_lt_add_r a b c)) in H.
  now replace (a + c) with (c + a) in H by ring; replace (b + c) with (c + b) in H by ring.
Qed.

Lemma StronglySorted_app {A} (R : A -> A -> Prop) (l1 l2 : list A) :
  StronglySorted R l1 -> StronglySorted R l2 ->
  (forall a b, In a l1 -> In b l2 -> R a b) ->
  StronglySorted R (l1 ++ l2).
Proof.
  induction 1 as [|a l1 Hs IH Ha]; intros H2 H12; simpl; [exact H2|].
  constructor.
  - apply IH; [exact H2|]. intros u v Hu Hv. apply H12; [now right|exact Hv].
  - apply Forall_forall. intros y Hy. apply in_app_or in Hy. destruct Hy as [Hy|Hy].
    + rewrite Forall_forall in Ha. now apply Ha.
    + apply H12; [now left|exact Hy].
Qed.

Lemma StronglySorted_nth {A} (R : A -> A -> Prop) (l : list A) (d : A) (i j : nat) :
  StronglySorted R l -> (i < j < length l)%nat -> R (nth i l d) (nth j l d).
Proof.
  intros Hs. revert i j. induction Hs as [|a l Hs IH Ha]; intros i j Hij; simpl in *; [lia|].
  destruct j as [|j]; [lia|]. destruct i as [|i].
  - rewrite Forall_forall in Ha. apply Ha, nth_In. lia.
  - apply IH. lia.
Qed.

Lemma sampleXs_sorted (c L : T) (s m : nat) :
  num_lt $0 L -> StronglySorted num_le (sampleXs c L s m).
Proof.
  intros HL. revert s; induction m as [|m IH]; intros s; [constructor|].
  unfold sampleXs. cbn [seq map]. constructor; [apply IH|].
  apply Forall_forall. intros y Hy. apply in_map_iff in Hy.
  destruct Hy as [j [<- Hj]]. apply in_seq in Hj.
  apply num_le_add_mono, local_x_mono; [exact HL|lia].
Qed.

Lemma sampleXs_bounds (c L : T) (y : T) :
  num_lt $0 L -> In y (sampleXs c L 0 41) -> num_le c y /\ num_le y (c + L).
Proof.
  intros HL Hy. apply in_map_iff in Hy. destruct Hy as [j [<- Hj]]. apply in_seq in Hj.
  split.
  - replace c with (c + $0) at 1 by ring. rewrite <- (local_x_0 L).
    apply num_le_add_mono, local_x_mono; [exact HL|lia].
  - rewrite <- (local_x_40 L) at 2.
    apply num_le_add_mono, local_x_mono; [exact HL|lia].
Qed.

Section OnSortedNodes.
Variable nodes : list (@Node T).
Hypothesis nodes_sorted : StronglySorted num_lt (map x nodes).

Lemma nodeAt_lt (i j : nat) :
  (i < j < length nodes)%nat -> num_lt (x (nodeAt nodes i)) (x (nodeAt nodes j)).
Proof.
  intros Hij. unfold nodeAt.
  rewrite <- !(map_nth x nodes).
  apply StronglySorted_nth; [exact nodes_sorted|now rewrite length_map].
Qed.

Lemma nodeAt_le (i j : nat) :
  (i <= j < length nodes)%nat -> num_le (x (nodeAt nodes i)) (x (nodeAt nodes j)).
Proof.
  intros Hij. apply num_le_iff. destruct (Nat.eq_dec i j) as [->|Hne]; [now right|].
  left. apply nodeAt_lt. lia.
Qed.

Lemma span_pos (i : nat) : (i + 1 < length nodes)%nat -> num_lt $0 (elementSpan nodes i).
Proof.
  intros Hi. unfold elementSpan. apply num_sub_pos, nodeAt_lt. lia.
Qed.

Lemma span_end (i : nat) :
  x (nodeAt nodes i) + elementSpan nodes i = x (nodeAt nodes (i + 1)).
Proof. unfold elementSpan. ring. Qed.

Lemma elementsOf_all (EI : T) (udls : list Udl) (idx : list nat) :
  Forall (fun i => (i + 1 < length nodes)%nat) idx ->
  elementsOf nodes EI udls idx = map (elementOf nodes EI udls) idx.
Proof.
  induction 1 as [|i idx Hi Hidx IH]; [reflexivity|].
  unfold elementsOf in *. cbn [flat_map map]. rewrite IH.
  assert (Hp : num_lt $0 (elementSpan nodes i)) by (apply span_pos; exact Hi).
  unfold num_lt in Hp.
  now rewrite en_leb, Hp.
Qed.

Lemma sx_sampleOf (u : list T) (EI : T) (udls : list Udl) (i : nat) :
  map sx (map (sampleOf nodes u (elementOf nodes EI udls i)) (seq 0 41)) =
  sampleXs (x (nodeAt nodes i)) (elementSpan nodes i) 0 41.
Proof. rewrite map_map. reflexivity. Qed.

Lemma diagrams_sorted (u : list T) (EI : T) (udls : list Udl) (s len : nat) :
  (s + len + 1 <= length nodes)%nat ->
  let xs := map sx (flat_map (fun e => map (sampleOf nodes u e) (seq 0 41))
                             (map (elementOf nodes EI udls) (seq s len))) in
  StronglySorted num_le xs /\
  forall y, In y xs -> num_le (x (nodeAt nodes s)) y.
Proof.
  revert s; induction len as [|len IH]; intros s Hs; cbv zeta.
  - split; [constructor|intros y []].
  - rewrite <- (cons_seq len s), map_cons. cbn [flat_map]. rewrite map_app, sx_sampleOf.
    assert (Hp : num_lt $0 (elementSpan nodes s)) by (apply span_pos; lia).
    destruct (IH (S s)) as [IH1 IH2]; [lia|]. cbv zeta in IH1, IH2. split.
    + apply StronglySorted_app; [now apply sampleXs_sorted|exact IH1|].
      intros a b Ha Hb. apply (sampleXs_bounds Hp) in Ha. destruct Ha as [_ Ha].
      rewrite span_end in Ha. apply (num_le_trans Ha).
      replace (s + 1)%nat with (S s) by lia. now apply IH2.
    + intros y Hy. apply in_app_or in Hy. destruct Hy as [Hy|Hy].
      * now apply (sampleXs_bounds Hp) in Hy.
      * apply num_le_trans with (x (nodeAt nodes (S s))); [apply nodeAt_le; lia|].
        now apply IH2.
Qed.

End OnSortedNodes.

Lemma buildNodes_sorted (lengthMm : T) supports pointLoads udls :
  StronglySorted num_lt (map x (buildNodes lengthMm supports pointLoads udls)).
Proof. rewrite buildNodes_x. apply uniqueSorted_spec. Qed.


End EvaluatorExact.

(** * The engine and its arrays *)

(** ** Running commands *)

Section Run.
Context {T : Type} {N : Number T}.
Import StoreOps.
Local Abbreviation Store := (StoreOps.Store (T:=T)).
Local Abbreviation Obj := (StoreOps.Obj (T:=T)).
Local Abbreviation Cmd := (StoreOps.Cmd (T:=T)).

Lemma keeps_refl n (h : Store) : keeps n h h.
Proof. split; auto. Qed.

Lemma keeps_trans n (h1 h2 h3 : Store) : keeps n h1 h2 -> keeps n h2 h3 -> keeps n h1 h3.
Proof.
  intros [L1 H1] [L2 H2]. split; [lia|]. intros l Hl. now rewrite H2, H1.
Qed.

Lemma keeps_le n m (h h' : Store) : m <= n -> keeps n h h' -> keeps m h h'.
Proof. intros Hm [L H]. split; [exact L|]. intros l Hl. apply H. lia. Qed.

Lemma nth_error_upd {A} (l : list A) i j v :
  nth_error (upd l i v) j =
  if Nat.eqb i j then (if Nat.ltb i (length l) then Some v else nth_error l j)
  else nth_error l j.
Proof.
  revert i j; induction l as [|a l IH]; intros i j.
  - simpl. destruct (Nat.eqb i j); [|reflexivity]. now destruct i.
  - destruct i as [|i], j as [|j]; simpl; auto.
Qed.

Lemma keeps_alloc n (h : Store) o : n <= length h -> keeps n h (h ++ [o]).
Proof.
  intros Hn. split; [rewrite length_app; lia|].
  intros l Hl. apply nth_error_app1. lia.
Qed.

Lemma keeps_store n (h : Store) l o : n <= l -> keeps n h (upd h l o).
Proof.
  intros Hn. split; [now rewrite length_upd|].
  intros l' Hl'. rewrite nth_error_upd.
  destruct (Nat.eqb_spec l l'); [lia|reflexivity].
Qed.

Lemma bind_run {A B} (c : Cmd A) (f : A -> Cmd B) h a h' :
  c h = Some (a, h') -> bind c f h = f a h'.
Proof. unfold bind. now intros ->. Qed.

Lemma alloc_run (o : Obj) (h : Store) :
  alloc o h = Some (length h, h ++ [o]).
Proof. reflexivity. Qed.

Lemma nth_error_alloc (h : Store) o : nth_error (h ++ [o]) (length h) = Some o.
Proof. rewrite nth_error_app2 by lia. now rewrite Nat.sub_diag. Qed.

Lemma load_run l o (h : Store) : nth_error h l = Some o -> load l h = Some (o, h).
Proof. unfold load. now intros ->. Qed.

Lemma store_run l o (h : Store) :
  l < length h -> store l o h = Some (tt, upd h l o).
Proof. unfold store. intros H. now destruct (Nat.ltb_spec l (length h)); [|lia]. Qed.

Lemma nth_error_store_same (h : Store) l o : l < length h -> nth_error (upd h l o) l = Some o.
Proof.
  intros H. rewrite nth_error_upd, Nat.eqb_refl.
  now destruct (Nat.ltb_spec l (length h)); [|lia].
Qed.

Lemma nth_error_store_other (h : Store) l l' o : l <> l' -> nth_error (upd h l o) l' = nth_error h l'.
Proof.
  intros H. rewrite nth_error_upd. now destruct (Nat.eqb_spec l l').
Qed.

Lemma nth_error_lt {A} (l : list A) i a : nth_error l i = Some a -> i < length l.
Proof. intros H. apply nth_error_Some. congruence. Qed.

Lemma runs_ret {A} n (a : A) h (Q : A -> Store -> Prop) : Q a h -> runs n (ret a) h Q.
Proof. intros H. exists a, h. repeat split; auto. Qed.

Lemma runs_bind {A B} n (c : Cmd A) (f : A -> Cmd B) h (Q : B -> Store -> Prop) :
  runs n c h (fun a h' => runs n (f a) h' Q) -> runs n (bind c f) h Q.
Proof.
  intros [a [h' [Hc [Hk [b [h'' [Hf [Hk' HQ]]]]]]]].
  exists b, h''. split; [unfold bind; now rewrite Hc|].
  split; [exact (keeps_trans Hk Hk')|exact HQ].
Qed.

Lemma runs_conseq {A} n (c : Cmd A) h (Q Q' : A -> Store -> Prop) :
  runs n c h Q -> (forall a h', keeps n h h' -> Q a h' -> Q' a h') -> runs n c h Q'.
Proof. intros [a [h' [Hc [Hk HQ]]]] H. exists a, h'. auto. Qed.

Lemma runs_le {A} n m (c : Cmd A) h (Q : A -> Store -> Prop) :
  m <= n -> runs n c h Q -> runs m c h Q.
Proof.
  intros Hm [a [h' [Hc [Hk HQ]]]]. exists a, h'.
  split; [exact Hc|]. split; [exact (keeps_le Hm Hk)|exact HQ].
Qed.

Lemma runs_alloc n o h (Q : nat -> Store -> Prop) :
  n <= length h -> Q (length h) (h ++ [o]) -> runs n (alloc o) h Q.
Proof.
  intros Hn HQ. exists (length h), (h ++ [o]).
  split; [reflexivity|]. split; [now apply keeps_alloc|exact HQ].
Qed.

Lemma runs_load n l o h (Q : Obj -> Store -> Prop) :
  nth_error h l = Some o -> Q o h -> runs n (load l) h Q.
Proof.
  intros Hl HQ. exists o, h. split; [now apply load_run|]. split; [apply keeps_refl|exact HQ].
Qed.

Lemma runs_store n l o h (Q : unit -> Store -> Prop) :
  n <= l -> l < length h -> Q tt (upd h l o) -> runs n (store l o) h Q.
Proof.
  intros Hn Hl HQ. exists tt, (upd h l o).
  split; [now apply store_run|]. split; [now apply keeps_store|exact HQ].
Qed.

Lemma runs_fail_free {A} n (a : A) h (Q : A -> Store -> Prop) :
  Q a h -> runs n (ret a) h Q.
Proof. apply runs_ret. Qed.

Ltac run_load H :=
  apply runs_bind; eapply runs_load; [exact H|]; cbv beta iota; apply runs_ret.

Lemma runs_loadNums n l v h (Q : list T -> Store -> Prop) :
  nth_error h l = Some (ONums v) -> Q v h -> runs n (loadNums l) h Q.
Proof. intros H HQ. unfold loadNums. run_load H. exact HQ. Qed.

Lemma runs_loadRefs n l v h (Q : list nat -> Store -> Prop) :
  nth_error h l = Some (ORefs v) -> Q v h -> runs n (loadRefs l) h Q.
Proof. intros H HQ. unfold loadRefs. run_load H. exact HQ. Qed.

Lemma runs_loadNats n l v h (Q : list nat -> Store -> Prop) :
  nth_error h l = Some (ONats v) -> Q v h -> runs n (loadNats l) h Q.
Proof. intros H HQ. unfold loadNats. run_load H. exact HQ. Qed.

Lemma runs_loadSupports n l v h (Q : list Support -> Store -> Prop) :
  nth_error h l = Some (OSupports v) -> Q v h -> runs n (loadSupports l) h Q.
Proof. intros H HQ. unfold loadSupports. run_load H. exact HQ. Qed.

Lemma runs_loadPointLoads n l v h (Q : list PointLoad -> Store -> Prop) :
  nth_error h l = Some (OPointLoads v) -> Q v h -> runs n (loadPointLoads l) h Q.
Proof. intros H HQ. unfold loadPointLoads. run_load H. exact HQ. Qed.

Lemma runs_loadUdls n l v h (Q : list Udl -> Store -> Prop) :
  nth_error h l = Some (OUdls v) -> Q v h -> runs n (loadUdls l) h Q.
Proof. intros H HQ. unfold loadUdls. run_load H. exact HQ. Qed.

Lemma runs_loadNodes n l v h (Q : list Node -> Store -> Prop) :
  nth_error h l = Some (ONodes v) -> Q v h -> runs n (loadNodes l) h Q.
Proof. intros H HQ. unfold loadNodes. run_load H. exact HQ. Qed.

Lemma runs_loadElements n l v h (Q : list ElementData -> Store -> Prop) :
  nth_error h l = Some (OElements v) -> Q v h -> runs n (loadElements l) h Q.
Proof. intros H HQ. unfold loadElements. run_load H. exact HQ. Qed.

Lemma runs_loadSamples n l v h (Q : list Sample -> Store -> Prop) :
  nth_error h l = Some (OSamples v) -> Q v h -> runs n (loadSamples l) h Q.
Proof. intros H HQ. unfold loadSamples. run_load H. exact HQ. Qed.

Lemma nth_error_get (v : list T) i : i < length v -> nth_error v i = Some (get v i).
Proof. intros H. unfold get. now apply nth_error_nth'. Qed.

Lemma runs_getNum n l i v h (Q : T -> Store -> Prop) :
  nth_error h l = Some (ONums v) -> i < length v -> Q (get v i) h ->
  runs n (getNum l i) h Q.
Proof.
  intros H Hi HQ. unfold getNum. apply runs_bind; eapply runs_loadNums; [exact H|].
  rewrite (nth_error_get v Hi). now apply runs_ret.
Qed.

Lemma runs_setNum n l i a v h (Q : unit -> Store -> Prop) :
  n <= l -> nth_error h l = Some (ONums v) -> i < length v ->
  Q tt (upd h l (ONums (upd v i a))) -> runs n (setNum l i a) h Q.
Proof.
  intros Hn H Hi HQ. unfold setNum. apply runs_bind; eapply runs_loadNums; [exact H|].
  destruct (Nat.ltb_spec i (length v)); [|lia].
  apply runs_store; [exact Hn|exact (nth_error_lt _ _ H)|exact HQ].
Qed.

Lemma runs_getRef n l i r v h (Q : nat -> Store -> Prop) :
  nth_error h l = Some (ORefs v) -> nth_error v i = Some r -> Q r h ->
  runs n (getRef l i) h Q.
Proof.
  intros H Hi HQ. unfold getRef. apply runs_bind; eapply runs_loadRefs; [exact H|].
  rewrite Hi. now apply runs_ret.
Qed.

Lemma runs_setRef n l i r v h (Q : unit -> Store -> Prop) :
  n <= l -> nth_error h l = Some (ORefs v) -> i < length v ->
  Q tt (upd h l (ORefs (upd v i r))) -> runs n (setRef l i r) h Q.
Proof.
  intros Hn H Hi HQ. unfold setRef. apply runs_bind; eapply runs_loadRefs; [exact H|].
  destruct (Nat.ltb_spec i (length v)); [|lia].
  apply runs_store; [exact Hn|exact (nth_error_lt _ _ H)|exact HQ].
Qed.

Lemma runs_pushNums n l a v h (Q : unit -> Store -> Prop) :
  n <= l -> nth_error h l = Some (ONums v) ->
  Q tt (upd h l (ONums (v ++ a))) -> runs n (pushNums l a) h Q.
Proof.
  intros Hn H HQ. unfold pushNums. apply runs_bind; eapply runs_loadNums; [exact H|].
  apply runs_store; [exact Hn|exact (nth_error_lt _ _ H)|exact HQ].
Qed.

Lemma runs_pushNats n l a v h (Q : unit -> Store -> Prop) :
  n <= l -> nth_error h l = Some (ONats v) ->
  Q tt (upd h l (ONats (v ++ a))) -> runs n (pushNats l a) h Q.
Proof.
  intros Hn H HQ. unfold pushNats. apply runs_bind; eapply runs_loadNats; [exact H|].
  apply runs_store; [exact Hn|exact (nth_error_lt _ _ H)|exact HQ].
Qed.

Lemma runs_pushElement n l a v h (Q : unit -> Store -> Prop) :
  n <= l -> nth_error h l = Some (OElements v) ->
  Q tt (upd h l (OElements (v ++ [a]))) -> runs n (pushElement l a) h Q.
Proof.
  intros Hn H HQ. unfold pushElement. apply runs_bind; eapply runs_loadElements; [exact H|].
  apply runs_store; [exact Hn|exact (nth_error_lt _ _ H)|exact HQ].
Qed.

Lemma runs_pushSample n l a v h (Q : unit -> Store -> Prop) :
  n <= l -> nth_error h l = Some (OSamples v) ->
  Q tt (upd h l (OSamples (v ++ [a]))) -> runs n (pushSample l a) h Q.
Proof.
  intros Hn H HQ. unfold pushSample. apply runs_bind; eapply runs_loadSamples; [exact H|].
  apply runs_store; [exact Hn|exact (nth_error_lt _ _ H)|exact HQ].
Qed.

(* a loop that carries the pure state [s], related to the store by [R] *)
Lemma runs_forEach {A S} n (R : S -> Store -> Prop) (step : S -> A -> S)
    (body : A -> Cmd unit) (l : list A) :
  (forall s a h, In a l -> R s h ->
     runs n (body a) h (fun _ h' => R (step s a) h')) ->
  forall s h, R s h ->
  runs n (forEach l body) h (fun _ h' => R (fold_left step l s) h').
Proof.
  induction l as [|a l IH]; intros Hbody s h HR; simpl.
  - now apply runs_ret.
  - apply runs_bind. eapply runs_conseq; [exact (Hbody s a h (or_introl eq_refl) HR)|].
    intros u h' Hk HR'. apply IH; [|exact HR'].
    intros s' a' h'' Ha'. apply Hbody. now right.
Qed.

Lemma runs_mapM {A B} n (R : Store -> Prop) (f : A -> Cmd B) (g : A -> B) (l : list A) :
  (forall a h, In a l -> R h -> runs n (f a) h (fun b h' => b = g a /\ R h')) ->
  forall h, R h -> runs n (mapM f l) h (fun bs h' => bs = map g l /\ R h').
Proof.
  induction l as [|a l IH]; intros Hf h HR; simpl.
  - now apply runs_ret.
  - apply runs_bind. eapply runs_conseq; [exact (Hf a h (or_introl eq_refl) HR)|].
    intros b h' Hk [Hb HR']. subst b. apply runs_bind.
    assert (Hf' : forall a h, In a l -> R h -> runs n (f a) h (fun b h' => b = g a /\ R h')).
    { intros a0 h0 Ha0 HR0. apply Hf; [now right|exact HR0]. }
    eapply runs_conseq; [exact (IH Hf' h' HR')|].
    intros bs h'' Hk' [Hbs HR'']. subst bs. now apply runs_ret.
Qed.

Lemma loadNums_run l v (h : Store) :
  nth_error h l = Some (ONums v) -> loadNums l h = Some (v, h).
Proof. intros H. unfold loadNums, bind, load. now rewrite H. Qed.

Lemma keeps_app n (h e : Store) : n <= length h -> keeps n h (h ++ e).
Proof.
  intros Hn. split; [rewrite length_app; lia|].
  intros l Hl. apply nth_error_app1. lia.
Qed.

Lemma runs_exact {A} n (c : Cmd A) h a h' (Q : A -> Store -> Prop) :
  c h = Some (a, h') -> keeps n h h' -> Q a h' -> runs n c h Q.
Proof. intros Hc Hk HQ. exists a, h'. auto. Qed.

(* calling a command that keeps the whole store of its caller *)
Lemma runs_call {A} n (c : Cmd A) h (P Q : A -> Store -> Prop) :
  n <= length h -> runs (length h) c h P ->
  (forall a h', keeps (length h) h h' -> P a h' -> Q a h') -> runs n c h Q.
Proof.
  intros Hn [a [h' [Hc [Hk HP]]]] HQ. exists a, h'.
  split; [exact Hc|]. split; [exact (keeps_le Hn Hk)|now apply HQ].
Qed.

Lemma keeps_at n (h h' : Store) l o :
  keeps n h h' -> l < n -> nth_error h l = Some o -> nth_error h' l = Some o.
Proof. intros [_ H] Hl Ho. now rewrite H. Qed.

End Run.

(** ** The solver on the store *)

Section SolverOnStore.
Context {T : Type} {N : Number T}.
Import StoreOps.
Local Abbreviation Store := (StoreOps.Store (T:=T)).
Local Abbreviation Obj := (StoreOps.Obj (T:=T)).
Local Abbreviation Cmd := (StoreOps.Cmd (T:=T)).
Local Open Scope num_scope.

Lemma row_upd_same (M : list (list T)) i r : (i < length M)%nat -> row (upd M i r) i = r.
Proof. intros H. unfold row. now apply nth_upd_eq. Qed.

Lemma row_upd_other (M : list (list T)) i j r : i <> j -> row (upd M i r) j = row M j.
Proof. intros H. unfold row. now apply nth_upd_neq. Qed.

Lemma upd_upd {A} (l : list A) i a b : upd (upd l i a) i b = upd l i b.
Proof. revert i; induction l as [|x l IH]; intros [|i]; simpl; auto. now rewrite IH. Qed.

Lemma upd_same {A} (l : list A) i d : upd l i (nth i l d) = l.
Proof.
  revert i; induction l as [|x l IH]; intros [|i]; simpl; auto. now rewrite IH.
Qed.

Lemma get_upd_same (v : list T) i a : (i < length v)%nat -> get (upd v i a) i = a.
Proof. intros H. unfold get. now apply nth_upd_eq. Qed.

Lemma get_upd_other (v : list T) i j a : i <> j -> get (upd v i a) j = get v j.
Proof. intros H. unfold get. now apply nth_upd_neq. Qed.

Lemma runs_getEntry n h m refs (M : list (list T)) i j (Q : T -> Store -> Prop) :
  matAt h m refs M -> (i < length M)%nat -> (j < length (row M i))%nat ->
  Q (entry M i j) h -> runs n (getEntry m i j) h Q.
Proof.
  intros [Hm [Hl Hr]] Hi Hj HQ. unfold getEntry. apply runs_bind.
  eapply runs_getRef; [exact Hm| |].
  - apply nth_error_nth'. lia.
  - eapply runs_getNum; [exact (Hr i Hi)|exact Hj|exact HQ].
Qed.

Lemma NoDup_nth_neq (refs : list nat) i j :
  NoDup refs -> (i < length refs)%nat -> (j < length refs)%nat -> i <> j ->
  nth i refs O <> nth j refs O.
Proof.
  intros Hnd Hi Hj Hne Heq. apply Hne. now apply (proj1 (NoDup_nth refs O) Hnd).
Qed.

Lemma runs_setEntry n h m refs (M : list (list T)) i j a (Q : unit -> Store -> Prop) :
  matAt h m refs M -> ownsRows n m refs ->
  (i < length M)%nat -> (j < length (row M i))%nat ->
  (forall h', matAt h' m refs (upd M i (upd (row M i) j a)) ->
              (forall l, ~ In l refs -> nth_error h' l = nth_error h l) ->
              length h' = length h ->
              Q tt h') ->
  runs n (setEntry m i j a) h Q.
Proof.
  intros [Hm [Hl Hr]] [Hnd Hown] Hi Hj HQ. unfold setEntry. apply runs_bind.
  assert (Hin : In (nth i refs O) refs) by (apply nth_In; lia).
  rewrite Forall_forall in Hown. destruct (Hown _ Hin) as [Hge Hne].
  eapply runs_getRef; [exact Hm|apply nth_error_nth'; lia|].
  eapply runs_setNum; [exact Hge|exact (Hr i Hi)|exact Hj|].
  apply HQ.
  - split; [|split].
    + rewrite nth_error_store_other by auto. exact Hm.
    + now rewrite length_upd.
    + intros i' Hi'. rewrite length_upd in Hi'.
      destruct (Nat.eq_dec i i') as [<-|Hii].
      * rewrite row_upd_same by exact Hi.
        apply nth_error_store_same. exact (nth_error_lt _ _ (Hr i Hi)).
      * rewrite row_upd_other by exact Hii.
        rewrite nth_error_store_other; [now apply Hr|].
        apply NoDup_nth_neq; auto; lia.
  - intros l Hnl. apply nth_error_store_other. intros Heq. subst l. contradiction.
  - apply length_upd.
Qed.

Section Loops.
Variables (n0 Ml xl nn : nat).
Local Abbreviation inv := (solverInv n0 Ml xl nn).

Lemma inv_getEntry refs M xs h i j (Q : T -> Store -> Prop) :
  inv refs M xs h -> (i < nn)%nat -> (j < nn)%nat ->
  Q (entry M i j) h -> runs n0 (getEntry Ml i j) h Q.
Proof.
  intros [Hm [_ [_ [_ [_ [_ [_ [HM [Hrow _]]]]]]]]] Hi Hj HQ.
  eapply runs_getEntry; [exact Hm|lia|rewrite Hrow; lia|exact HQ].
Qed.

Lemma inv_getNum refs M xs h i (Q : T -> Store -> Prop) :
  inv refs M xs h -> (i < nn)%nat -> Q (get xs i) h -> runs n0 (getNum xl i) h Q.
Proof.
  intros [_ [_ [_ [Hx [_ [_ [_ [_ [_ Hlx]]]]]]]]] Hi HQ.
  eapply runs_getNum; [exact Hx|lia|exact HQ].
Qed.

Lemma inv_setEntry refs M xs h i j a (Q : unit -> Store -> Prop) :
  inv refs M xs h -> (i < nn)%nat -> (j < nn)%nat ->
  (forall h', inv refs (upd M i (upd (row M i) j a)) xs h' -> Q tt h') ->
  runs n0 (setEntry Ml i j a) h Q.
Proof.
  intros [Hm [Hown [Hxr [Hx [H1 [H2 [H3 [HM [Hrow Hlx]]]]]]]]] Hi Hj HQ.
  eapply runs_setEntry; [exact Hm|exact Hown|lia|rewrite Hrow; lia|].
  intros h' Hm' Hother Hlen. apply HQ.
  split; [exact Hm'|]. split; [exact Hown|]. split; [exact Hxr|].
  split; [now rewrite Hother|].
  split; [exact H1|]. split; [exact H2|]. split; [exact H3|].
  split; [now rewrite length_upd|]. split; [|exact Hlx].
  intros i' Hi'. destruct (Nat.eq_dec i i') as [<-|Hne].
  - rewrite row_upd_same by lia. rewrite length_upd. now apply Hrow.
  - rewrite row_upd_other by exact Hne. now apply Hrow.
Qed.

Lemma matAt_other h h' m refs (M : list (list T)) l :
  matAt h m refs M -> l <> m -> ~ In l refs ->
  (forall l', l' <> l -> nth_error h' l' = nth_error h l') ->
  matAt h' m refs M.
Proof.
  intros [Hm [Hl Hr]] Hlm Hlr Hsame. split; [|split; [exact Hl|]].
  - rewrite Hsame by auto. exact Hm.
  - intros i Hi. rewrite Hsame; [now apply Hr|].
    intros Heq. apply Hlr. rewrite <- Heq. apply nth_In. lia.
Qed.

Lemma inv_setNum refs M xs h i a (Q : unit -> Store -> Prop) :
  inv refs M xs h -> (i < nn)%nat ->
  (forall h', inv refs M (upd xs i a) h' -> Q tt h') ->
  runs n0 (setNum xl i a) h Q.
Proof.
  intros [Hm [Hown [Hxr [Hx [H1 [H2 [H3 [HM [Hrow Hlx]]]]]]]]] Hi HQ.
  eapply runs_setNum; [exact H2|exact Hx|lia|]. apply HQ.
  split.
  { eapply matAt_other with (l := xl); [exact Hm|auto|exact Hxr|].
    intros l' Hl'. apply nth_error_store_other. auto. }
  split; [exact Hown|]. split; [exact Hxr|].
  split; [apply nth_error_store_same; exact (nth_error_lt _ _ Hx)|].
  split; [exact H1|]. split; [exact H2|]. split; [exact H3|].
  split; [exact HM|]. split; [exact Hrow|]. now rewrite length_upd.
Qed.

Lemma length_fold_upd {A} (f : list T -> A -> T) (g : A -> nat) (l : list A) (r : list T) :
  length (fold_left (fun r j => upd r (g j) (f r j)) l r) = length r.
Proof.
  revert r; induction l as [|j l IH]; intros r; simpl; [reflexivity|].
  now rewrite IH, length_upd.
Qed.

Lemma length_normalizeRow (r : list T) p k n : length (normalizeRow r p k n) = length r.
Proof. unfold normalizeRow. apply (length_fold_upd (fun r j => get r j / p) (fun j => j)). Qed.

Lemma length_eliminateRow (ri rk : list T) f k n : length (eliminateRow ri rk f k n) = length ri.
Proof.
  unfold eliminateRow.
  apply (length_fold_upd (fun r j => get r j - f * get rk j) (fun j => j)).
Qed.

Lemma inv_row_loop refs M xs h i (js : list nat) (f : list T -> nat -> T)
    (body : nat -> Cmd unit) (Q : unit -> Store -> Prop) :
  inv refs M xs h -> (i < nn)%nat -> Forall (fun j => (j < nn)%nat) js ->
  (forall rk j h1 (Q1 : unit -> Store -> Prop),
     In j js -> length rk = nn -> inv refs (upd M i rk) xs h1 ->
     (forall h2, inv refs (upd M i (upd rk j (f rk j))) xs h2 -> Q1 tt h2) ->
     runs n0 (body j) h1 Q1) ->
  (forall h', inv refs (upd M i (fold_left (fun r j => upd r j (f r j)) js (row M i))) xs h' ->
              Q tt h') ->
  runs n0 (forEach js body) h Q.
Proof.
  intros Hinv Hi Hjs Hbody HQ.
  pose (R := fun (rk : list T) (h' : Store) =>
               inv refs (upd M i rk) xs h' /\ length rk = nn).
  assert (H0 : R (row M i) h).
  { split.
    - unfold row. now rewrite upd_same.
    - destruct Hinv as [_ [_ [_ [_ [_ [_ [_ [_ [Hrow _]]]]]]]]]. now apply Hrow. }
  eapply runs_conseq.
  - apply (runs_forEach (n:=n0) R (fun r j => upd r j (f r j)) body js); [|exact H0].
    intros rk j h1 Hj [HR Hl]. apply (Hbody rk j h1 _ Hj Hl HR).
    intros h2 H2. split; [exact H2|now rewrite length_upd].
  - intros u h' _ [HR _]. destruct u. now apply HQ.
Qed.

Lemma inv_normalize refs M xs h k pivot (Q : unit -> Store -> Prop) :
  inv refs M xs h -> (k < nn)%nat ->
  (forall h', inv refs (upd M k (normalizeRow (row M k) pivot k nn)) xs h' -> Q tt h') ->
  runs n0 (forEach (seq k (nn - k))
             (fun j => bind (getEntry Ml k j) (fun a => setEntry Ml k j (a / pivot)))) h Q.
Proof.
  intros Hinv Hk HQ.
  apply (@inv_row_loop refs M xs h k (seq k (nn - k)) (fun r j => get r j / pivot) _ Q Hinv Hk).
  - apply Forall_forall. intros j Hj. apply in_seq in Hj. lia.
  - intros rk j h1 Q1 Hj Hl H1 HQ1. apply in_seq in Hj.
    assert (HlM : length M = nn) by apply Hinv.
    apply runs_bind. eapply inv_getEntry; [exact H1|lia|lia|].
    eapply inv_setEntry; [exact H1|lia|lia|].
    intros h2 H2. apply HQ1.
    unfold entry in H2. rewrite row_upd_same, upd_upd in H2 by lia. exact H2.
  - exact HQ.
Qed.

Lemma inv_eliminateRow refs M xs h i k factor (Q : unit -> Store -> Prop) :
  inv refs M xs h -> (i < nn)%nat -> (k < nn)%nat -> i <> k ->
  (forall h', inv refs
                (upd M i (eliminateRow (row M i) (row M k) factor k nn)) xs h' -> Q tt h') ->
  runs n0 (forEach (seq k (nn - k))
             (fun j => bind (getEntry Ml i j) (fun a =>
                       bind (getEntry Ml k j) (fun b =>
                       setEntry Ml i j (a - factor * b))))) h Q.
Proof.
  intros Hinv Hi Hk Hik HQ.
  apply (@inv_row_loop refs M xs h i (seq k (nn - k))
           (fun r j => get r j - factor * get (row M k) j) _ Q Hinv Hi).
  - apply Forall_forall. intros j Hj. apply in_seq in Hj. lia.
  - intros ri j h1 Q1 Hj Hl H1 HQ1. apply in_seq in Hj.
    assert (HlM : length M = nn) by apply Hinv.
    apply runs_bind. eapply inv_getEntry; [exact H1|lia|lia|].
    apply runs_bind. eapply inv_getEntry; [exact H1|lia|lia|].
    eapply inv_setEntry; [exact H1|lia|lia|].
    intros h2 H2. apply HQ1.
    unfold entry in H2. rewrite row_upd_same, upd_upd in H2 by lia.
    rewrite row_upd_other in H2 by exact Hik. exact H2.
  - exact HQ.
Qed.

Lemma inv_eliminate refs M xs h k i (Q : unit -> Store -> Prop) :
  inv refs M xs h -> (k < nn)%nat -> (i < nn)%nat ->
  (forall h', inv refs (fst (eliminate k nn (M, xs) i))
                             (snd (eliminate k nn (M, xs) i)) h' -> Q tt h') ->
  runs n0 (InPlace.eliminate Ml xl k nn i) h Q.
Proof.
  intros Hinv Hk Hi HQ. unfold InPlace.eliminate, eliminate in *.
  destruct (Nat.eqb_spec i k) as [->|Hik].
  - apply runs_ret. now apply HQ.
  - cbn [fst snd] in HQ.
    apply runs_bind. eapply inv_getEntry; [exact Hinv|lia|lia|].
    apply runs_bind. eapply inv_eliminateRow; [exact Hinv|lia|lia|exact Hik|].
    intros h1 H1.
    apply runs_bind. eapply inv_getNum; [exact H1|lia|].
    apply runs_bind. eapply inv_getNum; [exact H1|lia|].
    eapply inv_setNum; [exact H1|lia|].
    intros h2 H2. now apply HQ.
Qed.

Lemma inv_eliminate_all refs M xs h k (Q : unit -> Store -> Prop) :
  inv refs M xs h -> (k < nn)%nat ->
  (forall h', inv refs (fst (fold_left (eliminate k nn) (seq 0 nn) (M, xs)))
                             (snd (fold_left (eliminate k nn) (seq 0 nn) (M, xs))) h' ->
              Q tt h') ->
  runs n0 (forEach (seq 0 nn) (InPlace.eliminate Ml xl k nn)) h Q.
Proof.
  intros Hinv Hk HQ.
  pose (R := fun (Mx : list (list T) * list T) (h' : Store) =>
               inv refs (fst Mx) (snd Mx) h').
  eapply runs_conseq.
  - refine (@runs_forEach _ _ _ n0 R (eliminate k nn) (InPlace.eliminate Ml xl k nn)
              (seq 0 nn) _ (M, xs) h Hinv).
    intros [M1 x1] i h1 Hi HR. apply in_seq in Hi.
    apply inv_eliminate with (refs:=refs) (M:=M1) (xs:=x1); [exact HR|lia|lia|].
    intros h2 H2. exact H2.
  - intros u h' _ HR. destruct u. now apply HQ.
Qed.

Lemma inv_findMaxRow refs M xs h k (rows : list nat) cur (Q : nat -> Store -> Prop) :
  inv refs M xs h -> (k < nn)%nat -> (cur < nn)%nat ->
  Forall (fun i => (i < nn)%nat) rows ->
  Q (fold_left (fun maxRow i =>
                  if abs (entry M i k) >? abs (entry M maxRow k) then i else maxRow)
               rows cur) h ->
  runs n0 (InPlace.findMaxRow Ml k rows cur) h Q.
Proof.
  intros Hinv Hk. revert cur. induction rows as [|i rows IH]; intros cur Hcur Hrows HQ; simpl.
  - now apply runs_ret.
  - inversion Hrows as [|? ? Hi Hrows']; subst.
    apply runs_bind. eapply inv_getEntry; [exact Hinv|lia|lia|].
    apply runs_bind. eapply inv_getEntry; [exact Hinv|lia|lia|].
    apply IH; [|exact Hrows'|exact HQ].
    destruct (abs (entry M cur k) <? abs (entry M i k)); assumption.
Qed.

Lemma nth_swapRows {A} (d : A) (l : list A) k m i :
  (k < length l)%nat -> (m < length l)%nat ->
  nth i (swapRows d l k m) d = nth (swapIdx k m i) l d.
Proof.
  intros Hk Hm. unfold swapRows, swapIdx. rewrite nth_upd, length_upd.
  destruct (Nat.eqb_spec m i) as [->|Hmi].
  - rewrite Nat.eqb_refl. now destruct (Nat.ltb_spec i (length l)); [|lia].
  - destruct (Nat.eqb_spec i m) as [->|_]; [lia|].
    rewrite nth_upd. destruct (Nat.eqb_spec k i) as [->|Hki].
    + rewrite Nat.eqb_refl. now destruct (Nat.ltb_spec i (length l)); [|lia].
    + destruct (Nat.eqb_spec i k) as [->|_]; [lia|reflexivity].
Qed.

Lemma length_swapRows {A} (d : A) (l : list A) k m : length (swapRows d l k m) = length l.
Proof. unfold swapRows. now rewrite !length_upd. Qed.

Lemma swapIdx_lt k m i n : (k < n)%nat -> (m < n)%nat -> (i < n)%nat -> (swapIdx k m i < n)%nat.
Proof.
  intros. unfold swapIdx. destruct (Nat.eqb i m); [lia|]. now destruct (Nat.eqb i k).
Qed.

Lemma swapIdx_inj k m i j : swapIdx k m i = swapIdx k m j -> i = j.
Proof.
  unfold swapIdx.
  destruct (Nat.eqb_spec i m), (Nat.eqb_spec i k), (Nat.eqb_spec j m), (Nat.eqb_spec j k); lia.
Qed.

Lemma In_swapRows (l : list nat) k m r :
  (k < length l)%nat -> (m < length l)%nat -> In r (swapRows O l k m) -> In r l.
Proof.
  intros Hk Hm Hin. destruct (In_nth _ _ O Hin) as [i [Hi <-]].
  rewrite length_swapRows in Hi. rewrite nth_swapRows by lia.
  apply nth_In. now apply swapIdx_lt.
Qed.

Lemma inv_swapRefs {B} refs M xs h k m (rest : Cmd B) (Q : B -> Store -> Prop) :
  inv refs M xs h -> (k < nn)%nat -> (m < nn)%nat ->
  (forall h', inv (swapRows O refs k m) (swapRows [] M k m) xs h' -> runs n0 rest h' Q) ->
  runs n0 (bind (getRef Ml m) (fun rm =>
           bind (getRef Ml k) (fun rk =>
           bind (setRef Ml k rm) (fun _ =>
           bind (setRef Ml m rk) (fun _ => rest))))) h Q.
Proof.
  intros [[Hm [Hl Hr]] [[Hnd Hfa] [Hxr [Hx [H1 [H2 [H3 [HM [Hrow Hlx]]]]]]]]] Hk Hmm HQ.
  assert (Hlr : length refs = nn) by lia.
  apply runs_bind. eapply runs_getRef; [exact Hm|apply nth_error_nth'; lia|].
  apply runs_bind. eapply runs_getRef; [exact Hm|apply nth_error_nth'; lia|].
  apply runs_bind. eapply runs_setRef; [exact H1|exact Hm|lia|].
  apply runs_bind. eapply runs_setRef;
    [exact H1
    |apply nth_error_store_same; exact (nth_error_lt _ _ Hm)
    |rewrite length_upd; lia|].
  apply HQ. clear HQ.
  set (h' := upd (upd h Ml _) Ml _).
  assert (Hother : forall l, l <> Ml -> nth_error h' l = nth_error h l).
  { intros l Hne. unfold h'. now rewrite !nth_error_store_other by auto. }
  assert (HnotM : forall r, In r refs -> r <> Ml).
  { intros r Hin. rewrite Forall_forall in Hfa. now apply Hfa. }
  split; [split; [|split]|].
  - unfold h'. rewrite nth_error_store_same by (rewrite length_upd; exact (nth_error_lt _ _ Hm)).
    reflexivity.
  - now rewrite !length_swapRows.
  - intros i Hi. rewrite length_swapRows in Hi.
    unfold row. rewrite !nth_swapRows by lia.
    assert (Hs : (swapIdx k m i < nn)%nat) by (apply swapIdx_lt; lia).
    rewrite Hother; [apply Hr; lia|]. apply HnotM, nth_In. lia.
  - split; [split|].
    + apply NoDup_nth with (d := O). intros i j Hi Hj Heq.
      rewrite length_swapRows in Hi, Hj. rewrite !nth_swapRows in Heq by lia.
      apply (swapIdx_inj k m).
      apply (proj1 (NoDup_nth refs O) Hnd); [apply swapIdx_lt; lia|apply swapIdx_lt; lia|exact Heq].
    + apply Forall_forall. intros r Hin. apply In_swapRows in Hin; [|lia|lia].
      rewrite Forall_forall in Hfa. now apply Hfa.
    + split; [intros Hin; apply Hxr; apply In_swapRows in Hin; [exact Hin|lia|lia]|].
      split; [rewrite Hother by auto; exact Hx|].
      split; [exact H1|]. split; [exact H2|]. split; [exact H3|].
      split; [now rewrite length_swapRows|]. split; [|exact Hlx].
      intros i Hi. unfold row. rewrite nth_swapRows by lia.
      apply Hrow. apply swapIdx_lt; lia.
Qed.

Lemma inv_swapNums {B} refs M xs h k m (rest : Cmd B) (Q : B -> Store -> Prop) :
  inv refs M xs h -> (k < nn)%nat -> (m < nn)%nat ->
  (forall h', inv refs M (swapRows $0 xs k m) h' -> runs n0 rest h' Q) ->
  runs n0 (bind (getNum xl m) (fun xm =>
           bind (getNum xl k) (fun xk =>
           bind (setNum xl k xm) (fun _ =>
           bind (setNum xl m xk) (fun _ => rest))))) h Q.
Proof.
  intros Hinv Hk Hm HQ.
  apply runs_bind. eapply inv_getNum; [exact Hinv|lia|].
  apply runs_bind. eapply inv_getNum; [exact Hinv|lia|].
  apply runs_bind. eapply inv_setNum; [exact Hinv|lia|]. intros h1 H1.
  apply runs_bind. eapply inv_setNum; [exact H1|lia|]. intros h2 H2.
  apply HQ. exact H2.
Qed.

Lemma inv_solveStep refs M xs h k (Q : bool -> Store -> Prop) :
  inv refs M xs h -> (k < nn)%nat ->
  match solveStep nn (M, xs) k with
  | Some Mx' => forall refs' h', inv refs' (fst Mx') (snd Mx') h' -> Q true h'
  | None => Q false h
  end ->
  runs n0 (InPlace.solveStep Ml xl nn k) h Q.
Proof.
  intros Hinv Hk HQ. unfold InPlace.solveStep, solveStep in *. cbn [fst snd] in HQ.
  assert (Hmax : (findMaxRow M k nn < nn)%nat).
  { unfold findMaxRow.
    assert (H : forall rows cur, (cur < nn)%nat -> Forall (fun i => (i < nn)%nat) rows ->
      (fold_left (fun maxRow i =>
                    if abs (entry M i k) >? abs (entry M maxRow k) then i else maxRow)
                 rows cur < nn)%nat).
    { induction rows as [|i rows IH]; intros cur Hc Hr; simpl; [exact Hc|].
      inversion Hr; subst. apply IH; [|assumption].
      destruct (abs (entry M cur k) <? abs (entry M i k)); assumption. }
    apply H; [exact Hk|]. apply Forall_forall. intros i Hi. apply in_seq in Hi. lia. }
  apply runs_bind. eapply inv_findMaxRow; [exact Hinv|exact Hk|exact Hk| |].
  { apply Forall_forall. intros i Hi. apply in_seq in Hi. lia. }
  fold (findMaxRow M k nn).
  apply runs_bind. eapply inv_getEntry; [exact Hinv|exact Hmax|exact Hk|].
  destruct (abs (entry M (findMaxRow M k nn) k) <? eps).
  - now apply runs_ret.
  - apply inv_swapRefs with (refs:=refs) (M:=M) (xs:=xs); [exact Hinv|exact Hk|exact Hmax|].
    intros h1 H1.
    apply inv_swapNums with (refs:=swapRows O refs k (findMaxRow M k nn))
                            (M:=swapRows [] M k (findMaxRow M k nn)) (xs:=xs);
      [exact H1|exact Hk|exact Hmax|].
    intros h2 H2.
    apply runs_bind. eapply inv_getEntry; [exact H2|exact Hk|exact Hk|].
    apply runs_bind. eapply inv_normalize; [exact H2|exact Hk|]. intros h3 H3.
    apply runs_bind. eapply inv_getNum; [exact H3|exact Hk|].
    apply runs_bind. eapply inv_setNum; [exact H3|exact Hk|]. intros h4 H4.
    apply runs_bind. eapply inv_eliminate_all; [exact H4|exact Hk|]. intros h5 H5.
    apply runs_ret. eapply HQ. exact H5.
Qed.

Lemma inv_solveLoop (ks : list nat) refs M xs h (Q : bool -> Store -> Prop) :
  inv refs M xs h -> Forall (fun k => (k < nn)%nat) ks ->
  match solveLoop nn ks (M, xs) with
  | Some Mx' => forall refs' h', inv refs' (fst Mx') (snd Mx') h' -> Q true h'
  | None => forall h', Q false h'
  end ->
  runs n0 (InPlace.solveLoop Ml xl nn ks) h Q.
Proof.
  revert refs M xs h. induction ks as [|k ks IH]; intros refs M xs h Hinv Hks HQ; simpl in *.
  - apply runs_ret. eapply HQ. exact Hinv.
  - inversion Hks as [|? ? Hk Hks']; subst.
    apply runs_bind. apply inv_solveStep with (refs:=refs) (M:=M) (xs:=xs); [exact Hinv|exact Hk|].
    destruct (solveStep nn (M, xs) k) as [[M1 x1]|].
    + intros refs1 h1 H1. cbn [fst snd] in H1.
      apply IH with (refs:=refs1) (M:=M1) (xs:=x1); [exact H1|exact Hks'|exact HQ].
    + apply runs_ret. apply HQ.
Qed.

End Loops.

Lemma copy_rows (arefs : list nat) (Am : list (list T)) (h : Store) :
  length arefs = length Am ->
  (forall i, (i < length Am)%nat -> nth_error h (nth i arefs O) = Some (ONums (row Am i))) ->
  mapM (fun row => bind (loadNums row) (fun rv => alloc (ONums rv))) arefs h =
  Some (seq (length h) (length arefs), h ++ map ONums Am).
Proof.
  revert Am h. induction arefs as [|r arefs IH]; intros [|row0 Am] h Hl Hr; try discriminate.
  - simpl. now rewrite app_nil_r.
  - assert (H0 : nth_error h r = Some (ONums row0)) by (apply (Hr 0%nat); simpl; lia).
    cbn [mapM].
    erewrite bind_run;
      [|erewrite bind_run;
         [apply alloc_run
         |apply loadNums_run; exact H0]].
    erewrite bind_run; [|apply (IH Am (h ++ [ONums row0]))].
    + cbn [ret length map seq]. rewrite length_app, <- app_assoc. cbn [length app].
      now replace (length h + 1)%nat with (S (length h)) by lia.
    + simpl in Hl. lia.
    + intros i Hi. specialize (Hr (S i)). cbn [nth row length] in Hr.
      rewrite nth_error_app1; [apply Hr; simpl; lia|].
      apply (@nth_error_lt _ h (nth i arefs O) (ONums (nth i Am []))).
      apply Hr. simpl. lia.
Qed.

Lemma runs_solveLinearSystem (h : Store) (A b : nat) arefs (Am : list (list T)) (bv : list T) :
  matAt h A arefs Am -> nth_error h b = Some (ONums bv) ->
  length Am = length bv ->
  (forall i, (i < length bv)%nat -> length (row Am i) = length bv) ->
  runs (length h) (InPlace.solveLinearSystem A b) h
    (fun r h' =>
       match solveLinearSystem Am bv with
       | Some xs => exists xl, r = Some xl /\ nth_error h' xl = Some (ONums xs) /\
                               length xs = length bv
       | None => r = None
       end).
Proof.
  intros [HA [HlA HrA]] Hb HlM Hrow. unfold InPlace.solveLinearSystem.
  apply runs_bind. eapply runs_loadNums; [exact Hb|].
  apply runs_bind. eapply runs_loadRefs; [exact HA|].
  apply runs_bind.
  eapply runs_exact; [exact (copy_rows arefs Am h HlA HrA)|apply keeps_app; lia|].
  set (nn := length bv). set (h1 := h ++ map ONums Am).
  assert (Hl1 : length h1 = (length h + nn)%nat).
  { unfold h1. rewrite length_app, length_map. lia. }
  apply runs_bind. apply runs_alloc; [lia|].
  apply runs_bind. apply runs_alloc; [rewrite length_app; simpl; lia|].
  rewrite length_app. cbn [length]. rewrite HlA, HlM. fold nn.
  set (Ml := length h1). set (xl := (Ml + 1)%nat).
  set (refs := seq (length h) nn).
  set (h3 := (h1 ++ [ORefs refs]) ++ [ONums bv]).
  assert (Hinv : solverInv (length h) Ml xl nn refs Am bv h3).
  { split; [split; [|split]|].
    - unfold h3. rewrite nth_error_app1 by (rewrite length_app; simpl; lia).
      apply nth_error_alloc.
    - unfold refs. now rewrite length_seq.
    - intros i Hi. unfold refs. rewrite seq_nth by lia.
      unfold h3, h1. rewrite <- !app_assoc.
      rewrite nth_error_app2 by lia. replace (length h + i - length h)%nat with i by lia.
      rewrite nth_error_app1 by (rewrite length_map; lia).
      rewrite nth_error_map. unfold row.
      now rewrite (nth_error_nth' Am [] Hi).
    - split; [split|].
      + apply seq_NoDup.
      + apply Forall_forall. intros r Hr. apply in_seq in Hr. unfold Ml. lia.
      + split; [intros Hin; apply in_seq in Hin; unfold xl, Ml in Hin; lia|].
        split.
        { unfold h3, xl, Ml.
          replace (length h1 + 1)%nat with (length (h1 ++ [ORefs refs]))
            by (rewrite length_app; reflexivity).
          apply nth_error_alloc. }
        unfold xl, Ml. repeat split; try lia. exact Hrow. }
  apply runs_bind.
  apply inv_solveLoop with (refs:=refs) (M:=Am) (xs:=bv); [exact Hinv| |].
  { apply Forall_forall. intros k Hk. apply in_seq in Hk. lia. }
  unfold solveLinearSystem. fold nn.
  destruct (solveLoop nn (seq 0 nn) (Am, bv)) as [[M' x']|]; cbn [option_map snd fst].
  - intros refs' h' [_ [_ [_ [Hx [_ [_ [_ [_ [_ Hlx]]]]]]]]]. apply runs_ret. exists xl. auto.
  - intros h'. now apply runs_ret.
Qed.

End SolverOnStore.

(** ** Loops over arrays of the store *)

Section LoopRules.
Context {T : Type} {N : Number T}.
Import StoreOps.
Local Abbreviation Store := (StoreOps.Store (T:=T)).
Local Abbreviation Obj := (StoreOps.Obj (T:=T)).
Local Abbreviation Cmd := (StoreOps.Cmd (T:=T)).

Lemma keeps_cell (h h' : Store) l o :
  keeps (length h) h h' -> nth_error h l = Some o -> nth_error h' l = Some o.
Proof. intros Hk Ho. exact (keeps_at Hk (nth_error_lt _ _ Ho) Ho). Qed.

(* the loop rule, with the store of each pass related to the one at entry *)
Lemma runs_forEach_from {A S} n (h0 : Store) (R : S -> Store -> Prop) (step : S -> A -> S)
    (body : A -> Cmd unit) (l : list A) s :
  (forall s a h, In a l -> keeps n h0 h -> R s h ->
     runs n (body a) h (fun _ h' => R (step s a) h')) ->
  R s h0 ->
  runs n (forEach l body) h0 (fun _ h' => R (fold_left step l s) h').
Proof.
  intros Hbody HR.
  eapply runs_conseq;
    [apply (runs_forEach (fun s h => keeps n h0 h /\ R s h) step body l)|].
  - intros s' a h Ha [Hk HR'].
    eapply runs_conseq; [exact (Hbody s' a h Ha Hk HR')|].
    intros u h' Hk' HR''. split; [exact (keeps_trans Hk Hk')|exact HR''].
  - split; [apply keeps_refl|exact HR].
  - intros u h' _ [_ HR']. exact HR'.
Qed.

Lemma fold_indices {A S} (step : S -> A -> nat -> S) (v p : list A) s :
  fold_left (fun s i => match nth_error (p ++ v) i with
                        | Some a => step s a i
                        | None => s
                        end)
            (seq (length p) (length v)) s =
  fold_left (fun s ai => step s (fst ai) (snd ai)) (combine v (seq (length p) (length v))) s.
Proof.
  revert p s. induction v as [|a v IH]; intros p s; [reflexivity|].
  cbn [length seq combine fold_left fst snd].
  rewrite nth_error_app2 by lia. rewrite Nat.sub_diag. cbn [nth_error].
  specialize (IH (p ++ [a]) (step s a (length p))).
  rewrite <- app_assoc, length_app in IH. cbn [length app] in IH.
  rewrite Nat.add_1_r in IH. exact IH.
Qed.

(* [a.forEach(callback)] over an array the loop leaves alone *)
Lemma runs_forEachOf {A S} n (h0 : Store) (loadAll : Cmd (list A)) (v : list A)
    (R : S -> Store -> Prop) (step : S -> A -> nat -> S) (body : A -> nat -> Cmd unit) s :
  (forall h, keeps n h0 h -> loadAll h = Some (v, h)) ->
  (forall s a i h, nth_error v i = Some a -> keeps n h0 h -> R s h ->
     runs n (body a i) h (fun _ h' => R (step s a i) h')) ->
  R s h0 ->
  runs n (forEachOf loadAll body) h0
    (fun _ h' => R (fold_left (fun s ai => step s (fst ai) (snd ai))
                              (combine v (seq 0 (length v))) s) h').
Proof.
  intros Hload Hbody HR. unfold forEachOf. apply runs_bind.
  eapply runs_exact; [exact (Hload h0 (keeps_refl n h0))|apply keeps_refl|].
  pose proof (fold_indices step v [] s) as E. cbn [length app] in E. rewrite <- E.
  apply runs_forEach_from; [|exact HR].
  intros s' i h Hi Hk HR'. apply runs_bind.
  eapply runs_exact; [exact (Hload h Hk)|apply keeps_refl|].
  destruct (nth_error v i) as [a|] eqn:Ha.
  - exact (Hbody s' a i h Ha Hk HR').
  - now apply runs_ret.
Qed.

Lemma fold_left_push {A B} (f : A -> list B) (l : list A) s :
  fold_left (fun s a => s ++ f a) l s = s ++ flat_map f l.
Proof.
  revert s. induction l as [|a l IH]; intros s; simpl; [now rewrite app_nil_r|].
  now rewrite IH, app_assoc.
Qed.

Lemma flat_map_combine_fst {A B} (g : A -> list B) (v : list A) k :
  flat_map (fun ai : A * nat => g (fst ai)) (combine v (seq k (length v))) = flat_map g v.
Proof.
  revert k. induction v as [|a v IH]; intros k; simpl; [reflexivity|]. now rewrite IH.
Qed.

Lemma flat_map_single {A B} (g : A -> B) (v : list A) :
  flat_map (fun a => [g a]) v = map g v.
Proof. induction v as [|a v IH]; simpl; [reflexivity|]. now rewrite IH. Qed.

Lemma mapM_reads {A B} (f : A -> Cmd B) (g : A -> B) (l : list A) (h : Store) :
  (forall a, In a l -> f a h = Some (g a, h)) -> mapM f l h = Some (map g l, h).
Proof.
  induction l as [|a l IH]; intros Hf; [reflexivity|]. cbn [mapM map].
  erewrite bind_run; [|apply Hf; now left].
  erewrite bind_run; [|apply IH; intros a' Ha'; apply Hf; now right]. reflexivity.
Qed.

(* a map whose callback creates one object per element *)
Lemma mapM_allocs {A} (f : A -> Cmd nat) (g : A -> Obj) (R : Store -> Prop) (l : list A) :
  (forall h e, R h -> R (h ++ e)) ->
  (forall a h, In a l -> R h -> f a h = Some (length h, h ++ [g a])) ->
  forall h, R h -> mapM f l h = Some (seq (length h) (length l), h ++ map g l).
Proof.
  intros Happ. induction l as [|a l IH]; intros Hf h HR.
  - simpl. now rewrite app_nil_r.
  - cbn [mapM]. erewrite bind_run; [|apply Hf; [now left|exact HR]].
    erewrite bind_run;
      [|apply IH; [intros a' h' Ha'; apply Hf; now right|apply Happ; exact HR]].
    cbn [ret length map seq]. rewrite length_app, <- app_assoc. cbn [length app].
    now rewrite Nat.add_1_r.
Qed.

Lemma loadSupports_run l v (h : Store) :
  nth_error h l = Some (OSupports v) -> loadSupports l h = Some (v, h).
Proof. intros H. unfold loadSupports, bind, load. now rewrite H. Qed.

Lemma loadPointLoads_run l v (h : Store) :
  nth_error h l = Some (OPointLoads v) -> loadPointLoads l h = Some (v, h).
Proof. intros H. unfold loadPointLoads, bind, load. now rewrite H. Qed.

Lemma loadUdls_run l v (h : Store) :
  nth_error h l = Some (OUdls v) -> loadUdls l h = Some (v, h).
Proof. intros H. unfold loadUdls, bind, load. now rewrite H. Qed.

Lemma loadNodes_run l v (h : Store) :
  nth_error h l = Some (ONodes v) -> loadNodes l h = Some (v, h).
Proof. intros H. unfold loadNodes, bind, load. now rewrite H. Qed.

Lemma loadElements_run l v (h : Store) :
  nth_error h l = Some (OElements v) -> loadElements l h = Some (v, h).
Proof. intros H. unfold loadElements, bind, load. now rewrite H. Qed.

Lemma getNum_run l i v (h : Store) :
  nth_error h l = Some (ONums v) -> i < length v -> getNum l i h = Some (get v i, h).
Proof.
  intros H Hi. unfold getNum. erewrite bind_run; [|apply loadNums_run; exact H].
  now rewrite (nth_error_get v Hi).
Qed.

End LoopRules.

(** ** The Mesh Builder on the store *)

Section MeshOnStore.
Context {T : Type} {N : Number T}.
Import StoreOps.
Local Abbreviation Store := (StoreOps.Store (T:=T)).
Local Open Scope num_scope.

Lemma runs_uniqueSorted n (h : Store) (values : list T) (Q : nat -> Store -> Prop) :
  n <= length h ->
  (forall h', nth_error h' (length h) = Some (ONums (uniqueSorted values)) ->
              keeps (length h) h h' -> Q (length h) h') ->
  runs n (InPlace.uniqueSorted values) h Q.
Proof.
  intros Hn HQ. unfold InPlace.uniqueSorted.
  apply runs_bind. apply runs_alloc; [exact Hn|].
  apply runs_bind. eapply runs_loadNums; [apply nth_error_alloc|].
  apply runs_bind. apply runs_store; [exact Hn|rewrite length_app; simpl; lia|].
  apply runs_ret. apply HQ.
  - apply nth_error_store_same. rewrite length_app. simpl. lia.
  - eapply keeps_trans; [apply keeps_alloc; lia|apply keeps_store; lia].
Qed.

Lemma runs_gather {A} n (h0 : Store) (loadAll : StoreOps.Cmd (T:=T) (list A)) (v : list A)
    (f : A -> list T) bp s (Q : unit -> Store -> Prop) :
  n <= bp ->
  (forall h, keeps n h0 h -> loadAll h = Some (v, h)) ->
  nth_error h0 bp = Some (ONums s) ->
  (forall h', keeps n h0 h' -> nth_error h' bp = Some (ONums (s ++ flat_map f v)) -> Q tt h') ->
  runs n (forEachOf loadAll (fun a _ => pushNums bp (f a))) h0 Q.
Proof.
  intros Hn Hload Hs HQ.
  eapply runs_conseq;
    [apply (@runs_forEachOf T A (list T) n h0 loadAll v (gathered bp)
              (fun s a (_ : nat) => s ++ f a)
              (fun a (_ : nat) => pushNums bp (f a)) s Hload)|].
  - intros s' a i h _ _ HR. eapply runs_pushNums; [exact Hn|exact HR|].
    apply nth_error_store_same. exact (nth_error_lt _ _ HR).
  - exact Hs.
  - intros [] h' Hk HR. apply HQ; [exact Hk|].
    unfold gathered in HR.
    rewrite (fold_left_push (fun ai : A * nat => f (fst ai))) in HR.
    now rewrite flat_map_combine_fst in HR.
Qed.

Lemma runs_buildNodes (h : Store) (lengthMm : T) sl pl ul sv pv uv :
  nth_error h sl = Some (OSupports sv) ->
  nth_error h pl = Some (OPointLoads pv) ->
  nth_error h ul = Some (OUdls uv) ->
  runs (length h) (InPlace.buildNodes lengthMm sl pl ul) h
    (fun r h' => nth_error h' r = Some (ONodes (buildNodes lengthMm sv pv uv))).
Proof.
  intros Hs Hp Hu. unfold InPlace.buildNodes.
  pose proof (nth_error_lt _ _ Hs) as Ls.
  pose proof (nth_error_lt _ _ Hp) as Lp.
  pose proof (nth_error_lt _ _ Hu) as Lu.
  apply runs_bind. apply runs_alloc; [lia|].
  set (h1 := h ++ [ONums [$0; lengthMm]]).
  assert (K1 : keeps (length h) h h1) by (apply keeps_alloc; lia).
  apply runs_bind.
  eapply runs_gather with (v:=sv) (s:=[$0; lengthMm]) (f:=fun a => [s_positionMm a]);
    [lia| | |].
  { intros h' Hk. apply loadSupports_run.
    exact (keeps_at (keeps_trans K1 Hk) Ls Hs). }
  { apply nth_error_alloc. }
  intros h2 K2 B2. pose proof (keeps_trans K1 K2) as K12.
  apply runs_bind.
  eapply runs_gather with (v:=pv) (f:=fun a => [p_positionMm a]); [lia| |exact B2|].
  { intros h' Hk. apply loadPointLoads_run.
    exact (keeps_at (keeps_trans K12 Hk) Lp Hp). }
  intros h3 K3 B3. pose proof (keeps_trans K12 K3) as K13.
  apply runs_bind.
  eapply runs_gather with (v:=uv) (f:=fun a => [u_startMm a; u_endMm a]);
    [lia| |exact B3|].
  { intros h' Hk. apply loadUdls_run.
    exact (keeps_at (keeps_trans K13 Hk) Lu Hu). }
  intros h4 K4 B4. pose proof (keeps_trans K13 K4) as K14.
  apply runs_bind. eapply runs_loadNums; [exact B4|].
  apply runs_bind. apply runs_uniqueSorted; [destruct K14; lia|].
  intros h5 P5 K5.
  assert (K15 : keeps (length h) h h5).
  { eapply keeps_trans; [exact K14|]. eapply keeps_le; [|exact K5]. destruct K14; lia. }
  apply runs_bind. eapply runs_loadNums; [exact P5|].
  apply runs_bind.
  eapply runs_conseq;
    [apply (runs_mapM (fun h' => nth_error h' sl = Some (OSupports sv)) _
              (fun position =>
                 {| x := position;
                    supportType :=
                      match find (fun item => s_positionMm item =? position) sv with
                      | Some s => s_type s
                      | None => free
                      end |}))|].
  - intros a h' _ Hs'. apply runs_bind. eapply runs_loadSupports; [exact Hs'|].
    apply runs_ret. split; [reflexivity|exact Hs'].
  - exact (keeps_at K15 Ls Hs).
  - intros nodes h6 K6 [Hnodes _]. subst nodes.
    apply runs_alloc; [destruct K15, K6; lia|].
    rewrite nth_error_alloc. unfold buildNodes, basePositions.
    rewrite !flat_map_single, <- !app_assoc. reflexivity.
Qed.

End MeshOnStore.

(** ** The Element Assembler on the store *)

Section AssemblerOnStore.
Context {T : Type} {N : Number T}.
Import StoreOps.
Local Abbreviation Store := (StoreOps.Store (T:=T)).
Local Abbreviation Cmd := (StoreOps.Cmd (T:=T)).
Local Open Scope num_scope.

Lemma fold_left_combine_fst {A B S} (g : S -> A -> S) (v : list A) (l : list B) s :
  length v = length l ->
  fold_left (fun s ai => g s (fst ai)) (combine v l) s = fold_left g v s.
Proof.
  revert l s. induction v as [|a v IH]; intros [|b l] s Hl; try discriminate; [reflexivity|].
  simpl. apply IH. simpl in Hl. lia.
Qed.

Lemma fold_left_combine_snd {A B S} (g : S -> B -> S) (v : list A) (l : list B) s :
  length v = length l ->
  fold_left (fun s ai => g s (snd ai)) (combine v l) s = fold_left g l s.
Proof.
  revert l s. induction v as [|a v IH]; intros [|b l] s Hl; try discriminate; [reflexivity|].
  simpl. apply IH. simpl in Hl. lia.
Qed.

Lemma matAt_keeps (h h' : Store) m refs (M : list (list T)) :
  matAt h m refs M -> keeps (length h) h h' -> matAt h' m refs M.
Proof.
  intros [Hm [Hl Hr]] Hk. split; [eapply keeps_cell; [exact Hk|exact Hm]|].
  split; [exact Hl|].
  intros i Hi. eapply keeps_cell; [exact Hk|exact (Hr i Hi)].
Qed.

Lemma runs_mapLoadsToNodes (h : Store) nodes pl (nv : list (@Node T)) pv :
  nth_error h nodes = Some (ONodes nv) ->
  nth_error h pl = Some (OPointLoads pv) ->
  runs (length h) (InPlace.mapLoadsToNodes nodes pl) h
    (fun r h' => (length h <= r)%nat /\
                 nth_error h' r = Some (ONums (mapLoadsToNodes nv pv)) /\
                 length (mapLoadsToNodes nv pv) = length nv).
Proof.
  intros Hn Hp. unfold InPlace.mapLoadsToNodes.
  pose proof (nth_error_lt _ _ Hn) as Ln.
  pose proof (nth_error_lt _ _ Hp) as Lp.
  apply runs_bind. eapply runs_loadNodes; [exact Hn|].
  apply runs_bind. apply runs_alloc; [lia|].
  set (nl := length h). set (h1 := h ++ [ONums (repeat $0 (length nv))]).
  assert (K1 : keeps nl h h1) by (apply keeps_alloc; unfold nl; lia).
  pose (step := fun (s : list T) (load : @PointLoad T) =>
                  match findIndex (fun node => x node =? p_positionMm load) nv with
                  | Some index => upd s index (get s index + (- p_magnitudeKn load) * $1000)
                  | None => s
                  end).
  pose (R := fun (s : list T) (h' : Store) =>
               nth_error h' nl = Some (ONums s) /\ length s = length nv).
  apply runs_bind.
  eapply runs_conseq;
    [apply (@runs_forEachOf T _ (list T) nl h1 (loadPointLoads pl) pv R
              (fun s a (_ : nat) => step s a))|].
  - intros h' Hk. apply loadPointLoads_run. exact (keeps_at (keeps_trans K1 Hk) Lp Hp).
  - intros s a i h' _ Hk [Hs Hl]. apply runs_bind. eapply runs_loadNodes.
    { exact (keeps_at (keeps_trans K1 Hk) Ln Hn). }
    unfold step.
    destruct (findIndex (fun node => x node =? p_positionMm a) nv) as [index|] eqn:E.
    + pose proof (findIndex_lt _ _ E) as Hi.
      apply runs_bind. eapply runs_getNum; [exact Hs|lia|].
      eapply runs_setNum; [unfold nl; lia|exact Hs|lia|].
      split; [apply nth_error_store_same; exact (nth_error_lt _ _ Hs)|].
      now rewrite length_upd.
    + apply runs_ret. now split.
  - split; [apply nth_error_alloc|apply repeat_length].
  - intros [] h' Hk [Hs Hl]. apply runs_ret.
    rewrite (fold_left_combine_fst step) in Hs, Hl by now rewrite length_seq.
    split; [unfold nl; lia|]. split; [exact Hs|exact Hl].
Qed.

Section Working.
Variables (n0 nodes udls Kl Fl el : nat).
Variables (nv : list (@Node T)) (uv : list (@Udl T)) (refs : list nat).
Hypothesis Hown : ownsRows n0 Kl refs.
Hypothesis HnF : (n0 <= Fl)%nat.
Hypothesis Hne : (n0 <= el)%nat.
Hypothesis HFK : ~ In Fl refs.
Hypothesis HeK : ~ In el refs.
Hypothesis HFe : Fl <> el.
Hypothesis HFm : Fl <> Kl.
Hypothesis Hem : el <> Kl.
Hypothesis Hnodes : (nodes < n0)%nat.
Hypothesis Hudls : (udls < n0)%nat.
Local Abbreviation inv := (asmInv nodes udls Kl Fl el nv uv refs).
Local Abbreviation invOf := (asmInvOf nodes udls Kl Fl el nv uv refs).

Lemma refs_above l : In l refs -> (n0 <= l)%nat.
Proof.
  intros Hl. destruct Hown as [_ Hf]. rewrite Forall_forall in Hf. now apply Hf.
Qed.

Lemma asm_getF Km Fv ev h i (Q : T -> Store -> Prop) :
  inv Km Fv ev h -> (i < length nv * 2)%nat -> Q (get Fv i) h ->
  runs n0 (getNum Fl i) h Q.
Proof.
  intros [_ [_ [_ [HF [_ [_ [_ HlF]]]]]]] Hi HQ.
  eapply runs_getNum; [exact HF|lia|exact HQ].
Qed.

Lemma asm_setF Km Fv ev h i a (Q : unit -> Store -> Prop) :
  inv Km Fv ev h -> (i < length nv * 2)%nat ->
  (forall h', inv Km (upd Fv i a) ev h' -> Q tt h') ->
  runs n0 (setNum Fl i a) h Q.
Proof.
  intros [Hn [Hu [Hm [HF [He [HlK [Hrow HlF]]]]]]] Hi HQ.
  eapply runs_setNum; [exact HnF|exact HF|lia|]. apply HQ.
  split; [rewrite nth_error_store_other by lia; exact Hn|].
  split; [rewrite nth_error_store_other by lia; exact Hu|].
  split.
  { eapply matAt_other with (l := Fl); [exact Hm|exact HFm|exact HFK|].
    intros l' Hl'. apply nth_error_store_other. auto. }
  split; [apply nth_error_store_same; exact (nth_error_lt _ _ HF)|].
  split; [rewrite nth_error_store_other by exact HFe; exact He|].
  split; [exact HlK|]. split; [exact Hrow|]. now rewrite length_upd.
Qed.

Lemma asm_getK Km Fv ev h i j (Q : T -> Store -> Prop) :
  inv Km Fv ev h -> (i < length nv * 2)%nat -> (j < length nv * 2)%nat ->
  Q (entry Km i j) h -> runs n0 (getEntry Kl i j) h Q.
Proof.
  intros [_ [_ [Hm [_ [_ [HlK [Hrow _]]]]]]] Hi Hj HQ.
  eapply runs_getEntry; [exact Hm|lia|rewrite Hrow; lia|exact HQ].
Qed.

Lemma asm_setK Km Fv ev h i j a (Q : unit -> Store -> Prop) :
  inv Km Fv ev h -> (i < length nv * 2)%nat -> (j < length nv * 2)%nat ->
  (forall h', inv (upd Km i (upd (row Km i) j a)) Fv ev h' -> Q tt h') ->
  runs n0 (setEntry Kl i j a) h Q.
Proof.
  intros [Hn [Hu [Hm [HF [He [HlK [Hrow HlF]]]]]]] Hi Hj HQ.
  eapply runs_setEntry; [exact Hm|exact Hown|lia|rewrite Hrow; lia|].
  intros h' Hm' Hother Hlen. apply HQ.
  assert (Hin : forall l, (l < n0)%nat -> ~ In l refs).
  { intros l Hl Hin. apply refs_above in Hin. lia. }
  split; [rewrite Hother by auto; exact Hn|].
  split; [rewrite Hother by auto; exact Hu|].
  split; [exact Hm'|].
  split; [rewrite Hother by exact HFK; exact HF|].
  split; [rewrite Hother by exact HeK; exact He|].
  split; [now rewrite length_upd|]. split; [|exact HlF].
  intros i' Hi'. destruct (Nat.eq_dec i i') as [<-|Hne'].
  - rewrite row_upd_same by lia. rewrite length_upd. now apply Hrow.
  - rewrite row_upd_other by exact Hne'. now apply Hrow.
Qed.

Lemma asm_push Km Fv ev h e (Q : unit -> Store -> Prop) :
  inv Km Fv ev h ->
  (forall h', inv Km Fv (ev ++ [e]) h' -> Q tt h') ->
  runs n0 (pushElement el e) h Q.
Proof.
  intros [Hn [Hu [Hm [HF [He [HlK [Hrow HlF]]]]]]] HQ.
  eapply runs_pushElement; [exact Hne|exact He|]. apply HQ.
  split; [rewrite nth_error_store_other by lia; exact Hn|].
  split; [rewrite nth_error_store_other by lia; exact Hu|].
  split.
  { eapply matAt_other with (l := el); [exact Hm|exact Hem|exact HeK|].
    intros l' Hl'. apply nth_error_store_other. auto. }
  split; [rewrite nth_error_store_other by auto; exact HF|].
  split; [apply nth_error_store_same; exact (nth_error_lt _ _ He)|].
  split; [exact HlK|]. split; [exact Hrow|exact HlF].
Qed.

Lemma asm_nodeX Km Fv ev h i (Q : T -> Store -> Prop) :
  inv Km Fv ev h -> (i < length nv)%nat ->
  Q (x (nth i nv {| x := $0; supportType := free |})) h ->
  runs n0 (InPlace.nodeX nodes i) h Q.
Proof.
  intros [Hn _] Hi HQ. unfold InPlace.nodeX.
  apply runs_bind. eapply runs_loadNodes; [exact Hn|].
  rewrite (nth_error_nth' nv {| x := $0; supportType := free |} Hi). now apply runs_ret.
Qed.

Lemma asm_udl Km Fv ev h x1 x2 (Q : T -> Store -> Prop) :
  inv Km Fv ev h -> Q (getElementUdl uv x1 x2) h ->
  runs n0 (InPlace.getElementUdl udls x1 x2) h Q.
Proof.
  intros [_ [Hu _]] HQ. unfold InPlace.getElementUdl.
  apply runs_bind. eapply runs_loadUdls; [exact Hu|]. now apply runs_ret.
Qed.

Lemma dofMap_lt i r : (i + 1 < length nv)%nat -> In r (seq 0 4) ->
  (nth r (dofMap i) O < length nv * 2)%nat.
Proof.
  intros Hi Hr. simpl in Hr.
  repeat (destruct Hr as [<-|Hr]; [simpl; lia|]). destruct Hr.
Qed.

Lemma asm_scatterRow i kl r Km Fv ev h (Q : unit -> Store -> Prop) :
  inv Km Fv ev h -> (i + 1 < length nv)%nat -> In r (seq 0 4) ->
  (forall h', inv (scatterRow (dofMap i) kl r Km) Fv ev h' -> Q tt h') ->
  runs n0 (forEach (seq 0 4)
             (fun c => bind (getEntry Kl (nth r (dofMap i) O) (nth c (dofMap i) O))
                         (fun k => setEntry Kl (nth r (dofMap i) O) (nth c (dofMap i) O)
                                     (k + entry kl r c)))) h Q.
Proof.
  intros Hinv Hi Hr HQ.
  eapply runs_conseq;
    [apply (runs_forEach (n:=n0) (fun Km' h' => inv Km' Fv ev h')
              (fun Km' c => upd Km' (nth r (dofMap i) O)
                              (upd (row Km' (nth r (dofMap i) O)) (nth c (dofMap i) O)
                                 (entry Km' (nth r (dofMap i) O) (nth c (dofMap i) O)
                                  + entry kl r c))))|].
  - intros Km' c h' Hc Hinv'. apply runs_bind.
    eapply asm_getK; [exact Hinv'|now apply dofMap_lt|now apply dofMap_lt|].
    eapply asm_setK; [exact Hinv'|now apply dofMap_lt|now apply dofMap_lt|].
    intros h'' H''. exact H''.
  - exact Hinv.
  - intros [] h' _ H'. apply HQ. exact H'.
Qed.

Lemma asm_scatter i kl ff Km Fv ev h (Q : unit -> Store -> Prop) :
  inv Km Fv ev h -> (i + 1 < length nv)%nat ->
  (forall h', inv (fst (scatter (dofMap i) kl ff (Km, Fv)))
                     (snd (scatter (dofMap i) kl ff (Km, Fv))) ev h' -> Q tt h') ->
  runs n0 (forEach (seq 0 4)
    (fun r =>
       bind (getNum Fl (nth r (dofMap i) O)) (fun f =>
       bind (setNum Fl (nth r (dofMap i) O) (f + get ff r)) (fun _ =>
       forEach (seq 0 4)
         (fun c => bind (getEntry Kl (nth r (dofMap i) O) (nth c (dofMap i) O))
                     (fun k => setEntry Kl (nth r (dofMap i) O) (nth c (dofMap i) O)
                                 (k + entry kl r c))))))) h Q.
Proof.
  intros Hinv Hi HQ.
  eapply runs_conseq;
    [apply runs_forEach with
       (R := fun (KF : list (list T) * list T) h' => inv (fst KF) (snd KF) ev h')
       (step := fun KF r =>
                 (scatterRow (dofMap i) kl r (fst KF),
                  upd (snd KF) (nth r (dofMap i) O)
                    (get (snd KF) (nth r (dofMap i) O) + get ff r)))
       (s := (Km, Fv))|].
  - intros [Km' Fv'] r h' Hr Hinv'. cbn [fst snd] in *. apply runs_bind.
    eapply asm_getF; [exact Hinv'|now apply dofMap_lt|].
    apply runs_bind.
    eapply asm_setF; [exact Hinv'|now apply dofMap_lt|].
    intros h'' H''.
    eapply asm_scatterRow; [exact H''|exact Hi|exact Hr|].
    intros h3 H3. exact H3.
  - exact Hinv.
  - intros [] h' _ H'. apply HQ. exact H'.
Qed.

Lemma asm_element EI st h i (Q : unit -> Store -> Prop) :
  invOf st h -> (i + 1 < length nv)%nat ->
  (forall h', invOf (assembleElement nv EI uv st i) h' -> Q tt h') ->
  runs n0 (InPlace.assembleElement nodes udls EI Kl Fl el i) h Q.
Proof.
  intros Hinv Hi HQ. unfold InPlace.assembleElement.
  apply runs_bind. eapply asm_nodeX; [exact Hinv|lia|].
  apply runs_bind. eapply asm_nodeX; [exact Hinv|lia|].
  unfold assembleElement in HQ. cbv zeta in HQ.
  set (x1 := x (nth i nv {| x := $0; supportType := free |})) in *.
  set (x2 := x (nth (i + 1) nv {| x := $0; supportType := free |})) in *.
  destruct (x2 - x1 <=? $0).
  - apply runs_ret. apply HQ. exact Hinv.
  - apply runs_bind. eapply asm_udl; [exact Hinv|].
    apply runs_bind. eapply asm_scatter; [exact Hinv|exact Hi|].
    intros h' H'. eapply asm_push; [exact H'|].
    intros h'' H''. apply HQ. exact H''.
Qed.

Lemma asm_elements EI (idx : list nat) st h (Q : unit -> Store -> Prop) :
  invOf st h ->
  Forall (fun i => (i + 1 < length nv)%nat) idx ->
  (forall h', invOf (fold_left (assembleElement nv EI uv) idx st) h' -> Q tt h') ->
  runs n0 (forEach idx (InPlace.assembleElement nodes udls EI Kl Fl el)) h Q.
Proof.
  intros Hinv Hidx HQ. rewrite Forall_forall in Hidx.
  eapply runs_conseq;
    [apply runs_forEach with (R := invOf)
       (step := assembleElement nv EI uv) (s := st)|].
  - intros st' i h' Hi Hinv'.
    eapply asm_element; [exact Hinv'|now apply Hidx|].
    intros h'' H''. exact H''.
  - exact Hinv.
  - intros [] h' _ H'. apply HQ. exact H'.
Qed.

End Working.

Lemma alloc_rows (o : @StoreOps.Obj T) (l : list nat) (h : Store) :
  mapM (fun _ : nat => alloc o) l h =
  Some (seq (length h) (length l), h ++ repeat o (length l)).
Proof.
  rewrite (mapM_allocs (fun _ : nat => alloc o) (fun _ => o) (fun _ => True)); auto.
  f_equal. f_equal. f_equal. induction l; simpl; congruence.
Qed.

Lemma nth_error_repeat_lt {A} (a : A) n i : (i < n)%nat -> nth_error (repeat a n) i = Some a.
Proof.
  revert i. induction n as [|n IH]; intros [|i] Hi; simpl; try lia; auto.
  apply IH. lia.
Qed.

(* the loop that adds the nodal point loads to F *)
Lemma runs_nodalLoads n (h : Store) nodes Fl nl (nv : list (@Node T)) (Fv nlv : list T)
    (Q : unit -> Store -> Prop) :
  (n <= Fl)%nat -> (nodes < n)%nat -> Fl <> nl ->
  nth_error h nodes = Some (ONodes nv) ->
  nth_error h Fl = Some (ONums Fv) ->
  nth_error h nl = Some (ONums nlv) ->
  length Fv = (length nv * 2)%nat -> length nlv = length nv ->
  (forall h', keeps n h h' ->
     (forall l, l <> Fl -> nth_error h' l = nth_error h l) ->
     nth_error h' Fl =
       Some (ONums (fold_left (fun F index => upd F (index * 2)
                                 (get F (index * 2) + get nlv index))
                      (seq 0 (length nv)) Fv)) ->
     Q tt h') ->
  runs n (forEachOf (loadNodes nodes)
            (fun _ index => bind (getNum Fl (index * 2)) (fun f =>
                            bind (getNum nl index) (fun p =>
                            setNum Fl (index * 2) (f + p))))) h Q.
Proof.
  intros HnF Hnodes HFn Hn HF Hl HlF Hln HQ.
  pose (R := fun (s : list T) (h' : Store) =>
               nth_error h' Fl = Some (ONums s) /\ length s = (length nv * 2)%nat /\
               forall l, l <> Fl -> nth_error h' l = nth_error h l).
  eapply runs_conseq;
    [apply (@runs_forEachOf T _ (list T) n h (loadNodes nodes) nv R
              (fun s (_ : @Node T) index =>
                 upd s (index * 2) (get s (index * 2) + get nlv index)))|].
  - intros h' Hk. apply loadNodes_run. exact (keeps_at Hk Hnodes Hn).
  - intros s a i h' Ha Hk [Hs [Hls Hfr]].
    assert (Hi : (i < length nv)%nat) by exact (nth_error_lt _ _ Ha).
    apply runs_bind. eapply runs_getNum; [exact Hs|lia|].
    apply runs_bind. eapply runs_getNum; [rewrite Hfr by auto; exact Hl|lia|].
    eapply runs_setNum; [exact HnF|exact Hs|lia|].
    split; [apply nth_error_store_same; exact (nth_error_lt _ _ Hs)|].
    split; [now rewrite length_upd|].
    intros l Hne. rewrite nth_error_store_other by auto. now apply Hfr.
  - split; [exact HF|]. split; [exact HlF|reflexivity].
  - intros [] h' Hk [Hs [_ Hfr]]. apply HQ; [exact Hk|exact Hfr|].
    rewrite (fold_left_combine_snd
               (fun F index => upd F (index * 2) (get F (index * 2) + get nlv index)))
      in Hs by now rewrite length_seq.
    exact Hs.
Qed.

Lemma runs_assembleSystem (h : Store) nodes pl ul (nv : list (@Node T)) pv uv (E I : T) :
  nth_error h nodes = Some (ONodes nv) ->
  nth_error h pl = Some (OPointLoads pv) ->
  nth_error h ul = Some (OUdls uv) ->
  runs (length h) (InPlace.assembleSystem nodes E I pl ul) h
    (fun r h' =>
       exists refs,
         matAt h' (fst (fst r)) refs (K (assembleSystem nv E I pv uv)) /\
         nth_error h' (snd (fst r)) = Some (ONums (F (assembleSystem nv E I pv uv))) /\
         nth_error h' (snd r) =
           Some (OElements (elementData (assembleSystem nv E I pv uv)))).
Proof.
  intros Hn Hp Hu. unfold InPlace.assembleSystem.
  pose proof (nth_error_lt _ _ Hn) as Ln.
  pose proof (nth_error_lt _ _ Hp) as Lp.
  pose proof (nth_error_lt _ _ Hu) as Lu.
  set (n0 := length h) in *.
  apply runs_bind. eapply runs_loadNodes; [exact Hn|].
  set (dof := (length nv * 2)%nat).
  apply runs_bind.
  eapply runs_exact; [apply alloc_rows|apply keeps_app; lia|].
  rewrite length_seq. fold n0.
  set (h1 := h ++ repeat (ONums (repeat $0 dof)) dof).
  assert (L1 : length h1 = (n0 + dof)%nat).
  { unfold h1. rewrite length_app, repeat_length. reflexivity. }
  set (refs := seq n0 dof).
  apply runs_bind. apply runs_alloc; [lia|]. rewrite L1.
  set (Kl := (n0 + dof)%nat).
  apply runs_bind. apply runs_alloc; [rewrite length_app; simpl; lia|].
  rewrite length_app, L1. cbn [length]. fold Kl.
  set (Fl := (Kl + 1)%nat).
  set (h3 := (h1 ++ [ORefs refs]) ++ [ONums (repeat $0 dof)]).
  assert (L3 : length h3 = (Kl + 2)%nat).
  { unfold h3. rewrite !length_app, L1. simpl. unfold Kl. lia. }
  assert (K3 : keeps n0 h h3).
  { unfold h3, h1. rewrite <- !app_assoc. apply keeps_app. unfold n0. lia. }
  assert (HK3 : matAt h3 Kl refs (repeat (repeat $0 dof) dof)).
  { split; [|split].
    - unfold h3. rewrite nth_error_app1 by (rewrite length_app; simpl; lia).
      unfold Kl. rewrite <- L1. apply nth_error_alloc.
    - unfold refs. now rewrite length_seq, repeat_length.
    - rewrite repeat_length. intros i Hi. unfold refs. rewrite seq_nth by lia.
      unfold h3, h1. rewrite <- !app_assoc.
      rewrite nth_error_app2 by (fold n0; lia). fold n0.
      replace (n0 + i - n0)%nat with i by lia.
      rewrite nth_error_app1 by (rewrite repeat_length; lia).
      rewrite nth_error_repeat_lt by lia. unfold row.
      f_equal. f_equal. symmetry. apply nth_error_nth with (d := []).
      now apply nth_error_repeat_lt. }
  assert (HF3 : nth_error h3 Fl = Some (ONums (repeat $0 dof))).
  { unfold h3, Fl, Kl. rewrite <- L1.
    replace (length h1 + 1)%nat with (length (h1 ++ [ORefs refs]))
      by (rewrite length_app; reflexivity).
    apply nth_error_alloc. }
  apply runs_bind.
  eapply runs_call;
    [lia|apply runs_mapLoadsToNodes with (nv:=nv) (pv:=pv);
          [exact (keeps_at K3 Ln Hn)|exact (keeps_at K3 Lp Hp)]|].
  intros nl h4 K4 [Hnl [Hl4 Hll]]. rewrite L3 in Hnl.
  assert (K04 : keeps n0 h h4).
  { eapply keeps_trans; [exact K3|]. eapply keeps_le; [|exact K4]. lia. }
  apply runs_bind.
  eapply runs_nodalLoads with (nv:=nv) (Fv:=repeat $0 dof)
    (nlv:=mapLoadsToNodes nv pv);
    [unfold Fl, Kl; lia|exact Ln|unfold Fl; lia|exact (keeps_at K04 Ln Hn)
    |eapply keeps_cell; [exact K4|exact HF3]|exact Hl4|apply repeat_length|exact Hll|].
  intros h5 K5 Hfr HF5.
  apply runs_bind. apply runs_alloc; [destruct K04, K5; lia|].
  set (el := length h5).
  assert (L5 : (Kl + 2 <= el)%nat).
  { unfold el. destruct K4 as [L4 _], K5 as [L5 _]. lia. }
  set (h6 := h5 ++ [OElements []]).
  assert (cell6 : forall l o, l <> Fl -> nth_error h4 l = Some o -> nth_error h6 l = Some o).
  { intros l o Hne Ho. unfold h6. rewrite nth_error_app1.
    - now rewrite Hfr.
    - rewrite <- Hfr in Ho by exact Hne. exact (nth_error_lt _ _ Ho). }
  assert (Hn6 : nth_error h6 nodes = Some (ONodes nv)).
  { apply cell6; [unfold Fl, Kl; lia|exact (keeps_at K04 Ln Hn)]. }
  apply runs_bind. eapply runs_loadNodes; [exact Hn6|].
  set (F1 := fold_left (fun F index => upd F (index * 2)
                          (get F (index * 2) + get (mapLoadsToNodes nv pv) index))
               (seq 0 (length nv)) (repeat $0 dof)) in *.
  assert (Hinv : asmInvOf nodes ul Kl Fl el nv uv refs
                   {| K := repeat (repeat $0 dof) dof; F := F1; elementData := [] |} h6).
  { unfold asmInvOf, asmInv. cbn [K F elementData].
    split; [exact Hn6|].
    split; [apply cell6; [unfold Fl, Kl; lia|exact (keeps_at K04 Lu Hu)]|].
    split.
    { pose proof (matAt_keeps HK3 K4) as [Hm [Hlr Hr]].
      split; [apply cell6; [unfold Fl; lia|exact Hm]|]. split; [exact Hlr|].
      intros i Hi. apply cell6; [|now apply Hr].
      rewrite repeat_length in Hi. unfold refs. rewrite seq_nth by lia.
      unfold Fl, Kl. lia. }
    split.
    { unfold h6. rewrite nth_error_app1; [exact HF5|exact (nth_error_lt _ _ HF5)]. }
    split; [apply nth_error_alloc|].
    split; [apply repeat_length|]. split.
    - intros i Hi. unfold row. rewrite nth_repeat_lt by exact Hi. apply repeat_length.
    - unfold F1. rewrite (length_fold_upd
        (fun F index => get F (index * 2) + get (mapLoadsToNodes nv pv) index)
        (fun index => (index * 2)%nat)). apply repeat_length. }
  apply runs_bind.
  eapply asm_elements with (n0:=n0) (refs:=refs) (nv:=nv) (uv:=uv);
    [..|exact Hinv| |].
  all: try (unfold Fl, Kl; lia).
  all: try (unfold refs; rewrite in_seq; unfold Fl, Kl; lia).
  - split; [apply seq_NoDup|]. apply Forall_forall. intros r Hr.
    apply in_seq in Hr. unfold Kl. lia.
  - apply Forall_forall. intros i Hi. apply in_seq in Hi. lia.
  - intros h7 [_ [_ [Hm [HF [He _]]]]]. apply runs_ret.
    exists refs. cbn [fst snd]. unfold assembleSystem. fold dof. fold F1.
    split; [exact Hm|]. split; [exact HF|exact He].
Qed.

End AssemblerOnStore.

(** ** The Constraint Reducer and the Evaluator on the store *)

Section ReducerOnStore.
Context {T : Type} {N : Number T}.
Import StoreOps.
Local Abbreviation Store := (StoreOps.Store (T:=T)).
Local Abbreviation Cmd := (StoreOps.Cmd (T:=T)).
Local Open Scope num_scope.

Lemma loadRefs_run l v (h : Store) :
  nth_error h l = Some (ORefs v) -> loadRefs l h = Some (v, h).
Proof. intros H. unfold loadRefs, bind, load. now rewrite H. Qed.

Lemma getEntry_run (h : Store) m refs (M : list (list T)) i j :
  matAt h m refs M -> (i < length M)%nat -> (j < length (row M i))%nat ->
  getEntry m i j h = Some (entry M i j, h).
Proof.
  intros [Hm [Hl Hr]] Hi Hj. unfold getEntry, getRef.
  erewrite bind_run; [|erewrite bind_run; [|apply loadRefs_run; exact Hm];
                       rewrite (nth_error_nth' refs O) by lia; reflexivity].
  now apply getNum_run; [apply Hr|].
Qed.

Lemma matAt_app (h e : Store) m refs (M : list (list T)) :
  matAt h m refs M -> matAt (h ++ e) m refs M.
Proof.
  intros [Hm [Hl Hr]]. split; [|split; [exact Hl|]].
  - rewrite nth_error_app1; [exact Hm|exact (nth_error_lt _ _ Hm)].
  - intros i Hi. rewrite nth_error_app1; [now apply Hr|exact (nth_error_lt _ _ (Hr i Hi))].
Qed.

(* rows created one after the other, then the array of their references *)
Lemma matAt_fresh (h : Store) (M : list (list T)) :
  matAt ((h ++ map ONums M) ++ [ORefs (seq (length h) (length M))])
        (length h + length M) (seq (length h) (length M)) M.
Proof.
  split; [|split].
  - replace (length h + length M)%nat with (length (h ++ map ONums M))
      by (rewrite length_app, length_map; reflexivity).
    apply nth_error_alloc.
  - apply length_seq.
  - intros i Hi. rewrite seq_nth by exact Hi. rewrite <- app_assoc.
    rewrite nth_error_app2 by lia.
    replace (length h + i - length h)%nat with i by lia.
    rewrite nth_error_app1 by (rewrite length_map; exact Hi).
    rewrite nth_error_map. unfold row. now rewrite (nth_error_nth' M [] Hi).
Qed.

Lemma mapM_loadNums (refs : list nat) (M : list (list T)) (h : Store) :
  length refs = length M ->
  (forall i, (i < length M)%nat -> nth_error h (nth i refs O) = Some (ONums (row M i))) ->
  mapM loadNums refs h = Some (M, h).
Proof.
  revert M. induction refs as [|r refs IH]; intros [|row0 M] Hl Hr; try discriminate.
  - reflexivity.
  - cbn [mapM].
    erewrite bind_run; [|apply loadNums_run; apply (Hr 0%nat); simpl; lia].
    erewrite bind_run; [reflexivity|]. apply IH; [simpl in Hl; lia|].
    intros i Hi. apply (Hr (S i)). simpl. lia.
Qed.

Lemma loadMatrix_run (h : Store) m refs (M : list (list T)) :
  matAt h m refs M -> InPlace.loadMatrix m h = Some (M, h).
Proof.
  intros [Hm [Hl Hr]]. unfold InPlace.loadMatrix.
  erewrite bind_run; [|apply loadRefs_run; exact Hm]. now apply mapM_loadNums.
Qed.

Lemma runs_applyBoundaryConditions (h : Store) nodes Kl Fl (nv : list (@Node T)) refs
    (Km : list (list T)) (Fv : list T) :
  nth_error h nodes = Some (ONodes nv) ->
  matAt h Kl refs Km ->
  nth_error h Fl = Some (ONums Fv) ->
  (forall i, (i < length Km)%nat -> length (row Km i) = length Km) ->
  length Fv = length Km ->
  runs (length h) (InPlace.applyBoundaryConditions nodes Kl Fl) h
    (fun r h' =>
       exists refs',
         snd (fst (fst r)) = free_ (applyBoundaryConditions nv Km Fv) /\
         matAt h' (snd (fst r)) refs' (Kff (applyBoundaryConditions nv Km Fv)) /\
         nth_error h' (snd r) = Some (ONums (Ff (applyBoundaryConditions nv Km Fv)))).
Proof.
  intros Hn HK HF Hsq HlF. unfold InPlace.applyBoundaryConditions.
  pose proof (nth_error_lt _ _ Hn) as Ln.
  set (n0 := length h) in *.
  apply runs_bind. apply runs_alloc; [lia|]. fold n0.
  set (h1 := h ++ [ONats []]).
  assert (K1 : keeps n0 h h1) by (apply keeps_alloc; unfold n0; lia).
  pose (R := fun (s : list nat) (h' : Store) =>
               nth_error h' n0 = Some (ONats s) /\
               forall l, l <> n0 -> nth_error h' l = nth_error h1 l).
  pose (step := fun (ni : @Node T * nat) =>
                  match supportType (fst ni) with
                  | pinned => [snd ni * 2]
                  | fixed => [snd ni * 2; snd ni * 2 + 1]
                  | free => []
                  end%nat).
  apply runs_bind.
  eapply runs_conseq;
    [apply (@runs_forEachOf T _ (list nat) n0 h1 (loadNodes nodes) nv R
              (fun s a i => s ++ step (a, i)))|].
  - intros h' Hk. apply loadNodes_run. exact (keeps_at (keeps_trans K1 Hk) Ln Hn).
  - intros s a i h' _ _ [Hs Hfr]. unfold step. cbn [fst snd].
    destruct (supportType a).
    + apply runs_bind. apply runs_ret. apply runs_ret. rewrite app_nil_r. now split.
    + apply runs_bind. eapply runs_pushNats; [lia|exact Hs|]. apply runs_ret.
      split; [apply nth_error_store_same; exact (nth_error_lt _ _ Hs)|].
      intros l Hl. rewrite nth_error_store_other by auto. now apply Hfr.
    + apply runs_bind. apply runs_ret.
      eapply runs_pushNats; [lia|exact Hs|].
      split; [apply nth_error_store_same; exact (nth_error_lt _ _ Hs)|].
      intros l Hl. rewrite nth_error_store_other by auto. now apply Hfr.
  - split; [apply nth_error_alloc|reflexivity].
  - intros [] h2 K2 [Hc Hfr].
    rewrite (fold_left_push step) in Hc. cbn [app] in Hc.
    change (flat_map step (combine nv (seq 0 (length nv)))) with (constrainedOf nv) in Hc.
    assert (cell2 : forall l o, nth_error h l = Some o -> nth_error h2 l = Some o).
    { intros l o Ho. pose proof (nth_error_lt _ _ Ho) as Hl. fold n0 in Hl.
      rewrite Hfr by lia. unfold h1. rewrite nth_error_app1 by (fold n0; lia). exact Ho. }
    assert (HK2 : matAt h2 Kl refs Km).
    { destruct HK as [Hm [Hlr Hr]]. split; [now apply cell2|]. split; [exact Hlr|].
      intros i Hi. apply cell2. now apply Hr. }
    apply runs_bind. eapply runs_loadRefs; [exact (proj1 HK2)|].
    apply runs_bind. eapply runs_loadNats; [exact Hc|].
    rewrite (proj1 (proj2 HK2)).
    set (free := filter (fun i => negb (existsb (Nat.eqb i) (constrainedOf nv)))
                   (seq 0 (length Km))).
    assert (Hfree : forall r, In r free -> (r < length Km)%nat).
    { intros r Hr. apply filter_In in Hr. destruct Hr as [Hr _]. apply in_seq in Hr. lia. }
    pose (rowOf := fun r => map (fun c => entry Km r c) free).
    apply runs_bind.
    eapply runs_exact;
      [apply (mapM_allocs
                (fun r => bind (mapM (fun c => getEntry Kl r c) free)
                            (fun cs => alloc (ONums cs)))
                (fun r => ONums (rowOf r))
                (fun h' => matAt h' Kl refs Km))
      |apply keeps_app; destruct K1, K2; lia|].
    + intros h' e. apply matAt_app.
    + intros r h' Hr HK'.
      erewrite bind_run; [apply alloc_run|].
      apply mapM_reads. intros c Hc'.
      apply getEntry_run with (refs := refs); [exact HK'|now apply Hfree|].
      rewrite Hsq by now apply Hfree. now apply Hfree.
    + exact HK2.
    + rewrite <- (map_map rowOf ONums).
      replace (length free) with (length (map rowOf free)) by apply length_map.
      set (Kffv := map rowOf free).
      apply runs_bind. apply runs_alloc.
      { rewrite length_app. destruct K1, K2. lia. }
      rewrite length_app, length_map.
      set (h4 := (h2 ++ map ONums Kffv) ++ [ORefs (seq (length h2) (length Kffv))]).
      assert (HF4 : nth_error h4 Fl = Some (ONums Fv)).
      { unfold h4. rewrite <- app_assoc. rewrite nth_error_app1.
        - now apply cell2.
        - exact (nth_error_lt _ _ (cell2 _ _ HF)). }
      apply runs_bind.
      eapply runs_exact;
        [apply (mapM_reads (fun r => getNum Fl r) (fun r => get Fv r))
        |apply keeps_refl|].
      { intros r Hr. apply getNum_run; [exact HF4|]. rewrite HlF. now apply Hfree. }
      apply runs_bind. apply runs_alloc.
      { unfold h4. rewrite !length_app. destruct K1, K2. lia. }
      apply runs_ret. cbn [fst snd].
      exists (seq (length h2) (length Kffv)).
      split; [reflexivity|]. split.
      * apply matAt_app. apply matAt_fresh.
      * apply nth_error_alloc.
Qed.

Lemma runs_computeDiagrams (h : Store) nodes el dl (nv : list (@Node T))
    (ev : list (@ElementData T)) (dv : list T) :
  nth_error h nodes = Some (ONodes nv) ->
  nth_error h el = Some (OElements ev) ->
  nth_error h dl = Some (ONums dv) ->
  Forall (fun e => (index e + 1) * 2 + 1 < length nv * 2 /\
                   length nv * 2 <= length dv)%nat ev ->
  runs (length h) (InPlace.computeDiagrams nodes el dl) h
    (fun r h' => nth_error h' r = Some (OSamples (computeDiagrams nv ev dv))).
Proof.
  intros Hn He Hd Hev. unfold InPlace.computeDiagrams.
  pose proof (nth_error_lt _ _ Hn) as Ln.
  pose proof (nth_error_lt _ _ He) as Le.
  pose proof (nth_error_lt _ _ Hd) as Ld.
  set (n0 := length h) in *.
  apply runs_bind. apply runs_alloc; [lia|]. fold n0.
  set (h1 := h ++ [OSamples []]).
  assert (K1 : keeps n0 h h1) by (apply keeps_alloc; unfold n0; lia).
  pose (R := fun (s : list (@Sample T)) (h' : Store) =>
               nth_error h' n0 = Some (OSamples s)).
  apply runs_bind.
  eapply runs_conseq;
    [apply (@runs_forEachOf T _ (list (@Sample T)) n0 h1 (loadElements el) ev R
              (fun s e (_ : nat) => s ++ elementSamples nv dv e))|].
  - intros h' Hk. apply loadElements_run. exact (keeps_at (keeps_trans K1 Hk) Le He).
  - intros s e i h' Hi Hk Hs.
    apply nth_error_In in Hi. rewrite Forall_forall in Hev.
    destruct (Hev e Hi) as [Hidx Hlen].
    pose proof (keeps_trans K1 Hk) as K0.
    apply runs_bind.
    eapply runs_exact;
      [apply (mapM_reads (fun dof => getNum dl dof) (fun dof => get dv dof))
      |apply keeps_refl|].
    { intros d Hin. apply getNum_run; [exact (keeps_at K0 Ld Hd)|].
      simpl in Hin. repeat (destruct Hin as [<-|Hin]; [lia|]). destruct Hin. }
    set (uLocal := map (fun dof => get dv dof) (dofMap (index e))).
    set (x0 := x (nth (index e) nv {| x := $0; supportType := free |})).
    set (mk := sampleAt x0 (length_ e) (wNPerMm e) (get uLocal 0) (get uLocal 1)
                 (get uLocal 2) (get uLocal 3)
                 (endForcesOf (kLocal e) (fFixed e) uLocal)).
    eapply runs_conseq;
      [apply runs_forEach_from with
         (R := fun (s' : list (@Sample T)) (h'' : Store) =>
                 nth_error h'' n0 = Some (OSamples s'))
         (step := fun s' i' => s' ++ [mk i']) (s := s)|].
    + intros s' j h'' _ Hk' Hs'. apply runs_bind.
      unfold InPlace.nodeX. apply runs_bind.
      eapply runs_loadNodes; [exact (keeps_at (keeps_trans K0 Hk') Ln Hn)|].
      rewrite (nth_error_nth' nv {| x := $0; supportType := free |})
        by lia.
      apply runs_ret.
      eapply runs_pushSample; [lia|exact Hs'|].
      apply nth_error_store_same. exact (nth_error_lt _ _ Hs').
    + exact Hs.
    + intros [] h'' _ Hs'. unfold R.
      rewrite (fold_left_push (fun i' => [mk i'])), flat_map_single in Hs'.
      exact Hs'.
  - apply nth_error_alloc.
  - intros [] h2 _ Hs. apply runs_ret. unfold R in Hs.
    rewrite (fold_left_push (fun ai : @ElementData T * nat => elementSamples nv dv (fst ai)))
      in Hs.
    rewrite flat_map_combine_fst in Hs. exact Hs.
Qed.

End ReducerOnStore.

(** ** The engine on the store *)

Section EngineOnStore.
Context {T : Type} {N : Number T}.
Import StoreOps.
Local Abbreviation Store := (StoreOps.Store (T:=T)).
Local Abbreviation Cmd := (StoreOps.Cmd (T:=T)).
Local Open Scope num_scope.

Lemma elementsOf_index (nodes : list (@Node T)) EI udls idx e :
  In e (elementsOf nodes EI udls idx) -> In (index e) idx.
Proof.
  unfold elementsOf. rewrite in_flat_map. intros [i [Hi He]].
  destruct (elementSpan nodes i <=? $0); [destruct He|].
  destruct He as [<-|[]]. exact Hi.
Qed.

(* the loop that spreads the solution over the free DOFs *)
Lemma runs_expand n (h : Store) dl fl (fdv d0 : list T) (free : list nat)
    (Q : unit -> Store -> Prop) :
  (n <= dl)%nat -> dl <> fl ->
  nth_error h dl = Some (ONums d0) ->
  nth_error h fl = Some (ONums fdv) ->
  Forall (fun i => (i < length d0)%nat) free ->
  (length free <= length fdv)%nat ->
  (forall h', keeps n h h' ->
     (forall l, l <> dl -> nth_error h' l = nth_error h l) ->
     nth_error h' dl =
       Some (ONums (fold_left (fun d ii => upd d (fst ii) (get fdv (snd ii)))
                      (combine free (seq 0 (length free))) d0)) ->
     Q tt h') ->
  runs n (forEach (combine free (seq 0 (length free)))
            (fun ii => bind (getNum fl (snd ii)) (fun v => setNum dl (fst ii) v))) h Q.
Proof.
  intros Hn Hne Hd Hf Hfree Hlen HQ. rewrite Forall_forall in Hfree.
  eapply runs_conseq;
    [apply runs_forEach with
       (R := fun (s : list T) (h' : Store) =>
               nth_error h' dl = Some (ONums s) /\ length s = length d0 /\
               forall l, l <> dl -> nth_error h' l = nth_error h l)
       (step := fun (d : list T) (ii : nat * nat) => upd d (fst ii) (get fdv (snd ii)))
       (s := d0)|].
  - intros s [i k] h' Hin [Hs [Hl Hfr]]. cbn [fst snd].
    pose proof (in_combine_l _ _ _ _ Hin) as Hi.
    pose proof (in_combine_r _ _ _ _ Hin) as Hk. apply in_seq in Hk.
    apply runs_bind. eapply runs_getNum; [rewrite Hfr by auto; exact Hf|lia|].
    eapply runs_setNum; [exact Hn|exact Hs|rewrite Hl; now apply Hfree|].
    split; [apply nth_error_store_same; exact (nth_error_lt _ _ Hs)|].
    split; [now rewrite length_upd|].
    intros l Hl'. rewrite nth_error_store_other by auto. now apply Hfr.
  - split; [exact Hd|]. split; reflexivity.
  - intros [] h' Hk [Hs [_ Hfr]]. now apply HQ.
Qed.

Lemma runs_analysis (h : Store) (lengthMm E I : T) sl pl ul sv pv uv :
  nth_error h sl = Some (OSupports sv) ->
  nth_error h pl = Some (OPointLoads pv) ->
  nth_error h ul = Some (OUdls uv) ->
  runs (length h) (InPlace.analysis lengthMm E I sl pl ul) h
    (fun r _ => r = analysis lengthMm E I sv pv uv).
Proof.
  intros Hs Hp Hu. unfold InPlace.analysis.
  apply runs_bind.
  eapply runs_call;
    [lia|apply runs_buildNodes with (sv:=sv) (pv:=pv) (uv:=uv); eassumption|].
  intros nodes h1 K1 Hn1.
  set (nv := buildNodes lengthMm sv pv uv) in *.
  apply runs_bind.
  eapply runs_call;
    [destruct K1; lia
    |apply runs_assembleSystem with (nv:=nv) (pv:=pv) (uv:=uv);
       [exact Hn1|eapply keeps_cell; [exact K1|exact Hp]
       |eapply keeps_cell; [exact K1|exact Hu]]|].
  intros [[Kl Fl] el] h2 K2 [refs [HK [HF He]]]. cbn [fst snd] in *.
  set (sys := assembleSystem nv E I pv uv) in *.
  destruct (assembleSystem_facts nv E I pv uv) as [Hed [[HlK Hrow] [HlF _]]].
  fold sys in Hed, HlK, Hrow, HlF.
  apply runs_bind.
  eapply runs_call;
    [destruct K1, K2; lia
    |apply runs_applyBoundaryConditions with (nv:=nv) (refs:=refs) (Km:=K sys) (Fv:=F sys);
       [eapply keeps_cell; [exact K2|exact Hn1]|exact HK|exact HF
       |intros i Hi; rewrite HlK in *; now apply Hrow|now rewrite HlF, HlK]|].
  intros [[[cl free] Kffl] Ffl] h3 K3 [refs' [Hfree [HKff HFf]]]. cbn [fst snd] in *.
  subst free.
  set (red := applyBoundaryConditions nv (K sys) (F sys)) in *.
  assert (HlKff : length (Kff red) = length (free_ red)) by apply length_map.
  assert (HlFf : length (Ff red) = length (free_ red)) by apply length_map.
  apply runs_bind.
  eapply runs_call;
    [destruct K1, K2, K3; lia
    |apply runs_solveLinearSystem with (arefs:=refs') (Am:=Kff red) (bv:=Ff red);
       [exact HKff|exact HFf|now rewrite HlKff, HlFf|]|].
  { intros i Hi. rewrite HlFf in *. unfold row.
    change (Kff red) with (map (fun r => map (fun c => entry (K sys) r c) (free_ red))
                             (free_ red)).
    rewrite nth_error_nth with
      (x := map (fun c => entry (K sys) (nth i (free_ red) O) c) (free_ red)).
    - apply length_map.
    - rewrite nth_error_map, (nth_error_nth' (free_ red) O Hi). reflexivity. }
  intros fd h4 K4 Hpost.
  unfold analysis. fold nv. fold sys. fold red.
  destruct (solveLinearSystem (Kff red) (Ff red)) as [xs|] eqn:Hsolve.
  - destruct Hpost as [xl [-> [Hx Hlx]]].
    assert (HK4 : matAt h4 Kl refs (K sys)).
    { eapply matAt_keeps; [|exact K4]. eapply matAt_keeps; [exact HK|exact K3]. }
    assert (L04 : (length h <= length h4)%nat) by (destruct K1, K2, K3, K4; lia).
    apply runs_bind. eapply runs_loadRefs; [exact (proj1 HK4)|].
    rewrite (proj1 (proj2 HK4)).
    apply runs_bind. apply runs_alloc; [exact L04|].
    set (dl := length h4). set (h5 := h4 ++ [ONums (repeat $0 (length (K sys)))]).
    assert (cell5 : forall l o, nth_error h4 l = Some o -> nth_error h5 l = Some o).
    { intros l o Ho. unfold h5. rewrite nth_error_app1; [exact Ho|exact (nth_error_lt _ _ Ho)]. }
    apply runs_bind.
    eapply runs_expand with (fdv := xs) (d0 := repeat $0 (length (K sys)));
      [unfold dl; lia| |apply nth_error_alloc|apply cell5; exact Hx| | |].
    { pose proof (nth_error_lt _ _ Hx). unfold dl. lia. }
    { apply Forall_forall. intros i Hi. rewrite repeat_length.
      apply (free_In nv (K sys) (F sys)) in Hi. tauto. }
    { rewrite Hlx, HlFf. lia. }
    intros h6 K6 Hfr Hd6.
    change (fold_left (fun d ii => upd d (fst ii) (get xs (snd ii)))
              (combine (free_ red) (seq 0 (length (free_ red))))
              (repeat $0 (length (K sys))))
      with (expandDisplacements (length (K sys)) (free_ red) xs) in Hd6.
    set (dv := expandDisplacements (length (K sys)) (free_ red) xs) in *.
    assert (cell6 : forall l o, nth_error h4 l = Some o -> nth_error h6 l = Some o).
    { intros l o Ho. pose proof (nth_error_lt _ _ Ho). rewrite Hfr by (unfold dl; lia).
      now apply cell5. }
    assert (HK6 : matAt h6 Kl refs (K sys)).
    { destruct HK4 as [Hm [Hlr Hr]]. split; [now apply cell6|]. split; [exact Hlr|].
      intros i Hi. apply cell6. now apply Hr. }
    assert (Hn6 : nth_error h6 nodes = Some (ONodes nv)).
    { apply cell6. eapply keeps_cell; [exact K4|]. eapply keeps_cell; [exact K3|].
      eapply keeps_cell; [exact K2|exact Hn1]. }
    apply runs_bind.
    eapply runs_exact; [exact (loadMatrix_run HK6)|apply keeps_refl|].
    apply runs_bind. eapply runs_loadNums.
    { apply cell6. eapply keeps_cell; [exact K4|]. eapply keeps_cell; [exact K3|exact HF]. }
    apply runs_bind. eapply runs_loadNums; [exact Hd6|].
    apply runs_bind. eapply runs_loadNodes; [exact Hn6|].
    apply runs_bind.
    eapply runs_call;
      [destruct K6; unfold h5 in *; rewrite length_app in *; lia
      |apply runs_computeDiagrams with (nv:=nv) (ev:=elementData sys) (dv:=dv);
         [exact Hn6| |exact Hd6|]|].
    { apply cell6. eapply keeps_cell; [exact K4|]. eapply keeps_cell; [exact K3|exact He]. }
    { apply Forall_forall. intros e Hin. rewrite Hed in Hin.
      apply elementsOf_index in Hin. apply in_seq in Hin.
      split; [lia|]. unfold dv, expandDisplacements.
      rewrite (length_fold_upd (fun (d : list T) (ii : nat * nat) => get xs (snd ii))
                 (fun ii => fst ii)).
      rewrite repeat_length, HlK. lia. }
    intros samples h7 K7 Hs7.
    apply runs_bind. eapply runs_loadSamples; [exact Hs7|].
    apply runs_ret. reflexivity.
  - subst fd. apply runs_ret. reflexivity.
Qed.

End EngineOnStore.

(** C9.  The engine of the source, run on a store that holds its three
    input arrays, returns exactly the value of the function [analysis] of
    the contents of those arrays, whatever else the store holds: the same
    inputs give the same nodes, reaction table and diagram, or the same
    failure.  It always returns, and every object that existed before the
    call, the three input arrays among them, is unchanged after it; a
    second call on the store the first one leaves returns the same value
    again. *)
Theorem analysis_deterministic_and_pure {T : Type} {N : Number T}
    (h : StoreOps.Store (T:=T)) (lengthMm youngsModulusMpa inertiaMm4 : T)
    (supports pointLoads udls : nat) sv pv uv :
  nth_error h supports = Some (StoreOps.OSupports sv) ->
  nth_error h pointLoads = Some (StoreOps.OPointLoads pv) ->
  nth_error h udls = Some (StoreOps.OUdls uv) ->
  exists h',
    InPlace.analysis lengthMm youngsModulusMpa inertiaMm4 supports pointLoads udls h =
      Some (analysis lengthMm youngsModulusMpa inertiaMm4 sv pv uv, h') /\
    length h <= length h' /\
    (forall l, l < length h -> nth_error h' l = nth_error h l) /\
    exists h'',
      InPlace.analysis lengthMm youngsModulusMpa inertiaMm4 supports pointLoads udls h' =
        Some (analysis lengthMm youngsModulusMpa inertiaMm4 sv pv uv, h'').
Proof.
  intros Hs Hp Hu.
  destruct (@runs_analysis T N h lengthMm youngsModulusMpa inertiaMm4
              supports pointLoads udls sv pv uv Hs Hp Hu)
    as [r [h' [Hrun [Hk Hr]]]].
  subst r. exists h'. split; [exact Hrun|].
  split; [exact (proj1 Hk)|]. split; [exact (proj2 Hk)|].
  assert (Hs' : nth_error h' supports = Some (StoreOps.OSupports sv))
    by (eapply keeps_cell; [exact Hk|exact Hs]).
  assert (Hp' : nth_error h' pointLoads = Some (StoreOps.OPointLoads pv))
    by (eapply keeps_cell; [exact Hk|exact Hp]).
  assert (Hu' : nth_error h' udls = Some (StoreOps.OUdls uv))
    by (eapply keeps_cell; [exact Hk|exact Hu]).
  destruct (@runs_analysis T N h' lengthMm youngsModulusMpa inertiaMm4
              supports pointLoads udls sv pv uv Hs' Hp' Hu')
    as [r [h'' [Hrun' [_ Hr]]]].
  subst r. exists h''. exact Hrun'.
Qed.

(** ** Instances of the theorems *)

Section Witnesses.
Local Open Scope num_scope.

(* a singular 2 x 2 system: the second pivot column is zero *)
Lemma solveLinearSystem_null_iff_witness :
  solveLinearSystem (T:=Qc) [[$1; $2]; [$2; $4]] [$1; $1] = None <->
  exists k M xs, (k < 2)%nat /\
    solveLoop 2 (seq 0 k) ([[$1; $2]; [$2; $4]], [$1; $1]) = Some (M, xs) /\
    pivotColumnBelow M k 2.
Proof.
  exact (proj1 (@solveLinearSystem_null_iff Qc _
                  (en_lt_irrefl (T:=Qc)) (en_lt_trans (T:=Qc)) (num_ltb_negtrans (T:=Qc))
                  [[$1; $2]; [$2; $4]] [$1; $1])).
Defined.

Lemma buildNodes_spec_witness :
  StronglySorted num_lt
    (map x (buildNodes (T:=Qc) DEFAULT_LENGTH DEFAULT_SUPPORTS DEFAULT_POINT_LOADS DEFAULT_UDLS)).
Proof.
  exact (proj1 (@buildNodes_spec Qc _ Qc_Exact DEFAULT_LENGTH DEFAULT_SUPPORTS
                  DEFAULT_POINT_LOADS DEFAULT_UDLS)).
Defined.

Lemma buildNodes_first_support_wins_witness :
  supportType {| x := 0%float; supportType := pinned |} = pinned.
Proof.
  apply (@buildNodes_first_support_wins float _ 3000%float twoAtZero [] []
           {| x := 0%float; supportType := pinned |} []
           [ {| s_id := 2; s_positionMm := 0%float; s_type := fixed |} ]
           {| s_id := 1; s_positionMm := 0%float; s_type := pinned |}).
  - vm_compute. left. reflexivity.
  - reflexivity.
  - vm_compute. reflexivity.
  - intros s' [].
Defined.


(** C8, as stated, fails: with a pinned and then a fixed definition at
    x = 0, the node at 0 is pinned, though the last definition there is
    the fixed one. *)
Lemma last_support_does_not_win :
  exists nd pre s post,
    In nd (buildNodes (T:=float) 3000%float twoAtZero [] []) /\
    twoAtZero = pre ++ s :: post /\
    (s_positionMm s =? x nd) = true /\
    (forall s', In s' post -> (s_positionMm s' =? x nd) = false) /\
    (exists s0, In s0 pre /\ (s_positionMm s0 =? x nd) = true) /\
    supportType nd <> s_type s.
Proof.
  exists {| x := 0%float; supportType := pinned |},
         [ {| s_id := 1; s_positionMm := 0%float; s_type := pinned |} ],
         {| s_id := 2; s_positionMm := 0%float; s_type := fixed |}, [].
  split; [vm_compute; now left|].
  split; [reflexivity|].
  split; [vm_compute; reflexivity|].
  split; [intros s' []|].
  split; [|discriminate].
  eexists. split; [now left|vm_compute; reflexivity].
Qed.


Lemma analysis_deterministic_and_pure_witness :
  let inputs := [StoreOps.OSupports DEFAULT_SUPPORTS;
                 StoreOps.OPointLoads DEFAULT_POINT_LOADS;
                 StoreOps.OUdls DEFAULT_UDLS] in
  let result := analysis (T:=float) DEFAULT_LENGTH DEFAULT_MODULUS DEFAULT_INERTIA
                  DEFAULT_SUPPORTS DEFAULT_POINT_LOADS DEFAULT_UDLS in
  exists h',
    InPlace.analysis DEFAULT_LENGTH DEFAULT_MODULUS DEFAULT_INERTIA 0 1 2 inputs =
      Some (result, h') /\
    length inputs <= length h' /\
    (forall l, l < length inputs -> nth_error h' l = nth_error inputs l) /\
    exists h'',
      InPlace.analysis DEFAULT_LENGTH DEFAULT_MODULUS DEFAULT_INERTIA 0 1 2 h' =
        Some (result, h'').
Proof.
  intros inputs result.
  apply (analysis_deterministic_and_pure inputs
           DEFAULT_LENGTH DEFAULT_MODULUS DEFAULT_INERTIA 0 1 2); reflexivity.
Defined.

End Witnesses.

(** * The results of the engine *)

(** ** The solver in exact arithmetic *)

Section SolverExact.
Context {T : Type} {N : Number T} {E : ExactNumber T}.
Local Open Scope num_scope.

Add Field T_field_solver : (num_field (T:=T)).

Lemma fold_left_ext_in {A B} (f g : A -> B -> A) (l : list B) a :
  (forall x y, In y l -> f x y = g x y) -> fold_left f l a = fold_left g l a.
Proof.
  revert a; induction l as [|c l IH]; intros a H; simpl; [reflexivity|].
  rewrite H by now left. apply IH. intros x y Hy. apply H. now right.
Qed.

Lemma sumOver_acc {A} (l : list A) (f : A -> T) (a : T) :
  fold_left (fun s j => s + f j) l a = a + sumOver l f.
Proof.
  unfold sumOver. revert a. induction l as [|j l IH]; intros a; simpl; [ring|].
  rewrite IH, (IH ($0 + f j)). ring.
Qed.

Lemma sumOver_cons {A} (j : A) (l : list A) (f : A -> T) :
  sumOver (j :: l) f = f j + sumOver l f.
Proof. unfold sumOver at 1. simpl. rewrite sumOver_acc. ring. Qed.

Lemma sumOver_ext {A} (l : list A) (f g : A -> T) :
  (forall j, In j l -> f j = g j) -> sumOver l f = sumOver l g.
Proof.
  induction l as [|j l IH]; intros H; [reflexivity|].
  rewrite !sumOver_cons. rewrite (H j) by now left.
  rewrite IH; [reflexivity|]. intros j' Hj'. apply H. now right.
Qed.

Lemma sumOver_zero {A} (l : list A) : sumOver l (fun _ => $0) = $0.
Proof. induction l as [|j l IH]; [reflexivity|]. rewrite sumOver_cons, IH. ring. Qed.

Lemma sumOver_plus {A} (l : list A) (f g : A -> T) :
  sumOver l (fun j => f j + g j) = sumOver l f + sumOver l g.
Proof.
  induction l as [|j l IH]; [unfold sumOver; simpl; ring|].
  rewrite !sumOver_cons, IH. ring.
Qed.

Lemma sumOver_scale {A} (l : list A) (c : T) (f : A -> T) :
  sumOver l (fun j => c * f j) = c * sumOver l f.
Proof.
  induction l as [|j l IH]; [unfold sumOver; simpl; ring|].
  rewrite !sumOver_cons, IH. ring.
Qed.

Lemma sumOver_app {A} (l1 l2 : list A) (f : A -> T) :
  sumOver (l1 ++ l2) f = sumOver l1 f + sumOver l2 f.
Proof.
  induction l1 as [|j l IH]; [unfold sumOver at 2; simpl; ring|].
  cbn [app]. rewrite !sumOver_cons, IH. ring.
Qed.

(* one term of the sum is [v], the others are 0 *)
Lemma sumOver_single {A} (l : list A) (i : A) (f : A -> T) :
  NoDup l -> In i l -> (forall j, In j l -> j <> i -> f j = $0) -> sumOver l f = f i.
Proof.
  induction l as [|j l IH]; intros Hnd Hin Hz; [destruct Hin|].
  rewrite sumOver_cons. inversion Hnd as [|? ? Hj Hnd']; subst.
  destruct Hin as [->|Hin].
  - rewrite (sumOver_ext l f (fun _ => $0)), sumOver_zero; [ring|].
    intros j' Hj'. apply Hz; [now right|]. intros ->. contradiction.
  - rewrite IH; auto.
    + rewrite (Hz j); [ring|now left|]. intros ->. contradiction.
    + intros j' Hj' Hne. apply Hz; [now right|exact Hne].
Qed.

Lemma dot_fold (r : list T) (g : nat -> T) (s : nat) (a : T) :
  fold_left (fun acc vc => acc + fst vc * g (snd vc)) (combine r (seq s (length r))) a =
  fold_left (fun acc j => acc + get r (j - s) * g j) (seq s (length r)) a.
Proof.
  revert s a. induction r as [|v r IH]; intros s a; [reflexivity|].
  cbn [length seq combine fold_left fst snd]. rewrite Nat.sub_diag.
  change (get (v :: r) 0) with v. rewrite IH.
  apply fold_left_ext_in. intros acc j Hj. apply in_seq in Hj.
  unfold get. replace (j - s)%nat with (S (j - S s)) by lia. reflexivity.
Qed.

Lemma dot_rowTimes (M : list (list T)) (y : list T) n i :
  length (row M i) = n -> dot (row M i) y = rowTimes n M y i.
Proof.
  intros Hl. unfold dot, reduce_i, rowTimes, sumOver, entry.
  rewrite (dot_fold (row M i) (fun c => get y c) 0 $0), Hl.
  apply fold_left_ext_in. intros acc j _. now rewrite Nat.sub_0_r.
Qed.

(* a loop that rewrites each place of [seq k m] from its own old value *)
Lemma get_fold_upd_seq (f : nat -> T -> T) (k m : nat) (r : list T) (j : nat) :
  (j < length r)%nat ->
  get (fold_left (fun r j => upd r j (f j (get r j))) (seq k m) r) j =
  if (k <=? j)%nat && (j <? k + m)%nat then f j (get r j) else get r j.
Proof.
  revert k r. induction m as [|m IH]; intros k r Hj.
  - simpl. destruct (Nat.leb_spec k j), (Nat.ltb_spec j (k + 0)); simpl; auto; lia.
  - cbn [seq fold_left]. rewrite IH by now rewrite length_upd.
    destruct (Nat.eq_dec k j) as [->|Hne].
    + rewrite get_upd_same by exact Hj.
      destruct (Nat.leb_spec (S j) j), (Nat.leb_spec j j), (Nat.ltb_spec j (j + S m));
        simpl; auto; lia.
    + rewrite get_upd_other by exact Hne.
      destruct (Nat.leb_spec (S k) j), (Nat.leb_spec k j), (Nat.ltb_spec j (S k + m)),
        (Nat.ltb_spec j (k + S m)); simpl; auto; lia.
Qed.

Lemma get_normalizeRow (r : list T) (p : T) (k n j : nat) :
  (j < length r)%nat ->
  get (normalizeRow r p k n) j = if (k <=? j)%nat && (j <? n)%nat then get r j / p else get r j.
Proof.
  intros Hj. unfold normalizeRow.
  rewrite (get_fold_upd_seq (fun _ v => v / p)) by exact Hj.
  destruct (Nat.leb_spec k j), (Nat.ltb_spec j (k + (n - k))), (Nat.ltb_spec j n);
    simpl; auto; lia.
Qed.

Lemma get_eliminateRow (ri rk : list T) (f : T) (k n j : nat) :
  (j < length ri)%nat ->
  get (eliminateRow ri rk f k n) j =
  if (k <=? j)%nat && (j <? n)%nat then get ri j - f * get rk j else get ri j.
Proof.
  intros Hj. unfold eliminateRow.
  rewrite (get_fold_upd_seq (fun j v => v - f * get rk j)) by exact Hj.
  destruct (Nat.leb_spec k j), (Nat.ltb_spec j (k + (n - k))), (Nat.ltb_spec j n);
    simpl; auto; lia.
Qed.

(* the loop over the rows: every row of [l] but row [k] is reduced by row
   [k], the others stay *)
Lemma eliminate_fold (k n : nat) (l : list nat) (M : list (list T)) (xs : list T) :
  NoDup l -> Forall (fun i => (i < length M)%nat /\ (i < length xs)%nat) l ->
  let Mx := fold_left (eliminate k n) l (M, xs) in
  length (fst Mx) = length M /\ length (snd Mx) = length xs /\
  (forall i, In i l -> i <> k ->
     row (fst Mx) i = eliminateRow (row M i) (row M k) (entry M i k) k n /\
     get (snd Mx) i = get xs i - entry M i k * get xs k) /\
  (forall i, ~ In i l \/ i = k -> row (fst Mx) i = row M i /\ get (snd Mx) i = get xs i).
Proof.
  revert M xs. induction l as [|a l IH]; intros M xs Hnd Hl; cbv zeta.
  - simpl. split; [reflexivity|]. split; [reflexivity|]. split; [intros i []|].
    intros i _. now split.
  - inversion Hnd as [|? ? Ha Hnd']; subst. inversion Hl as [|? ? [HaM Hax] Hl']; subst.
    cbn [fold_left].
    destruct (Nat.eq_dec a k) as [->|Hak].
    + assert (Hstep : eliminate k n (M, xs) k = (M, xs))
        by (unfold eliminate; now rewrite Nat.eqb_refl).
      rewrite Hstep.
      destruct (IH M xs Hnd' Hl') as [L1 [L2 [H1 H2]]].
      split; [exact L1|]. split; [exact L2|]. split.
      * intros i [->|Hi] Hne; [congruence|]. now apply H1.
      * intros i [Hi| ->]; apply H2; auto. left. intros Hin. apply Hi. now right.
    + set (M1 := upd M a (eliminateRow (row M a) (row M k) (entry M a k) k n)).
      set (x1 := upd xs a (get xs a - entry M a k * get xs k)).
      assert (Hstep : eliminate k n (M, xs) a = (M1, x1)).
      { unfold eliminate. now destruct (Nat.eqb_spec a k). }
      rewrite Hstep.
      assert (Hl1 : Forall (fun i => (i < length M1)%nat /\ (i < length x1)%nat) l).
      { unfold M1, x1. now rewrite !length_upd. }
      destruct (IH M1 x1 Hnd' Hl1) as [L1 [L2 [H1 H2]]].
      unfold M1 in L1. unfold x1 in L2. rewrite length_upd in L1. rewrite length_upd in L2.
      assert (Hrow : forall i, i <> a -> row M1 i = row M i).
      { intros i Hi. unfold M1. apply row_upd_other. auto. }
      assert (Hget : forall i, i <> a -> get x1 i = get xs i).
      { intros i Hi. unfold x1. apply get_upd_other. auto. }
      split; [exact L1|]. split; [exact L2|]. split.
      * intros i [<-|Hi] Hne.
        -- destruct (H2 a (or_introl Ha)) as [R X]. rewrite R, X.
           unfold M1, x1. now rewrite row_upd_same, get_upd_same.
        -- assert (Hia : i <> a) by (intros ->; contradiction).
           destruct (H1 i Hi Hne) as [R X]. rewrite R, X.
           unfold entry. rewrite !Hrow, !Hget by auto. now split.
      * intros i Hi.
        assert (Hia : i <> a).
        { destruct Hi as [Hi| ->]; [|auto]. intros ->. apply Hi. now left. }
        assert (Hi' : ~ In i l \/ i = k).
        { destruct Hi as [Hi|Hi]; [left|now right]. intros Hin. apply Hi. now right. }
        destruct (H2 i Hi') as [R X]. now rewrite R, X, Hrow, Hget.
Qed.

Lemma swapIdx_invol k m i : swapIdx k m (swapIdx k m i) = i.
Proof.
  unfold swapIdx.
  destruct (Nat.eqb_spec i m) as [->|H1].
  - destruct (Nat.eqb_spec k m) as [->|H2]; [reflexivity|]. now rewrite Nat.eqb_refl.
  - destruct (Nat.eqb_spec i k) as [->|H2].
    + now rewrite Nat.eqb_refl.
    + destruct (Nat.eqb_spec i m); [contradiction|]. now destruct (Nat.eqb_spec i k).
Qed.

Lemma abs_pivot_neq_0 (p : T) : (abs p <? eps) = false -> p <> $0.
Proof.
  intros H ->. rewrite en_abs, en_lt_irrefl, en_eps in H. discriminate.
Qed.

(* one pass of the elimination: the next column becomes a column of the
   identity and the solutions stay the same *)
Lemma solveStep_exact (n k : nat) (M : list (list T)) (xs : list T) M' xs' :
  shaped n n M -> length xs = n -> (k < n)%nat -> reducedTo n k M ->
  solveStep n (M, xs) k = Some (M', xs') ->
  shaped n n M' /\ length xs' = n /\ reducedTo n (S k) M' /\
  forall y, solves n M' xs' y <-> solves n M xs y.
Proof.
  intros [HlM Hrows] Hlx Hk Hred Hstep.
  unfold solveStep in Hstep. cbn [fst snd] in Hstep.
  pose proof (findMaxRow_spec (T:=T) en_lt_irrefl en_lt_trans num_ltb_negtrans M Hk) as Hm.
  cbv zeta in Hm. destruct Hm as [Hm _].
  set (m := findMaxRow M k n) in *.
  destruct (abs (entry M m k) <? eps) eqn:Hp; [discriminate|].
  apply abs_pivot_neq_0 in Hp.
  set (p := entry M m k) in *.
  set (M1 := swapRows [] M k m) in *. set (x1 := swapRows $0 xs k m) in *.
  assert (EM1 : forall i, row M1 i = row M (swapIdx k m i)).
  { intros i. unfold row, M1. apply nth_swapRows; lia. }
  assert (Ex1 : forall i, get x1 i = get xs (swapIdx k m i)).
  { intros i. unfold get, x1. apply nth_swapRows; lia. }
  assert (Hsk : swapIdx k m k = m).
  { unfold swapIdx. destruct (Nat.eqb_spec k m) as [e|_]; [exact e|].
    now rewrite Nat.eqb_refl. }
  assert (Hpk : entry M1 k k = p).
  { unfold entry. rewrite EM1, Hsk. reflexivity. }
  rewrite Hpk in Hstep.
  set (M2 := upd M1 k (normalizeRow (row M1 k) p k n)) in *.
  set (x2 := upd x1 k (get x1 k / p)) in *.
  injection Hstep as Hstep.
  assert (LM1 : length M1 = n) by (unfold M1; now rewrite length_swapRows).
  assert (Lx1 : length x1 = n) by (unfold x1; now rewrite length_swapRows).
  assert (LM2 : length M2 = n) by (unfold M2; now rewrite length_upd).
  assert (Lx2 : length x2 = n) by (unfold x2; now rewrite length_upd).
  assert (Lrow1 : forall i, (i < n)%nat -> length (row M1 i) = n).
  { intros i Hi. rewrite EM1. apply Hrows. apply swapIdx_lt; lia. }
  assert (R2k : row M2 k = normalizeRow (row M1 k) p k n).
  { unfold M2. apply row_upd_same. lia. }
  assert (R2i : forall i, i <> k -> row M2 i = row M1 i).
  { intros i Hi. unfold M2. apply row_upd_other. auto. }
  assert (Z : forall j, (j < k)%nat -> entry M1 k j = $0).
  { intros j Hj. unfold entry. rewrite EM1, Hsk. fold (entry M m j).
    rewrite (Hred m j) by lia. destruct (Nat.eqb_spec m j); [lia|reflexivity]. }
  set (q := $1 / p).
  assert (Hq : q * p = $1) by (apply en_inv; exact Hp).
  assert (E2k : forall j, (j < n)%nat -> entry M2 k j = entry M1 k j * q).
  { intros j Hj. unfold entry at 1. rewrite R2k, get_normalizeRow by (rewrite Lrow1; lia).
    fold (entry M1 k j).
    destruct (Nat.leb_spec k j), (Nat.ltb_spec j n); cbn [andb]; try lia.
    - apply en_div_def.
    - rewrite Z by lia. ring. }
  destruct (@eliminate_fold k n (seq 0 n) M2 x2 (seq_NoDup n 0)) as [L1 [L2 [H1 H2]]].
  { apply Forall_forall. intros i Hi. apply in_seq in Hi. lia. }
  rewrite Hstep in L1, L2, H1, H2. cbn [fst snd] in L1, L2, H1, H2.
  rewrite LM2 in L1. rewrite Lx2 in L2.
  assert (FK : forall j, (j < n)%nat -> entry M' k j = entry M1 k j * q).
  { intros j Hj. unfold entry at 1. rewrite (proj1 (H2 k (or_intror eq_refl))).
    now apply E2k. }
  assert (XK : get xs' k = get x1 k * q).
  { rewrite (proj2 (H2 k (or_intror eq_refl))). unfold x2.
    rewrite get_upd_same by lia. apply en_div_def. }
  assert (FI : forall i, (i < n)%nat -> i <> k -> forall j, (j < n)%nat ->
            entry M' i j = entry M1 i j - entry M1 i k * (entry M1 k j * q)).
  { intros i Hi Hik j Hj. unfold entry at 1.
    rewrite (proj1 (H1 i (proj2 (in_seq n 0 i) (conj (Nat.le_0_l i) Hi)) Hik)).
    rewrite get_eliminateRow by (rewrite R2i, Lrow1; lia).
    unfold entry at 1. rewrite (R2i i Hik). fold (entry M1 i k).
    fold (entry M2 k j). fold (entry M1 i j). rewrite E2k by exact Hj.
    destruct (Nat.leb_spec k j), (Nat.ltb_spec j n); cbn [andb]; try lia; [reflexivity|].
    rewrite Z by lia. ring. }
  assert (XI : forall i, (i < n)%nat -> i <> k ->
            get xs' i = get x1 i - entry M1 i k * (get x1 k * q)).
  { intros i Hi Hik.
    rewrite (proj2 (H1 i (proj2 (in_seq n 0 i) (conj (Nat.le_0_l i) Hi)) Hik)).
    unfold entry at 1. rewrite (R2i i Hik). fold (entry M1 i k).
    unfold x2. rewrite get_upd_same, get_upd_other by lia.
    now rewrite en_div_def. }
  assert (RT1 : forall y i, rowTimes n M1 y i = rowTimes n M y (swapIdx k m i)).
  { intros y i. unfold rowTimes, entry. now rewrite EM1. }
  assert (RTK : forall y, rowTimes n M' y k = q * rowTimes n M1 y k).
  { intros y. unfold rowTimes. rewrite <- sumOver_scale. apply sumOver_ext.
    intros j Hj. apply in_seq in Hj. rewrite FK by lia. ring. }
  assert (RTI : forall y i, (i < n)%nat -> i <> k ->
            rowTimes n M' y i =
            rowTimes n M1 y i + (- (entry M1 i k * q)) * rowTimes n M1 y k).
  { intros y i Hi Hik. unfold rowTimes. rewrite <- sumOver_scale, <- sumOver_plus.
    apply sumOver_ext. intros j Hj. apply in_seq in Hj. rewrite FI by lia. ring. }
  split; [|split; [exact L2|split]].
  - split; [exact L1|]. intros i Hi. destruct (Nat.eq_dec i k) as [->|Hik].
    + rewrite (proj1 (H2 k (or_intror eq_refl))), R2k, length_normalizeRow. now apply Lrow1.
    + rewrite (proj1 (H1 i (proj2 (in_seq n 0 i) (conj (Nat.le_0_l i) Hi)) Hik)).
      rewrite length_eliminateRow, R2i by exact Hik. now apply Lrow1.
  - intros i j Hi Hj.
    assert (Hj' : (j < k \/ j = k)%nat) by lia.
    destruct (Nat.eq_dec i k) as [->|Hik], Hj' as [Hj'| ->].
    + rewrite FK, Z by lia. destruct (Nat.eqb_spec k j); [lia|ring].
    + rewrite FK, Hpk by lia. rewrite Nat.eqb_refl. rewrite <- Hq. ring.
    + rewrite FI, Z by lia.
      replace (entry M1 i j - entry M1 i k * ($0 * q)) with (entry M1 i j) by ring.
      unfold entry. rewrite EM1. fold (entry M (swapIdx k m i) j).
      rewrite (Hred (swapIdx k m i) j) by (try apply swapIdx_lt; lia).
      unfold swapIdx. destruct (Nat.eqb_spec i m) as [e|Him].
      * destruct (Nat.eqb_spec k j), (Nat.eqb_spec i j); try lia. reflexivity.
      * destruct (Nat.eqb_spec i k); [contradiction|reflexivity].
    + rewrite FI, Hpk by lia. destruct (Nat.eqb_spec i k); [contradiction|].
      replace (entry M1 i k - entry M1 i k * (p * q)) with
        (entry M1 i k * ($1 - q * p)) by ring.
      rewrite Hq. ring.
  - intros y. split.
    + intros H i Hi.
      assert (Hs1 : forall i', (i' < n)%nat -> rowTimes n M1 y i' = get x1 i').
      { assert (Hkk : rowTimes n M1 y k = get x1 k).
        { pose proof (H k Hk) as Hk'. rewrite RTK, XK in Hk'.
          transitivity ((q * p) * rowTimes n M1 y k); [rewrite Hq; ring|].
          transitivity (p * (q * rowTimes n M1 y k)); [ring|].
          rewrite Hk'. transitivity ((q * p) * get x1 k); [ring|rewrite Hq; ring]. }
        intros i' Hi'. destruct (Nat.eq_dec i' k) as [->|Hik]; [exact Hkk|].
        pose proof (H i' Hi') as H'. rewrite RTI, XI, Hkk in H' by auto.
        transitivity (rowTimes n M1 y i' + - (entry M1 i' k * q) * get x1 k
                      + entry M1 i' k * q * get x1 k); [ring|].
        rewrite H'. ring. }
      pose proof (Hs1 (swapIdx k m i) ltac:(apply swapIdx_lt; lia)) as H'.
      rewrite RT1, Ex1, !swapIdx_invol in H'. exact H'.
    + intros H i Hi.
      assert (Hs1 : forall i', (i' < n)%nat -> rowTimes n M1 y i' = get x1 i').
      { intros i' Hi'. rewrite RT1, Ex1. apply H. apply swapIdx_lt; lia. }
      destruct (Nat.eq_dec i k) as [->|Hik].
      * rewrite RTK, XK, Hs1 by lia. ring.
      * rewrite RTI, XI, !Hs1 by lia. ring.
Qed.

Lemma solveLoop_exact (n len s : nat) (M : list (list T)) (xs : list T) M' xs' :
  (s + len <= n)%nat -> shaped n n M -> length xs = n -> reducedTo n s M ->
  solveLoop n (seq s len) (M, xs) = Some (M', xs') ->
  shaped n n M' /\ length xs' = n /\ reducedTo n (s + len) M' /\
  forall y, solves n M' xs' y <-> solves n M xs y.
Proof.
  revert s M xs. induction len as [|len IH]; intros s M xs Hs HM Hx Hred Hloop.
  - simpl in Hloop. injection Hloop as <- <-. rewrite Nat.add_0_r.
    split; [exact HM|]. split; [exact Hx|]. split; [exact Hred|]. intros y. reflexivity.
  - cbn [seq solveLoop] in Hloop.
    destruct (solveStep n (M, xs) s) as [[M1 x1]|] eqn:Hstep; [|discriminate].
    destruct (@solveStep_exact n s M xs M1 x1 HM Hx ltac:(lia) Hred Hstep)
      as [HM1 [Hx1 [Hred1 Hs1]]].
    destruct (IH (S s) M1 x1 ltac:(lia) HM1 Hx1 Hred1 Hloop) as [HM' [Hx' [Hred' Hs']]].
    split; [exact HM'|]. split; [exact Hx'|]. split.
    + now replace (s + S len)%nat with (S s + len)%nat by lia.
    + intros y. now rewrite Hs', Hs1.
Qed.

(* against the identity, a product is the vector itself *)
Lemma rowTimes_identity (n : nat) (M : list (list T)) (y : list T) (i : nat) :
  reducedTo n n M -> (i < n)%nat -> rowTimes n M y i = get y i.
Proof.
  intros Hred Hi. unfold rowTimes.
  rewrite (sumOver_single (l:=seq 0 n) (i:=i)).
  - rewrite (Hred i i Hi Hi), Nat.eqb_refl. ring.
  - apply seq_NoDup.
  - apply in_seq. lia.
  - intros j Hj Hne. apply in_seq in Hj. rewrite (Hred i j) by lia.
    destruct (Nat.eqb_spec i j); [congruence|ring].
Qed.

(* the returned vector solves the system, and nothing else of its length does *)
Lemma solveLinearSystem_solves (A : list (list T)) (b x : list T) :
  shaped (length b) (length b) A ->
  solveLinearSystem A b = Some x ->
  length x = length b /\ solves (length b) A b x /\
  (forall y, length y = length b -> solves (length b) A b y -> y = x).
Proof.
  intros HA Hsolve. unfold solveLinearSystem in Hsolve.
  set (n := length b) in *.
  destruct (solveLoop n (seq 0 n) (A, b)) as [[M' xs']|] eqn:Hloop; [|discriminate].
  cbn [option_map snd] in Hsolve. injection Hsolve as ->.
  destruct (@solveLoop_exact n n 0 A b M' x (Nat.le_refl n) HA eq_refl) as [HM' [Hx [Hred Hs]]];
    [intros i j _ Hj; lia|exact Hloop|].
  cbn [Nat.add] in Hred.
  split; [exact Hx|]. split.
  - apply (proj1 (Hs x)). intros i' Hi'. now apply rowTimes_identity.
  - intros y Hy Hyb.
    assert (Hsol : solves n M' x y) by now apply Hs.
    apply (nth_ext y x $0 $0); [now rewrite Hy, Hx|].
    intros i Hi. rewrite Hy in Hi. fold (get y i). fold (get x i).
    rewrite <- (Hsol i Hi). symmetry. now apply rowTimes_identity.
Qed.

(** X1. In exact arithmetic, what the solver returns for a square system is a
    solution, and the only one: with [x] returned for [A] and [b], every
    row of [A] times [x] gives the entry of [b], and a vector of the same
    length with that property is [x]. *)
Theorem solveLinearSystem_sound (A : list (list T)) (b x : list T) :
  shaped (length b) (length b) A ->
  solveLinearSystem A b = Some x ->
  length x = length b /\
  (forall i, (i < length b)%nat -> dot (row A i) x = get b i) /\
  (forall y, length y = length b ->
     (forall i, (i < length b)%nat -> dot (row A i) y = get b i) -> y = x).
Proof.
  intros HA Hsolve.
  destruct (@solveLinearSystem_solves A b x HA Hsolve) as [Hx [Hsol Huniq]].
  assert (Hdot : forall y i, (i < length b)%nat ->
            dot (row A i) y = rowTimes (length b) A y i).
  { intros y i Hi. apply dot_rowTimes. now apply (proj2 HA). }
  split; [exact Hx|]. split.
  - intros i Hi. rewrite Hdot by exact Hi. now apply Hsol.
  - intros y Hy Hyb. apply Huniq; [exact Hy|].
    intros i Hi. rewrite <- Hdot by exact Hi. now apply Hyb.
Qed.

End SolverExact.

(** ** The equations of the free DOFs *)

Section Expansion.
Context {T : Type} {N : Number T}.
Local Open Scope num_scope.

Lemma expand_fold (fd : list T) (free : list nat) (s : nat) (d : list T) :
  NoDup free -> Forall (fun c => (c < length d)%nat) free ->
  let u := fold_left (fun d ii => upd d (fst ii) (get fd (snd ii)))
             (combine free (seq s (length free))) d in
  length u = length d /\
  (forall j, (j < length free)%nat -> get u (nth j free O) = get fd (s + j)) /\
  (forall c, ~ In c free -> get u c = get d c).
Proof.
  revert s d. induction free as [|f rest IH]; intros s d Hnd Hlt u.
  - subst u. cbn. split; [reflexivity|]. split; [intros j Hj; lia|reflexivity].
  - subst u. cbn [length seq combine fold_left fst snd].
    inversion Hnd as [|? ? Hf Hnd']; subst. inversion Hlt as [|? ? Hfd Hlt']; subst.
    destruct (IH (S s) (upd d f (get fd s)) Hnd') as [HL [Hin Hout]].
    { rewrite length_upd. exact Hlt'. }
    cbv zeta in HL, Hin, Hout. rewrite length_upd in HL.
    split; [exact HL|]. split.
    + intros [|j] Hj.
      * cbn [nth]. rewrite (Hout f Hf), Nat.add_0_r. now apply get_upd_same.
      * cbn [nth]. rewrite Hin by (cbn in Hj; lia). f_equal. lia.
    + intros c Hc. rewrite Hout by (intros Hc'; apply Hc; now right).
      apply get_upd_other. intros ->. apply Hc. now left.
Qed.

(* the displacement vector: the solved values at the free DOFs, 0 elsewhere *)
Lemma expandDisplacements_spec (dof : nat) (free : list nat) (fd : list T) :
  NoDup free -> Forall (fun c => (c < dof)%nat) free ->
  let u := expandDisplacements dof free fd in
  length u = dof /\
  (forall j, (j < length free)%nat -> get u (nth j free O) = get fd j) /\
  (forall c, ~ In c free -> get u c = $0).
Proof.
  intros Hnd Hlt u. subst u. unfold expandDisplacements.
  destruct (@expand_fold fd free 0 (repeat $0 dof) Hnd) as [HL [Hin Hout]].
  { now rewrite repeat_length. }
  cbv zeta in HL, Hin, Hout. rewrite repeat_length in HL.
  split; [exact HL|]. split; [exact Hin|].
  intros c Hc. rewrite (Hout c Hc). unfold get.
  destruct (Nat.lt_ge_cases c dof).
  - now apply nth_repeat_lt.
  - apply nth_overflow. now rewrite repeat_length.
Qed.

Lemma free_NoDup (nodes : list (@Node T)) (K : list (list T)) (F : list T) :
  NoDup (free_ (applyBoundaryConditions nodes K F)).
Proof. cbn. apply NoDup_filter, seq_NoDup. Qed.

Lemma free_lt (nodes : list (@Node T)) (K : list (list T)) (F : list T) :
  Forall (fun c => (c < length K)%nat) (free_ (applyBoundaryConditions nodes K F)).
Proof. apply Forall_forall. intros c Hc. now apply free_In in Hc. Qed.

Lemma shaped_Kff (nodes : list (@Node T)) (K : list (list T)) (F : list T) :
  let red := applyBoundaryConditions nodes K F in
  let m := length (free_ red) in
  shaped m m (Kff red) /\ length (Ff red) = m /\
  (forall i j, (i < m)%nat -> (j < m)%nat ->
     entry (Kff red) i j = entry K (nth i (free_ red) O) (nth j (free_ red) O)) /\
  (forall i, (i < m)%nat -> get (Ff red) i = get F (nth i (free_ red) O)).
Proof.
  intros red m. set (fr := free_ red) in *.
  assert (HK : Kff red = map (fun r => map (fun c => entry K r c) fr) fr) by reflexivity.
  assert (HF : Ff red = map (fun r => get F r) fr) by reflexivity.
  rewrite HK, HF. clear HK HF.
  assert (Hrow : forall i, (i < m)%nat ->
            row (map (fun r => map (fun c => entry K r c) fr) fr) i =
            map (fun c => entry K (nth i fr O) c) fr).
  { intros i Hi. unfold row. now rewrite (nth_map_lt _ fr [] O). }
  split; [split|split; [|split]].
  - now rewrite length_map.
  - intros i Hi. rewrite (Hrow i Hi). now rewrite length_map.
  - now rewrite length_map.
  - intros i j Hi Hj. unfold entry at 1. rewrite (Hrow i Hi). unfold get at 1.
    now rewrite (nth_map_lt _ fr $0 O).
  - intros i Hi. unfold get at 1. now rewrite (nth_map_lt _ fr $0 O).
Qed.

End Expansion.

Section Sums.
Context {T : Type} {N : Number T} {E : ExactNumber T}.
Local Open Scope num_scope.

Add Field T_field_sums : (num_field (T:=T)).

Lemma sumOver_map {A B} (g : A -> B) (l : list A) (f : B -> T) :
  sumOver (map g l) f = sumOver l (fun a => f (g a)).
Proof.
  induction l as [|a l IH]; [reflexivity|].
  cbn [map]. now rewrite !sumOver_cons, IH.
Qed.

Lemma sumOver_filter {A} (p : A -> bool) (l : list A) (f : A -> T) :
  sumOver (filter p l) f = sumOver l (fun a => if p a then f a else $0).
Proof.
  induction l as [|a l IH]; [reflexivity|].
  cbn [filter]. rewrite sumOver_cons. destruct (p a).
  - now rewrite sumOver_cons, IH.
  - rewrite IH. ring.
Qed.

Lemma sumOver_swap {A B} (l1 : list A) (l2 : list B) (f : A -> B -> T) :
  sumOver l1 (fun a => sumOver l2 (fun b => f a b)) =
  sumOver l2 (fun b => sumOver l1 (fun a => f a b)).
Proof.
  induction l1 as [|a l1 IH].
  - cbn. symmetry. apply sumOver_zero.
  - rewrite sumOver_cons, IH, <- sumOver_plus. apply sumOver_ext.
    intros b _. now rewrite sumOver_cons.
Qed.

Lemma sumOver_flat_map {A B} (g : A -> list B) (l : list A) (f : B -> T) :
  sumOver (flat_map g l) f = sumOver l (fun a => sumOver (g a) f).
Proof.
  induction l as [|a l IH]; [reflexivity|].
  cbn [flat_map]. now rewrite sumOver_app, sumOver_cons, IH.
Qed.

Lemma sumOver_scale_r {A} (l : list A) (c : T) (f : A -> T) :
  sumOver l (fun j => f j * c) = sumOver l f * c.
Proof.
  rewrite (sumOver_ext l (fun j => f j * c) (fun j => c * f j)) by (intros; ring).
  rewrite sumOver_scale. ring.
Qed.

Lemma sumOver_sub {A} (l : list A) (f g : A -> T) :
  sumOver l (fun j => f j - g j) = sumOver l f - sumOver l g.
Proof.
  induction l as [|a l IH]; [cbn; ring|].
  rewrite !sumOver_cons, IH. ring.
Qed.

(* a fold that adds is a sum *)
Lemma fold_add_sumOver {A} (l : list A) (f : A -> T) (a : T) :
  fold_left (fun s j => s + f j) l a = a + sumOver l f.
Proof. apply sumOver_acc. Qed.

Lemma sumOver_combine_from {A} (l : list A) (d : A) (s : nat) (f : A * nat -> T) :
  sumOver (combine l (seq s (length l))) f =
  sumOver (seq 0 (length l)) (fun i => f (nth i l d, (s + i)%nat)).
Proof.
  revert s. induction l as [|a l IH]; intros s; [reflexivity|].
  cbn [length seq combine]. rewrite !sumOver_cons, (IH (S s)).
  cbn [nth]. rewrite Nat.add_0_r. f_equal.
  rewrite <- seq_shift, sumOver_map. apply sumOver_ext.
  intros i _. cbn [nth]. now rewrite Nat.add_succ_r.
Qed.

Lemma sumOver_combine_seq {A} (l : list A) (d : A) (f : A * nat -> T) :
  sumOver (combine l (seq 0 (length l))) f =
  sumOver (seq 0 (length l)) (fun i => f (nth i l d, i)).
Proof. apply sumOver_combine_from. Qed.

End Sums.

Section FreeRows.
Context {T : Type} {N : Number T} {E : ExactNumber T}.
Local Open Scope num_scope.

Add Field T_field_free : (num_field (T:=T)).

(* the equation of every free DOF holds for the displacement vector *)
Lemma free_rows_balanced (nodes : list (@Node T)) (K : list (list T)) (F fd : list T) (d : nat) :
  shaped (length K) (length K) K ->
  let red := applyBoundaryConditions nodes K F in
  solveLinearSystem (Kff red) (Ff red) = Some fd ->
  In d (free_ red) ->
  dot (row K d) (expandDisplacements (length K) (free_ red) fd) = get F d.
Proof.
  intros HK red Hsolve Hd.
  set (fr := free_ red) in *. set (m := length fr).
  destruct (shaped_Kff nodes K F) as [HKff [HFf [Hentry Hget]]].
  fold red in HKff, HFf, Hentry, Hget. fold fr in HKff, HFf, Hentry, Hget.
  fold m in HKff, HFf, Hentry, Hget.
  rewrite <- HFf in HKff.
  destruct (@solveLinearSystem_solves T N E (Kff red) (Ff red) fd HKff Hsolve) as [Hlen [Hsol _]].
  rewrite HFf in Hlen, Hsol.
  destruct (@expandDisplacements_spec T N (length K) fr fd (free_NoDup nodes K F)
              (free_lt nodes K F)) as [Hu [Hin Hout]].
  cbv zeta in Hu, Hin, Hout.
  set (u := expandDisplacements (length K) fr fd) in *.
  destruct (In_nth fr d O Hd) as [i [Hi Hnth]]. fold m in Hi.
  replace (get F d) with (get (Ff red) i) by (rewrite Hget by exact Hi; now rewrite Hnth).
  rewrite <- (Hsol i Hi).
  rewrite (@dot_rowTimes T N K u (length K) d).
  2:{ apply (proj2 HK). now apply (proj1 (free_In nodes K F d)). }
  unfold rowTimes.
  rewrite (sumOver_ext (seq 0 m) _ (fun j => entry K d (nth j fr O) * get u (nth j fr O))).
  2:{ intros j Hj. apply in_seq in Hj. rewrite Hentry by lia. rewrite Hnth.
      now rewrite Hin by lia. }
  rewrite <- (sumOver_map (fun j => nth j fr O) (seq 0 m) (fun c => entry K d c * get u c)).
  unfold m. rewrite map_nth_seq.
  assert (Hfr : fr = filter (fun i => negb (existsb (Nat.eqb i) (constrainedOf nodes)))
                       (seq 0 (length K))) by reflexivity.
  symmetry. rewrite Hfr at 1. rewrite sumOver_filter. apply sumOver_ext.
  intros c Hc.
  destruct (negb (existsb (Nat.eqb c) (constrainedOf nodes))) eqn:Hp; [reflexivity|].
  rewrite Hout; [ring|]. rewrite Hfr. intros Hc'. apply filter_In in Hc'.
  destruct Hc' as [_ Hc']. congruence.
Qed.

End FreeRows.

(** ** The result of a successful analysis *)

Section ResultParts.
Context {T : Type} {N : Number T}.
Local Open Scope num_scope.

(* the parts of a result, as the engine computes them *)
Lemma analysis_result (lengthMm youngsModulusMpa inertiaMm4 : T) supports pointLoads udls
    (nodes : list (@Node T)) reactionTable diagrams :
  analysis lengthMm youngsModulusMpa inertiaMm4 supports pointLoads udls =
    AnalysisResult nodes reactionTable diagrams ->
  let sys := assembleSystem nodes youngsModulusMpa inertiaMm4 pointLoads udls in
  let red := applyBoundaryConditions nodes (K sys) (F sys) in
  nodes = buildNodes lengthMm supports pointLoads udls /\
  exists freeDisplacements,
    solveLinearSystem (Kff red) (Ff red) = Some freeDisplacements /\
    let u := expandDisplacements (length (K sys)) (free_ red) freeDisplacements in
    reactionTable = reactionTableOf nodes (reactionsOf (K sys) (F sys) u) /\
    diagrams = computeDiagrams nodes (elementData sys) u.
Proof.
  intros H sys red. unfold analysis in H.
  destruct (solveLinearSystem _ _) as [fd|] eqn:Hsolve in H; [|discriminate].
  injection H as Hn Hr Hd.
  assert (Hnodes : nodes = buildNodes lengthMm supports pointLoads udls) by now symmetry.
  split; [exact Hnodes|]. rewrite <- Hnodes in Hsolve, Hr, Hd.
  exists fd. split; [exact Hsolve|]. cbv zeta. split; symmetry; assumption.
Qed.

End ResultParts.

Section ResultExact.
Context {T : Type} {N : Number T} {E : ExactNumber T}.
Local Open Scope num_scope.

Lemma buildNodes_in_range (lengthMm : T) supports pointLoads udls (nd : @Node T) :
  In nd (buildNodes lengthMm supports pointLoads udls) ->
  num_le $0 (x nd) /\ num_le (x nd) lengthMm.
Proof.
  intros Hnd. apply (in_map x) in Hnd. rewrite buildNodes_x in Hnd.
  apply (proj1 (proj2 (uniqueSorted_spec _) _)) in Hnd. apply filter_In in Hnd. destruct Hnd as [_ Hr].
  apply andb_true_iff in Hr. exact Hr.
Qed.

Lemma nodeAt_In (nodes : list (@Node T)) (i : nat) :
  (i < length nodes)%nat -> In (nodeAt nodes i) nodes.
Proof. intros Hi. unfold nodeAt. now apply nth_In. Qed.

End ResultExact.

(** ** Vertical equilibrium *)

Section ElementShares.
Context {T : Type} {N : Number T}.
Local Open Scope num_scope.

Lemma elementsOf_In (nodes : list (@Node T)) (EI : T) (udls : list Udl) (idx : list nat)
    (e : ElementData) :
  In e (elementsOf nodes EI udls idx) ->
  exists k, In k idx /\ e = elementOf nodes EI udls k.
Proof.
  unfold elementsOf. intros He. apply in_flat_map in He. destruct He as [k [Hk He]].
  exists k. split; [exact Hk|].
  destruct (elementSpan nodes k <=? $0); [destruct He|].
  destruct He as [<-|[]]. reflexivity.
Qed.

Lemma localIndex_even (k i : nat) :
  localIndex k (i * 2) =
  if Nat.eqb i k then Some 0%nat else if Nat.eqb i (k + 1) then Some 2%nat else None.
Proof.
  destruct (Nat.eqb_spec i k) as [->|Hk].
  - apply localIndex_Some. lia.
  - destruct (Nat.eqb_spec i (k + 1)) as [->|Hk1].
    + apply localIndex_Some. lia.
    + apply localIndex_None. lia.
Qed.

End ElementShares.

Section Balance.
Context {T : Type} {N : Number T} {E : ExactNumber T}.
Local Open Scope num_scope.

Add Field T_field_balance : (num_field (T:=T)).

Lemma addK_sum (a b : nat) (els : list (@ElementData T)) (acc : T) :
  fold_left (addK a b) els acc = acc + sumOver els (shareK a b).
Proof.
  revert acc. induction els as [|e els IH]; intros acc; [cbn; ring|].
  cbn [fold_left]. rewrite IH, sumOver_cons. unfold addK, shareK.
  destruct (localIndex (index e) a), (localIndex (index e) b); ring.
Qed.

Lemma addF_sum (a : nat) (els : list (@ElementData T)) (acc : T) :
  fold_left (addF a) els acc = acc + sumOver els (shareF a).
Proof.
  revert acc. induction els as [|e els IH]; intros acc; [cbn; ring|].
  cbn [fold_left]. rewrite IH, sumOver_cons. unfold addF, shareF.
  destruct (localIndex (index e) a); ring.
Qed.

(* a sum with two terms that count *)
Lemma sumOver_two (n k : nat) (g : nat -> T) :
  (k + 1 < n)%nat ->
  (forall i, i <> k -> i <> (k + 1)%nat -> g i = $0) ->
  sumOver (seq 0 n) g = g k + g (k + 1)%nat.
Proof.
  intros Hk Hz.
  rewrite (sumOver_ext (seq 0 n) g
             (fun i => (if Nat.eqb i k then g k else $0) +
                       (if Nat.eqb i (k + 1) then g (k + 1)%nat else $0))).
  - rewrite sumOver_plus.
    rewrite (sumOver_single (l:=seq 0 n) (i:=k)), Nat.eqb_refl.
    + rewrite (sumOver_single (l:=seq 0 n) (i:=(k + 1)%nat)), Nat.eqb_refl.
      * reflexivity.
      * apply seq_NoDup.
      * apply in_seq. lia.
      * intros j _ Hj. now destruct (Nat.eqb_spec j (k + 1)).
    + apply seq_NoDup.
    + apply in_seq. lia.
    + intros j _ Hj. now destruct (Nat.eqb_spec j k).
  - intros i _. destruct (Nat.eqb_spec i k) as [->|Hk'].
    + destruct (Nat.eqb_spec k (k + 1)); [lia|ring].
    + destruct (Nat.eqb_spec i (k + 1)) as [->|Hk1]; [ring|].
      rewrite (Hz i Hk' Hk1). ring.
Qed.

(* the rows 0 and 2 of a local stiffness matrix cancel in every column *)
Lemma kLocal_vertical_rows (EI L : T) (c : nat) :
  (c < 4)%nat -> entry (kLocalOf EI L) 0 c + entry (kLocalOf EI L) 2 c = $0.
Proof.
  intros Hc. destruct c as [|[|[|[|c]]]]; [| | | |lia]; cbn; ring.
Qed.

Lemma fFixed_vertical (w L : T) : get (fFixedOf w L) 0 + get (fFixedOf w L) 2 = w * L.
Proof.
  assert (H2 : ($2 : T) = $1 + $1) by (rewrite <- en_fromZ_add; reflexivity).
  unfold fFixedOf, get. cbn [nth]. rewrite H2. field.
  change ($1 + $1 <> ($0 : T)). rewrite <- H2. apply num_pos_neq, fromZ_pos.
Qed.

Section OnMesh.
Variable nodes : list (@Node T).
Variables youngsModulusMpa inertiaMm4 : T.
Variable pointLoads : list (@PointLoad T).
Variable udls : list (@Udl T).

Local Abbreviation sys := (assembleSystem nodes youngsModulusMpa inertiaMm4 pointLoads udls).
Local Abbreviation n := (length nodes).

Lemma element_indices (e : ElementData) :
  In e (elementData sys) ->
  exists k, (k + 1 < n)%nat /\
    e = elementOf nodes (youngsModulusMpa * inertiaMm4) udls k.
Proof.
  destruct (assembleSystem_facts nodes youngsModulusMpa inertiaMm4 pointLoads udls)
    as [Hel _]. cbv zeta in Hel. rewrite Hel. intros He.
  apply elementsOf_In in He. destruct He as [k [Hk ->]].
  exists k. split; [|reflexivity]. apply in_seq in Hk. lia.
Qed.

(* the vertical rows of K cancel in every column *)
Lemma vertical_rows_cancel (b : nat) :
  sumOver (seq 0 n) (fun i => entry (K sys) (i * 2) b) = $0.
Proof.
  destruct (assembleSystem_facts nodes youngsModulusMpa inertiaMm4 pointLoads udls)
    as [_ [_ [_ [HK _]]]]. cbv zeta in HK.
  rewrite (sumOver_ext (seq 0 n) _
             (fun i => sumOver (elementData sys) (shareK (i * 2) b))).
  2:{ intros i _. rewrite HK, addK_sum. ring. }
  rewrite sumOver_swap.
  rewrite (sumOver_ext (elementData sys) _ (fun _ => $0)); [apply sumOver_zero|].
  intros e He. destruct (element_indices e He) as [k [Hk ->]].
  rewrite (sumOver_two (n:=n) (k:=k)); [|exact Hk|].
  2:{ intros i H1 H2. unfold shareK. cbn [index elementOf]. rewrite localIndex_even.
      destruct (Nat.eqb_spec i k); [lia|]. now destruct (Nat.eqb_spec i (k + 1)); [lia|]. }
  unfold shareK. cbn [index elementOf kLocal]. rewrite !localIndex_even.
  rewrite Nat.eqb_refl. destruct (Nat.eqb_spec (k + 1) k); [lia|]. rewrite Nat.eqb_refl.
  destruct (localIndex k b) as [c|] eqn:Hc; [|ring].
  apply kLocal_vertical_rows. apply localIndex_Some in Hc. lia.
Qed.

(* the vertical entries of F: the nodal point loads and w * L of every element *)
Lemma vertical_loads_sum :
  sumOver (seq 0 n) (fun i => get (F sys) (i * 2)) =
  sumOver (seq 0 n) (pointLoadAt nodes pointLoads) +
  sumOver (elementData sys) (fun e => wNPerMm e * length_ e).
Proof.
  destruct (assembleSystem_facts nodes youngsModulusMpa inertiaMm4 pointLoads udls)
    as [_ [_ [_ [_ HF]]]]. cbv zeta in HF.
  rewrite (sumOver_ext (seq 0 n) _
             (fun i => pointLoadAt nodes pointLoads i +
                       sumOver (elementData sys) (shareF (i * 2)))).
  2:{ intros i Hi. apply in_seq in Hi. rewrite HF by lia. rewrite addF_sum.
      replace (Nat.even (i * 2)) with true
        by (symmetry; apply Nat.even_spec; exists i; lia).
      replace (Nat.div2 (i * 2)) with i
        by (rewrite Nat.mul_comm, Nat.div2_double; reflexivity).
      ring. }
  rewrite sumOver_plus. f_equal. rewrite sumOver_swap. apply sumOver_ext.
  intros e He. destruct (element_indices e He) as [k [Hk ->]].
  rewrite (sumOver_two (n:=n) (k:=k)); [|exact Hk|].
  2:{ intros i H1 H2. unfold shareF. cbn [index elementOf]. rewrite localIndex_even.
      destruct (Nat.eqb_spec i k); [lia|]. now destruct (Nat.eqb_spec i (k + 1)); [lia|]. }
  unfold shareF. cbn [index elementOf fFixed wNPerMm length_]. rewrite !localIndex_even.
  rewrite Nat.eqb_refl. destruct (Nat.eqb_spec (k + 1) k); [lia|]. rewrite Nat.eqb_refl.
  apply fFixed_vertical.
Qed.

End OnMesh.

End Balance.

Section Equilibrium.
Context {T : Type} {N : Number T} {E : ExactNumber T}.
Local Open Scope num_scope.

Add Field T_field_equilibrium : (num_field (T:=T)).

Lemma num_1000_neq_0 : $1000 <> ($0 : T).
Proof. apply num_pos_neq, fromZ_pos. Qed.

Lemma sumOver_div {A} (l : list A) (c : T) (f : A -> T) :
  sumOver l (fun j => f j / c) = sumOver l f / c.
Proof.
  rewrite (sumOver_ext l (fun j => f j / c) (fun j => f j * ($1 / c)))
    by (intros; apply en_div_def).
  rewrite sumOver_scale_r. symmetry. apply en_div_def.
Qed.

(* the table lists the vertical reaction of every node whose vertical
   reaction is not 0 *)
Lemma sumVerticalKn_table (nodes : list (@Node T)) (R : list T) :
  (forall i, (i < length nodes)%nat -> supportType (nodeAt nodes i) = free ->
     get R (i * 2) = $0) ->
  sumVerticalKn (reactionTableOf nodes R) =
  sumOver (seq 0 (length nodes)) (fun i => get R (i * 2)) / $1000.
Proof.
  intros Hfree. rewrite <- sumOver_div.
  change (sumVerticalKn (reactionTableOf nodes R))
    with (sumOver (reactionTableOf nodes R) r_verticalKn).
  unfold reactionTableOf. rewrite sumOver_flat_map.
  rewrite (sumOver_combine_seq nodes {| x := $0; supportType := free |}).
  apply sumOver_ext. intros i Hi. apply in_seq in Hi. cbn [fst snd].
  fold (nodeAt nodes i).
  destruct (supportType (nodeAt nodes i)) eqn:Hty.
  - rewrite (Hfree i) by (try exact Hty; lia). cbn. field. exact num_1000_neq_0.
  - rewrite sumOver_cons. cbn [r_verticalKn]. cbn. ring.
  - rewrite sumOver_cons. cbn [r_verticalKn]. cbn. ring.
Qed.

Lemma nodeAt_nth_error (nodes : list (@Node T)) (i : nat) (nd : Node) :
  nth_error nodes i = Some nd -> nodeAt nodes i = nd.
Proof. intros H. unfold nodeAt. now apply nth_error_nth. Qed.

(* the DOFs that are left free at a node *)
Lemma free_dofs (nodes : list (@Node T)) (K : list (list T)) (F : list T) (i : nat) :
  length K = (length nodes * 2)%nat -> (i < length nodes)%nat ->
  (supportType (nodeAt nodes i) = free ->
     In (i * 2)%nat (free_ (applyBoundaryConditions nodes K F))) /\
  (supportType (nodeAt nodes i) <> fixed ->
     In (i * 2 + 1)%nat (free_ (applyBoundaryConditions nodes K F))).
Proof.
  intros HK Hi. split; intros Hty; apply free_In; (split; [lia|]);
    intros Hc; apply constrainedOf_In in Hc; destruct Hc as [j [nd [Hj Hc]]];
    pose proof (nodeAt_nth_error _ _ Hj) as Hnd.
  - assert (j = i) by (destruct Hc as [[_ ?]|[_ ?]]; lia). subst j.
    rewrite Hnd in Hty. destruct Hc as [[? _]|[? _]]; congruence.
  - destruct Hc as [[_ ?]|[Hfix ?]]; [lia|].
    assert (j = i) by lia. subst j. rewrite Hnd in Hty. congruence.
Qed.

Lemma findIndex_In (nodes : list (@Node T)) (v : T) :
  In v (map x nodes) -> exists j, findIndex (fun node => x node =? v) nodes = Some j.
Proof.
  induction nodes as [|nd nodes IH]; intros Hin; [destruct Hin|].
  cbn [findIndex]. destruct (x nd =? v) eqn:Hv; [now exists 0%nat|].
  destruct Hin as [Hx|Hin].
  - cbn in Hx. rewrite Hx, num_eqb_refl in Hv. discriminate.
  - destruct (IH Hin) as [j Hj]. rewrite Hj. now exists (S j).
Qed.

(* every point load that finds its node is in the nodal loads once *)
Lemma pointLoads_sum (nodes : list (@Node T)) (pointLoads : list PointLoad) :
  (forall p, In p pointLoads ->
     exists j, findIndex (fun node => x node =? p_positionMm p) nodes = Some j) ->
  sumOver (seq 0 (length nodes)) (pointLoadAt nodes pointLoads) =
  sumOver pointLoads (fun p => (- p_magnitudeKn p) * $1000).
Proof.
  intros Hfound.
  set (g := fun p : @PointLoad T => (- p_magnitudeKn p) * $1000).
  rewrite (sumOver_ext (seq 0 (length nodes)) _
             (fun i => sumOver pointLoads
                (fun p => if match findIndex (fun node => x node =? p_positionMm p) nodes with
                             | Some j => Nat.eqb j i
                             | None => false
                             end then g p else $0))).
  2:{ intros i _. unfold pointLoadAt, loadsAt.
      change (fold_left (fun sum load => sum + (- p_magnitudeKn load) * $1000) ?l $0)
        with (sumOver l g).
      apply sumOver_filter. }
  rewrite sumOver_swap. apply sumOver_ext. intros p Hp.
  destruct (Hfound p Hp) as [j Hj]. rewrite Hj.
  rewrite (sumOver_single (l:=seq 0 (length nodes)) (i:=j)).
  - now rewrite Nat.eqb_refl.
  - apply seq_NoDup.
  - apply in_seq. apply findIndex_lt in Hj. lia.
  - intros i _ Hne. destruct (Nat.eqb_spec j i); [congruence|reflexivity].
Qed.

Lemma basePositions_In (lengthMm : T) supports pointLoads udls (v : T) :
  In v (basePositions lengthMm supports pointLoads udls) <->
  v = $0 \/ v = lengthMm \/ In v (map s_positionMm supports) \/
  In v (map p_positionMm pointLoads) \/
  exists udl, In udl udls /\ (v = u_startMm udl \/ v = u_endMm udl).
Proof.
  unfold basePositions. rewrite !in_app_iff, in_flat_map. cbn [In].
  split.
  - intros [[<-|[<-|[]]]|[H|[H|[udl [Hu [<-|[<-|[]]]]]]]]; auto.
    + right. right. right. right. exists udl. auto.
    + right. right. right. right. exists udl. auto.
  - intros [-> | [-> | [H | [H | [udl [Hu [-> | ->]]]]]]]; auto.
    + right. right. right. exists udl. auto.
    + right. right. right. exists udl. auto.
Qed.

Lemma buildNodes_has (lengthMm : T) supports pointLoads udls (v : T) :
  In v (basePositions lengthMm supports pointLoads udls) ->
  num_le $0 v -> num_le v lengthMm ->
  In v (map x (buildNodes lengthMm supports pointLoads udls)).
Proof.
  intros Hin H0 HL. rewrite buildNodes_x.
  apply (proj2 (proj2 (uniqueSorted_spec _) v)). apply filter_In. split; [exact Hin|].
  apply andb_true_iff. split; assumption.
Qed.

(* a < (a + b) / 2 < b *)
Lemma mid_between (a b : T) :
  num_lt a b -> num_lt a ((a + b) / $2) /\ num_lt ((a + b) / $2) b.
Proof.
  intros Hab.
  assert (H2 : ($2 : T) = $1 + $1) by (rewrite <- en_fromZ_add; reflexivity).
  assert (H2' : $1 + $1 <> ($0 : T)) by (rewrite <- H2; apply num_pos_neq, fromZ_pos).
  assert (Hh : num_lt $0 ((b - a) / $2)).
  { apply num_div_pos; [now apply num_sub_pos|apply fromZ_pos]. }
  split; apply num_sub_pos.
  - replace ((a + b) / $2 - a) with ((b - a) / $2) by (rewrite H2; field; exact H2').
    exact Hh.
  - replace (b - (a + b) / $2) with ((b - a) / $2) by (rewrite H2; field; exact H2').
    exact Hh.
Qed.

Section OnSortedMesh.
Variable nodes : list (@Node T).
Hypothesis nodes_sorted : StronglySorted num_lt (map x nodes).

(* the lengths of consecutive elements add up to the distance of the end nodes *)
Lemma spans_telescope (a len : nat) :
  (a + len < length nodes)%nat ->
  sumOver (seq a len) (elementSpan nodes) = x (nodeAt nodes (a + len)) - x (nodeAt nodes a).
Proof.
  induction len as [|len IH]; intros Hlen.
  - rewrite Nat.add_0_r. cbn. ring.
  - rewrite seq_S, sumOver_app, IH by lia. rewrite sumOver_cons. cbn [sumOver fold_left].
    unfold elementSpan. replace (a + len + 1)%nat with (a + S len)%nat by lia. ring.
Qed.

(* a UDL from node [a] to node [b] covers the elements between them *)
Lemma covers_between (udl : @Udl T) (a b k : nat) :
  (a < length nodes)%nat -> (b < length nodes)%nat -> (k + 1 < length nodes)%nat ->
  u_startMm udl = x (nodeAt nodes a) -> u_endMm udl = x (nodeAt nodes b) ->
  covers nodes udl k = (a <=? k)%nat && (k <? b)%nat.
Proof.
  intros Ha Hb Hk Hs He. unfold covers. rewrite Hs, He.
  destruct (@mid_between (x (nodeAt nodes k)) (x (nodeAt nodes (k + 1)))) as [Hlo Hhi].
  { apply (nodeAt_lt nodes nodes_sorted). lia. }
  set (mid := (x (nodeAt nodes k) + x (nodeAt nodes (k + 1))) / $2) in *.
  rewrite !en_leb.
  destruct (Nat.leb_spec a k) as [Hak|Hak]; cbn [andb].
  - assert (H1 : (mid <? x (nodeAt nodes a)) = false).
    { apply num_not_lt_le. apply num_le_iff. left.
      apply (num_le_lt_trans (b:=x (nodeAt nodes k))); [|exact Hlo].
      apply (nodeAt_le nodes nodes_sorted). lia. }
    rewrite H1. cbn [negb andb].
    destruct (Nat.ltb_spec k b) as [Hkb|Hkb].
    + assert (H2 : (x (nodeAt nodes b) <? mid) = false).
      { apply num_not_lt_le. apply num_le_iff. left.
        apply (num_lt_le_trans (b:=x (nodeAt nodes (k + 1)))); [exact Hhi|].
        apply (nodeAt_le nodes nodes_sorted). lia. }
      now rewrite H2.
    + assert (H2 : (x (nodeAt nodes b) <? mid) = true).
      { apply (num_le_lt_trans (b:=x (nodeAt nodes k))); [|exact Hlo].
        apply (nodeAt_le nodes nodes_sorted). lia. }
      now rewrite H2.
  - assert (H1 : (mid <? x (nodeAt nodes a)) = true).
    { apply (num_lt_le_trans (b:=x (nodeAt nodes (k + 1)))); [exact Hhi|].
      apply (nodeAt_le nodes nodes_sorted). lia. }
    now rewrite H1.
Qed.

(* the elements a UDL covers have the length of the UDL *)
Lemma covered_span (udl : @Udl T) :
  In (u_startMm udl) (map x nodes) -> In (u_endMm udl) (map x nodes) ->
  num_le (u_startMm udl) (u_endMm udl) ->
  sumOver (seq 0 (length nodes - 1))
    (fun k => if covers nodes udl k then elementSpan nodes k else $0) =
  u_endMm udl - u_startMm udl.
Proof.
  intros Hs He Hle.
  destruct (In_nth _ _ $0 Hs) as [a [Ha Hxa]]. destruct (In_nth _ _ $0 He) as [b [Hb Hxb]].
  rewrite length_map in Ha, Hb.
  rewrite (nth_map_lt x nodes $0 {| x := $0; supportType := free |}) in Hxa by assumption.
  rewrite (nth_map_lt x nodes $0 {| x := $0; supportType := free |}) in Hxb by assumption.
  fold (nodeAt nodes a) in Hxa. fold (nodeAt nodes b) in Hxb.
  assert (Hab : (a <= b)%nat).
  { destruct (Nat.le_gt_cases a b) as [|Hba]; [assumption|exfalso].
    apply num_not_lt_le in Hle. rewrite <- Hxa, <- Hxb in Hle.
    pose proof (nodeAt_lt nodes nodes_sorted (i:=b) (j:=a) ltac:(lia)) as Hlt.
    unfold num_lt in Hlt. congruence. }
  replace (length nodes - 1)%nat with (a + ((b - a) + (length nodes - 1 - b)))%nat by lia.
  rewrite !seq_app, !sumOver_app. cbn [Nat.add].
  replace (a + (b - a))%nat with b by lia.
  rewrite (sumOver_ext (seq 0 a) _ (fun _ => $0)).
  2:{ intros k Hk. apply in_seq in Hk.
      rewrite (@covers_between udl a b k) by (try lia; symmetry; assumption).
      destruct (Nat.leb_spec a k); [lia|reflexivity]. }
  rewrite (sumOver_ext (seq a (b - a)) _ (elementSpan nodes)).
  2:{ intros k Hk. apply in_seq in Hk.
      rewrite (@covers_between udl a b k) by (try lia; symmetry; assumption).
      destruct (Nat.leb_spec a k); [|lia]. destruct (Nat.ltb_spec k b); [reflexivity|lia]. }
  rewrite (sumOver_ext (seq b (length nodes - 1 - b)) _ (fun _ => $0)).
  2:{ intros k Hk. apply in_seq in Hk.
      rewrite (@covers_between udl a b k) by (try lia; symmetry; assumption).
      destruct (Nat.ltb_spec k b); [lia|]. now rewrite andb_false_r. }
  rewrite !sumOver_zero, spans_telescope by lia.
  replace (a + (b - a))%nat with b by lia. rewrite Hxa, Hxb. ring.
Qed.

Lemma sumOver_neg {A} (l : list A) (f : A -> T) :
  sumOver l (fun j => - f j) = - sumOver l f.
Proof.
  induction l as [|a l IH]; [cbn; ring|].
  rewrite !sumOver_cons, IH. ring.
Qed.

(* w * L over the elements: every UDL with its intensity and length *)
Lemma udl_sum (EI : T) (udls : list (@Udl T)) :
  Forall (fun udl => In (u_startMm udl) (map x nodes) /\ In (u_endMm udl) (map x nodes) /\
                     num_le (u_startMm udl) (u_endMm udl)) udls ->
  sumOver (map (elementOf nodes EI udls) (seq 0 (length nodes - 1)))
          (fun e => wNPerMm e * length_ e) =
  - sumOver udls (fun udl => u_magnitudeKnPerM udl * (u_endMm udl - u_startMm udl)).
Proof.
  intros Hvalid. rewrite sumOver_map. cbn [elementOf wNPerMm length_].
  rewrite (sumOver_ext _ _
             (fun k => - sumOver udls
                (fun udl => u_magnitudeKnPerM udl *
                            (if covers nodes udl k then elementSpan nodes k else $0)))).
  2:{ intros k _.
      change (getElementUdl udls (x (nodeAt nodes k)) (x (nodeAt nodes (k + 1))))
        with (sumOver (filter (fun udl => covers nodes udl k) udls) u_magnitudeKnPerM).
      rewrite sumOver_filter.
      transitivity (- (sumOver udls
                         (fun udl => if covers nodes udl k then u_magnitudeKnPerM udl else $0) *
                       elementSpan nodes k)); [ring|].
      f_equal. rewrite <- sumOver_scale_r. apply sumOver_ext.
      intros udl _. destruct (covers nodes udl k); ring. }
  rewrite sumOver_neg. f_equal. rewrite sumOver_swap. apply sumOver_ext.
  intros udl Hudl. rewrite sumOver_scale. f_equal.
  rewrite Forall_forall in Hvalid. destruct (Hvalid udl Hudl) as [Hs [He Hle]].
  now apply covered_span.
Qed.

End OnSortedMesh.

(* the vertical reactions of all nodes against the vertical loads *)
Lemma vertical_reactions_sum (nodes : list (@Node T)) (youngsModulusMpa inertiaMm4 : T)
    (pointLoads : list PointLoad) (udls : list Udl) (u : list T) :
  let sys := assembleSystem nodes youngsModulusMpa inertiaMm4 pointLoads udls in
  sumOver (seq 0 (length nodes)) (fun i => get (reactionsOf (K sys) (F sys) u) (i * 2)) =
  - (sumOver (seq 0 (length nodes)) (pointLoadAt nodes pointLoads) +
     sumOver (elementData sys) (fun e => wNPerMm e * length_ e)).
Proof.
  intros sys.
  destruct (assembleSystem_facts nodes youngsModulusMpa inertiaMm4 pointLoads udls)
    as [_ [HK _]]. cbv zeta in HK. fold sys in HK.
  rewrite (sumOver_ext _ _
             (fun i => rowTimes (length nodes * 2) (K sys) u (i * 2) - get (F sys) (i * 2))).
  2:{ intros i Hi. apply in_seq in Hi.
      rewrite get_reactionsOf by (rewrite (proj1 HK); lia). f_equal.
      apply dot_rowTimes. apply (proj2 HK). lia. }
  rewrite sumOver_sub. unfold sys at 2. rewrite vertical_loads_sum. fold sys.
  unfold rowTimes. rewrite sumOver_swap.
  rewrite (sumOver_ext (seq 0 (length nodes * 2)) _ (fun _ => $0)).
  2:{ intros c _. rewrite sumOver_scale_r. unfold sys. rewrite vertical_rows_cancel. ring. }
  rewrite sumOver_zero. ring.
Qed.

(** X2. In exact arithmetic, whenever the analysis of a valid configuration
    succeeds, the vertical reactions of the table add up to the applied
    load: the point loads plus, for every UDL, its intensity times its
    length in metres.  Valid: every point load lies on the beam, and every
    UDL starts on the beam, ends on it and does not end before it starts;
    supports may lie anywhere. *)
Theorem vertical_equilibrium (lengthMm youngsModulusMpa inertiaMm4 : T)
    (supports : list Support) (pointLoads : list PointLoad) (udls : list Udl)
    (nodes : list Node) (reactionTable : list Reaction) (diagrams : list Sample) :
  analysis lengthMm youngsModulusMpa inertiaMm4 supports pointLoads udls =
    AnalysisResult nodes reactionTable diagrams ->
  Forall (fun load => num_le $0 (p_positionMm load) /\ num_le (p_positionMm load) lengthMm)
         pointLoads ->
  Forall (fun udl => num_le $0 (u_startMm udl) /\ num_le (u_startMm udl) (u_endMm udl) /\
                     num_le (u_endMm udl) lengthMm) udls ->
  sumVerticalKn reactionTable = appliedLoadKn pointLoads udls.
Proof.
  intros Hres Hloads Hudls.
  destruct (analysis_result _ _ _ _ _ _ Hres) as [Hnodes [fd [Hsolve [Htable _]]]].
  cbv zeta in Hsolve, Htable.
  set (sys := assembleSystem nodes youngsModulusMpa inertiaMm4 pointLoads udls) in *.
  set (red := applyBoundaryConditions nodes (K sys) (F sys)) in *.
  set (u := expandDisplacements (length (K sys)) (free_ red) fd) in *.
  destruct (assembleSystem_facts nodes youngsModulusMpa inertiaMm4 pointLoads udls)
    as [Hel [HK _]]. cbv zeta in Hel, HK. fold sys in Hel, HK.
  assert (HlenK : length (K sys) = (length nodes * 2)%nat) by apply HK.
  assert (Hsorted : StronglySorted num_lt (map x nodes)).
  { rewrite Hnodes. apply buildNodes_sorted. }
  assert (Hfree : forall d, In d (free_ red) -> get (reactionsOf (K sys) (F sys) u) d = $0).
  { intros d Hd. rewrite get_reactionsOf by now apply (proj1 (free_In nodes (K sys) (F sys) d)).
    assert (Hshape : shaped (length (K sys)) (length (K sys)) (K sys)) by now rewrite HlenK.
    pose proof (@free_rows_balanced T N E nodes (K sys) (F sys) fd d Hshape Hsolve Hd) as Hb.
    fold red in Hb. fold u in Hb. rewrite Hb. ring. }
  rewrite Htable, sumVerticalKn_table.
  2:{ intros i Hi Hty. apply Hfree.
      now apply (proj1 (@free_dofs nodes (K sys) (F sys) i HlenK Hi)). }
  unfold sys at 1 2. rewrite vertical_reactions_sum. fold sys.
  rewrite pointLoads_sum.
  2:{ intros p Hp. apply findIndex_In. rewrite Hnodes.
      rewrite Forall_forall in Hloads. destruct (Hloads p Hp) as [H0 HL].
      apply buildNodes_has; [|exact H0|exact HL].
      apply basePositions_In. right. right. right. left. now apply in_map. }
  assert (Hidx : Forall (fun i => (i + 1 < length nodes)%nat) (seq 0 (length nodes - 1))).
  { apply Forall_forall. intros i Hi. apply in_seq in Hi. lia. }
  rewrite Hel, (@elementsOf_all T N E nodes Hsorted _ _ _ Hidx).
  rewrite (@udl_sum nodes Hsorted).
  2:{ apply Forall_forall. intros udl Hudl.
      rewrite Forall_forall in Hudls. destruct (Hudls udl Hudl) as [H0 [Hle HL]].
      assert (Hin : forall v, In v [u_startMm udl; u_endMm udl] ->
                In v (basePositions lengthMm supports pointLoads udls)).
      { intros v Hv. apply basePositions_In. right. right. right. right. exists udl.
        split; [exact Hudl|]. destruct Hv as [<-|[<-|[]]]; auto. }
      rewrite Hnodes. split; [|split; [|exact Hle]].
      - apply buildNodes_has; [apply Hin; now left|exact H0|].
        now apply (num_le_trans Hle).
      - apply buildNodes_has; [apply Hin; right; now left| |exact HL].
        now apply (num_le_trans H0). }
  change (appliedLoadKn pointLoads udls)
    with (sumOver pointLoads p_magnitudeKn +
          sumOver udls (fun udl => u_magnitudeKnPerM udl *
                                   ((u_endMm udl - u_startMm udl) / $1000))).
  rewrite (sumOver_ext pointLoads (fun p => (- p_magnitudeKn p) * $1000)
             (fun p => (- $1000) * p_magnitudeKn p)) by (intros; ring).
  rewrite sumOver_scale.
  rewrite (sumOver_ext udls
             (fun udl => u_magnitudeKnPerM udl * ((u_endMm udl - u_startMm udl) / $1000))
             (fun udl => u_magnitudeKnPerM udl * (u_endMm udl - u_startMm udl) / $1000))
    by (intros; field; exact num_1000_neq_0).
  rewrite sumOver_div. field. exact num_1000_neq_0.
Qed.

End Equilibrium.

(** ** Equilibrium of moments *)

Section MomentBalance.
Context {T : Type} {N : Number T} {E : ExactNumber T}.
Local Open Scope num_scope.

Add Field T_field_moments : (num_field (T:=T)).

Lemma localIndex_odd (k i : nat) :
  localIndex k (i * 2 + 1) =
  if Nat.eqb i k then Some 1%nat else if Nat.eqb i (k + 1) then Some 3%nat else None.
Proof.
  destruct (Nat.eqb_spec i k) as [->|Hk].
  - apply localIndex_Some. lia.
  - destruct (Nat.eqb_spec i (k + 1)) as [->|Hk1].
    + apply localIndex_Some. lia.
    + apply localIndex_None. lia.
Qed.

(* the rows of a local stiffness matrix, weighted as a rotation of the
   element about x = 0, cancel in every column *)
Lemma kLocal_rotation_rows (EI L x1 : T) (c : nat) :
  (c < 4)%nat ->
  x1 * entry (kLocalOf EI L) 0 c + entry (kLocalOf EI L) 1 c +
  ((x1 + L) * entry (kLocalOf EI L) 2 c + entry (kLocalOf EI L) 3 c) = $0.
Proof.
  intros Hc.
  assert (H12 : ($12 : T) = $6 + $6) by (rewrite <- en_fromZ_add; reflexivity).
  assert (H6 : ($6 : T) = $4 + $2) by (rewrite <- en_fromZ_add; reflexivity).
  destruct c as [|[|[|[|c]]]]; [| | | |lia]; cbn; fold (fromZ (T:=T));
    rewrite ?H12, ?H6; ring.
Qed.

Lemma fFixed_rotation (w L x1 : T) :
  x1 * get (fFixedOf w L) 0 + get (fFixedOf w L) 1 +
  ((x1 + L) * get (fFixedOf w L) 2 + get (fFixedOf w L) 3) =
  w * L * ((x1 + (x1 + L)) / $2).
Proof.
  assert (H2 : $2 <> ($0 : T)) by apply num_pos_neq, fromZ_pos.
  assert (H12 : $12 <> ($0 : T)) by apply num_pos_neq, fromZ_pos.
  unfold fFixedOf, get. cbn [nth]. field. split; assumption.
Qed.

Section OnMesh.
Variable nodes : list (@Node T).
Variables youngsModulusMpa inertiaMm4 : T.
Variable pointLoads : list (@PointLoad T).
Variable udls : list (@Udl T).

Local Abbreviation sys := (assembleSystem nodes youngsModulusMpa inertiaMm4 pointLoads udls).
Local Abbreviation n := (length nodes).
Local Abbreviation xAt := (fun i => x (nodeAt nodes i)).

(* the rows of K, weighted as a rotation about x = 0, cancel in every column *)
Lemma rotation_rows_cancel (b : nat) :
  sumOver (seq 0 n)
    (fun i => xAt i * entry (K sys) (i * 2) b + entry (K sys) (i * 2 + 1) b) = $0.
Proof.
  destruct (assembleSystem_facts nodes youngsModulusMpa inertiaMm4 pointLoads udls)
    as [_ [_ [_ [HK _]]]]. cbv zeta in HK.
  rewrite (sumOver_ext (seq 0 n) _
             (fun i => sumOver (elementData sys)
                         (fun e => xAt i * shareK (i * 2) b e + shareK (i * 2 + 1) b e))).
  2:{ intros i _. rewrite !HK, !addK_sum, sumOver_plus, sumOver_scale. ring. }
  rewrite sumOver_swap.
  rewrite (sumOver_ext (elementData sys) _ (fun _ => $0)); [apply sumOver_zero|].
  intros e He. destruct (element_indices _ _ _ _ _ e He) as [k [Hk ->]].
  rewrite (sumOver_two (n:=n) (k:=k)); [|exact Hk|].
  2:{ intros i H1 H2. unfold shareK. cbn [index elementOf].
      rewrite localIndex_even, localIndex_odd.
      destruct (Nat.eqb_spec i k); [lia|]. destruct (Nat.eqb_spec i (k + 1)); [lia|ring]. }
  unfold shareK. cbn [index elementOf kLocal]. rewrite !localIndex_even, !localIndex_odd.
  rewrite Nat.eqb_refl. destruct (Nat.eqb_spec (k + 1) k); [lia|]. rewrite Nat.eqb_refl.
  destruct (localIndex k b) as [c|] eqn:Hc; [|ring].
  rewrite <- (span_end nodes k).
  apply kLocal_rotation_rows. apply localIndex_Some in Hc. lia.
Qed.

(* the entries of F, weighted in the same way: the nodal point loads at
   their nodes and w * L of every element at the middle of the element *)
Lemma rotation_loads_sum :
  sumOver (seq 0 n) (fun i => xAt i * get (F sys) (i * 2) + get (F sys) (i * 2 + 1)) =
  sumOver (seq 0 n) (fun i => xAt i * pointLoadAt nodes pointLoads i) +
  sumOver (elementData sys)
    (fun e => wNPerMm e * length_ e *
              ((xAt (index e) + (xAt (index e) + length_ e)) / $2)).
Proof.
  destruct (assembleSystem_facts nodes youngsModulusMpa inertiaMm4 pointLoads udls)
    as [_ [_ [_ [_ HF]]]]. cbv zeta in HF.
  rewrite (sumOver_ext (seq 0 n) _
             (fun i => xAt i * pointLoadAt nodes pointLoads i +
                       sumOver (elementData sys)
                         (fun e => xAt i * shareF (i * 2) e + shareF (i * 2 + 1) e))).
  2:{ intros i Hi. apply in_seq in Hi. rewrite !HF by lia. rewrite !addF_sum.
      replace (Nat.even (i * 2)) with true
        by (symmetry; apply Nat.even_spec; exists i; lia).
      replace (Nat.even (i * 2 + 1)) with false
        by (symmetry; rewrite <- Nat.negb_odd; apply negb_false_iff, Nat.odd_spec;
            exists i; lia).
      replace (Nat.div2 (i * 2)) with i
        by (rewrite Nat.mul_comm, Nat.div2_double; reflexivity).
      rewrite sumOver_plus, sumOver_scale. ring. }
  rewrite sumOver_plus. f_equal. rewrite sumOver_swap. apply sumOver_ext.
  intros e He. destruct (element_indices _ _ _ _ _ e He) as [k [Hk ->]].
  rewrite (sumOver_two (n:=n) (k:=k)); [|exact Hk|].
  2:{ intros i H1 H2. unfold shareF. cbn [index elementOf].
      rewrite localIndex_even, localIndex_odd.
      destruct (Nat.eqb_spec i k); [lia|]. destruct (Nat.eqb_spec i (k + 1)); [lia|ring]. }
  unfold shareF. cbn [index elementOf fFixed wNPerMm length_].
  rewrite !localIndex_even, !localIndex_odd.
  rewrite Nat.eqb_refl. destruct (Nat.eqb_spec (k + 1) k); [lia|]. rewrite Nat.eqb_refl.
  rewrite <- (span_end nodes k).
  apply fFixed_rotation.
Qed.

(* the reactions of all nodes, weighted in the same way, against the loads *)
Lemma rotation_reactions_sum (u : list T) :
  sumOver (seq 0 n)
    (fun i => xAt i * get (reactionsOf (K sys) (F sys) u) (i * 2) +
              get (reactionsOf (K sys) (F sys) u) (i * 2 + 1)) =
  - (sumOver (seq 0 n) (fun i => xAt i * pointLoadAt nodes pointLoads i) +
     sumOver (elementData sys)
       (fun e => wNPerMm e * length_ e *
                 ((xAt (index e) + (xAt (index e) + length_ e)) / $2))).
Proof.
  destruct (assembleSystem_facts nodes youngsModulusMpa inertiaMm4 pointLoads udls)
    as [_ [HK _]]. cbv zeta in HK.
  rewrite (sumOver_ext _ _
             (fun i => sumOver (seq 0 (n * 2))
                         (fun c => (xAt i * entry (K sys) (i * 2) c +
                                    entry (K sys) (i * 2 + 1) c) * get u c) -
                       (xAt i * get (F sys) (i * 2) + get (F sys) (i * 2 + 1)))).
  2:{ intros i Hi. apply in_seq in Hi.
      rewrite !get_reactionsOf by (rewrite (proj1 HK); lia).
      rewrite !(@dot_rowTimes T N (K sys) u (n * 2)) by (apply (proj2 HK); lia).
      unfold rowTimes.
      rewrite (sumOver_ext (seq 0 (n * 2))
                 (fun c => (xAt i * entry (K sys) (i * 2) c + entry (K sys) (i * 2 + 1) c) *
                           get u c)
                 (fun c => xAt i * (entry (K sys) (i * 2) c * get u c) +
                           entry (K sys) (i * 2 + 1) c * get u c)) by (intros; ring).
      rewrite sumOver_plus, sumOver_scale. ring. }
  rewrite sumOver_sub, rotation_loads_sum, sumOver_swap.
  rewrite (sumOver_ext (seq 0 (n * 2)) _ (fun _ => $0)).
  2:{ intros c _. rewrite sumOver_scale_r, rotation_rows_cancel. ring. }
  rewrite sumOver_zero. ring.
Qed.

End OnMesh.

Lemma num_million (a : T) : a / $1000 / $1000 = a / $1000000.
Proof.
  assert (H : ($1000000 : T) = $1000 * $1000) by (rewrite <- en_fromZ_mul; reflexivity).
  rewrite H. field. exact num_1000_neq_0.
Qed.

(* the table lists, with the moments, the vertical reaction of every node
   whose reactions are not 0 *)
Lemma sumMomentKnM_table (nodes : list (@Node T)) (R : list T) :
  (forall i, (i < length nodes)%nat -> supportType (nodeAt nodes i) = free ->
     get R (i * 2) = $0 /\ get R (i * 2 + 1) = $0) ->
  sumMomentKnM (reactionTableOf nodes R) =
  sumOver (seq 0 (length nodes))
    (fun i => x (nodeAt nodes i) * get R (i * 2) + get R (i * 2 + 1)) / $1000000.
Proof.
  intros Hfree. rewrite <- sumOver_div.
  change (sumMomentKnM (reactionTableOf nodes R))
    with (sumOver (reactionTableOf nodes R)
            (fun r => r_momentKnM r + r_verticalKn r * (r_positionMm r / $1000))).
  unfold reactionTableOf. rewrite sumOver_flat_map.
  rewrite (sumOver_combine_seq nodes {| x := $0; supportType := free |}).
  apply sumOver_ext. intros i Hi. apply in_seq in Hi. cbn [fst snd].
  fold (nodeAt nodes i).
  assert (H3 : $1000 <> ($0 : T)) by exact num_1000_neq_0.
  assert (H6 : $1000000 <> ($0 : T)) by apply num_pos_neq, fromZ_pos.
  assert (Hrow : forall ty,
            sumOver [ {| r_positionMm := x (nodeAt nodes i);
                         r_verticalKn := get R (i * 2) / $1000;
                         r_momentKnM := get R (i * 2 + 1) / $1000000;
                         r_type := ty |} ]
                    (fun r => r_momentKnM r + r_verticalKn r * (r_positionMm r / $1000)) =
            (x (nodeAt nodes i) * get R (i * 2) + get R (i * 2 + 1)) / $1000000).
  { intros ty. rewrite sumOver_cons. cbn [r_positionMm r_verticalKn r_momentKnM].
    change (sumOver [] _) with ($0 : T).
    rewrite <- (num_million (x (nodeAt nodes i) * get R (i * 2) + get R (i * 2 + 1))).
    rewrite <- (num_million (get R (i * 2 + 1))). field. exact H3. }
  destruct (supportType (nodeAt nodes i)) eqn:Hty; [|apply Hrow|apply Hrow].
  destruct (Hfree i ltac:(lia) Hty) as [-> ->]. cbn. field. exact H6.
Qed.

Lemma findIndex_holds {A} (p : A -> bool) (l : list A) (j : nat) (d : A) :
  findIndex p l = Some j -> p (nth j l d) = true.
Proof.
  revert j. induction l as [|a l IH]; intros j; [discriminate|]. cbn [findIndex].
  destruct (p a) eqn:Ha.
  - intros H. injection H as <-. exact Ha.
  - destruct (findIndex p l) as [j'|]; [|discriminate]. cbn [option_map].
    intros H. injection H as <-. cbn [nth]. now apply IH.
Qed.

(* every point load that finds its node is in the nodal loads once, at its position *)
Lemma pointLoads_moment_sum (nodes : list (@Node T)) (pointLoads : list PointLoad) :
  (forall p, In p pointLoads ->
     exists j, findIndex (fun node => x node =? p_positionMm p) nodes = Some j) ->
  sumOver (seq 0 (length nodes))
    (fun i => x (nodeAt nodes i) * pointLoadAt nodes pointLoads i) =
  sumOver pointLoads (fun p => p_positionMm p * ((- p_magnitudeKn p) * $1000)).
Proof.
  intros Hfound.
  set (g := fun p : @PointLoad T => (- p_magnitudeKn p) * $1000).
  rewrite (sumOver_ext (seq 0 (length nodes)) _
             (fun i => sumOver pointLoads
                (fun p => if match findIndex (fun node => x node =? p_positionMm p) nodes with
                             | Some j => Nat.eqb j i
                             | None => false
                             end then x (nodeAt nodes i) * g p else $0))).
  2:{ intros i _. unfold pointLoadAt, loadsAt.
      change (fold_left (fun sum load => sum + (- p_magnitudeKn load) * $1000) ?l $0)
        with (sumOver l g).
      rewrite sumOver_filter, <- sumOver_scale. apply sumOver_ext. intros p _.
      destruct (findIndex _ nodes) as [j|]; [destruct (Nat.eqb j i)|]; ring. }
  rewrite sumOver_swap. apply sumOver_ext. intros p Hp.
  destruct (Hfound p Hp) as [j Hj]. rewrite Hj.
  rewrite (sumOver_single (l:=seq 0 (length nodes)) (i:=j)).
  - rewrite Nat.eqb_refl. f_equal.
    apply (findIndex_holds _ _ {| x := $0; supportType := free |}) in Hj.
    now apply en_eqb in Hj.
  - apply seq_NoDup.
  - apply in_seq. apply findIndex_lt in Hj. lia.
  - intros i _ Hne. destruct (Nat.eqb_spec j i); [congruence|reflexivity].
Qed.

Section OnSortedMesh.
Variable nodes : list (@Node T).
Hypothesis nodes_sorted : StronglySorted num_lt (map x nodes).

Lemma differences_telescope (G : nat -> T) (a len : nat) :
  sumOver (seq a len) (fun k => G (k + 1)%nat - G k) = G (a + len)%nat - G a.
Proof.
  induction len as [|len IH].
  - rewrite Nat.add_0_r. cbn. ring.
  - rewrite seq_S, sumOver_app, IH. rewrite sumOver_cons. cbn [sumOver fold_left].
    replace (a + len + 1)%nat with (a + S len)%nat by lia. ring.
Qed.

(* over the elements a UDL covers, differences add up to the difference
   between its two ends *)
Lemma covered_telescope (udl : @Udl T) (G : nat -> T) :
  In (u_startMm udl) (map x nodes) -> In (u_endMm udl) (map x nodes) ->
  num_le (u_startMm udl) (u_endMm udl) ->
  exists a b,
    x (nodeAt nodes a) = u_startMm udl /\ x (nodeAt nodes b) = u_endMm udl /\
    sumOver (seq 0 (length nodes - 1))
      (fun k => if covers nodes udl k then G (k + 1)%nat - G k else $0) = G b - G a.
Proof.
  intros Hs He Hle.
  destruct (In_nth _ _ $0 Hs) as [a [Ha Hxa]]. destruct (In_nth _ _ $0 He) as [b [Hb Hxb]].
  rewrite length_map in Ha, Hb.
  rewrite (nth_map_lt x nodes $0 {| x := $0; supportType := free |}) in Hxa by assumption.
  rewrite (nth_map_lt x nodes $0 {| x := $0; supportType := free |}) in Hxb by assumption.
  fold (nodeAt nodes a) in Hxa. fold (nodeAt nodes b) in Hxb.
  exists a, b. split; [exact Hxa|]. split; [exact Hxb|].
  assert (Hab : (a <= b)%nat).
  { destruct (Nat.le_gt_cases a b) as [|Hba]; [assumption|exfalso].
    apply num_not_lt_le in Hle. rewrite <- Hxa, <- Hxb in Hle.
    pose proof (nodeAt_lt nodes nodes_sorted (i:=b) (j:=a) ltac:(lia)) as Hlt.
    unfold num_lt in Hlt. congruence. }
  replace (length nodes - 1)%nat with (a + ((b - a) + (length nodes - 1 - b)))%nat by lia.
  rewrite !seq_app, !sumOver_app. cbn [Nat.add].
  replace (a + (b - a))%nat with b by lia.
  rewrite (sumOver_ext (seq 0 a) _ (fun _ => $0)).
  2:{ intros k Hk. apply in_seq in Hk.
      rewrite (@covers_between T N E nodes nodes_sorted udl a b k)
        by (try lia; symmetry; assumption).
      destruct (Nat.leb_spec a k); [lia|reflexivity]. }
  rewrite (sumOver_ext (seq a (b - a)) _ (fun k => G (k + 1)%nat - G k)).
  2:{ intros k Hk. apply in_seq in Hk.
      rewrite (@covers_between T N E nodes nodes_sorted udl a b k)
        by (try lia; symmetry; assumption).
      destruct (Nat.leb_spec a k); [|lia]. destruct (Nat.ltb_spec k b); [reflexivity|lia]. }
  rewrite (sumOver_ext (seq b (length nodes - 1 - b)) _ (fun _ => $0)).
  2:{ intros k Hk. apply in_seq in Hk.
      rewrite (@covers_between T N E nodes nodes_sorted udl a b k)
        by (try lia; symmetry; assumption).
      destruct (Nat.ltb_spec k b); [lia|]. now rewrite andb_false_r. }
  rewrite !sumOver_zero, differences_telescope.
  replace (a + (b - a))%nat with b by lia. ring.
Qed.

(* w * L at the middle of every element: every UDL at the middle of its length *)
Lemma udl_moment_sum (EI : T) (udls : list (@Udl T)) :
  Forall (fun udl => In (u_startMm udl) (map x nodes) /\ In (u_endMm udl) (map x nodes) /\
                     num_le (u_startMm udl) (u_endMm udl)) udls ->
  sumOver (map (elementOf nodes EI udls) (seq 0 (length nodes - 1)))
    (fun e => wNPerMm e * length_ e *
              ((x (nodeAt nodes (index e)) + (x (nodeAt nodes (index e)) + length_ e)) / $2)) =
  - sumOver udls (fun udl => u_magnitudeKnPerM udl *
                             ((u_endMm udl * u_endMm udl - u_startMm udl * u_startMm udl) / $2)).
Proof.
  intros Hvalid. rewrite sumOver_map. cbn [elementOf wNPerMm length_ index].
  set (G := fun k => x (nodeAt nodes k) * x (nodeAt nodes k) / $2).
  assert (H2 : $2 <> ($0 : T)) by apply num_pos_neq, fromZ_pos.
  rewrite (sumOver_ext _ _
             (fun k => - sumOver udls
                (fun udl => u_magnitudeKnPerM udl *
                            (if covers nodes udl k then G (k + 1)%nat - G k else $0)))).
  2:{ intros k _.
      change (getElementUdl udls (x (nodeAt nodes k)) (x (nodeAt nodes (k + 1))))
        with (sumOver (filter (fun udl => covers nodes udl k) udls) u_magnitudeKnPerM).
      rewrite sumOver_filter.
      transitivity (- (sumOver udls
                         (fun udl => if covers nodes udl k then u_magnitudeKnPerM udl else $0) *
                       (G (k + 1)%nat - G k))).
      { unfold G, elementSpan. field. exact H2. }
      f_equal. rewrite <- sumOver_scale_r. apply sumOver_ext.
      intros udl _. destruct (covers nodes udl k); ring. }
  rewrite sumOver_neg. f_equal. rewrite sumOver_swap. apply sumOver_ext.
  intros udl Hudl. rewrite sumOver_scale. f_equal.
  rewrite Forall_forall in Hvalid. destruct (Hvalid udl Hudl) as [Hs [He Hle]].
  destruct (covered_telescope udl G Hs He Hle) as [a [b [Hxa [Hxb Hsum]]]].
  rewrite Hsum. unfold G. rewrite Hxa, Hxb. field. exact H2.
Qed.

End OnSortedMesh.

(** X3. In exact arithmetic, whenever the analysis of a valid configuration
    succeeds, the reactions of the table balance the moments of the loads
    about the left end: the moments of the table, plus every vertical
    reaction times its position, equal the point loads times their
    positions plus, for every UDL, its resultant times the position of the
    middle of its length (kN m, positions in metres).  Valid: every point
    load lies on the beam, and every UDL starts on the beam, ends on it
    and does not end before it starts; supports may lie anywhere. *)
Theorem moment_equilibrium (lengthMm youngsModulusMpa inertiaMm4 : T)
    (supports : list Support) (pointLoads : list PointLoad) (udls : list Udl)
    (nodes : list Node) (reactionTable : list Reaction) (diagrams : list Sample) :
  analysis lengthMm youngsModulusMpa inertiaMm4 supports pointLoads udls =
    AnalysisResult nodes reactionTable diagrams ->
  Forall (fun load => num_le $0 (p_positionMm load) /\ num_le (p_positionMm load) lengthMm)
         pointLoads ->
  Forall (fun udl => num_le $0 (u_startMm udl) /\ num_le (u_startMm udl) (u_endMm udl) /\
                     num_le (u_endMm udl) lengthMm) udls ->
  sumMomentKnM reactionTable = appliedMomentKnM pointLoads udls.
Proof.
  intros Hres Hloads Hudls.
  destruct (analysis_result _ _ _ _ _ _ Hres) as [Hnodes [fd [Hsolve [Htable _]]]].
  cbv zeta in Hsolve, Htable.
  set (sys := assembleSystem nodes youngsModulusMpa inertiaMm4 pointLoads udls) in *.
  set (red := applyBoundaryConditions nodes (K sys) (F sys)) in *.
  set (u := expandDisplacements (length (K sys)) (free_ red) fd) in *.
  destruct (assembleSystem_facts nodes youngsModulusMpa inertiaMm4 pointLoads udls)
    as [Hel [HK _]]. cbv zeta in Hel, HK. fold sys in Hel, HK.
  assert (HlenK : length (K sys) = (length nodes * 2)%nat) by apply HK.
  assert (Hsorted : StronglySorted num_lt (map x nodes)).
  { rewrite Hnodes. apply buildNodes_sorted. }
  assert (Hfree : forall d, In d (free_ red) -> get (reactionsOf (K sys) (F sys) u) d = $0).
  { intros d Hd. rewrite get_reactionsOf by now apply (proj1 (free_In nodes (K sys) (F sys) d)).
    assert (Hshape : shaped (length (K sys)) (length (K sys)) (K sys)) by now rewrite HlenK.
    pose proof (@free_rows_balanced T N E nodes (K sys) (F sys) fd d Hshape Hsolve Hd) as Hb.
    fold red in Hb. fold u in Hb. rewrite Hb. ring. }
  rewrite Htable, sumMomentKnM_table.
  2:{ intros i Hi Hty.
      destruct (@free_dofs T N nodes (K sys) (F sys) i HlenK Hi) as [Hv Hr].
      split; apply Hfree; [now apply Hv|apply Hr; congruence]. }
  unfold sys at 1 2 3 4. rewrite rotation_reactions_sum. fold sys.
  rewrite pointLoads_moment_sum.
  2:{ intros p Hp. apply findIndex_In. rewrite Hnodes.
      rewrite Forall_forall in Hloads. destruct (Hloads p Hp) as [H0 HL].
      apply buildNodes_has; [|exact H0|exact HL].
      apply basePositions_In. right. right. right. left. now apply in_map. }
  assert (Hidx : Forall (fun i => (i + 1 < length nodes)%nat) (seq 0 (length nodes - 1))).
  { apply Forall_forall. intros i Hi. apply in_seq in Hi. lia. }
  rewrite Hel, (@elementsOf_all T N E nodes Hsorted _ _ _ Hidx).
  rewrite (@udl_moment_sum nodes Hsorted).
  2:{ apply Forall_forall. intros udl Hudl.
      rewrite Forall_forall in Hudls. destruct (Hudls udl Hudl) as [H0 [Hle HL]].
      assert (Hin : forall v, In v [u_startMm udl; u_endMm udl] ->
                In v (basePositions lengthMm supports pointLoads udls)).
      { intros v Hv. apply basePositions_In. right. right. right. right. exists udl.
        split; [exact Hudl|]. destruct Hv as [<-|[<-|[]]]; auto. }
      rewrite Hnodes. split; [|split; [|exact Hle]].
      - apply buildNodes_has; [apply Hin; now left|exact H0|].
        now apply (num_le_trans Hle).
      - apply buildNodes_has; [apply Hin; right; now left| |exact HL].
        now apply (num_le_trans H0). }
  change (appliedMomentKnM pointLoads udls)
    with (sumOver pointLoads (fun load => p_magnitudeKn load * (p_positionMm load / $1000)) +
          sumOver udls (fun udl =>
            u_magnitudeKnPerM udl * ((u_endMm udl - u_startMm udl) / $1000) *
            ((u_startMm udl + u_endMm udl) / $2 / $1000))).
  assert (H2 : $2 <> ($0 : T)) by apply num_pos_neq, fromZ_pos.
  assert (H3 : $1000 <> ($0 : T)) by exact num_1000_neq_0.
  assert (HM : ($1000000 : T) = $1000 * $1000) by (rewrite <- en_fromZ_mul; reflexivity).
  rewrite (sumOver_ext pointLoads
             (fun p => p_positionMm p * ((- p_magnitudeKn p) * $1000))
             (fun p => (- $1000) * (p_magnitudeKn p * p_positionMm p))) by (intros; ring).
  rewrite sumOver_scale.
  rewrite (sumOver_ext pointLoads
             (fun load => p_magnitudeKn load * (p_positionMm load / $1000))
             (fun load => p_magnitudeKn load * p_positionMm load / $1000))
    by (intros; field; exact H3).
  rewrite sumOver_div.
  rewrite (sumOver_ext udls
             (fun udl => u_magnitudeKnPerM udl * ((u_endMm udl - u_startMm udl) / $1000) *
                         ((u_startMm udl + u_endMm udl) / $2 / $1000))
             (fun udl => u_magnitudeKnPerM udl *
                         ((u_endMm udl * u_endMm udl - u_startMm udl * u_startMm udl) / $2) /
                         ($1000 * $1000)))
    by (intros; field; split; assumption).
  rewrite sumOver_div, HM. field. exact H3.
Qed.

End MomentBalance.

(** ** Supports in the result *)

Section Flat.

Lemma nth_error_flat_map_const {A B} (g : A -> list B) (l : list A) (m i j : nat) (d : A) :
  (forall a, length (g a) = m) -> (i < length l)%nat -> (j < m)%nat ->
  nth_error (flat_map g l) (m * i + j) = nth_error (g (nth i l d)) j.
Proof.
  intros Hm. revert i. induction l as [|a l IH]; intros i Hi Hj; [cbn in Hi; lia|].
  cbn [flat_map]. destruct i as [|i].
  - rewrite Nat.mul_0_r. cbn [Nat.add nth]. apply nth_error_app1. now rewrite Hm.
  - rewrite nth_error_app2 by (rewrite Hm; nia). rewrite Hm.
    replace (m * S i + j - m)%nat with (m * i + j)%nat by nia.
    cbn [nth]. apply IH; [cbn in Hi; lia|exact Hj].
Qed.

End Flat.

Section SupportsExact.
Context {T : Type} {N : Number T} {E : ExactNumber T}.
Local Open Scope num_scope.

Add Field T_field_supports : (num_field (T:=T)).

(* a successful analysis: the displacements behind its result are 0 at the
   constrained DOFs and satisfy the equation of every other DOF *)
Lemma analysis_exact (lengthMm youngsModulusMpa inertiaMm4 : T) supports pointLoads udls
    (nodes : list (@Node T)) reactionTable diagrams :
  analysis lengthMm youngsModulusMpa inertiaMm4 supports pointLoads udls =
    AnalysisResult nodes reactionTable diagrams ->
  let sys := assembleSystem nodes youngsModulusMpa inertiaMm4 pointLoads udls in
  exists u,
    nodes = buildNodes lengthMm supports pointLoads udls /\
    StronglySorted num_lt (map x nodes) /\
    length (K sys) = (length nodes * 2)%nat /\
    (forall d, In d (constrainedOf nodes) -> get u d = $0) /\
    (forall d, (d < length nodes * 2)%nat -> ~ In d (constrainedOf nodes) ->
       get (reactionsOf (K sys) (F sys) u) d = $0) /\
    reactionTable = reactionTableOf nodes (reactionsOf (K sys) (F sys) u) /\
    diagrams =
      flat_map (fun e => map (sampleOf nodes u e) (seq 0 41))
        (map (elementOf nodes (youngsModulusMpa * inertiaMm4) udls)
             (seq 0 (length nodes - 1))).
Proof.
  intros Hres sys.
  destruct (analysis_result _ _ _ _ _ _ Hres) as [Hnodes [fd [Hsolve [Htable Hd]]]].
  cbv zeta in Hsolve, Htable, Hd. fold sys in Hsolve, Htable, Hd.
  set (red := applyBoundaryConditions nodes (K sys) (F sys)) in *.
  set (u := expandDisplacements (length (K sys)) (free_ red) fd) in *.
  destruct (assembleSystem_facts nodes youngsModulusMpa inertiaMm4 pointLoads udls)
    as [Hel [HK _]]. cbv zeta in Hel, HK. fold sys in Hel, HK.
  assert (HlenK : length (K sys) = (length nodes * 2)%nat) by apply HK.
  assert (Hsorted : StronglySorted num_lt (map x nodes)).
  { rewrite Hnodes. apply buildNodes_sorted. }
  exists u. split; [exact Hnodes|]. split; [exact Hsorted|]. split; [exact HlenK|].
  split; [|split; [|split; [exact Htable|]]].
  - intros d Hd'.
    destruct (@expandDisplacements_spec T N (length (K sys)) (free_ red) fd
                (free_NoDup nodes (K sys) (F sys)) (free_lt nodes (K sys) (F sys)))
      as [_ [_ Hout]].
    apply Hout. intros Hf. apply free_In in Hf. now destruct Hf.
  - intros d Hd' Hnc.
    assert (Hf : In d (free_ red)) by (apply free_In; split; [lia|exact Hnc]).
    rewrite get_reactionsOf by lia.
    assert (Hshape : shaped (length (K sys)) (length (K sys)) (K sys)) by now rewrite HlenK.
    pose proof (@free_rows_balanced T N E nodes (K sys) (F sys) fd d Hshape Hsolve Hf) as Hb.
    fold red in Hb. fold u in Hb. rewrite Hb. ring.
  - assert (Hidx : Forall (fun i => (i + 1 < length nodes)%nat) (seq 0 (length nodes - 1))).
    { apply Forall_forall. intros i Hi. apply in_seq in Hi. lia. }
    rewrite Hd, Hel, computeDiagrams_elementsOf.
    now rewrite (@elementsOf_all T N E nodes Hsorted _ _ _ Hidx).
Qed.

Lemma num_million_neq_0 : $1000000 <> ($0 : T).
Proof. apply num_pos_neq, fromZ_pos. Qed.

(** X4. In exact arithmetic a pinned support takes no moment: in the table
    of a successful analysis every row of a pinned support has the moment
    0, and the type of a row is never free. *)
Theorem pinned_supports_carry_no_moment (lengthMm youngsModulusMpa inertiaMm4 : T)
    (supports : list Support) (pointLoads : list PointLoad) (udls : list Udl)
    (nodes : list Node) (reactionTable : list Reaction) (diagrams : list Sample) :
  analysis lengthMm youngsModulusMpa inertiaMm4 supports pointLoads udls =
    AnalysisResult nodes reactionTable diagrams ->
  Forall (fun r => r_type r <> free /\ (r_type r = pinned -> r_momentKnM r = $0))
         reactionTable.
Proof.
  intros Hres. destruct (analysis_exact _ _ _ _ _ _ Hres) as [u [_ [_ [HK [_ [Hfree [Ht _]]]]]]].
  cbv zeta in *. apply Forall_forall. intros r Hr. rewrite Ht in Hr.
  unfold reactionTableOf in Hr. apply in_flat_map in Hr. destruct Hr as [[nd i] [Hni Hr]].
  cbn [fst snd] in Hr. apply In_combine_seq in Hni. destruct Hni as [_ Hi].
  rewrite Nat.sub_0_r in Hi.
  assert (Hlt : (i < length nodes)%nat) by (apply nth_error_Some; congruence).
  destruct (supportType nd) eqn:Hty; [destruct Hr| |]; destruct Hr as [<-|[]]; cbn [r_type r_momentKnM].
  - split; [discriminate|]. intros _. rewrite Hfree.
    + field. exact num_million_neq_0.
    + lia.
    + intros Hc. apply constrainedOf_In in Hc. destruct Hc as [j [nd' [Hj Hc]]].
      destruct Hc as [[_ ?]|[Hfix ?]]; [lia|].
      assert (j = i) by lia. subst j. congruence.
  - split; discriminate.
Qed.

(* the shape functions at the two ends of an element *)
Lemma sample_ends (nodes : list (@Node T)) (u : list T) (e : ElementData) :
  length_ e <> $0 ->
  (sx (sampleOf nodes u e 0) = x (nodeAt nodes (index e)) /\
   deflection (sampleOf nodes u e 0) = get u (index e * 2)) /\
  (sx (sampleOf nodes u e 40) = x (nodeAt nodes (index e)) + length_ e /\
   deflection (sampleOf nodes u e 40) = get u ((index e + 1) * 2)).
Proof.
  intros HL. unfold sampleOf. cbn [sx deflection].
  change (Z.of_nat 0) with 0%Z. change (Z.of_nat 40) with 40%Z.
  assert (H0 : length_ e * $0 / $40 = $0) by (field; exact num_40_neq_0).
  assert (H40 : length_ e * $40 / $40 = length_ e) by (field; exact num_40_neq_0).
  rewrite H0, H40.
  assert (Hr0 : $0 / length_ e = $0) by (field; exact HL).
  assert (Hr1 : length_ e / length_ e = $1) by (field; exact HL).
  rewrite Hr0, Hr1.
  assert (H3 : ($3 : T) = $1 + $1 + $1) by (rewrite <- !en_fromZ_add; reflexivity).
  assert (H2 : ($2 : T) = $1 + $1) by (rewrite <- !en_fromZ_add; reflexivity).
  rewrite H3, H2. repeat split; ring.
Qed.

(* the samples of a successful analysis, by element and number, and their
   values at the two ends of every element *)
Lemma samples_of_result (lengthMm youngsModulusMpa inertiaMm4 : T) supports pointLoads udls
    (nodes : list (@Node T)) reactionTable diagrams :
  analysis lengthMm youngsModulusMpa inertiaMm4 supports pointLoads udls =
    AnalysisResult nodes reactionTable diagrams ->
  exists u,
    let el := elementOf nodes (youngsModulusMpa * inertiaMm4) udls in
    length diagrams = (41 * (length nodes - 1))%nat /\
    (forall i, (i < length nodes)%nat -> supportType (nodeAt nodes i) <> free ->
       get u (i * 2) = $0) /\
    (forall i j, (i + 1 < length nodes)%nat -> (j < 41)%nat ->
       nth_error diagrams (41 * i + j) = Some (sampleOf nodes u (el i) j)) /\
    (forall i, (i + 1 < length nodes)%nat ->
       (sx (sampleOf nodes u (el i) 0) = x (nodeAt nodes i) /\
        deflection (sampleOf nodes u (el i) 0) = get u (i * 2)) /\
       (sx (sampleOf nodes u (el i) 40) = x (nodeAt nodes (i + 1)) /\
        deflection (sampleOf nodes u (el i) 40) = get u ((i + 1) * 2))).
Proof.
  intros Hres.
  destruct (analysis_exact _ _ _ _ _ _ Hres) as [u [_ [Hsorted [_ [Hzero [_ [_ Hd]]]]]]].
  cbv zeta in *. exists u.
  set (EI := youngsModulusMpa * inertiaMm4) in *.
  set (el := elementOf nodes EI udls).
  split; [|split; [|split]].
  - rewrite Hd. rewrite (@length_flat_map_const _ _ _ _ 41).
    + now rewrite length_map, length_seq.
    + intros a _. now rewrite length_map, length_seq.
  - intros i Hi Hty. apply Hzero. apply constrainedOf_In.
    exists i, (nodeAt nodes i). split.
    + unfold nodeAt. apply nth_error_nth'. exact Hi.
    + destruct (supportType (nodeAt nodes i)); [congruence|left|right]; auto.
  - intros i j Hi Hj. rewrite Hd.
    rewrite (@nth_error_flat_map_const _ _ _ _ 41 i j (el 0%nat)).
    + rewrite (nth_map_lt _ _ _ 0%nat) by (rewrite length_seq; lia).
      rewrite seq_nth by lia. cbn [Nat.add].
      rewrite nth_error_map, (nth_error_nth' _ 0%nat) by (rewrite length_seq; lia).
      now rewrite seq_nth by lia.
    + intros a. now rewrite length_map, length_seq.
    + rewrite length_map, length_seq. lia.
    + exact Hj.
  - intros i Hi. destruct (@sample_ends nodes u (el i)) as [H0 [H40 H40']].
    + cbn [el elementOf length_]. apply num_pos_neq. now apply (span_pos nodes Hsorted).
    + split; [exact H0|]. split; [|exact H40'].
      rewrite H40. cbn [el elementOf index length_]. apply (span_end nodes).
Qed.

(** X5. In exact arithmetic the deflection diagram of a successful analysis
    passes through 0 at every pinned or fixed node and is continuous from
    element to element: the 41 samples of element [k] start on node [k]
    and end on node [k+1], the deflection of a sample on a supported node
    is 0, and the last sample of an element has the deflection of the
    first sample of the next. *)
Theorem deflection_at_nodes (lengthMm youngsModulusMpa inertiaMm4 : T)
    (supports : list Support) (pointLoads : list PointLoad) (udls : list Udl)
    (nodes : list Node) (reactionTable : list Reaction) (diagrams : list Sample) :
  analysis lengthMm youngsModulusMpa inertiaMm4 supports pointLoads udls =
    AnalysisResult nodes reactionTable diagrams ->
  forall k, (k + 1 < length nodes)%nat ->
    exists first last,
      nth_error diagrams (41 * k) = Some first /\
      nth_error diagrams (41 * k + 40) = Some last /\
      sx first = x (nodeAt nodes k) /\ sx last = x (nodeAt nodes (k + 1)) /\
      (supportType (nodeAt nodes k) <> free -> deflection first = $0) /\
      (supportType (nodeAt nodes (k + 1)) <> free -> deflection last = $0) /\
      (forall next, nth_error diagrams (41 * (k + 1)) = Some next ->
         sx next = sx last /\ deflection next = deflection last).
Proof.
  intros Hres k Hk.
  destruct (samples_of_result _ _ _ _ _ _ Hres) as [u [Hlen [Hsup [Hat Hends]]]].
  cbv zeta in *.
  set (el := elementOf nodes (youngsModulusMpa * inertiaMm4) udls) in *.
  destruct (Hends k Hk) as [[Hx0 Hd0] [Hx40 Hd40]].
  exists (sampleOf nodes u (el k) 0), (sampleOf nodes u (el k) 40).
  split; [rewrite <- (Hat k 0%nat) by lia; f_equal; lia|].
  split; [apply Hat; lia|].
  split; [exact Hx0|]. split; [exact Hx40|].
  split; [intros Hty; rewrite Hd0; apply Hsup; [lia|exact Hty]|].
  split; [intros Hty; rewrite Hd40; apply Hsup; [lia|exact Hty]|].
  intros next Hnext.
  destruct (Nat.lt_ge_cases (k + 2) (length nodes)) as [Hk2|Hk2].
  - replace (41 * (k + 1))%nat with (41 * (k + 1) + 0)%nat in Hnext by lia.
    rewrite Hat in Hnext by lia. injection Hnext as <-.
    destruct (Hends (k + 1)%nat ltac:(lia)) as [[Hx0' Hd0'] _].
    now rewrite Hx0', Hd0', Hx40, Hd40.
  - exfalso.
    assert (Hsome : nth_error diagrams (41 * (k + 1)) <> None) by congruence.
    apply nth_error_Some in Hsome. lia.
Qed.

(* on a beam of positive length the mesh starts at 0 and ends at the length *)
Lemma mesh_ends (lengthMm : T) supports pointLoads udls :
  num_lt $0 lengthMm ->
  let nodes := buildNodes lengthMm supports pointLoads udls in
  (2 <= length nodes)%nat /\
  x (nodeAt nodes 0) = $0 /\ x (nodeAt nodes (length nodes - 1)) = lengthMm.
Proof.
  intros HL nodes.
  assert (Hsorted : StronglySorted num_lt (map x nodes)) by apply buildNodes_sorted.
  assert (Hle : num_le $0 lengthMm) by (apply num_le_iff; now left).
  assert (Hin : forall v, v = $0 \/ v = lengthMm -> num_le $0 v -> num_le v lengthMm ->
            exists a, (a < length nodes)%nat /\ x (nodeAt nodes a) = v).
  { intros v Hv H0 H1.
    assert (Hv' : In v (map x nodes)).
    { apply buildNodes_has; [|exact H0|exact H1]. apply basePositions_In. tauto. }
    destruct (In_nth _ _ $0 Hv') as [a [Ha Hxa]]. rewrite length_map in Ha.
    rewrite (nth_map_lt x nodes $0 {| x := $0; supportType := free |}) in Hxa by assumption.
    now exists a. }
  destruct (Hin $0 (or_introl eq_refl) (num_le_refl _) Hle) as [a [Ha Hxa]].
  destruct (Hin lengthMm (or_intror eq_refl) Hle (num_le_refl _)) as [b [Hb Hxb]].
  assert (Hrange : forall i, (i < length nodes)%nat ->
            num_le $0 (x (nodeAt nodes i)) /\ num_le (x (nodeAt nodes i)) lengthMm).
  { intros i Hi. apply (@buildNodes_in_range T N E lengthMm supports pointLoads udls).
    now apply nodeAt_In. }
  assert (Ha0 : a = 0%nat).
  { destruct a as [|a]; [reflexivity|exfalso].
    pose proof (nodeAt_lt nodes Hsorted (i:=0%nat) (j:=S a) ltac:(lia)) as Hlt.
    rewrite Hxa in Hlt. destruct (Hrange 0%nat ltac:(lia)) as [H0 _].
    apply num_not_lt_le in H0. unfold num_lt in Hlt. congruence. }
  assert (Hbn : b = (length nodes - 1)%nat).
  { destruct (Nat.eq_dec b (length nodes - 1)) as [|Hne]; [assumption|exfalso].
    pose proof (nodeAt_lt nodes Hsorted (i:=b) (j:=(length nodes - 1)%nat) ltac:(lia)) as Hlt.
    rewrite Hxb in Hlt. destruct (Hrange (length nodes - 1)%nat ltac:(lia)) as [_ H1].
    apply num_not_lt_le in H1. unfold num_lt in Hlt. congruence. }
  subst a b. split; [|split; [exact Hxa|exact Hxb]].
  destruct (Nat.le_gt_cases 2 (length nodes)) as [|Hlt]; [assumption|exfalso].
  assert (Hsame : (length nodes - 1 = 0)%nat) by lia.
  rewrite Hsame, Hxa in Hxb. rewrite <- Hxb in HL. now apply num_lt_irrefl in HL.
Qed.

(** X6. In exact arithmetic the diagrams of a successful analysis span the
    beam: on a beam of positive length the first node is at 0 and the
    last at the length, there are 41 samples for each of the elements
    between them, the first sample is at x = 0 and the last at the
    length. *)
Theorem diagrams_span_the_beam (lengthMm youngsModulusMpa inertiaMm4 : T)
    (supports : list Support) (pointLoads : list PointLoad) (udls : list Udl)
    (nodes : list Node) (reactionTable : list Reaction) (diagrams : list Sample) :
  analysis lengthMm youngsModulusMpa inertiaMm4 supports pointLoads udls =
    AnalysisResult nodes reactionTable diagrams ->
  num_lt $0 lengthMm ->
  (2 <= length nodes)%nat /\
  x (nodeAt nodes 0) = $0 /\ x (nodeAt nodes (length nodes - 1)) = lengthMm /\
  length diagrams = (41 * (length nodes - 1))%nat /\
  exists first last,
    nth_error diagrams 0 = Some first /\
    nth_error diagrams (length diagrams - 1) = Some last /\
    sx first = $0 /\ sx last = lengthMm.
Proof.
  intros Hres HL.
  destruct (samples_of_result _ _ _ _ _ _ Hres) as [u [Hlen [_ [Hat Hends]]]].
  cbv zeta in *.
  set (el := elementOf nodes (youngsModulusMpa * inertiaMm4) udls) in *.
  destruct (analysis_result _ _ _ _ _ _ Hres) as [Hnodes _].
  destruct (@mesh_ends lengthMm supports pointLoads udls HL) as [Hn [Hx0 HxL]].
  cbv zeta in Hn, Hx0, HxL. rewrite <- Hnodes in Hn, Hx0, HxL.
  split; [exact Hn|]. split; [exact Hx0|]. split; [exact HxL|]. split; [exact Hlen|].
  exists (sampleOf nodes u (el 0%nat) 0), (sampleOf nodes u (el (length nodes - 2)%nat) 40).
  destruct (Hends 0%nat ltac:(lia)) as [[Hs0 _] _].
  destruct (Hends (length nodes - 2)%nat ltac:(lia)) as [_ [Hs40 _]].
  split; [apply (Hat 0%nat 0%nat); lia|].
  split; [rewrite Hlen; rewrite <- (Hat (length nodes - 2)%nat 40%nat) by lia; f_equal; lia|].
  split; [now rewrite Hs0|].
  rewrite Hs40. rewrite <- HxL. f_equal. f_equal. lia.
Qed.

End SupportsExact.

(** ** The rows of the reaction table *)

Section TableRows.
Context {T : Type} {N : Number T}.
Local Open Scope num_scope.

Lemma reactionTableOf_from (nodes : list (@Node T)) (R : list T) (s : nat) (r : Reaction) :
  In r (flat_map (fun ni =>
                    match supportType (fst ni) with
                    | free => []
                    | ty => [ {| r_positionMm := x (fst ni);
                                 r_verticalKn := get R (snd ni * 2) / $1000;
                                 r_momentKnM := get R (snd ni * 2 + 1) / $1000000;
                                 r_type := ty |} ]
                    end)
                 (combine nodes (seq s (length nodes)))) <->
  exists i nd, nth_error nodes i = Some nd /\ supportType nd <> free /\
    r = {| r_positionMm := x nd;
           r_verticalKn := get R ((s + i) * 2) / $1000;
           r_momentKnM := get R ((s + i) * 2 + 1) / $1000000;
           r_type := supportType nd |}.
Proof.
  rewrite in_flat_map. split.
  - intros [[nd j] [Hni Hr]]. apply In_combine_seq in Hni. destruct Hni as [Hj Hnd].
    cbn [fst snd] in Hr. exists (j - s)%nat, nd. split; [exact Hnd|].
    replace (s + (j - s))%nat with j by lia.
    destruct (supportType nd) eqn:Hty; [destruct Hr| |]; destruct Hr as [<-|[]];
      (split; [discriminate|reflexivity]).
  - intros [i [nd [Hnd [Hty ->]]]]. exists (nd, (s + i)%nat). split.
    + apply In_combine_seq. split; [lia|]. now replace (s + i - s)%nat with i by lia.
    + cbn [fst snd]. destruct (supportType nd); [congruence| |]; now left.
Qed.

(* a row of the table: a node that is not free, with its position and kind *)
Lemma reactionTableOf_In (nodes : list (@Node T)) (R : list T) (r : Reaction) :
  In r (reactionTableOf nodes R) <->
  exists i nd, nth_error nodes i = Some nd /\ supportType nd <> free /\
    r = {| r_positionMm := x nd;
           r_verticalKn := get R (i * 2) / $1000;
           r_momentKnM := get R (i * 2 + 1) / $1000000;
           r_type := supportType nd |}.
Proof. apply (reactionTableOf_from nodes R 0 r). Qed.

Lemma reactionTableOf_positions (nodes : list (@Node T)) (R : list T) :
  map r_positionMm (reactionTableOf nodes R) =
  map x (filter (fun nd => negb (SupportType_eqb (supportType nd) free)) nodes).
Proof.
  unfold reactionTableOf.
  match goal with |- map _ (flat_map ?g _) = _ => set (line := g) end.
  assert (H : forall s, map r_positionMm (flat_map line (combine nodes (seq s (length nodes)))) =
                        map x (filter (fun nd => negb (SupportType_eqb (supportType nd) free))
                                 nodes)).
  { induction nodes as [|nd nodes IH]; intros s; [reflexivity|].
    cbn [length seq combine flat_map filter]. rewrite map_app, (IH (S s)).
    unfold line at 1. cbn [fst snd]. destruct (supportType nd); reflexivity. }
  apply H.
Qed.

Lemma find_split {A} (p : A -> bool) (l : list A) (s : A) :
  find p l = Some s ->
  exists pre post, l = pre ++ s :: post /\ (forall s', In s' pre -> p s' = false) /\ p s = true.
Proof.
  induction l as [|a l IH]; [discriminate|]. cbn [find].
  destruct (p a) eqn:Ha.
  - intros H. injection H as <-. exists [], l. split; [reflexivity|]. split; [intros s' []|exact Ha].
  - intros H. destruct (IH H) as [pre [post [-> [Hpre Hs]]]].
    exists (a :: pre), post. split; [reflexivity|]. split; [|exact Hs].
    intros s' [<-|Hs']; [exact Ha|now apply Hpre].
Qed.

Lemma StronglySorted_map_filter {A B} (R : B -> B -> Prop) (g : A -> B) (f : A -> bool)
    (l : list A) :
  StronglySorted R (map g l) -> StronglySorted R (map g (filter f l)).
Proof.
  induction l as [|a l IH]; intros Hs; [constructor|].
  cbn [map] in Hs. inversion Hs as [|? ? Hs' Ha]; subst. cbn [filter].
  destruct (f a); [|now apply IH]. cbn [map]. constructor; [now apply IH|].
  rewrite Forall_forall in *. intros y Hy. apply Ha.
  apply in_map_iff in Hy. destruct Hy as [b [<- Hb]]. apply filter_In in Hb.
  apply in_map. now destruct Hb.
Qed.

End TableRows.

Section TableRowsExact.
Context {T : Type} {N : Number T} {E : ExactNumber T}.
Local Open Scope num_scope.

(** X7. In exact arithmetic the reaction table of a successful analysis has
    one row for each support that counts, in ascending order of position:
    every row carries the position and the type of the first support of
    the list at that position, which lies on the beam and is not free;
    and every support on the beam that is not free and has no support
    before it at its position has its row. *)
Theorem reaction_rows_are_the_supports (lengthMm youngsModulusMpa inertiaMm4 : T)
    (supports : list Support) (pointLoads : list PointLoad) (udls : list Udl)
    (nodes : list Node) (reactionTable : list Reaction) (diagrams : list Sample) :
  analysis lengthMm youngsModulusMpa inertiaMm4 supports pointLoads udls =
    AnalysisResult nodes reactionTable diagrams ->
  StronglySorted num_lt (map r_positionMm reactionTable) /\
  (forall r, In r reactionTable ->
     exists pre s post, supports = pre ++ s :: post /\
       (forall s', In s' pre -> s_positionMm s' <> r_positionMm r) /\
       s_positionMm s = r_positionMm r /\ s_type s = r_type r /\ r_type r <> free /\
       num_le $0 (r_positionMm r) /\ num_le (r_positionMm r) lengthMm) /\
  (forall pre s post, supports = pre ++ s :: post ->
     (forall s', In s' pre -> s_positionMm s' <> s_positionMm s) ->
     s_type s <> free ->
     num_le $0 (s_positionMm s) -> num_le (s_positionMm s) lengthMm ->
     exists r, In r reactionTable /\ r_positionMm r = s_positionMm s /\ r_type r = s_type s).
Proof.
  intros Hres.
  destruct (analysis_result _ _ _ _ _ _ Hres) as [Hnodes [fd [_ [Htable _]]]].
  cbv zeta in Htable.
  assert (Hsorted : StronglySorted num_lt (map x nodes)).
  { rewrite Hnodes. apply buildNodes_sorted. }
  split; [|split].
  - rewrite Htable, reactionTableOf_positions. now apply StronglySorted_map_filter.
  - intros r Hr. rewrite Htable in Hr. apply reactionTableOf_In in Hr.
    destruct Hr as [i [nd [Hnd [Hty ->]]]]. cbn [r_positionMm r_type].
    assert (Hin : In nd (buildNodes lengthMm supports pointLoads udls)).
    { rewrite <- Hnodes. exact (nth_error_In _ _ Hnd). }
    pose proof (buildNodes_kind _ _ _ _ _ Hin) as Hkind.
    destruct (find (fun item => s_positionMm item =? x nd) supports) as [s|] eqn:Hfind;
      [|congruence].
    destruct (find_split _ _ Hfind) as [pre [post [Hsplit [Hpre Hs]]]].
    exists pre, s, post. split; [exact Hsplit|]. split.
    { intros s' Hs'. apply num_eqb_neq. now apply Hpre. }
    split; [now apply en_eqb|]. split; [now symmetry|]. split; [exact Hty|].
    now apply (@buildNodes_in_range T N E lengthMm supports pointLoads udls).
  - intros pre s post Hsplit Hpre Hty H0 HL.
    assert (Hx : In (s_positionMm s) (map x nodes)).
    { rewrite Hnodes. apply buildNodes_has; [|exact H0|exact HL].
      apply basePositions_In. right. right. left. apply in_map. rewrite Hsplit.
      apply in_or_app. right. now left. }
    apply in_map_iff in Hx. destruct Hx as [nd [Hxnd Hnd]].
    assert (Hkind : supportType nd = s_type s).
    { rewrite (@buildNodes_kind T N lengthMm supports pointLoads udls nd)
        by (rewrite <- Hnodes; exact Hnd).
      rewrite Hsplit, (find_first (fun item => s_positionMm item =? x nd) pre post s);
        [reflexivity| |].
      - intros s' Hs'. apply num_eqb_neq. rewrite Hxnd. now apply Hpre.
      - apply en_eqb. now symmetry. }
    destruct (In_nth_error _ _ Hnd) as [i Hi].
    eexists. split.
    + rewrite Htable. apply reactionTableOf_In. exists i, nd.
      split; [exact Hi|]. split; [congruence|reflexivity].
    + cbn [r_positionMm r_type]. split; [exact Hxnd|exact Hkind].
Qed.

End TableRowsExact.

(** ** The stiffness matrix is symmetric *)

Section Symmetry.
Context {T : Type} {N : Number T}.
Local Open Scope num_scope.

Lemma kLocalOf_symmetric (EI L : T) (r c : nat) :
  (r < 4)%nat -> (c < 4)%nat -> entry (kLocalOf EI L) r c = entry (kLocalOf EI L) c r.
Proof.
  intros Hr Hc.
  destruct r as [|[|[|[|r]]]]; [| | | |lia];
    (destruct c as [|[|[|[|c]]]]; [| | | |lia]); reflexivity.
Qed.

(** X8. The assembled stiffness matrix is symmetric, entry by entry and in any
    arithmetic, binary64 included: the entries [K[a][b]] and [K[b][a]] are
    the same number.  So is the reduced matrix of the free DOFs. *)
Theorem stiffness_symmetric (nodes : list (@Node T)) (youngsModulusMpa inertiaMm4 : T)
    (pointLoads : list PointLoad) (udls : list Udl) :
  let sys := assembleSystem nodes youngsModulusMpa inertiaMm4 pointLoads udls in
  let red := applyBoundaryConditions nodes (K sys) (F sys) in
  (forall a b, entry (K sys) a b = entry (K sys) b a) /\
  (forall i j, (i < length (free_ red))%nat -> (j < length (free_ red))%nat ->
     entry (Kff red) i j = entry (Kff red) j i).
Proof.
  intros sys red.
  assert (Hsym : forall a b, entry (K sys) a b = entry (K sys) b a).
  { intros a b.
    destruct (assembleSystem_facts nodes youngsModulusMpa inertiaMm4 pointLoads udls)
      as [Hel [_ [_ [HK _]]]]. cbv zeta in Hel, HK. fold sys in Hel, HK.
    rewrite !HK. apply fold_left_ext_in. intros acc e He.
    rewrite Hel in He. apply elementsOf_In in He. destruct He as [k [_ ->]].
    unfold addK. cbn [index kLocal elementOf].
    destruct (localIndex k a) as [r|] eqn:Hr, (localIndex k b) as [c|] eqn:Hc; try reflexivity.
    apply localIndex_Some in Hr, Hc. f_equal. apply kLocalOf_symmetric; lia. }
  split; [exact Hsym|].
  intros i j Hi Hj. destruct (shaped_Kff nodes (K sys) (F sys)) as [_ [_ [Hentry _]]].
  fold red in Hentry. now rewrite !Hentry.
Qed.

End Symmetry.

(** ** Entries that the analysis does not see *)

Section Ignored.
Context {T : Type} {N : Number T} {E : ExactNumber T}.
Local Open Scope num_scope.

Add Field T_field_ignored : (num_field (T:=T)).

Lemma filter_false {A} (f : A -> bool) (l : list A) :
  (forall a, In a l -> f a = false) -> filter f l = [].
Proof.
  induction l as [|a l IH]; intros H; [reflexivity|]. cbn [filter].
  rewrite (H a) by now left. apply IH. intros b Hb. apply H. now right.
Qed.

Lemma findIndex_None {A} (p : A -> bool) (l : list A) :
  (forall a, In a l -> p a = false) -> findIndex p l = None.
Proof.
  induction l as [|a l IH]; intros H; [reflexivity|]. cbn [findIndex].
  rewrite (H a) by now left. rewrite IH; [reflexivity|]. intros b Hb. apply H. now right.
Qed.

Lemma find_skip {A} (p : A -> bool) (l1 l2 : list A) (a : A) :
  p a = false -> find p (l1 ++ a :: l2) = find p (l1 ++ l2).
Proof.
  intros Ha. induction l1 as [|b l1 IH]; cbn [app find]; [now rewrite Ha|].
  destruct (p b); [reflexivity|exact IH].
Qed.

(** X9. In exact arithmetic a negative length gives no error but the empty
    result: no node, no reaction and no sample, whatever the supports and
    the loads are. *)
Theorem negative_length_gives_empty_result (lengthMm youngsModulusMpa inertiaMm4 : T)
    (supports : list Support) (pointLoads : list PointLoad) (udls : list Udl) :
  num_lt lengthMm $0 ->
  analysis lengthMm youngsModulusMpa inertiaMm4 supports pointLoads udls =
    AnalysisResult [] [] [].
Proof.
  intros Hneg.
  assert (Hn : buildNodes lengthMm supports pointLoads udls = []).
  { unfold buildNodes. cbv zeta. rewrite filter_false; [reflexivity|].
    intros v _. apply andb_false_iff.
    destruct (v >=? $0) eqn:H0; [right|now left].
    rewrite en_leb.
    assert (Hlt : num_lt lengthMm v) by (apply (num_lt_le_trans Hneg); exact H0).
    unfold num_lt in Hlt. now rewrite Hlt. }
  unfold analysis. cbv zeta. rewrite Hn. reflexivity.
Qed.

Lemma off_the_beam (lengthMm v : T) :
  num_lt v $0 \/ num_lt lengthMm v -> (v >=? $0) && (v <=? lengthMm) = false.
Proof.
  unfold num_lt. rewrite !en_leb. intros [H|H]; rewrite H; [reflexivity|].
  apply andb_false_r.
Qed.

Lemma positions_split (f : T -> bool) (lengthMm : T) supports pointLoads udls :
  filter f (basePositions lengthMm supports pointLoads udls) =
  filter f [$0; lengthMm] ++ filter f (map s_positionMm supports) ++
  filter f (map p_positionMm pointLoads) ++
  filter f (flat_map (fun udl => [u_startMm udl; u_endMm udl]) udls).
Proof. unfold basePositions. now rewrite !filter_app. Qed.

Lemma flat_map_skip {A B} (g : A -> list B) (f : B -> bool) (l1 l2 : list A) (a : A) :
  filter f (g a) = [] ->
  filter f (flat_map g (l1 ++ a :: l2)) = filter f (flat_map g (l1 ++ l2)).
Proof.
  intros Ha. rewrite !flat_map_app, !filter_app. cbn [flat_map].
  now rewrite filter_app, Ha.
Qed.

Lemma getElementUdl_skip (pre post : list (@Udl T)) (udl : Udl) (x1 x2 : T) :
  ((x1 + x2) / $2 >=? u_startMm udl) && ((x1 + x2) / $2 <=? u_endMm udl) = false ->
  getElementUdl (pre ++ udl :: post) x1 x2 = getElementUdl (pre ++ post) x1 x2.
Proof.
  intros H. unfold getElementUdl. cbv zeta. rewrite !filter_app. cbn [filter].
  now rewrite H.
Qed.

Lemma mapLoadsToNodes_skip (nodes : list (@Node T)) (pre post : list PointLoad) (p : PointLoad) :
  (forall nd, In nd nodes -> (x nd =? p_positionMm p) = false) ->
  mapLoadsToNodes nodes (pre ++ p :: post) = mapLoadsToNodes nodes (pre ++ post).
Proof.
  intros H. unfold mapLoadsToNodes. rewrite !fold_left_app. cbn [fold_left].
  now rewrite (findIndex_None _ nodes H).
Qed.

(** X10. In exact arithmetic the analysis does not see what lies off the beam:
    a support or a point load at a position below 0 or above the length,
    and a UDL that lies with both ends below 0 or with both ends above the
    length, can be taken out of its list, wherever it stands, and the
    result, nodes, reactions and diagrams or the error, is the same. *)
Theorem entries_off_the_beam_are_ignored (lengthMm youngsModulusMpa inertiaMm4 : T) :
  let off v := num_lt v $0 \/ num_lt lengthMm v in
  (forall pre post (s : Support) pointLoads udls,
     off (s_positionMm s) ->
     analysis lengthMm youngsModulusMpa inertiaMm4 (pre ++ s :: post) pointLoads udls =
     analysis lengthMm youngsModulusMpa inertiaMm4 (pre ++ post) pointLoads udls) /\
  (forall supports pre post (load : PointLoad) udls,
     off (p_positionMm load) ->
     analysis lengthMm youngsModulusMpa inertiaMm4 supports (pre ++ load :: post) udls =
     analysis lengthMm youngsModulusMpa inertiaMm4 supports (pre ++ post) udls) /\
  (forall supports pointLoads pre post (udl : Udl),
     (num_lt (u_startMm udl) $0 /\ num_lt (u_endMm udl) $0) \/
     (num_lt lengthMm (u_startMm udl) /\ num_lt lengthMm (u_endMm udl)) ->
     analysis lengthMm youngsModulusMpa inertiaMm4 supports pointLoads (pre ++ udl :: post) =
     analysis lengthMm youngsModulusMpa inertiaMm4 supports pointLoads (pre ++ post)).
Proof.
  intros off.
  set (f := fun pos : T => (pos >=? $0) && (pos <=? lengthMm)).
  assert (Hf : forall v, off v -> f v = false) by (intros v Hv; now apply off_the_beam).
  assert (Hne : forall v w, f v = true -> off w -> (w =? v) = false /\ (v =? w) = false).
  { intros v w Hv Hw. apply Hf in Hw.
    split; apply num_eqb_neq; intros Heq; rewrite Heq in *; congruence. }
  assert (Hpos : forall supports pointLoads udls v,
            In v (uniqueSorted (filter f (basePositions lengthMm supports pointLoads udls))) ->
            f v = true).
  { intros supports pointLoads udls v Hv.
    apply (proj1 (proj2 (uniqueSorted_spec _) v)) in Hv. now apply filter_In in Hv. }
  assert (Hnode : forall supports pointLoads udls nd,
            In nd (buildNodes lengthMm supports pointLoads udls) -> f (x nd) = true).
  { intros supports pointLoads udls nd Hnd. apply (Hpos supports pointLoads udls).
    pose proof (buildNodes_x lengthMm supports pointLoads udls) as Hx. fold f in Hx.
    rewrite <- Hx. now apply in_map. }
  split; [|split].
  - intros pre post s pointLoads udls Hs.
    assert (Hn : buildNodes lengthMm (pre ++ s :: post) pointLoads udls =
                 buildNodes lengthMm (pre ++ post) pointLoads udls).
    { assert (Hbp : filter f (basePositions lengthMm (pre ++ s :: post) pointLoads udls) =
                    filter f (basePositions lengthMm (pre ++ post) pointLoads udls)).
      { rewrite !positions_split, !map_app, !filter_app. cbn [map filter].
        now rewrite (Hf _ Hs). }
      unfold buildNodes. cbv zeta. fold f. rewrite Hbp. apply map_ext_in.
      intros v Hv. rewrite find_skip; [reflexivity|].
      apply (Hne v (s_positionMm s)); [|exact Hs]. now apply (Hpos (pre ++ post) pointLoads udls). }
    unfold analysis. cbv zeta. now rewrite Hn.
  - intros supports pre post load udls Hl.
    assert (Hn : buildNodes lengthMm supports (pre ++ load :: post) udls =
                 buildNodes lengthMm supports (pre ++ post) udls).
    { unfold buildNodes. cbv zeta. fold f.
      rewrite !positions_split, !map_app, !filter_app. cbn [map filter].
      now rewrite (Hf _ Hl). }
    assert (Hsys : forall nodes, nodes = buildNodes lengthMm supports (pre ++ post) udls ->
              assembleSystem nodes youngsModulusMpa inertiaMm4 (pre ++ load :: post) udls =
              assembleSystem nodes youngsModulusMpa inertiaMm4 (pre ++ post) udls).
    { intros nodes ->. unfold assembleSystem. cbv zeta.
      rewrite mapLoadsToNodes_skip; [reflexivity|].
      intros nd Hnd. apply (Hne (x nd) (p_positionMm load)); [|exact Hl].
      now apply (Hnode supports (pre ++ post) udls). }
    unfold analysis. cbv zeta. rewrite Hn. now rewrite (Hsys _ eq_refl).
  - intros supports pointLoads pre post udl Hu.
    assert (Hs : off (u_startMm udl)) by (destruct Hu as [[? _]|[? _]]; [now left|now right]).
    assert (He : off (u_endMm udl)) by (destruct Hu as [[_ ?]|[_ ?]]; [now left|now right]).
    assert (Hn : buildNodes lengthMm supports pointLoads (pre ++ udl :: post) =
                 buildNodes lengthMm supports pointLoads (pre ++ post)).
    { unfold buildNodes. cbv zeta. fold f.
      rewrite !positions_split.
      rewrite (@flat_map_skip _ _ (fun udl => [u_startMm udl; u_endMm udl]) f pre post udl);
        [reflexivity|].
      cbn [filter]. now rewrite (Hf _ Hs), (Hf _ He). }
    assert (Hsys : forall nodes, nodes = buildNodes lengthMm supports pointLoads (pre ++ post) ->
              assembleSystem nodes youngsModulusMpa inertiaMm4 pointLoads (pre ++ udl :: post) =
              assembleSystem nodes youngsModulusMpa inertiaMm4 pointLoads (pre ++ post)).
    { intros nodes Hnodes. unfold assembleSystem. cbv zeta.
      assert (Hsorted : StronglySorted num_lt (map x nodes))
        by (rewrite Hnodes; apply buildNodes_sorted).
      apply fold_left_ext_in. intros st i Hi. apply in_seq in Hi.
      unfold assembleElement. cbv zeta.
      fold (nodeAt nodes i). fold (nodeAt nodes (i + 1)).
      destruct (x (nodeAt nodes (i + 1)) - x (nodeAt nodes i) <=? $0); [reflexivity|].
      rewrite getElementUdl_skip; [reflexivity|].
      destruct (@mid_between T N E (x (nodeAt nodes i)) (x (nodeAt nodes (i + 1)))) as [Hlo Hhi].
      { apply (nodeAt_lt nodes Hsorted). lia. }
      set (mid := (x (nodeAt nodes i) + x (nodeAt nodes (i + 1))) / $2) in *.
      assert (H0 : num_le $0 (x (nodeAt nodes i)) /\ num_le (x (nodeAt nodes (i + 1))) lengthMm).
      { split.
        - apply (@buildNodes_in_range T N E lengthMm supports pointLoads (pre ++ post)).
          rewrite <- Hnodes. apply nodeAt_In. lia.
        - apply (@buildNodes_in_range T N E lengthMm supports pointLoads (pre ++ post)).
          rewrite <- Hnodes. apply nodeAt_In. lia. }
      destruct H0 as [H0 HL]. rewrite !en_leb.
      destruct Hu as [[_ Hend]|[Hstart _]].
      - assert (Hlt : num_lt (u_endMm udl) mid).
        { apply (num_lt_trans (b:=$0)); [exact Hend|]. now apply (num_le_lt_trans H0). }
        unfold num_lt in Hlt. rewrite Hlt. apply andb_false_r.
      - assert (Hlt : num_lt mid (u_startMm udl)).
        { apply (num_lt_trans (b:=lengthMm)); [|exact Hstart]. now apply (num_lt_le_trans Hhi). }
        unfold num_lt in Hlt. now rewrite Hlt. }
    unfold analysis. cbv zeta. rewrite Hn. now rewrite (Hsys _ eq_refl).
Qed.

Lemma arrayFromSet_skip (l1 l2 : list T) (v : T) :
  In v l1 -> arrayFromSet (l1 ++ v :: l2) = arrayFromSet (l1 ++ l2).
Proof.
  intros Hv. unfold arrayFromSet. rewrite !fold_left_app. cbn [fold_left]. f_equal.
  unfold setAdd at 1.
  destruct (@arrayFromSet_acc T N E l1 [] (NoDup_nil T)) as [_ Hin].
  assert (Hseen : existsb (sameValueZero v) (fold_left setAdd l1 []) = true).
  { apply existsb_sameValueZero. apply Hin. now right. }
  now rewrite Hseen.
Qed.

Lemma find_behind {A} (p : A -> bool) (l1 l2 : list A) (a : A) :
  (p a = true -> exists b, In b l1 /\ p b = true) ->
  find p (l1 ++ a :: l2) = find p (l1 ++ l2).
Proof.
  intros H. destruct (p a) eqn:Ha; [|now apply find_skip].
  destruct (H eq_refl) as [b [Hb Hpb]]. clear H.
  induction l1 as [|c l1 IH]; [destruct Hb|]. cbn [app find].
  destruct (p c) eqn:Hc; [reflexivity|].
  destruct Hb as [->|Hb]; [congruence|]. now apply IH.
Qed.

(** X11. In exact arithmetic a support that stands behind another one at the
    same position is not seen by the analysis, whatever its kind: it can
    be taken out of the list and the result is the same.  So Add support,
    which appends a pinned support at midspan, changes no result when a
    support is at midspan already. *)
Theorem support_behind_another_is_ignored (lengthMm youngsModulusMpa inertiaMm4 : T)
    (pointLoads : list PointLoad) (udls : list Udl) :
  (forall pre post (s : Support),
     (exists s0, In s0 pre /\ s_positionMm s0 = s_positionMm s) ->
     analysis lengthMm youngsModulusMpa inertiaMm4 (pre ++ s :: post) pointLoads udls =
     analysis lengthMm youngsModulusMpa inertiaMm4 (pre ++ post) pointLoads udls) /\
  (forall supports now,
     (exists s0, In s0 supports /\ s_positionMm s0 = lengthMm / $2) ->
     analysis lengthMm youngsModulusMpa inertiaMm4 (addSupport now lengthMm supports)
       pointLoads udls =
     analysis lengthMm youngsModulusMpa inertiaMm4 supports pointLoads udls).
Proof.
  assert (Hgen : forall pre post (s : Support),
     (exists s0, In s0 pre /\ s_positionMm s0 = s_positionMm s) ->
     analysis lengthMm youngsModulusMpa inertiaMm4 (pre ++ s :: post) pointLoads udls =
     analysis lengthMm youngsModulusMpa inertiaMm4 (pre ++ post) pointLoads udls).
  { intros pre post s [s0 [Hs0 Hpos]].
    set (f := fun pos : T => (pos >=? $0) && (pos <=? lengthMm)).
    assert (Hn : buildNodes lengthMm (pre ++ s :: post) pointLoads udls =
                 buildNodes lengthMm (pre ++ post) pointLoads udls).
    { assert (Hbp : uniqueSorted (filter f (basePositions lengthMm (pre ++ s :: post)
                                              pointLoads udls)) =
                    uniqueSorted (filter f (basePositions lengthMm (pre ++ post)
                                              pointLoads udls))).
      { rewrite !positions_split, !map_app, !filter_app.
        set (A0 := filter f [$0; lengthMm]).
        set (R := filter f (map p_positionMm pointLoads) ++ _).
        cbn [map filter].
        set (P := filter f (map s_positionMm pre)).
        set (Q := filter f (map s_positionMm post)).
        destruct (f (s_positionMm s)) eqn:Hfs; [|reflexivity].
        unfold uniqueSorted. f_equal.
        replace (A0 ++ (P ++ s_positionMm s :: Q) ++ R)
          with ((A0 ++ P) ++ s_positionMm s :: (Q ++ R))
          by (rewrite <- !app_assoc; reflexivity).
        replace (A0 ++ (P ++ Q) ++ R) with ((A0 ++ P) ++ (Q ++ R))
          by (rewrite <- !app_assoc; reflexivity).
        apply arrayFromSet_skip.
        apply in_or_app. right. apply filter_In. split; [|exact Hfs].
        rewrite <- Hpos. now apply in_map. }
      unfold buildNodes. cbv zeta. fold f. rewrite Hbp. apply map_ext_in.
      intros v Hv. rewrite find_behind; [reflexivity|].
      intros Hsv. exists s0. split; [exact Hs0|]. now rewrite Hpos. }
    unfold analysis. cbv zeta. now rewrite Hn. }
  split; [exact Hgen|].
  intros supports now Hmid. unfold addSupport.
  rewrite <- (app_nil_r supports) at 2. apply Hgen. exact Hmid.
Qed.

End Ignored.

(** ** What the verdict depends on *)

Section Verdict.
Context {T : Type} {N : Number T}.
Local Open Scope num_scope.

Lemma shaped_ext (rows cols : nat) (A B : list (list T)) :
  shaped rows cols A -> shaped rows cols B ->
  (forall i j, (i < rows)%nat -> (j < cols)%nat -> entry A i j = entry B i j) -> A = B.
Proof.
  intros [HA HrA] [HB HrB] Hab. apply (nth_ext A B [] []); [congruence|].
  intros i Hi. rewrite HA in Hi. fold (row A i). fold (row B i).
  apply (nth_ext (row A i) (row B i) $0 $0); [rewrite HrA, HrB by exact Hi; reflexivity|].
  intros j Hj. rewrite HrA in Hj by exact Hi. now apply Hab.
Qed.

(* the stiffness matrix is made of the nodes and of EI alone *)
Lemma stiffness_of_geometry (nodes : list (@Node T)) (youngsModulusMpa inertiaMm4 : T)
    (pointLoads pointLoads' : list PointLoad) (udls udls' : list Udl) :
  K (assembleSystem nodes youngsModulusMpa inertiaMm4 pointLoads udls) =
  K (assembleSystem nodes youngsModulusMpa inertiaMm4 pointLoads' udls').
Proof.
  destruct (assembleSystem_facts nodes youngsModulusMpa inertiaMm4 pointLoads udls)
    as [Hel [HK [_ [He _]]]].
  destruct (assembleSystem_facts nodes youngsModulusMpa inertiaMm4 pointLoads' udls')
    as [Hel' [HK' [_ [He' _]]]].
  cbv zeta in *. apply (shaped_ext HK HK'). intros i j _ _.
  rewrite He, He', Hel, Hel'. unfold elementsOf. rewrite !fold_left_flat_map.
  apply fold_left_ext. intros acc k.
  destruct (elementSpan nodes k <=? $0); reflexivity.
Qed.

Lemma eliminate_fst (k n : nat) (l : list nat) (M : list (list T)) (xs xs' : list T) :
  fst (fold_left (eliminate k n) l (M, xs)) = fst (fold_left (eliminate k n) l (M, xs')).
Proof.
  revert M xs xs'. induction l as [|i l IH]; intros M xs xs'; [reflexivity|].
  cbn [fold_left]. unfold eliminate at 2 4. cbn [fst snd].
  destruct (Nat.eqb i k); apply IH.
Qed.

Lemma solveStep_fst (n k : nat) (M : list (list T)) (xs xs' : list T) :
  option_map fst (solveStep n (M, xs) k) = option_map fst (solveStep n (M, xs') k).
Proof.
  unfold solveStep. cbn [fst snd].
  destruct (abs (entry M (findMaxRow M k n) k) <? eps); [reflexivity|].
  cbn [option_map]. f_equal. apply eliminate_fst.
Qed.

(* the passes of the solver treat the matrix the same whatever the right-hand side is *)
Lemma solveLoop_fst (n : nat) (ks : list nat) (M : list (list T)) (xs xs' : list T) :
  option_map fst (solveLoop n ks (M, xs)) = option_map fst (solveLoop n ks (M, xs')).
Proof.
  revert M xs xs'. induction ks as [|k ks IH]; intros M xs xs'; [reflexivity|].
  cbn [solveLoop]. pose proof (solveStep_fst n k M xs xs') as Hstep.
  destruct (solveStep n (M, xs) k) as [[M1 x1]|], (solveStep n (M, xs') k) as [[M1' x1']|];
    cbn [option_map fst] in Hstep; try discriminate; [|reflexivity].
  injection Hstep as <-. apply IH.
Qed.

Lemma solveLinearSystem_verdict (A : list (list T)) (b b' : list T) :
  length b = length b' ->
  (solveLinearSystem A b = None <-> solveLinearSystem A b' = None).
Proof.
  intros Hlen. unfold solveLinearSystem. rewrite <- Hlen.
  pose proof (solveLoop_fst (length b) (seq 0 (length b)) A b b') as H.
  destruct (solveLoop _ _ (A, b)), (solveLoop _ _ (A, b')); cbn in *;
    try discriminate; split; intros; try discriminate; reflexivity.
Qed.

(** X12. Whether the analysis fails does not depend on how large the loads
    are, in any arithmetic, binary64 included: two sets of loads at the
    same positions, on the same beam and supports, are both analysed or
    both rejected as unstable, and when they are analysed the nodes are
    the same. *)
Theorem verdict_depends_on_geometry_only (lengthMm youngsModulusMpa inertiaMm4 : T)
    (supports : list Support) (pointLoads pointLoads' : list PointLoad)
    (udls udls' : list Udl) :
  map p_positionMm pointLoads = map p_positionMm pointLoads' ->
  map (fun udl => (u_startMm udl, u_endMm udl)) udls =
    map (fun udl => (u_startMm udl, u_endMm udl)) udls' ->
  let result := analysis lengthMm youngsModulusMpa inertiaMm4 supports pointLoads udls in
  let result' := analysis lengthMm youngsModulusMpa inertiaMm4 supports pointLoads' udls' in
  (result = AnalysisError unstableMessage <-> result' = AnalysisError unstableMessage) /\
  (forall nodes table diagrams, result = AnalysisResult nodes table diagrams ->
     exists table' diagrams', result' = AnalysisResult nodes table' diagrams').
Proof.
  intros Hp Hu result result'.
  assert (Hn : buildNodes lengthMm supports pointLoads udls =
               buildNodes lengthMm supports pointLoads' udls').
  { unfold buildNodes, basePositions. cbv zeta. rewrite Hp.
    assert (Hf : flat_map (fun udl => [u_startMm udl; u_endMm udl]) udls =
                 flat_map (fun udl => [u_startMm udl; u_endMm udl]) udls').
    { clear -Hu. revert udls' Hu. induction udls as [|u udls IH]; intros [|u' udls'] Hu;
        try discriminate; [reflexivity|].
      cbn [map] in Hu. injection Hu as Hs He Hrest. cbn [flat_map].
      now rewrite Hs, He, (IH _ Hrest). }
    now rewrite Hf. }
  set (nodes := buildNodes lengthMm supports pointLoads udls) in *.
  set (sys := assembleSystem nodes youngsModulusMpa inertiaMm4 pointLoads udls).
  set (sys' := assembleSystem nodes youngsModulusMpa inertiaMm4 pointLoads' udls').
  assert (HK : K sys = K sys') by apply stiffness_of_geometry.
  assert (Hv : solveLinearSystem (Kff (applyBoundaryConditions nodes (K sys) (F sys)))
                 (Ff (applyBoundaryConditions nodes (K sys) (F sys))) = None <->
               solveLinearSystem (Kff (applyBoundaryConditions nodes (K sys') (F sys')))
                 (Ff (applyBoundaryConditions nodes (K sys') (F sys'))) = None).
  { rewrite <- HK. apply solveLinearSystem_verdict. cbn. now rewrite !length_map. }
  assert (Hr : result = match solveLinearSystem
                                (Kff (applyBoundaryConditions nodes (K sys) (F sys)))
                                (Ff (applyBoundaryConditions nodes (K sys) (F sys))) with
                        | None => AnalysisError unstableMessage
                        | Some fd =>
                            let u := expandDisplacements (length (K sys))
                                       (free_ (applyBoundaryConditions nodes (K sys) (F sys))) fd in
                            AnalysisResult nodes
                              (reactionTableOf nodes (reactionsOf (K sys) (F sys) u))
                              (computeDiagrams nodes (elementData sys) u)
                        end) by reflexivity.
  assert (Hr' : result' = match solveLinearSystem
                                (Kff (applyBoundaryConditions nodes (K sys') (F sys')))
                                (Ff (applyBoundaryConditions nodes (K sys') (F sys'))) with
                        | None => AnalysisError unstableMessage
                        | Some fd =>
                            let u := expandDisplacements (length (K sys'))
                                       (free_ (applyBoundaryConditions nodes (K sys') (F sys'))) fd in
                            AnalysisResult nodes
                              (reactionTableOf nodes (reactionsOf (K sys') (F sys') u))
                              (computeDiagrams nodes (elementData sys') u)
                        end).
  { unfold result', analysis. cbv zeta. rewrite <- Hn. reflexivity. }
  rewrite Hr, Hr'.
  destruct (solveLinearSystem (Kff (applyBoundaryConditions nodes (K sys) (F sys))) _) as [fd|];
    destruct (solveLinearSystem (Kff (applyBoundaryConditions nodes (K sys') (F sys'))) _)
      as [fd'|].
  - split; [split; discriminate|]. intros n0 t0 d0 H. injection H as <- _ _.
    eexists _, _. reflexivity.
  - exfalso. destruct Hv as [_ Hv]. specialize (Hv eq_refl). discriminate.
  - exfalso. destruct Hv as [Hv _]. specialize (Hv eq_refl). discriminate.
  - split; [split; reflexivity|]. intros n0 t0 d0 H. discriminate.
Qed.

End Verdict.

(** ** Loads times a factor *)

Section Linearity.
Context {T : Type} {N : Number T} {E : ExactNumber T}.
Local Open Scope num_scope.

Add Field T_field_linearity : (num_field (T:=T)).

Lemma flat_map_ext_in {A B} (f g : A -> list B) (l : list A) :
  (forall a, In a l -> f a = g a) -> flat_map f l = flat_map g l.
Proof.
  induction l as [|a l IH]; intros H; [reflexivity|]. cbn [flat_map].
  rewrite (H a) by now left. f_equal. apply IH. intros b Hb. apply H. now right.
Qed.

Lemma map_flat_map {A B C} (f : B -> C) (g : A -> list B) (l : list A) :
  map f (flat_map g l) = flat_map (fun a => map f (g a)) l.
Proof.
  induction l as [|a l IH]; [reflexivity|]. cbn [flat_map]. now rewrite map_app, IH.
Qed.

Lemma get_map_times (c : T) (l : list T) (i : nat) : get (map (mul c) l) i = c * get l i.
Proof.
  unfold get. destruct (Nat.lt_ge_cases i (length l)) as [Hi|Hi].
  - now rewrite (nth_map_lt _ l $0 $0).
  - rewrite !nth_overflow by (try rewrite length_map; exact Hi). ring.
Qed.

Lemma filter_map_comm {A B} (f : A -> B) (p : B -> bool) (l : list A) :
  filter p (map f l) = map f (filter (fun a => p (f a)) l).
Proof.
  induction l as [|a l IH]; [reflexivity|]. cbn [map filter].
  destruct (p (f a)); cbn [map]; now rewrite IH.
Qed.

Lemma positions_timesPointLoads (c : T) (pointLoads : list (@PointLoad T)) :
  map p_positionMm (timesPointLoads c pointLoads) = map p_positionMm pointLoads.
Proof. unfold timesPointLoads. rewrite map_map. reflexivity. Qed.

Lemma positions_timesUdls (c : T) (udls : list (@Udl T)) :
  flat_map (fun udl => [u_startMm udl; u_endMm udl]) (timesUdls c udls) =
  flat_map (fun udl => [u_startMm udl; u_endMm udl]) udls.
Proof.
  unfold timesUdls. induction udls as [|u udls IH]; [reflexivity|].
  cbn [map flat_map u_startMm u_endMm]. now rewrite IH.
Qed.

Lemma buildNodes_times (c lengthMm : T) supports pointLoads udls :
  buildNodes lengthMm supports (timesPointLoads c pointLoads) (timesUdls c udls) =
  buildNodes lengthMm supports pointLoads udls.
Proof.
  unfold buildNodes, basePositions.
  now rewrite positions_timesPointLoads, positions_timesUdls.
Qed.

Lemma getElementUdl_times (c : T) (udls : list (@Udl T)) (x1 x2 : T) :
  getElementUdl (timesUdls c udls) x1 x2 = c * getElementUdl udls x1 x2.
Proof.
  unfold getElementUdl, timesUdls. cbv zeta. rewrite filter_map_comm. cbn [u_startMm u_endMm].
  set (l := filter _ udls).
  change (fold_left (fun sum udl => sum + u_magnitudeKnPerM udl) ?m $0)
    with (sumOver m u_magnitudeKnPerM).
  rewrite sumOver_map. cbn [u_magnitudeKnPerM]. apply sumOver_scale.
Qed.

Lemma pointLoadAt_times (c : T) (nodes : list (@Node T)) (pointLoads : list PointLoad) (i : nat) :
  pointLoadAt nodes (timesPointLoads c pointLoads) i = c * pointLoadAt nodes pointLoads i.
Proof.
  unfold pointLoadAt, loadsAt, timesPointLoads. rewrite filter_map_comm. cbn [p_positionMm].
  set (l := filter _ pointLoads).
  change (fold_left (fun sum load => sum + (- p_magnitudeKn load) * $1000) ?m $0)
    with (sumOver m (fun load => (- p_magnitudeKn load) * $1000)).
  rewrite sumOver_map. cbn [p_magnitudeKn]. rewrite <- sumOver_scale.
  apply sumOver_ext. intros p _. ring.
Qed.

Lemma get_fFixedOf_times (c w L : T) (r : nat) :
  get (fFixedOf (c * w) L) r = c * get (fFixedOf w L) r.
Proof.
  assert (H2 : $2 <> ($0 : T)) by apply num_pos_neq, fromZ_pos.
  assert (H12 : $12 <> ($0 : T)) by apply num_pos_neq, fromZ_pos.
  unfold fFixedOf, get. cbv zeta.
  destruct r as [|[|[|[|r]]]]; cbn [nth]; try (field; assumption).
  destruct r; ring.
Qed.

(* the element records of the larger loads *)
Lemma elementOf_times (c : T) (nodes : list (@Node T)) (EI : T) (udls : list Udl) (k : nat) :
  let e := elementOf nodes EI udls k in
  elementOf nodes EI (timesUdls c udls) k =
  {| index := k; length_ := length_ e; wNPerMm := c * wNPerMm e;
     kLocal := kLocal e; fFixed := fFixedOf (c * wNPerMm e) (length_ e) |}.
Proof.
  intros e. unfold e, elementOf. cbv zeta. cbn [length_ wNPerMm kLocal].
  rewrite getElementUdl_times.
  replace (- (c * getElementUdl udls (x (nodeAt nodes k)) (x (nodeAt nodes (k + 1)))))
    with (c * - getElementUdl udls (x (nodeAt nodes k)) (x (nodeAt nodes (k + 1)))) by ring.
  reflexivity.
Qed.

Lemma flat_map_map {A B C} (g : B -> list C) (h : A -> B) (l : list A) :
  flat_map g (map h l) = flat_map (fun a => g (h a)) l.
Proof.
  induction l as [|a l IH]; [reflexivity|]. cbn [map flat_map]. now rewrite IH.
Qed.

Lemma sampleOf_times (c : T) (nodes : list (@Node T)) (u : list T) (EI : T)
    (udls : list Udl) (k j : nat) :
  sampleOf nodes (map (mul c) u) (elementOf nodes EI (timesUdls c udls) k) j =
  timesSample c (sampleOf nodes u (elementOf nodes EI udls k) j).
Proof.
  rewrite elementOf_times. cbv zeta.
  set (e := elementOf nodes EI udls k).
  assert (Hff : fFixed e = fFixedOf (wNPerMm e) (length_ e)) by reflexivity.
  assert (Hidx : index e = k) by reflexivity.
  unfold sampleOf, timesSample. cbv zeta.
  cbn [index length_ wNPerMm kLocal fFixed sx shear moment deflection].
  rewrite !get_map_times, !get_fFixedOf_times, Hff, Hidx.
  set (xl := length_ e * $(Z.of_nat j) / $40).
  set (r := xl / length_ e).
  f_equal; try ring.
  field. apply num_pos_neq, fromZ_pos.
Qed.

Lemma dot_times (c : T) (K : list (list T)) (u : list T) (a : nat) :
  dot (row K a) (map (mul c) u) = c * dot (row K a) u.
Proof.
  rewrite !(@dot_rowTimes T N K _ (length (row K a)) a) by reflexivity.
  unfold rowTimes. rewrite <- sumOver_scale. apply sumOver_ext.
  intros j _. rewrite get_map_times. ring.
Qed.

Lemma expandDisplacements_times (c : T) (dof : nat) (free : list nat) (fd : list T) :
  NoDup free -> Forall (fun d => (d < dof)%nat) free ->
  expandDisplacements dof free (map (mul c) fd) =
  map (mul c) (expandDisplacements dof free fd).
Proof.
  intros Hnd Hlt.
  destruct (@expandDisplacements_spec T N dof free fd Hnd Hlt) as [HL [Hin Hout]].
  destruct (@expandDisplacements_spec T N dof free (map (mul c) fd) Hnd Hlt)
    as [HL' [Hin' Hout']].
  cbv zeta in *.
  apply (nth_ext _ _ $0 $0); [now rewrite length_map, HL, HL'|].
  intros d Hd. rewrite HL' in Hd.
  change (get (expandDisplacements dof free (map (mul c) fd)) d =
          get (map (mul c) (expandDisplacements dof free fd)) d).
  rewrite get_map_times.
  destruct (in_dec Nat.eq_dec d free) as [Hf|Hf].
  - destruct (In_nth free d O Hf) as [j [Hj <-]].
    now rewrite Hin', Hin, get_map_times by exact Hj.
  - rewrite Hout', Hout by exact Hf. ring.
Qed.

Section OnSortedNodes.
Variable nodes : list (@Node T).
Hypothesis nodes_sorted : StronglySorted num_lt (map x nodes).
Variables youngsModulusMpa inertiaMm4 c : T.
Variable pointLoads : list (@PointLoad T).
Variable udls : list (@Udl T).

Local Abbreviation sys := (assembleSystem nodes youngsModulusMpa inertiaMm4 pointLoads udls).
Local Abbreviation sys' :=
  (assembleSystem nodes youngsModulusMpa inertiaMm4
     (timesPointLoads c pointLoads) (timesUdls c udls)).
Local Abbreviation EI := (youngsModulusMpa * inertiaMm4).
Local Abbreviation idx := (seq 0 (length nodes - 1)).

Lemma indices_inside : Forall (fun i => (i + 1 < length nodes)%nat) idx.
Proof. apply Forall_forall. intros i Hi. apply in_seq in Hi. lia. Qed.

Lemma elementData_all (pl : list (@PointLoad T)) (ud : list (@Udl T)) :
  elementData (assembleSystem nodes youngsModulusMpa inertiaMm4 pl ud) =
  map (elementOf nodes EI ud) idx.
Proof.
  destruct (assembleSystem_facts nodes youngsModulusMpa inertiaMm4 pl ud) as [Hel _].
  cbv zeta in Hel. rewrite Hel.
  apply (@elementsOf_all T N E nodes nodes_sorted _ _ _ indices_inside).
Qed.

(* the load vector of the larger loads *)
Lemma F_times (a : nat) :
  (a < length nodes * 2)%nat -> get (F sys') a = c * get (F sys) a.
Proof.
  intros Ha.
  destruct (assembleSystem_facts nodes youngsModulusMpa inertiaMm4 pointLoads udls)
    as [_ [_ [_ [_ HF]]]].
  destruct (assembleSystem_facts nodes youngsModulusMpa inertiaMm4
              (timesPointLoads c pointLoads) (timesUdls c udls)) as [_ [_ [_ [_ HF']]]].
  cbv zeta in HF, HF'. rewrite HF, HF' by exact Ha.
  rewrite !addF_sum, !elementData_all, !sumOver_map.
  rewrite pointLoadAt_times.
  rewrite (sumOver_ext idx (fun k => shareF a (elementOf nodes EI (timesUdls c udls) k))
             (fun k => c * shareF a (elementOf nodes EI udls k))).
  - rewrite sumOver_scale. destruct (Nat.even a); ring.
  - intros k _. rewrite elementOf_times. cbv zeta. unfold shareF.
    cbn [index fFixed elementOf]. destruct (localIndex k a); [|ring].
    apply get_fFixedOf_times.
Qed.

End OnSortedNodes.

(** X13. In exact arithmetic the results are linear in the loads: with every
    point load and every UDL [c] times as large, at the same positions, a
    successful analysis stays successful, the nodes are the same, and
    every reaction, shear force, moment and deflection is [c] times what
    it was. *)
Theorem loads_times_factor (c lengthMm youngsModulusMpa inertiaMm4 : T)
    (supports : list Support) (pointLoads : list PointLoad) (udls : list Udl)
    (nodes : list Node) (reactionTable : list Reaction) (diagrams : list Sample) :
  analysis lengthMm youngsModulusMpa inertiaMm4 supports pointLoads udls =
    AnalysisResult nodes reactionTable diagrams ->
  analysis lengthMm youngsModulusMpa inertiaMm4 supports
    (timesPointLoads c pointLoads) (timesUdls c udls) =
    AnalysisResult nodes (map (timesReaction c) reactionTable)
      (map (timesSample c) diagrams).
Proof.
  intros Hres.
  destruct (analysis_result _ _ _ _ _ _ Hres) as [Hnodes [fd [Hsolve [Htable Hd]]]].
  cbv zeta in Hsolve, Htable, Hd.
  assert (Hsorted : StronglySorted num_lt (map x nodes)).
  { rewrite Hnodes. apply buildNodes_sorted. }
  set (sys := assembleSystem nodes youngsModulusMpa inertiaMm4 pointLoads udls) in *.
  set (sys' := assembleSystem nodes youngsModulusMpa inertiaMm4
                 (timesPointLoads c pointLoads) (timesUdls c udls)).
  assert (HK : K sys' = K sys) by apply stiffness_of_geometry.
  destruct (assembleSystem_facts nodes youngsModulusMpa inertiaMm4 pointLoads udls)
    as [_ [HKs _]]. cbv zeta in HKs. fold sys in HKs.
  assert (HlenK : length (K sys) = (length nodes * 2)%nat) by apply HKs.
  assert (HF : forall a, (a < length nodes * 2)%nat -> get (F sys') a = c * get (F sys) a).
  { intros a Ha. now apply F_times. }
  set (red := applyBoundaryConditions nodes (K sys) (F sys)) in *.
  set (red' := applyBoundaryConditions nodes (K sys) (F sys')).
  set (m := length (free_ red)).
  destruct (shaped_Kff nodes (K sys) (F sys)) as [HKff [HFf [_ Hget]]].
  destruct (shaped_Kff nodes (K sys) (F sys')) as [_ [HFf' [_ Hget']]].
  fold red in HKff, HFf, Hget. fold red' in HFf', Hget'.
  change (free_ red') with (free_ red) in HFf', Hget'. fold m in HKff, HFf, HFf', Hget, Hget'.
  assert (Hfree : Forall (fun d => (d < length (K sys))%nat) (free_ red)) by apply free_lt.
  assert (HFfc : forall i, (i < m)%nat -> get (Ff red') i = c * get (Ff red) i).
  { intros i Hi. rewrite Hget, Hget' by exact Hi. apply HF.
    rewrite Forall_forall in Hfree. rewrite <- HlenK. apply Hfree. apply nth_In. exact Hi. }
  assert (HKm : shaped (length (Ff red)) (length (Ff red)) (Kff red)) by now rewrite HFf.
  destruct (@solveLinearSystem_solves T N E (Kff red) (Ff red) fd HKm Hsolve)
    as [Hlen [Hsol _]]. rewrite HFf in Hlen, Hsol.
  assert (Hsolve' : solveLinearSystem (Kff red) (Ff red') = Some (map (mul c) fd)).
  { destruct (solveLinearSystem (Kff red) (Ff red')) as [fd'|] eqn:Hs'.
    - f_equal. symmetry.
      assert (HKm' : shaped (length (Ff red')) (length (Ff red')) (Kff red))
        by now rewrite HFf'.
      destruct (@solveLinearSystem_solves T N E (Kff red) (Ff red') fd' HKm' Hs')
        as [_ [_ Huniq]]. rewrite HFf' in Huniq.
      apply Huniq; [now rewrite length_map|].
      intros i Hi. rewrite (HFfc i Hi), <- (Hsol i Hi). unfold rowTimes.
      rewrite <- sumOver_scale. apply sumOver_ext. intros j _.
      rewrite get_map_times. ring.
    - exfalso.
      apply (proj2 (@solveLinearSystem_verdict T N (Kff red) (Ff red) (Ff red')
                      ltac:(now rewrite HFf, HFf'))) in Hs'.
      congruence. }
  set (u := expandDisplacements (length (K sys)) (free_ red) fd) in *.
  assert (Hu : expandDisplacements (length (K sys)) (free_ red) (map (mul c) fd) =
               map (mul c) u).
  { apply expandDisplacements_times; [apply free_NoDup|exact Hfree]. }
  assert (HR : forall a, (a < length nodes * 2)%nat ->
            get (reactionsOf (K sys) (F sys') (map (mul c) u)) a =
            c * get (reactionsOf (K sys) (F sys) u) a).
  { intros a Ha. rewrite !get_reactionsOf by lia. rewrite dot_times, HF by exact Ha. ring. }
  assert (Hres' : analysis lengthMm youngsModulusMpa inertiaMm4 supports
                    (timesPointLoads c pointLoads) (timesUdls c udls) =
                  AnalysisResult nodes
                    (reactionTableOf nodes (reactionsOf (K sys) (F sys') (map (mul c) u)))
                    (computeDiagrams nodes (elementData sys') (map (mul c) u))).
  { unfold analysis. cbv zeta. rewrite buildNodes_times, <- Hnodes.
    fold sys'. rewrite HK. fold red'.
    change (Kff red') with (Kff red). rewrite Hsolve'.
    change (free_ red') with (free_ red). now rewrite Hu. }
  rewrite Hres'. f_equal.
  - rewrite Htable. unfold reactionTableOf. rewrite map_flat_map.
    apply flat_map_ext_in. intros [nd i] Hni. cbn [fst snd].
    apply In_combine_seq in Hni. destruct Hni as [_ Hi]. rewrite Nat.sub_0_r in Hi.
    assert (Hlt : (i < length nodes)%nat) by (apply nth_error_Some; congruence).
    assert (H1 : $1000 <> ($0 : T)) by apply num_pos_neq, fromZ_pos.
    assert (H2 : $1000000 <> ($0 : T)) by apply num_pos_neq, fromZ_pos.
    destruct (supportType nd); [reflexivity| |]; cbn [map]; unfold timesReaction;
      cbn [r_positionMm r_verticalKn r_momentKnM r_type];
      rewrite !HR by lia; do 2 f_equal; field; assumption.
  - rewrite Hd. unfold sys' at 1. unfold sys at 1. rewrite !elementData_all by exact Hsorted.
    unfold computeDiagrams. rewrite map_flat_map, !flat_map_map.
    apply flat_map_ext_in. intros k _. unfold elementSamples at 2.
    rewrite !elementSamples_elementOf, map_map. apply map_ext. intros j.
    apply sampleOf_times.
Qed.

End Linearity.

(** * The component *)

(** ** Editing the lists of supports and loads *)

Section EditingFacts.
Context {T : Type} {N : Number T}.
Local Open Scope num_scope.

Lemma map_if_id {A} (p : A -> bool) (g : A -> A) (l : list A) :
  (forall a, In a l -> p a = false) -> map (fun a => if p a then g a else a) l = l.
Proof.
  induction l as [|a l IH]; intros H; [reflexivity|]. cbn [map].
  rewrite (H a) by now left. f_equal. apply IH. intros b Hb. apply H. now right.
Qed.

Lemma map_if_ids {A} (idOf : A -> nat) (id : nat) (g : A -> A) (l : list A) :
  (forall a, idOf (g a) = idOf a) ->
  map idOf (map (fun a => if Nat.eqb (idOf a) id then g a else a) l) = map idOf l.
Proof.
  intros Hg. rewrite map_map. apply map_ext. intros a.
  destruct (Nat.eqb (idOf a) id); [apply Hg|reflexivity].
Qed.

(** X14. A change of a position, a kind or a magnitude keeps the ids of the
    list, in their order; it leaves every record with another id as it
    was, and the whole list when no record has the id. *)
Theorem change_keeps_ids (id : nat) :
  (forall (fv : @SupportField T) prev,
     (forall v, fv <> SupportId v) ->
     map s_id (handleSupportChange id fv prev) = map s_id prev /\
     (forall s, In s prev -> s_id s <> id -> In s (handleSupportChange id fv prev)) /\
     ((forall s, In s prev -> s_id s <> id) -> handleSupportChange id fv prev = prev)) /\
  (forall (fv : @PointLoadField T) prev,
     (forall v, fv <> PointLoadId v) ->
     map p_id (handlePointLoadChange id fv prev) = map p_id prev /\
     (forall l, In l prev -> p_id l <> id -> In l (handlePointLoadChange id fv prev)) /\
     ((forall l, In l prev -> p_id l <> id) -> handlePointLoadChange id fv prev = prev)) /\
  (forall (fv : @UdlField T) prev,
     (forall v, fv <> UdlId v) ->
     map u_id (handleUdlChange id fv prev) = map u_id prev /\
     (forall u, In u prev -> u_id u <> id -> In u (handleUdlChange id fv prev)) /\
     ((forall u, In u prev -> u_id u <> id) -> handleUdlChange id fv prev = prev)).
Proof.
  split; [|split]; intros fv prev Hfv.
  - split; [|split].
    + apply map_if_ids. intros a. destruct fv; [destruct (Hfv v eq_refl)| |]; reflexivity.
    + intros s Hs Hne. apply in_map_iff. exists s. split; [|exact Hs].
      now destruct (Nat.eqb_spec (s_id s) id).
    + intros H. apply map_if_id. intros a Ha. apply Nat.eqb_neq. now apply H.
  - split; [|split].
    + apply map_if_ids. intros a. destruct fv; [destruct (Hfv v eq_refl)| |]; reflexivity.
    + intros s Hs Hne. apply in_map_iff. exists s. split; [|exact Hs].
      now destruct (Nat.eqb_spec (p_id s) id).
    + intros H. apply map_if_id. intros a Ha. apply Nat.eqb_neq. now apply H.
  - split; [|split].
    + apply map_if_ids. intros a. destruct fv; [destruct (Hfv v eq_refl)| | |]; reflexivity.
    + intros s Hs Hne. apply in_map_iff. exists s. split; [|exact Hs].
      now destruct (Nat.eqb_spec (u_id s) id).
    + intros H. apply map_if_id. intros a Ha. apply Nat.eqb_neq. now apply H.
Qed.

(** X15. After a change, every support with the id carries the new value, and
    a second change of the same field to the same value does nothing. *)
Theorem change_sets_field (id : nat) (prev : list (@Support T)) :
  (forall v s, In s (handleSupportChange id (SupportPosition v) prev) -> s_id s = id ->
     s_positionMm s = v) /\
  (forall t s, In s (handleSupportChange id (SupportKind t) prev) -> s_id s = id ->
     s_type s = t) /\
  (forall fv, handleSupportChange id fv (handleSupportChange id fv prev) =
              handleSupportChange id fv prev).
Proof.
  split; [|split].
  - intros v s Hs Hid. apply in_map_iff in Hs. destruct Hs as [s0 [<- _]].
    destruct (Nat.eqb_spec (s_id s0) id) as [_|Hne]; [reflexivity|].
    destruct (Nat.eqb_spec (s_id s0) id); [contradiction|]. contradiction.
  - intros t s Hs Hid. apply in_map_iff in Hs. destruct Hs as [s0 [<- _]].
    destruct (Nat.eqb_spec (s_id s0) id) as [_|Hne]; [reflexivity|].
    destruct (Nat.eqb_spec (s_id s0) id); [contradiction|]. contradiction.
  - intros fv. unfold handleSupportChange. rewrite map_map. apply map_ext. intros s.
    destruct (Nat.eqb_spec (s_id s) id) as [He|Hne].
    + destruct fv as [v| |]; cbn [setSupportField s_id];
        [destruct (Nat.eqb_spec v id); reflexivity| |]; rewrite He, Nat.eqb_refl; reflexivity.
    + now destruct (Nat.eqb_spec (s_id s) id).
Qed.

Lemma removeItem_fresh {A} (idOf : A -> nat) (id : nat) (l : list A) :
  (forall a, In a l -> idOf a <> id) -> removeItem idOf id l = l.
Proof.
  intros H. unfold removeItem. apply filter_true. intros a Ha.
  apply negb_true_iff, Nat.eqb_neq. now apply H.
Qed.

(** X16. Remove undoes Add when the id given to the new record, the time of
    the click, is the id of no other record: the list is as before. *)
Theorem remove_after_add (now : nat) (lengthMm : T) :
  (forall prev : list (@Support T), (forall s, In s prev -> s_id s <> now) ->
     removeItem s_id now (addSupport now lengthMm prev) = prev) /\
  (forall prev : list (@PointLoad T), (forall l, In l prev -> p_id l <> now) ->
     removeItem p_id now (addPointLoad now lengthMm prev) = prev) /\
  (forall prev : list (@Udl T), (forall u, In u prev -> u_id u <> now) ->
     removeItem u_id now (addUdl now lengthMm prev) = prev).
Proof.
  split; [|split]; intros prev H.
  - unfold addSupport, removeItem. rewrite filter_app. cbn [filter s_id].
    rewrite Nat.eqb_refl. cbn [negb]. rewrite app_nil_r. now apply removeItem_fresh.
  - unfold addPointLoad, removeItem. rewrite filter_app. cbn [filter p_id].
    rewrite Nat.eqb_refl. cbn [negb]. rewrite app_nil_r. now apply removeItem_fresh.
  - unfold addUdl, removeItem. rewrite filter_app. cbn [filter u_id].
    rewrite Nat.eqb_refl. cbn [negb]. rewrite app_nil_r. now apply removeItem_fresh.
Qed.

(** X17. Remove takes every record with the id: of two supports added at the
    same time, hence with the same id, one Remove deletes both, together
    with any older support of that id; and one change edits both. *)
Theorem same_id_rows_go_together (now : nat) (L1 L2 : T) (prev : list (@Support T)) :
  removeItem s_id now (addSupport now L2 (addSupport now L1 prev)) =
    removeItem s_id now prev /\
  (forall s, In s (removeItem s_id now (addSupport now L2 (addSupport now L1 prev))) ->
     s_id s <> now) /\
  (forall v,
     handleSupportChange now (SupportPosition v) (addSupport now L2 (addSupport now L1 prev)) =
     handleSupportChange now (SupportPosition v) prev ++
       [ {| s_id := now; s_positionMm := v; s_type := pinned |};
         {| s_id := now; s_positionMm := v; s_type := pinned |} ]).
Proof.
  assert (H1 : removeItem s_id now (addSupport now L2 (addSupport now L1 prev)) =
               removeItem s_id now prev).
  { unfold addSupport, removeItem. rewrite !filter_app. cbn [filter s_id].
    rewrite Nat.eqb_refl. cbn [negb]. now rewrite !app_nil_r. }
  split; [exact H1|]. split.
  - intros s Hs. rewrite H1 in Hs. apply filter_In in Hs. destruct Hs as [_ Hs].
    apply negb_true_iff, Nat.eqb_neq in Hs. exact Hs.
  - intros v. unfold addSupport, handleSupportChange. rewrite !map_app. cbn [map s_id].
    rewrite Nat.eqb_refl. cbn [setSupportField s_id s_positionMm s_type].
    now rewrite <- app_assoc.
Qed.

End EditingFacts.

(** ** Drawing the diagrams, in exact arithmetic *)

Section DrawingExact.
Context {T : Type} {N : Number T} {E : ExactNumber T}.
Local Open Scope num_scope.

Add Field T_field_draw : (num_field (T:=T)).

Lemma num_le_antisym (a b : T) : num_le a b -> num_le b a -> a = b.
Proof.
  rewrite !num_le_iff. intros [H1|H1] [H2|H2]; auto.
  destruct (num_lt_asym H1 H2).
Qed.

Lemma num_le_total (a b : T) : num_le a b \/ num_le b a.
Proof.
  destruct (en_lt_total a b) as [H|[H|H]].
  - left. apply num_le_iff. now left.
  - left. apply num_le_iff. now right.
  - right. apply num_le_iff. now left.
Qed.

Lemma num_le_sub (a b : T) : num_le a b <-> num_le $0 (b - a).
Proof.
  rewrite !num_le_iff, <- num_sub_pos. split; (intros [H|H]; [now left|right]).
  - subst. ring.
  - transitivity (a + (b - a)); [rewrite <- H|]; ring.
Qed.

Lemma num_sub_nonneg (a b : T) : num_le a b -> num_le $0 (b - a).
Proof. apply num_le_sub. Qed.

Lemma num_le_of_sub (a b : T) : num_le $0 (b - a) -> num_le a b.
Proof. apply num_le_sub. Qed.

Lemma num_mul_nonneg (a b : T) : num_le $0 a -> num_le $0 b -> num_le $0 (a * b).
Proof.
  rewrite !num_le_iff. intros [Ha|Ha] [Hb|Hb].
  - left. now apply en_lt_mul.
  - right. rewrite <- Hb. ring.
  - right. rewrite <- Ha. ring.
  - right. rewrite <- Ha. ring.
Qed.

Lemma num_div_nonneg (a b : T) : num_le $0 a -> num_lt $0 b -> num_le $0 (a / b).
Proof.
  intros Ha Hb. rewrite en_div_def. apply num_mul_nonneg; [exact Ha|].
  apply num_le_iff. left. now apply num_inv_pos.
Qed.

Lemma num_div_le_1 (a b : T) : num_le a b -> num_lt $0 b -> num_le (a / b) $1.
Proof.
  intros Hab Hb.
  assert (Hb0 : b <> $0) by now apply num_pos_neq.
  assert (He : (b - a) / b = $1 - a / b).
  { field. exact Hb0. }
  apply num_le_of_sub. rewrite <- He.
  apply num_div_nonneg; [now apply num_sub_nonneg|exact Hb].
Qed.

(* a share [t] of [h] taken off [h], or put on 0, stays between 0 and [h] *)
Lemma num_share (t h : T) :
  num_le $0 t -> num_le t $1 -> num_le $0 h ->
  num_le $0 (t * h) /\ num_le (t * h) h /\ num_le $0 (h - t * h) /\ num_le (h - t * h) h.
Proof.
  intros H0 H1 Hh.
  assert (Ha : num_le $0 (t * h)) by now apply num_mul_nonneg.
  assert (Hb : num_le $0 (h - t * h)).
  { replace (h - t * h) with (($1 - t) * h) by ring.
    apply num_mul_nonneg; [now apply num_sub_nonneg|exact Hh]. }
  split; [exact Ha|]. split; [now apply num_le_of_sub|]. split; [exact Hb|].
  apply num_le_of_sub. now replace (h - (h - t * h)) with (t * h) by ring.
Qed.

Lemma isNaN_false (a : T) : isNaN a = false.
Proof. unfold isNaN. now rewrite num_eqb_refl. Qed.

Lemma min2_spec (a b : T) :
  num_le (min2 a b) a /\ num_le (min2 a b) b /\ (min2 a b = a \/ min2 a b = b).
Proof.
  unfold min2. rewrite !isNaN_false.
  destruct (b <? a) eqn:Hba.
  - split; [apply num_le_iff; now left|]. split; [apply num_le_refl|now right].
  - destruct (a <? b) eqn:Hab.
    + split; [apply num_le_refl|]. split; [apply num_le_iff; now left|now left].
    + assert (Heq : a = b).
      { destruct (en_lt_total a b) as [H|[H|H]]; [congruence|exact H|congruence]. }
      subst b. destruct (isNegZero a); (split; [apply num_le_refl|]);
        (split; [apply num_le_refl|now left]).
Qed.

Lemma max2_spec (a b : T) :
  num_le a (max2 a b) /\ num_le b (max2 a b) /\ (max2 a b = a \/ max2 a b = b).
Proof.
  unfold max2. rewrite !isNaN_false.
  destruct (a <? b) eqn:Hab.
  - split; [apply num_le_iff; now left|]. split; [apply num_le_refl|now right].
  - destruct (b <? a) eqn:Hba.
    + split; [apply num_le_refl|]. split; [apply num_le_iff; now left|now left].
    + assert (Heq : a = b).
      { destruct (en_lt_total a b) as [H|[H|H]]; [congruence|exact H|congruence]. }
      subst b. destruct (isNegZero a); (split; [apply num_le_refl|]);
        (split; [apply num_le_refl|now left]).
Qed.

Lemma fold_min2 (vs : list T) (v : T) :
  (forall u, In u (v :: vs) -> num_le (fold_left min2 vs v) u) /\
  In (fold_left min2 vs v) (v :: vs).
Proof.
  revert v. induction vs as [|w vs IH]; intros v.
  - simpl. split; [intros u [<-|[]]; apply num_le_refl|now left].
  - cbn [fold_left]. destruct (IH (min2 v w)) as [H1 H2].
    destruct (min2_spec v w) as [Hv [Hw Hor]]. split.
    + intros u [<-|[<-|Hu]].
      * exact (num_le_trans (H1 _ (or_introl eq_refl)) Hv).
      * exact (num_le_trans (H1 _ (or_introl eq_refl)) Hw).
      * apply H1. now right.
    + destruct H2 as [H2|H2].
      * rewrite <- H2. destruct Hor as [-> | ->]; [now left|right; now left].
      * right. now right.
Qed.

Lemma fold_max2 (vs : list T) (v : T) :
  (forall u, In u (v :: vs) -> num_le u (fold_left max2 vs v)) /\
  In (fold_left max2 vs v) (v :: vs).
Proof.
  revert v. induction vs as [|w vs IH]; intros v.
  - simpl. split; [intros u [<-|[]]; apply num_le_refl|now left].
  - cbn [fold_left]. destruct (IH (max2 v w)) as [H1 H2].
    destruct (max2_spec v w) as [Hv [Hw Hor]]. split.
    + intros u [<-|[<-|Hu]].
      * exact (num_le_trans Hv (H1 _ (or_introl eq_refl))).
      * exact (num_le_trans Hw (H1 _ (or_introl eq_refl))).
      * apply H1. now right.
    + destruct H2 as [H2|H2].
      * rewrite <- H2. destruct Hor as [-> | ->]; [now left|right; now left].
      * right. now right.
Qed.

(** In exact arithmetic [Math.min] and [Math.max] of a list that is not
    empty are its least and its greatest element. *)
Lemma mathMin_spec (values : list T) :
  values <> [] ->
  In (mathMin values) values /\ forall u, In u values -> num_le (mathMin values) u.
Proof.
  destruct values as [|v vs]; [congruence|]. intros _.
  destruct (fold_min2 vs v) as [H1 H2]. split; [exact H2|exact H1].
Qed.

Lemma mathMax_spec (values : list T) :
  values <> [] ->
  In (mathMax values) values /\ forall u, In u values -> num_le u (mathMax values).
Proof.
  destruct values as [|v vs]; [congruence|]. intros _.
  destruct (fold_max2 vs v) as [H1 H2]. split; [exact H2|exact H1].
Qed.

Lemma orOne_spec (d : T) :
  num_le $0 d -> (d = $0 /\ orOne d = $1) \/ (num_lt $0 d /\ orOne d = d).
Proof.
  intros Hd. unfold orOne. apply num_le_iff in Hd. destruct Hd as [Hd|Hd].
  - right. split; [exact Hd|]. unfold num_lt in Hd. rewrite Hd, orb_true_r. reflexivity.
  - left. split; [now symmetry|]. rewrite <- Hd, en_lt_irrefl. reflexivity.
Qed.

(* the share of the span that lies below a value *)
Lemma share_of_span (values : list T) (v : T) :
  In v values ->
  let t := (v - mathMin values) / orOne (mathMax values - mathMin values) in
  num_le $0 t /\ num_le t $1 /\
  (v = mathMin values -> t = $0) /\
  (v = mathMax values -> mathMax values <> mathMin values -> t = $1).
Proof.
  intros Hv t. subst t.
  assert (Hne : values <> []) by (intros ->; destruct Hv).
  destruct (mathMin_spec Hne) as [_ Hmin]. destruct (mathMax_spec Hne) as [_ Hmax].
  set (lo := mathMin values) in *. set (hi := mathMax values) in *.
  assert (H1 : num_le $0 (v - lo)) by (apply num_sub_nonneg; now apply Hmin).
  assert (H2 : num_le (v - lo) (hi - lo)).
  { apply num_le_of_sub. replace (hi - lo - (v - lo)) with (hi - v) by ring.
    apply num_sub_nonneg. now apply Hmax. }
  destruct (orOne_spec (num_le_trans H1 H2)) as [[Hd ->]|[Hd ->]].
  - assert (Hz : v - lo = $0).
    { apply num_le_antisym; [now rewrite <- Hd|exact H1]. }
    rewrite Hz. replace ($0 / $1) with ($0 : T) by (field; apply num_1_neq_0).
    split; [apply num_le_refl|]. split; [apply num_le_iff; left; apply en_lt_0_1|].
    split; [reflexivity|]. intros _ Hne'. exfalso. apply Hne'.
    transitivity (lo + (hi - lo)); [ring|rewrite Hd; ring].
  - split; [now apply num_div_nonneg|]. split; [now apply num_div_le_1|]. split.
    + intros ->. replace (lo - lo) with ($0 : T) by ring.
      field. now apply num_pos_neq.
    + intros -> _. field. now apply num_pos_neq.
Qed.

Lemma scalePoints_py (data : list (@Sample T)) (key : SampleKey) (width height : T) pt :
  num_le $0 height -> In pt (scalePoints data key width height) ->
  num_le $0 (py pt) /\ num_le (py pt) height.
Proof.
  intros Hh Hpt. unfold scalePoints in Hpt.
  apply in_map_iff in Hpt. destruct Hpt as [item [<- Hitem]]. cbn [py].
  destruct (@share_of_span (map (fun item0 : @Sample T => valueAt key item0) data)
              (valueAt key item)) as [H0 [H1 _]].
  { now apply (in_map (fun item0 : @Sample T => valueAt key item0)). }
  destruct (num_share H0 H1 Hh) as [_ [_ [Ha Hb]]]. now split.
Qed.

(** X18. In exact arithmetic and for a height that is not negative, every
    point of [scalePoints] lies between the top edge 0 and the bottom edge
    [height]; the least value of the data is drawn on the bottom edge, and
    the greatest, when it is not also the least, on the top edge, so that
    data which is flat is drawn along the bottom edge. *)
Theorem scalePoints_y_range (data : list (@Sample T)) (key : SampleKey) (width height : T) :
  num_le $0 height ->
  let values := map (valueAt key) data in
  let points := scalePoints data key width height in
  length points = length data /\
  (forall pt, In pt points -> num_le $0 (py pt) /\ num_le (py pt) height) /\
  (forall i item, nth_error data i = Some item ->
     exists pt, nth_error points i = Some pt /\
       (valueAt key item = mathMin values -> py pt = height) /\
       (valueAt key item = mathMax values -> mathMax values <> mathMin values ->
          py pt = $0)).
Proof.
  intros Hh values points. subst points.
  split; [apply length_map|]. split; [intros pt; now apply scalePoints_py|].
  unfold scalePoints.
  change (map (fun item : @Sample T => valueAt key item) data) with values.
  intros i item Hi. rewrite nth_error_map, Hi. cbn [option_map].
  eexists. split; [reflexivity|]. cbn [py].
  destruct (@share_of_span values (valueAt key item)) as [_ [_ [Hlo Hhi]]].
  { unfold values. apply in_map. exact (nth_error_In _ _ Hi). }
  split.
  - intros Hv. rewrite (Hlo Hv). ring.
  - intros Hv Hne. rewrite (Hhi Hv Hne). ring.
Qed.

Lemma last_indep {A} (l : list A) (a b : A) : l <> [] -> last l a = last l b.
Proof.
  destruct l as [|d l]; [congruence|]. intros _. revert d.
  induction l as [|e l IH]; intros d; [reflexivity|].
  change (last (e :: l) a = last (e :: l) b). apply IH.
Qed.

Lemma last_In {A} (l : list A) (d : A) : l <> [] -> In (last l d) l.
Proof.
  destruct l as [|a l]; [congruence|]. intros _. revert a.
  induction l as [|b l IH]; intros a; [now left|].
  right. change (In (last (b :: l) d) (b :: l)). apply IH.
Qed.

Lemma last_map {A B} (f : A -> B) (l : list A) (d : A) (d' : B) :
  l <> [] -> last (map f l) d' = f (last l d).
Proof.
  destruct l as [|a l]; [congruence|]. intros _. revert a.
  induction l as [|b l IH]; intros a; [reflexivity|].
  change (last (map f (b :: l)) d' = f (last (b :: l) d)). apply IH.
Qed.

Lemma last_app_r {A} (l1 l2 : list A) (d : A) : l2 <> [] -> last (l1 ++ l2) d = last l2 d.
Proof.
  intros H. induction l1 as [|a l1 IH]; [reflexivity|].
  cbn [app]. destruct (l1 ++ l2) eqn:Eq.
  - apply app_eq_nil in Eq. destruct Eq. contradiction.
  - exact IH.
Qed.

Lemma sorted_le_last (l : list T) (v d : T) :
  StronglySorted num_le l -> In v l -> num_le v (last l d).
Proof.
  induction 1 as [|a l Hs IH Ha]; intros Hin; [destruct Hin|].
  destruct l as [|b l].
  - destruct Hin as [<-|[]]. apply num_le_refl.
  - change (last (a :: b :: l) d) with (last (b :: l) d).
    destruct Hin as [<-|Hin]; [|now apply IH].
    rewrite Forall_forall in Ha. apply Ha. apply last_In. discriminate.
Qed.

Lemma scalePoints_px (data : list (@Sample T)) (key : SampleKey) (width height : T) pt :
  StronglySorted num_le (map sx data) ->
  (forall item, In item data -> num_le $0 (sx item)) ->
  (forall item, In item data -> num_lt $0 (sx (last data item))) ->
  num_le $0 width ->
  In pt (scalePoints data key width height) ->
  num_le $0 (px pt) /\ num_le (px pt) width.
Proof.
  intros Hs H0 Hlast Hw Hpt. unfold scalePoints in Hpt.
  apply in_map_iff in Hpt. destruct Hpt as [item [<- Hin]]. cbn [px].
  assert (Hne : data <> []) by (intros ->; destruct Hin).
  assert (Hle_last : num_le (sx item) (sx (last data item))).
  { rewrite <- (@last_map _ _ sx data item (sx item) Hne).
    apply sorted_le_last; [exact Hs|now apply in_map]. }
  assert (Ha : num_le $0 (sx item / sx (last data item)))
    by (apply num_div_nonneg; [now apply H0|now apply Hlast]).
  assert (Hb : num_le (sx item / sx (last data item)) $1)
    by (apply num_div_le_1; [exact Hle_last|now apply Hlast]).
  destruct (num_share Ha Hb Hw) as [H1 [H2 _]]. now split.
Qed.

(** X19. In exact arithmetic, when the samples are in ascending order of x,
    start at 0 or after it and end after 0, and the width is not negative,
    the points run from left to right between 0 and [width], and the last
    one is on the right edge. *)
Theorem scalePoints_x_range (data : list (@Sample T)) (key : SampleKey) (width height : T) :
  StronglySorted num_le (map sx data) ->
  (forall item, In item data -> num_le $0 (sx item)) ->
  (forall item, In item data -> num_lt $0 (sx (last data item))) ->
  num_le $0 width ->
  let points := scalePoints data key width height in
  (forall pt, In pt points -> num_le $0 (px pt) /\ num_le (px pt) width) /\
  StronglySorted num_le (map px points) /\
  (forall pt, In pt points -> px (last points pt) = width).
Proof.
  intros Hs H0 Hlast Hw points. subst points.
  split; [intros pt; now apply scalePoints_px|].
  unfold scalePoints.
  assert (Hne : forall item, In item data -> data <> []).
  { intros item Hin ->. destruct Hin. }
  split.
  - assert (Hmono : forall a b c, In c data -> num_le (sx a) (sx b) ->
              num_le (sx a / sx (last data c) * width) (sx b / sx (last data c) * width)).
    { intros a b c Hc Hab. apply num_le_of_sub.
      replace (sx b / sx (last data c) * width - sx a / sx (last data c) * width)
        with ((sx b - sx a) / sx (last data c) * width)
        by (field; apply num_pos_neq; now apply Hlast).
      apply num_mul_nonneg; [|exact Hw].
      apply num_div_nonneg; [now apply num_sub_nonneg|now apply Hlast]. }
    rewrite map_map. cbn [px].
    assert (Hgen : forall l, incl l data -> StronglySorted num_le (map sx l) ->
              StronglySorted num_le
                (map (fun item => sx item / sx (last data item) * width) l)).
    { induction l as [|a l IH]; intros Hincl Hsl; [constructor|].
      cbn [map] in *. inversion Hsl as [|? ? Hs' Ha]; subst.
      constructor; [apply IH; [intros z Hz; apply Hincl; now right|exact Hs']|].
      apply Forall_forall. intros y Hy. apply in_map_iff in Hy.
      destruct Hy as [b [<- Hb]].
      assert (Hbd : In b data) by (apply Hincl; now right).
      assert (Had : In a data) by (apply Hincl; now left).
      rewrite (@last_indep _ data b a (Hne a Had)). apply Hmono; [exact Had|].
      rewrite Forall_forall in Ha. apply Ha. now apply in_map. }
    apply Hgen; [apply incl_refl|exact Hs].
  - intros pt Hpt. apply in_map_iff in Hpt. destruct Hpt as [item [_ Hin]].
    rewrite (@last_map _ _ _ data item pt (Hne item Hin)). cbn [px].
    rewrite (@last_indep _ data (last data item) item (Hne item Hin)).
    field. apply num_pos_neq. now apply Hlast.
Qed.

End DrawingExact.

(** ** The samples of a result *)

Section DiagramsExact.
Context {T : Type} {N : Number T} {E : ExactNumber T}.
Local Open Scope num_scope.

(* the samples of a result: in ascending order of x from the first node
   on, and ending on the last node, which lies after the first *)
Lemma diagrams_facts (lengthMm youngsModulusMpa inertiaMm4 : T) supports pointLoads udls
    (nodes : list (@Node T)) reactionTable diagrams :
  analysis lengthMm youngsModulusMpa inertiaMm4 supports pointLoads udls =
    AnalysisResult nodes reactionTable diagrams ->
  StronglySorted num_le (map sx diagrams) /\
  (forall s, In s diagrams -> num_le $0 (sx s)) /\
  (forall s, In s diagrams ->
     sx (last diagrams s) = x (nodeAt nodes (length nodes - 1)) /\
     num_lt $0 (sx (last diagrams s))).
Proof.
  intros H. destruct (analysis_result _ _ _ _ _ _ H) as [Hnodes [fd [_ [_ Hd]]]].
  cbv zeta in Hd.
  set (sys := assembleSystem nodes youngsModulusMpa inertiaMm4 pointLoads udls) in *.
  set (u := expandDisplacements _ _ fd) in Hd.
  assert (Hsorted : StronglySorted num_lt (map x nodes)).
  { rewrite Hnodes. apply buildNodes_sorted. }
  destruct (assembleSystem_facts nodes youngsModulusMpa inertiaMm4 pointLoads udls)
    as [Hel _]. fold sys in Hel.
  assert (Hidx : Forall (fun i => (i + 1 < length nodes)%nat) (seq 0 (length nodes - 1))).
  { apply Forall_forall. intros i Hi. apply in_seq in Hi. lia. }
  rewrite Hel, computeDiagrams_elementsOf in Hd.
  rewrite (@elementsOf_all T N E nodes Hsorted _ _ _ Hidx) in Hd.
  set (EI := youngsModulusMpa * inertiaMm4) in *.
  destruct (Nat.le_gt_cases (length nodes) 1) as [Hn|Hn].
  { assert (Hz : (length nodes - 1 = 0)%nat) by lia. rewrite Hz in Hd. cbn in Hd. subst diagrams.
    split; [constructor|]. split; intros s []. }
  assert (H0 : num_le $0 (x (nodeAt nodes 0))).
  { apply (@buildNodes_in_range T N E lengthMm supports pointLoads udls).
    rewrite <- Hnodes. apply nodeAt_In. lia. }
  destruct (@diagrams_sorted T N E nodes Hsorted u EI udls 0 (length nodes - 1)) as [Hs Hlo];
    [lia|]. cbv zeta in Hs, Hlo. rewrite <- Hd in Hs, Hlo.
  split; [exact Hs|]. split.
  { intros s Hs'. apply (num_le_trans H0). apply Hlo. now apply in_map. }
  intros s Hin.
  assert (Hlast : sx (last diagrams s) = x (nodeAt nodes (length nodes - 1))).
  { rewrite Hd. replace (length nodes - 1)%nat with (S (length nodes - 2)) at 1 by lia.
    rewrite (seq_S (length nodes - 2) 0), map_app, flat_map_app. cbn [map flat_map Nat.add]. rewrite app_nil_r.
    rewrite last_app_r.
    - rewrite (@last_map _ _ _ (seq 0 41) 40%nat s) by discriminate.
      change (last (seq 0 41) 40%nat) with 40%nat.
      cbn [sampleOf elementOf index length_ sx]. rewrite local_x_40.
      rewrite span_end. f_equal. f_equal. lia.
    - intros Hnil. apply (f_equal (@length _)) in Hnil.
      rewrite length_map, length_seq in Hnil. discriminate. }
  split; [exact Hlast|]. rewrite Hlast.
  apply (num_le_lt_trans H0). apply (nodeAt_lt nodes Hsorted). lia.
Qed.

End DiagramsExact.

(** ** The polylines of the component *)

Section PolylineExact.
Context {T : Type} {N : Number T} {E : ExactNumber T}.
Local Open Scope num_scope.

(** X20. In exact arithmetic every point of the shear, moment and deflection
    polylines lies inside the 600 x 140 drawing area, whatever the inputs
    of the analysis are: its x is between 0 and 600 and its y between 0
    and 140.  When the analysis fails there is no point at all. *)
Theorem polyline_in_viewBox (lengthMm youngsModulusMpa inertiaMm4 : T)
    (supports : list Support) (pointLoads : list PointLoad) (udls : list Udl)
    (key : SampleKey) :
  let result := analysis lengthMm youngsModulusMpa inertiaMm4 supports pointLoads udls in
  Forall (fun pt => (num_le $0 (px pt) /\ num_le (px pt) $600) /\
                    (num_le $0 (py pt) /\ num_le (py pt) $140))
         (polylinePoints key result) /\
  (forall message, result = AnalysisError message -> polylinePoints key result = []).
Proof.
  intros result. split; [|intros message ->; reflexivity].
  assert (H600 : num_le $0 ($600 : T)) by (apply num_le_iff; left; apply fromZ_pos).
  assert (H140 : num_le $0 ($140 : T)) by (apply num_le_iff; left; apply fromZ_pos).
  destruct result as [nodes table diagrams|message] eqn:Hres; [|constructor].
  unfold polylinePoints. destruct diagrams as [|s0 rest] eqn:Hd; [constructor|].
  rewrite <- Hd in *. clear Hd.
  destruct (diagrams_facts _ _ _ _ _ _ Hres) as [Hs [H0 Hlast]].
  apply Forall_forall. intros pt Hpt. split.
  - apply (@scalePoints_px T N E diagrams key $600 $140 pt Hs H0); [|exact H600|exact Hpt].
    intros item Hin. now apply Hlast.
  - now apply (@scalePoints_py T N E diagrams key $600 $140 pt).
Qed.

End PolylineExact.

(** * Further instances *)

Section BeamInstances.
Local Open Scope num_scope.

(* the default beam of the component is analysed, in exact arithmetic *)
Lemma default_beam_analysed :
  let result := analysis (T:=Qc) DEFAULT_LENGTH DEFAULT_MODULUS DEFAULT_INERTIA
                  DEFAULT_SUPPORTS DEFAULT_POINT_LOADS DEFAULT_UDLS in
  result = AnalysisResult (nodesOf result) (reactionTableOfResult result) (diagramsOf result).
Proof. vm_compute. reflexivity. Qed.

Lemma solveLinearSystem_sound_witness :
  exists x, solveLinearSystem (T:=Qc) [[$2; $1]; [$1; $3]] [$3; $5] = Some x /\
    forall i, (i < 2)%nat -> dot (row [[$2; $1]; [$1; $3]] i) x = get [$3; $5] i.
Proof.
  destruct (solveLinearSystem (T:=Qc) [[$2; $1]; [$1; $3]] [$3; $5]) as [x|] eqn:Hx;
    [|vm_compute in Hx; discriminate].
  exists x. split; [reflexivity|].
  refine (proj1 (proj2 (@solveLinearSystem_sound Qc _ Qc_Exact
                          [[$2; $1]; [$1; $3]] [$3; $5] x _ Hx))).
  split; [reflexivity|]. intros [|[|i]] Hi; [reflexivity|reflexivity|cbn in Hi; lia].
Defined.

Lemma vertical_equilibrium_witness :
  let result := analysis (T:=Qc) DEFAULT_LENGTH DEFAULT_MODULUS DEFAULT_INERTIA
                  DEFAULT_SUPPORTS DEFAULT_POINT_LOADS DEFAULT_UDLS in
  sumVerticalKn (reactionTableOfResult result) = appliedLoadKn DEFAULT_POINT_LOADS DEFAULT_UDLS.
Proof.
  intros result.
  apply (@vertical_equilibrium Qc _ Qc_Exact _ _ _ _ _ _ _ _ _ default_beam_analysed).
  - repeat constructor.
  - repeat constructor.
Defined.

Lemma pinned_supports_carry_no_moment_witness :
  let result := analysis (T:=Qc) DEFAULT_LENGTH DEFAULT_MODULUS DEFAULT_INERTIA
                  DEFAULT_SUPPORTS DEFAULT_POINT_LOADS DEFAULT_UDLS in
  Forall (fun r => r_type r <> free /\ (r_type r = pinned -> r_momentKnM r = $0))
         (reactionTableOfResult result).
Proof.
  intros result.
  exact (@pinned_supports_carry_no_moment Qc _ Qc_Exact _ _ _ _ _ _ _ _ _
           default_beam_analysed).
Defined.

Lemma deflection_at_nodes_witness :
  let result := analysis (T:=Qc) DEFAULT_LENGTH DEFAULT_MODULUS DEFAULT_INERTIA
                  DEFAULT_SUPPORTS DEFAULT_POINT_LOADS DEFAULT_UDLS in
  exists first last,
    nth_error (diagramsOf result) 0 = Some first /\
    nth_error (diagramsOf result) 40 = Some last /\
    sx first = x (nodeAt (nodesOf result) 0) /\ sx last = x (nodeAt (nodesOf result) 1).
Proof.
  intros result.
  destruct (@deflection_at_nodes Qc _ Qc_Exact _ _ _ _ _ _ _ _ _
              default_beam_analysed 0%nat) as [first [last [H0 [H40 [Hx0 [Hx40 _]]]]]].
  - vm_compute. repeat constructor.
  - exists first, last. repeat split; assumption.
Defined.

Lemma diagrams_span_the_beam_witness :
  let result := analysis (T:=Qc) DEFAULT_LENGTH DEFAULT_MODULUS DEFAULT_INERTIA
                  DEFAULT_SUPPORTS DEFAULT_POINT_LOADS DEFAULT_UDLS in
  x (nodeAt (nodesOf result) 0) = $0 /\
  x (nodeAt (nodesOf result) (length (nodesOf result) - 1)) = DEFAULT_LENGTH.
Proof.
  intros result.
  destruct (@diagrams_span_the_beam Qc _ Qc_Exact _ _ _ _ _ _ _ _ _
              default_beam_analysed) as [_ [H0 [HL _]]].
  - vm_compute. reflexivity.
  - split; assumption.
Defined.

Lemma negative_length_gives_empty_result_witness :
  analysis (T:=Qc) (- $1) DEFAULT_MODULUS DEFAULT_INERTIA
    DEFAULT_SUPPORTS DEFAULT_POINT_LOADS DEFAULT_UDLS = AnalysisResult [] [] [].
Proof.
  apply (@negative_length_gives_empty_result Qc _ Qc_Exact). vm_compute. reflexivity.
Defined.

(* on binary64: the default beam with its point load of 8 kN and of 16 kN *)
Lemma verdict_depends_on_geometry_only_witness :
  analysis (T:=float) DEFAULT_LENGTH DEFAULT_MODULUS DEFAULT_INERTIA DEFAULT_SUPPORTS
    DEFAULT_POINT_LOADS DEFAULT_UDLS = AnalysisError unstableMessage <->
  analysis (T:=float) DEFAULT_LENGTH DEFAULT_MODULUS DEFAULT_INERTIA DEFAULT_SUPPORTS
    [ {| p_id := 1; p_positionMm := $1500; p_magnitudeKn := $16 |} ] DEFAULT_UDLS =
    AnalysisError unstableMessage.
Proof.
  refine (proj1 (@verdict_depends_on_geometry_only float _ DEFAULT_LENGTH DEFAULT_MODULUS
                   DEFAULT_INERTIA DEFAULT_SUPPORTS DEFAULT_POINT_LOADS
                   [ {| p_id := 1; p_positionMm := $1500; p_magnitudeKn := $16 |} ]
                   DEFAULT_UDLS DEFAULT_UDLS _ _)); reflexivity.
Defined.

Lemma loads_times_factor_witness :
  let result := analysis (T:=Qc) DEFAULT_LENGTH DEFAULT_MODULUS DEFAULT_INERTIA
                  DEFAULT_SUPPORTS DEFAULT_POINT_LOADS DEFAULT_UDLS in
  analysis (T:=Qc) DEFAULT_LENGTH DEFAULT_MODULUS DEFAULT_INERTIA DEFAULT_SUPPORTS
    (timesPointLoads $2 DEFAULT_POINT_LOADS) (timesUdls $2 DEFAULT_UDLS) =
  AnalysisResult (nodesOf result) (map (timesReaction $2) (reactionTableOfResult result))
    (map (timesSample $2) (diagramsOf result)).
Proof.
  intros result.
  exact (@loads_times_factor Qc _ Qc_Exact $2 _ _ _ _ _ _ _ _ _ default_beam_analysed).
Defined.

(* three samples with shear 5, -3 and 1, drawn 140 high and 600 wide *)
Lemma scalePoints_y_range_witness :
  Forall (fun pt => num_le $0 (py pt) /\ num_le (py pt) $140)
    (scalePoints (T:=Qc)
       [ {| sx := $0; shear := $5; moment := $0; deflection := $0 |};
         {| sx := $1500; shear := - $3; moment := $0; deflection := $0 |};
         {| sx := $3000; shear := $1; moment := $0; deflection := $0 |} ]
       KeyShear $600 $140).
Proof.
  apply Forall_forall.
  refine (proj1 (proj2 (@scalePoints_y_range Qc _ Qc_Exact _ KeyShear $600 $140 _))).
  vm_compute. reflexivity.
Defined.

Lemma scalePoints_x_range_witness :
  StronglySorted num_le
    (map px (scalePoints (T:=Qc)
       [ {| sx := $0; shear := $5; moment := $0; deflection := $0 |};
         {| sx := $1500; shear := - $3; moment := $0; deflection := $0 |};
         {| sx := $3000; shear := $1; moment := $0; deflection := $0 |} ]
       KeyShear $600 $140)).
Proof.
  refine (proj1 (proj2 (@scalePoints_x_range Qc _ Qc_Exact _ KeyShear $600 $140 _ _ _ _))).
  - repeat constructor.
  - intros item [<-|[<-|[<-|[]]]]; vm_compute; reflexivity.
  - intros item [<-|[<-|[<-|[]]]]; vm_compute; reflexivity.
  - vm_compute. reflexivity.
Defined.

(* a point load 5 mm before the start of the default beam *)
Lemma entries_off_the_beam_are_ignored_witness :
  analysis (T:=Qc) DEFAULT_LENGTH DEFAULT_MODULUS DEFAULT_INERTIA DEFAULT_SUPPORTS
    (DEFAULT_POINT_LOADS ++
       {| p_id := 2; p_positionMm := - $5; p_magnitudeKn := $8 |} :: []) DEFAULT_UDLS =
  analysis (T:=Qc) DEFAULT_LENGTH DEFAULT_MODULUS DEFAULT_INERTIA DEFAULT_SUPPORTS
    (DEFAULT_POINT_LOADS ++ []) DEFAULT_UDLS.
Proof.
  apply (proj1 (proj2 (@entries_off_the_beam_are_ignored Qc _ Qc_Exact
                         DEFAULT_LENGTH DEFAULT_MODULUS DEFAULT_INERTIA))).
  left. vm_compute. reflexivity.
Defined.

(* a fixed support at the right end of the default beam, behind the pinned one *)
Lemma support_behind_another_is_ignored_witness :
  analysis (T:=Qc) DEFAULT_LENGTH DEFAULT_MODULUS DEFAULT_INERTIA
    (DEFAULT_SUPPORTS ++ {| s_id := 3; s_positionMm := $3000; s_type := fixed |} :: [])
    DEFAULT_POINT_LOADS DEFAULT_UDLS =
  analysis (T:=Qc) DEFAULT_LENGTH DEFAULT_MODULUS DEFAULT_INERTIA
    (DEFAULT_SUPPORTS ++ []) DEFAULT_POINT_LOADS DEFAULT_UDLS.
Proof.
  apply (proj1 (@support_behind_another_is_ignored Qc _ Qc_Exact
                  DEFAULT_LENGTH DEFAULT_MODULUS DEFAULT_INERTIA
                  DEFAULT_POINT_LOADS DEFAULT_UDLS)).
  exists {| s_id := 2; s_positionMm := $3000; s_type := pinned |}.
  split; [right; left; reflexivity|reflexivity].
Defined.

Lemma polyline_in_viewBox_witness :
  Forall (fun pt => (num_le $0 (px pt) /\ num_le (px pt) $600) /\
                    (num_le $0 (py pt) /\ num_le (py pt) $140))
    (polylinePoints KeyShear
       (analysis (T:=Qc) DEFAULT_LENGTH DEFAULT_MODULUS DEFAULT_INERTIA
          DEFAULT_SUPPORTS DEFAULT_POINT_LOADS DEFAULT_UDLS)).
Proof.
  exact (proj1 (@polyline_in_viewBox Qc _ Qc_Exact DEFAULT_LENGTH DEFAULT_MODULUS
                  DEFAULT_INERTIA DEFAULT_SUPPORTS DEFAULT_POINT_LOADS DEFAULT_UDLS KeyShear)).
Defined.

Lemma moment_equilibrium_witness :
  let result := analysis (T:=Qc) DEFAULT_LENGTH DEFAULT_MODULUS DEFAULT_INERTIA
                  DEFAULT_SUPPORTS DEFAULT_POINT_LOADS DEFAULT_UDLS in
  sumMomentKnM (reactionTableOfResult result) =
  appliedMomentKnM DEFAULT_POINT_LOADS DEFAULT_UDLS.
Proof.
  intros result.
  apply (@moment_equilibrium Qc _ Qc_Exact _ _ _ _ _ _ _ _ _ default_beam_analysed).
  - repeat constructor.
  - repeat constructor.
Defined.

Lemma reaction_rows_are_the_supports_witness :
  let result := analysis (T:=Qc) DEFAULT_LENGTH DEFAULT_MODULUS DEFAULT_INERTIA
                  DEFAULT_SUPPORTS DEFAULT_POINT_LOADS DEFAULT_UDLS in
  StronglySorted num_lt (map r_positionMm (reactionTableOfResult result)).
Proof.
  intros result.
  exact (proj1 (@reaction_rows_are_the_supports Qc _ Qc_Exact _ _ _ _ _ _ _ _ _
                  default_beam_analysed)).
Defined.

End BeamInstances.

